(* ===== verification/_CoqProject ===== *)
-Q . S2P
Prelude.v
Graph.v
PQueue.v
Trailblazer.v
SearchSoundness.v
SearchTermination.v
SearchOptimality.v
BreadthFirst.v
AlternativeRoute.v
PatientQueueSpec.v
PatientQueueClient.v
VectorPatientQueue.v
VectorPatientQueueProofs.v
LinkedListPatientQueue.v
LinkedListPatientQueueProofs.v
PatientQueueEquiv.v
Huffman.v
HuffmanProofs.v
Memory.v
MemoryProofs.v
StanfordGrid.v
StanfordStrlib.v
Boggle.v
BoggleProofs.v
BogglePlay.v
BoggleSetup.v
BogglePlayProofs.v
Life.v
LifeProofs.v
LifeFile.v
LifeSession.v
WordLadder.v
WordLadderProofs.v
WordLadderConsole.v
Grammar.v
GrammarProofs.v
Ngrams.v
NgramsProofs.v
Fractals.v
FractalsProofs.v
