(* ===== verification/Prelude.v ===== *)
(** * A verification development for dannika/programming-abstractions

    The repository is a collection of CS106B assignments in C++.  This
    development models all eight of them and proves what they compute.

    - Route finding, [src/trailblazer/src/Trailblazer.cpp] (the subject of
      the specification): breadth-first search, Dijkstra and A* are one
      frontier/visited-set loop ([aStarHeuristic]) over a road graph; an
      alternative-route selector re-runs A* with one edge of the best route
      excluded and keeps the cheapest result that differs enough.
    - The patient queue, [src/PatientQueue/src/]: the abstract class
      [PatientQueue] with two implementations, an unsorted [Vector] and a
      linked list kept in priority order.
    - Huffman compression, [src/Huffman/src/encoding.cpp]: frequency table,
      encoding tree, code map, encoding, decoding, [compress] and
      [decompress].
    - Boggle, [src/Boggle/src/]: the class [Boggle] ([Boggle.cpp]: board
      construction, the player's word search, the computer's exhaustive
      search, scores) and the game driver [boggleplay.cpp].
    - The Game of Life, [src/Life/src/life.cpp]: reading a colony file,
      the generation step with and without wrapping, animation, random
      colonies and the console session.
    - Word ladder, [src/serafini_starter/WordLadder/src/wordladder.cpp]:
      [checkInputs], the breadth-first search [buildLadder] over a queue of
      stacks of words, and the read loop of [runWordLadder].
    - The grammar solver, [src/GrammarSolver/src/grammarsolver.cpp]:
      reading a BNF grammar file into a map, random expansion of a
      symbol, and [grammarGenerate].
    - The random writer, [src/serafini_starter/Ngrams/src/ngrams.cpp]:
      reading a text into a map from windows of [N - 1] words to their
      followers, and printing random text from it.
    - Fractals, [src/Fractals/src/fractals.cpp]: the recursive
      Sierpinski triangle and tree drawn into a [GWindow], and the
      Mandelbrot picture computed pixel by pixel.

    ** Layout (the files of _CoqProject, in dependency order)

    - [Prelude.v] (this file): the result type [res] (a value, a C++
      [throw], undefined behaviour such as reading [NULL], or a loop that ran
      out of fuel) with [let* x := m in k] in [res_scope]; the fuel-driven
      loop [iter_loop] every non-structural [while] loop is an instance of,
      with fuel monotonicity, partial correctness from an invariant,
      termination from a measure and lock-step simulation of two loops; lemmas on [foldl] for counting loops and
      for loops whose body may throw ([foldl_res_inv], [foldl_res_seq]);
      the hint databases [cs106], [cs106_rw]; [sum_with] with its [Proper]
      instance for permutations.
    - Route finding: [Graph.v] (the Stanford [RoadGraph] as a record of its
      queries, with the loader's laws as the class [WfGraph]); [PQueue.v]
      (the library [PriorityQueue]: a list sorted by priority, ties in
      insertion order); [Trailblazer.v] (one definition per C++ function);
      [SearchSoundness.v] (results are routes avoiding the excluded edge);
      [SearchTermination.v] (fuel [B ^ N] suffices); [SearchOptimality.v]
      (Dijkstra, and A* with a consistent heuristic, return cheapest routes;
      they agree on the cost); [BreadthFirst.v] (breadth-first search
      runs in lock step with Dijkstra on unit road costs, through the
      simulation lemma [iter_loop_sim], so it returns a route with the
      fewest roads); [AlternativeRoute.v] ([pathDifference] in
      [0, 1] and the selector's choice).
    - Patient queue: [PatientQueueSpec.v] (the interface as the typeclass
      [PatientQueue], its contract as the class [PatientQueueLaws] over the
      patients in arrival order); [PatientQueueClient.v] ([run_ops], a
      client proved against the contract only); [VectorPatientQueue.v] and
      [LinkedListPatientQueue.v] (one definition per method, instances of the
      interface); their [...Proofs.v] (each branch of each method, the
      instances of [PatientQueueLaws]); [PatientQueueEquiv.v] (the two
      classes are indistinguishable on every admissible call sequence, and
      the two sequences on which they differ).
    - Huffman: [PQueue.v] also holds the library [Map<int, V>] (a list
      sorted by key); [Huffman.v] (one definition per function); [HuffmanProofs.v]
      (counts, the tree and its well-formed shape, a prefix-free code, the
      round trip, the non-terminating decompression of a one-character
      header, and that no [int] count overflows below [INT_MAX] bytes).
    - Memory: [Memory.v] (a heap [gmap nat V] of objects, pointers as
      [option nat]; [delete] and dereference with their undefined cases;
      [buildEncodingTree] allocating its nodes, [buildEncodingMap] and
      [decodeData] walking the pointers, [freeTree], [compress] and
      [decompress] running them all, and the [LinkedListPatientQueue]
      destructor with the loop of [clear]); [MemoryProofs.v] (the heap
      [buildEncodingTree] runs in lock step with [Huffman.v]'s and stores
      its tree on fresh locations; the pointer walks compute the tree
      model's results; [compress] and [decompress] on the heap compute
      what [Huffman.v] computes and give back the heap there was before
      them; [freeTree] and the
      destructor delete exactly the nodes of a tree or chain at distinct
      locations, each once; a node whose children are one leaf makes
      [freeTree] read freed memory).
    - Boggle: [StanfordGrid.v] and [StanfordStrlib.v] (the library [Grid],
      case conversion and [Lexicon]); [Boggle.v] (the object as a record,
      one definition per method in [Module BoggleGame]); [BoggleProofs.v]
      (the player's search decides exactly the words a path spells; the
      computer's search ends and claims only valid words, each with its
      points; it never records a word spelled through all sixteen
      cubes, which the player's search accepts); [BogglePlay.v] (the game of
      [boggleplay.cpp], the user's answers as lists of lines, and in
      [Module BoggleConsole] the same game with what it writes to [cout]);
      [BoggleSetup.v] (the boards the constructor builds, the range error
      of an overlong typed board, the unset [numCompFound]);
      [BogglePlayProofs.v] (a whole game: disjoint word sets, each score the
      sum over its words; the output ends with the computer's report and
      the message naming the winner by the two sums; each guess
      prints the message of its situation; a typed board is printed back).  [StanfordStrlib.v] also models
      [stringToInteger] and [integerToString] and proves that the first
      reads back what the second writes.
    - Life: [Life.v] (one definition per function, [Module Life]);
      [LifeProofs.v] ([getNextGeneration] is Conway's rule cell by cell,
      on a bounded grid or a torus); [LifeFile.v] ([readFile] reads back
      what [displayGrid] prints, and throws on a line wider than the
      grid); [LifeSession.v] (the next generation as a pure function
      [conway]; [animateGenerations] and the menu loop of [main] compute
      it as many times as the commands ask for).
    - Word ladder: [WordLadder.v] (the queue of stacks as a list of lists,
      top first; [Lexicon::add], [Stack::peek], the two [for] loops as a
      [foldl] of [ladder_visit] over [changes]); [WordLadderProofs.v] (the
      invariant of breadth-first search [bfs_inv]; [buildLadder] returns a
      shortest ladder, or [None] only when no ladder exists; the read loop
      answers each accepted pair that way); [WordLadderConsole.v] (what
      [main] prints: the pieces written to [cout], with the messages of
      [checkInputs], [printLadder] and the prompts; a session prints a
      shortest ladder from the second word back to the first).
    - Grammar solver: [StanfordStrlib.v] also holds the library's
      [stringSplit], range-checked [Vector] access, and [randomInteger]
      drawing from an arbitrary generator [rng]; [Grammar.v] (one definition per
      function, [Module GrammarSolver]); [GrammarProofs.v] (the outputs of
      [randomGeneration] over all draws are exactly the derivations of the
      grammar; [grammarGenerate] returns [times] of them; [readFile] reads
      BNF lines back into their map, rejects a repeated non-terminal, and
      aborts on a line without [::=]).
    - N-grams: [Ngrams.v] (the file stream [>>] with its [eof] and [fail]
      flags, the library [Map] of vectors as a key-sorted list, and one
      definition per function in [Module Ngrams]); [NgramsProofs.v] (the
      n-gram table of a text; with [N = 3] [readFile] builds it and
      [runNGrams] prints the requested words without error; the windows
      are wrong for [N = 2] and for every [N >= 4] (the second window
      loses a word), and later requests re-read an
      exhausted stream).
    - Fractals: [StanfordGrid.v] also holds [row_major] (the two nested
      [for] loops over a grid) and [grid_fold_cells], the loop that writes
      each cell once, shared by Life and the Mandelbrot picture;
      [Fractals.v] (the window as its canvas and the list of commands
      drawn, [Complex] as pairs of rationals, one definition per function
      in [Module Fractals]); [FractalsProofs.v] (the Sierpinski triangle
      of order [n] is [3 ^ n] lines inside its box; the tree's line and
      colour counts and its input check; the escape-time count; every
      pixel of the Mandelbrot picture, with no write out of range).

    ** Modelling conventions

    - Node and edge identity ([RoadNode*], [RoadEdge*]) is a [nat]; [NULL]
      edges are [None].  Edge costs and priorities ([double]) are
      naturals: sums do not round.  The heuristic
      [crowFlyDistance / maxRoadSpeed] uses [Nat.div], whose truncation
      only lowers it.  [pathDifference] is an exact rational; the
      threshold [SUFFICIENT_DIFFERENCE = 0.2] is [1#5].
    - C++ [int]s are [Z]: the patient queue's sentinel [INT_MAX] is written
      out where the code uses it, as are Boggle's scores.  The Huffman
      counts are [nat]s; [compress_counts_fit_int] shows that on an input
      of fewer than [INT_MAX] bytes each of them fits in an [int], so the
      unbounded model computes what the [int] code computes.
    - A [for] loop is a [foldl] of its body (over [seq 0 n], a list of
      neighbours, or the [(r, c)] offsets); a [break] or early [return] is
      a flag the later rounds test; a [while] loop with no structural
      measure is an [iter_loop] on fuel; a pointer walk is a [Fixpoint]
      on the list of nodes, except in [Memory.v], where the nodes are
      objects of a heap and a pointer is a location or [NULL].
    - Objects are records; a method takes the record and returns its
      results with the updated record.  Library classes outside [src/]
      (graph, priority queue, map, grid, lexicon, strlib) are modelled from
      their documented behaviour.
    - Fractal coordinates, sizes and angles ([double]) are exact rationals
      [Q]; [sqrt(3.0)] and the end point of [drawPolarLine] are
      parameters, since the theorems hold whatever their values (the
      triangle's box only needs [sqrt3 >= 0]).  [z.abs() > 4] is the
      same test as [re^2 + im^2 > 16].
    - Input is an argument: [getLine] answers are lists of lines, random
      shuffles the shuffled list.  When the lines run out, the loops that
      read them end in [OutOfFuel] (the program would wait for input).

    ** Fuel, and why it is enough

    - Route searches: [B ^ N] rounds ([N] nodes, [B] one more than the
      largest out-degree), because the frontier only holds simple paths
      ([SearchTermination.v]).
    - [buildEncodingTree]: more rounds than entries in the table; each
      round merges two trees.  [freeTree] and the pointer walks of
      [Memory.v]: more calls deep than the tree's depth, which is below
      the fuel [buildEncodingTree] returned with
      ([buildEncodingTree_depth]), so [compress] and [decompress] on the
      heap need no more fuel than the tree model.  The loop of [clear]: one round per node, plus the
      test that ends it.  [decompress]: more rounds than characters
      in the input, plus one for [PSEUDO_EOF].
    - [compSearchHelper]: 17 levels of recursion, since each level marks one
      more of the 16 cubes visited ([compSearchHelper_spec]).
    - [buildLadder]: the lexicon's size plus two rounds: each round
      dequeues one ladder and enqueues one per word it marks used, so
      unused lexicon words plus queued ladders decrease.
    - [randomGeneration]: the fuel bounds the depth of recursion; a
      grammar may recurse forever ([<a>::=<a>]), so no bound is enough in
      general; every derivation of depth [d] is produced with fuel [d]
      ([derives_generated]).
    - The loops of the n-gram [readFile] and [runNGrams]: more rounds
      than words in the text (each round reads one), and two rounds for
      one request and the final [0].
    - [mandelbrotSetIterations]: [maxIterations + 1] calls when
      [maxIterations >= 0], since each call lowers the count by one and
      the count [0] stops.  From a negative count no fuel is enough at a
      point of the set ([mandelbrotSetIterations_negative_diverges]).

    ** Not modelled

    - GUI and console output: node colouring, [BoggleGUI], [clearConsole],
      and [cout] outside the word ladder and Boggle (the introductions of
      Life and of the n-gram writer), which do not change the program's
      state.  The patient queues' [toString], Life's [displayGrid], the
      word ladder's console and Boggle's console are modelled; the
      library [Set<string>] prints its words in ascending order.
    - Stream repositioning ([rewindStream]), and the memory of the classes
      whose destructors the compiler generates (the [Vector] queue, the
      Stanford containers): only [freeTree] and the linked list's
      destructor release memory by hand.
    - [printIntro] of Life, and the waits and screen clearing of its
      animation.
    - Opening files by name ([promptUserForFile], the dictionary file).
    - The fractal GUI ([fractalgui.cpp], not under [src/]) and the pixels
      of the drawn lines: a window is the list of commands it was given.
      The colour [drawTree] sets before it throws is lost with the
      window, since a [Throw] carries only the message. *)

From stdpp Require Export base list gmap sets strings.
From Stdlib Require Export ZArith Lia.

Create HintDb cs106.
#[export] Hint Constants Transparent : cs106.
Create Rewrite HintDb cs106_rw.

(** ** Results of a C++ computation *)

(** A computation returns a value, throws (a C++ [throw] or a Stanford
    library [error()]), reaches undefined behaviour (a null dereference),
    or, for a loop run on a bounded fuel, runs out of fuel. *)
Inductive res (A : Type) : Type :=
| Ret (a : A)
| Throw (msg : string)
| Undef (what : string)
| OutOfFuel.
Arguments Ret {A} a.
Arguments Throw {A} msg.
Arguments Undef {A} what.
Arguments OutOfFuel {A}.

Definition res_bind {A B} (m : res A) (k : A -> res B) : res B :=
  match m with
  | Ret a => k a
  | Throw msg => Throw msg
  | Undef w => Undef w
  | OutOfFuel => OutOfFuel
  end.

Declare Scope res_scope.
Delimit Scope res_scope with res.
Notation "'let*' x := m 'in' k" := (res_bind m (fun x => k))
  (at level 10, x name, m at level 100, k at level 200) : res_scope.
Notation "'throw' msg" := (Throw msg) (at level 10) : res_scope.

(** The range of a C++ [int]. *)
Definition INT_MIN : Z := -2147483648.
Definition INT_MAX : Z := 2147483647.

(** A result "completed": anything but running out of fuel. *)
Definition completed {A} (r : res A) : bool :=
  match r with OutOfFuel => false | _ => true end.

Lemma res_bind_Ret {A B} (m : res A) (k : A -> res B) b :
  res_bind m k = Ret b -> exists a, m = Ret a /\ k a = Ret b.
Proof. destruct m; simpl; intros H; try discriminate. eauto. Qed.

Lemma res_bind_assoc {A B C} (m : res A) (k : A -> res B) (k' : B -> res C) :
  res_bind (res_bind m k) k' = res_bind m (fun a => res_bind (k a) k').
Proof. by destruct m. Qed.

Lemma res_bind_Ret_r {A} (m : res A) : res_bind m Ret = m.
Proof. by destruct m. Qed.

(** ** Loops on fuel *)

Section Loop.
Context {St R : Type}.
(** One iteration of a [while] loop: continue with a new state ([inl]),
    or leave the loop with a result ([inr]). *)
Variable step : St -> St + res R.

Fixpoint iter_loop (fuel : nat) (s : St) : res R :=
  match fuel with
  | O => OutOfFuel
  | S fuel' =>
      match step s with
      | inl s' => iter_loop fuel' s'
      | inr r => r
      end
  end.

Lemma iter_loop_S fuel s :
  iter_loop (S fuel) s =
    match step s with inl s' => iter_loop fuel s' | inr r => r end.
Proof. reflexivity. Qed.

(** More fuel never changes a result that was reached. *)
Lemma iter_loop_mono n m s :
  n <= m -> completed (iter_loop n s) = true ->
  iter_loop m s = iter_loop n s.
Proof.
  revert m s. induction n as [|n IH]; intros m s Hle Hc; [discriminate|].
  destruct m as [|m]; [lia|]. simpl in *.
  destruct (step s) as [s'|r]; [apply IH; [lia|exact Hc]|reflexivity].
Qed.

Section Invariant.
Variable P : St -> Prop.
Variable Q : res R -> Prop.
Hypothesis step_inv : forall s s', P s -> step s = inl s' -> P s'.
Hypothesis step_exit : forall s r, P s -> step s = inr r -> Q r.

(** Partial correctness: a loop that leaves does so with [Q]. *)
Lemma iter_loop_inv fuel s :
  P s -> completed (iter_loop fuel s) = true -> Q (iter_loop fuel s).
Proof.
  revert s. induction fuel as [|fuel IH]; intros s Hs Hc; [discriminate|].
  simpl in *. destruct (step s) as [s'|r] eqn:E; eauto.
Qed.

(** Termination: a measure that decreases on every iteration bounds
    the fuel the loop needs. *)
Variable measure : St -> nat.
Hypothesis step_decr :
  forall s s', P s -> step s = inl s' -> measure s' < measure s.

Hypothesis step_exit_completed :
  forall s r, P s -> step s = inr r -> completed r = true.

Lemma iter_loop_terminates fuel s :
  P s -> measure s < fuel -> completed (iter_loop fuel s) = true.
Proof.
  revert s. induction fuel as [|fuel IH]; intros s Hs Hlt; [lia|].
  simpl. destruct (step s) as [s'|r] eqn:E; [|eauto].
  apply IH; [eauto|]. specialize (step_decr s s' Hs E). lia.
Qed.
End Invariant.
End Loop.

(** Lock-step simulation: two loops whose states are related by [rel],
    and whose steps from related states both continue in related states
    or both leave with related results, compute related results on the
    same fuel. *)
Lemma iter_loop_sim_res {S1 S2 R1 R2} (step1 : S1 -> S1 + res R1) (step2 : S2 -> S2 + res R2)
    (rel : S1 -> S2 -> Prop) (rr : res R1 -> res R2 -> Prop) :
  rr OutOfFuel OutOfFuel ->
  (forall s t, rel s t ->
     (exists s' t', step1 s = inl s' /\ step2 t = inl t' /\ rel s' t') \/
     (exists r1 r2, step1 s = inr r1 /\ step2 t = inr r2 /\ rr r1 r2)) ->
  forall fuel s t, rel s t -> rr (iter_loop step1 fuel s) (iter_loop step2 fuel t).
Proof.
  intros Hoof Hstep fuel. induction fuel as [|fuel IH]; intros s t Hst; [done|].
  rewrite !iter_loop_S. destruct (Hstep s t Hst) as [(s' & t' & -> & -> & H')|(r1 & r2 & -> & -> & Hr)]; eauto.
Qed.

(** The same loops with the same results. *)
Lemma iter_loop_sim {S1 S2 R} (step1 : S1 -> S1 + res R) (step2 : S2 -> S2 + res R)
    (rel : S1 -> S2 -> Prop) :
  (forall s t, rel s t ->
     (exists s' t', step1 s = inl s' /\ step2 t = inl t' /\ rel s' t') \/
     (exists r, step1 s = inr r /\ step2 t = inr r)) ->
  forall fuel s t, rel s t -> iter_loop step1 fuel s = iter_loop step2 fuel t.
Proof.
  intros Hstep. apply (iter_loop_sim_res _ _ rel eq); [done|].
  intros s t Hst. destruct (Hstep s t Hst) as [H|(r & H1 & H2)]; [by left|right; eauto].
Qed.

(** ** Loops that add entries to a container *)

(** A [for] loop whose body either leaves the container unchanged or adds
    one entry built from the current element: after the loop the container
    is a permutation of the added entries followed by the old ones, with at
    most one entry per element. *)
Lemma foldl_adds {A B} (f : list A -> B -> list A) (P : B -> A -> Prop)
    (ns : list B) (l : list A) :
  (forall acc n, f acc n = acc \/ exists a, P n a /\ f acc n ≡ₚ a :: acc) ->
  exists added, foldl f l ns ≡ₚ added ++ l /\ length added <= length ns /\
    forall a, a ∈ added -> exists n, n ∈ ns /\ P n a.
Proof.
  intros Hf. revert l. induction ns as [|n ns IH]; intros l; simpl.
  - exists []. split_and!; [done|simpl; lia|set_solver].
  - destruct (IH (f l n)) as (added & Hperm & Hlen & Hin).
    destruct (Hf l n) as [Heq | (a & Ha & Hp)].
    + exists added. rewrite Heq in Hperm |- *. split; [exact Hperm|split; [lia|]].
      intros b Hb. destruct (Hin b Hb) as (m & ? & ?). exists m. set_solver.
    + exists (added ++ [a]). split_and!.
      * rewrite Hperm, Hp, <-app_assoc. done.
      * rewrite length_app; simpl; lia.
      * intros b [Hb|Hb%list_elem_of_singleton]%elem_of_app.
        -- destruct (Hin b Hb) as (m & ? & ?). exists m. set_solver.
        -- subst. exists n. set_solver.
Qed.

(** A loop body that never removes an entry keeps every old entry, and
    keeps the entry it adds for an element. *)
Lemma foldl_keeps {A B} (f : list A -> B -> list A) (ns : list B) (l : list A) x :
  (forall acc n y, y ∈ acc -> y ∈ f acc n) -> x ∈ l -> x ∈ foldl f l ns.
Proof.
  intros Hk. revert l. induction ns as [|n ns IH]; intros l Hx; simpl; [done|].
  apply IH, Hk, Hx.
Qed.

Lemma foldl_gets {A B} (f : list A -> B -> list A) (ns : list B) (l : list A) n a :
  (forall acc n y, y ∈ acc -> y ∈ f acc n) -> (forall acc, a ∈ f acc n) ->
  n ∈ ns -> a ∈ foldl f l ns.
Proof.
  intros Hk Ha. revert l. induction ns as [|m ns IH]; intros l Hn;
    [by apply elem_of_nil in Hn|simpl].
  apply elem_of_cons in Hn as [->|Hn]; [|by apply IH].
  apply foldl_keeps; [exact Hk|apply Ha].
Qed.

(** A counting loop [for (int i = 0; i < n; i++)] is a [foldl] of its body
    over [seq 0 n]; an invariant indexed by the number of rounds done
    holds at its end. *)
Lemma foldl_seq_inv {B} (f : B -> nat -> B) (P : nat -> B -> Prop) (n : nat) (b : B) :
  P 0 b -> (forall k acc, k < n -> P k acc -> P (S k) (f acc k)) ->
  P n (foldl f b (seq 0 n)).
Proof.
  intros H0 Hstep. cut (forall k acc, k <= n -> P k acc -> P n (foldl f acc (seq k (n - k)))).
  { intros Hc. replace (seq 0 n) with (seq 0 (n - 0)) by (f_equal; lia). by apply Hc; [lia|]. }
  intros k acc Hk Hp. remember (n - k) as m eqn:Hm. revert k acc Hk Hp Hm.
  induction m as [|m IH]; intros k acc Hk Hp Hm; simpl.
  - by replace n with k by lia.
  - apply (IH (S k)); [lia| apply Hstep; [lia|done] | lia].
Qed.

(** Loops whose bodies agree pointwise compute the same result. *)
Lemma foldl_ext_fun {A B} (f f' : A -> B -> A) (l : list B) (a : A) :
  (forall acc x, f acc x = f' acc x) -> foldl f a l = foldl f' a l.
Proof. intros Hf. revert a. induction l as [|x l IH]; intros a; [done|]. simpl. by rewrite Hf, IH. Qed.

(** A loop whose body may throw is a [foldl] of [let* x := acc in g x i]:
    once an exception is raised, the remaining rounds pass it on. *)
Lemma foldl_res_stuck {A B} (g : A -> B -> res A) (l : list B) (acc : res A) :
  (forall a, acc <> Ret a) ->
  foldl (fun acc i => res_bind acc (fun x => g x i)) acc l = acc.
Proof.
  revert acc. induction l as [|i l IH]; intros acc Hacc; [done|]. simpl.
  destruct acc as [a|msg|w|]; [by destruct (Hacc a)|by apply IH..].
Qed.

(** An invariant of every round holds of the result of such a loop. *)
Lemma foldl_res_inv {A B} (g : A -> B -> res A) (P : A -> Prop) (l : list B) (acc : res A) y :
  (forall x, acc = Ret x -> P x) -> (forall x i y, P x -> g x i = Ret y -> P y) ->
  foldl (fun acc i => res_bind acc (fun x => g x i)) acc l = Ret y -> P y.
Proof.
  revert acc. induction l as [|i l IH]; intros acc Hacc Hg; simpl; [by auto|].
  apply IH; [|done]. intros x Hx. destruct acc as [a| | |]; try discriminate.
  eapply Hg; [by apply Hacc|exact Hx].
Qed.

(** A counting loop whose rounds all succeed returns, with the invariant
    indexed by the number of rounds done. *)
Lemma foldl_res_seq {A} (g : A -> nat -> res A) (P : nat -> A -> Prop) n a :
  P 0 a -> (forall k x, k < n -> P k x -> exists y, g x k = Ret y /\ P (S k) y) ->
  exists y, foldl (fun acc i => res_bind acc (fun x => g x i)) (Ret a) (seq 0 n) = Ret y /\ P n y.
Proof.
  intros H0 Hstep. induction n as [|n IH]; [by exists a|].
  destruct IH as (x & Hx & HPx); [intros; apply Hstep; [lia|done]|].
  rewrite seq_S, foldl_app, Hx. simpl.
  destruct (Hstep n x ltac:(lia) HPx) as (y & Hy & HPy). exists y. by rewrite Hy.
Qed.

(** The converse reading: when such a loop returns, an invariant indexed
    by the number of rounds done holds of its result. *)
Lemma foldl_res_seq_inv {A} (g : A -> nat -> res A) (P : nat -> A -> Prop) n a y :
  P 0 a -> (forall k x z, k < n -> P k x -> g x k = Ret z -> P (S k) z) ->
  foldl (fun acc i => res_bind acc (fun x => g x i)) (Ret a) (seq 0 n) = Ret y -> P n y.
Proof.
  revert y. induction n as [|n IH]; intros y H0 Hstep; [simpl; by intros [= <-]|].
  rewrite seq_S, foldl_app. simpl.
  destruct (foldl _ (Ret a) (seq 0 n)) as [x|msg|w|] eqn:E; simpl; try discriminate.
  intros Hy. apply (Hstep n x y); [lia| |done]. apply IH; [done|intros k x0 z ? ? ?; apply (Hstep k x0 z); [lia|done..]|done].
Qed.

(** Filters that agree on the elements of a list give the same result. *)
Lemma list_filter_iff_in {A} (P1 P2 : A -> Prop) `{!forall x, Decision (P1 x), !forall x, Decision (P2 x)}
    (l : list A) :
  (forall x, x ∈ l -> (P1 x <-> P2 x)) -> filter P1 l = filter P2 l.
Proof.
  induction l as [|a l IH]; intros Hiff; [done|].
  assert (Ha : P1 a <-> P2 a) by (apply Hiff; set_solver).
  specialize (IH ltac:(intros; apply Hiff; set_solver)).
  destruct (decide (P1 a)).
  - rewrite !filter_cons_True by tauto. by rewrite IH.
  - rewrite !filter_cons_False by tauto. by rewrite IH.
Qed.

(** ** Sums of weights over a container *)

Definition sum_with {A} (w : A -> nat) (l : list A) : nat :=
  foldr (fun a acc => w a + acc) 0 l.

Lemma sum_with_app {A} (w : A -> nat) l1 l2 :
  sum_with w (l1 ++ l2) = sum_with w l1 + sum_with w l2.
Proof. induction l1 as [|a l1 IH]; simpl; [done|]. rewrite IH. lia. Qed.

(** The sum does not depend on the order of the container. *)
#[export] Instance sum_with_perm {A} (w : A -> nat) :
  Proper ((≡ₚ) ==> (=)) (sum_with w).
Proof. induction 1; simpl; lia. Qed.

Lemma sum_with_le_const {A} (w : A -> nat) (l : list A) c :
  (forall a, a ∈ l -> w a <= c) -> sum_with w l <= length l * c.
Proof.
  induction l as [|a l IH]; simpl; intros Hc; [lia|].
  assert (w a <= c) by (apply Hc; set_solver).
  assert (sum_with w l <= length l * c) by (apply IH; intros; apply Hc; set_solver).
  lia.
Qed.

#[export] Hint Rewrite @sum_with_app : cs106_rw.

(** ** Tactics *)

(** Close a decidable goal on concrete data by evaluation. *)
Ltac decide_by_eval := apply (bool_decide_unpack _); vm_compute; reflexivity.
