(* ===== verification/Graph.v ===== *)
(** * Graph.v: the road graph queried by the searches

    [Trailblazer.cpp] receives a [const RoadGraph&] (Stanford [BasicGraph]
    specialised to [RoadNode] and [RoadEdge]) and uses only the queries of
    the spec's section 6.  [RoadGraph] below is the record of those queries;
    [WfGraph] the laws a graph built by the (out-of-scope) loader obeys;
    [is_walk]/[route] the paths of the spec's data model. *)

From S2P Require Import Prelude.

(** Nodes and edges are pointers in the code; their identity is a [nat]. *)
Abbreviation Node := nat (only parsing).
Abbreviation Edge := nat (only parsing).
Abbreviation Path := (list nat) (only parsing).

Record RoadGraph := {
  nodeSet : list nat;                          (** [graph.getNodeSet()] *)
  neighborsOf : nat -> list nat;               (** [graph.neighborsOf(n)] *)
  edgeBetween : nat -> nat -> option nat;      (** [graph.edgeBetween(a, b)], [NULL] is [None] *)
  edgeCost : nat -> nat;                       (** [edge->cost()] *)
  crowFlyDistanceBetween : nat -> nat -> nat;  (** [graph.crowFlyDistanceBetween(a, b)] *)
  maxRoadSpeed : nat                           (** [graph.maxRoadSpeed()] *)
}.

(** What the graph loader guarantees: a finite node set closed under
    [neighborsOf], neighbour sets without repetition (they are [Set]s in the
    library), an edge object for every neighbour pair and none otherwise,
    distinct edge objects for distinct pairs, and a positive top speed. *)
Class WfGraph (g : RoadGraph) : Prop := {
  wf_nodes_nodup : NoDup (nodeSet g);
  wf_neighbors_in : forall a b, b ∈ neighborsOf g a -> b ∈ nodeSet g;
  wf_neighbors_nodup : forall a, NoDup (neighborsOf g a);
  wf_edge_exists : forall a b, b ∈ neighborsOf g a -> is_Some (edgeBetween g a b);
  wf_edge_neighbor : forall a b e, edgeBetween g a b = Some e -> b ∈ neighborsOf g a;
  wf_edge_inj : forall a b a' b' e,
      edgeBetween g a b = Some e -> edgeBetween g a' b' = Some e -> a = a' /\ b = b';
  wf_speed_pos : 0 < maxRoadSpeed g
}.

Section Walks.
Context (g : RoadGraph).

(** Consecutive nodes are neighbours, through an edge other than the
    excluded one ([None]: nothing excluded). *)
Fixpoint is_walk (excl : option nat) (p : list nat) : bool :=
  match p with
  | a :: ((b :: _) as rest) =>
      bool_decide (b ∈ neighborsOf g a) &&
      bool_decide (edgeBetween g a b ≠ excl) && is_walk excl rest
  | _ => true
  end.

(** A route from [s] to [t]: a walk that starts at [s] and ends at [t]. *)
Definition route (excl : option nat) (s t : nat) (p : list nat) : Prop :=
  head p = Some s /\ last p = Some t /\ is_walk excl p = true.

Definition reachable (excl : option nat) (s t : nat) : Prop :=
  exists p, route excl s t p.

Lemma is_walk_app excl p q x :
  last p = Some x ->
  is_walk excl (p ++ q) = is_walk excl p && is_walk excl (x :: q).
Proof.
  induction p as [|a [|b p] IH]; intros Hl; [discriminate| |].
  - simpl in Hl. injection Hl as <-. destruct q; reflexivity.
  - rewrite last_cons_cons in Hl. specialize (IH Hl).
    simpl in IH |- *. rewrite IH.
    destruct (bool_decide _), (bool_decide _); reflexivity.
Qed.

Lemma is_walk_snoc excl p x y :
  last p = Some x ->
  is_walk excl (p ++ [y]) =
    is_walk excl p && bool_decide (y ∈ neighborsOf g x) &&
    bool_decide (edgeBetween g x y ≠ excl).
Proof.
  intros Hl. rewrite (is_walk_app _ _ _ _ Hl). simpl.
  rewrite !andb_true_r, andb_assoc. reflexivity.
Qed.

Lemma is_walk_cons_inv excl a p :
  is_walk excl (a :: p) = true -> is_walk excl p = true.
Proof. destruct p; simpl; [done|]. intros ?%andb_prop; tauto. Qed.

End Walks.

#[export] Hint Resolve is_walk_cons_inv : cs106.

(** ** Graphs given by their arcs

    Test graphs for the witnesses: a list of arcs [(a, b, cost)], the arc
    at index [i] being the edge object [i].  This stands for the loader,
    which is not part of the modelled code. *)
Section FromArcs.
Context (arcs : list (nat * nat * nat)) (crow : nat -> nat -> nat) (speed : nat).

Definition arc_target (a : nat) (arc : nat * nat * nat) : option nat :=
  if decide (arc.1.1 = a) then Some arc.1.2 else None.

Definition graph_of_arcs : RoadGraph := {|
  nodeSet := remove_dups (arcs ≫= fun arc => [arc.1.1; arc.1.2]);
  neighborsOf a := omap (arc_target a) arcs;
  edgeBetween a b := fst <$> list_find (fun arc => arc.1 = (a, b)) arcs;
  edgeCost e := from_option snd 0 (arcs !! e);
  crowFlyDistanceBetween := crow;
  maxRoadSpeed := speed |}.

Lemma elem_of_arc_targets a b :
  b ∈ omap (arc_target a) arcs <-> exists c, (a, b, c) ∈ arcs.
Proof.
  rewrite list_elem_of_omap. unfold arc_target. split.
  - intros [[[x y] c] [Hin Ht]]. simpl in Ht.
    case_decide; simplify_eq. eauto.
  - intros [c Hin]. exists (a, b, c). simpl. by rewrite decide_True.
Qed.

Lemma NoDup_arc_targets a (l : list (nat * nat * nat)) :
  NoDup l.*1 -> NoDup (omap (arc_target a) l).
Proof.
  induction l as [|[[x y] c] l IH]; simpl; intros Hnd; [constructor|].
  apply NoDup_cons in Hnd as [Hnotin Hnd].
  unfold arc_target at 1; simpl. case_decide as Hx; [|by apply IH].
  subst x. constructor; [|by apply IH].
  rewrite list_elem_of_omap. intros [[[x' y'] c'] [Hin Ht]].
  unfold arc_target in Ht; simpl in Ht. case_decide; simplify_eq.
  apply Hnotin, list_elem_of_fmap. exists (a, y, c'). split; [done|exact Hin].
Qed.

Lemma graph_of_arcs_wf : NoDup arcs.*1 -> 0 < speed -> WfGraph graph_of_arcs.
Proof.
  intros Hnd Hspeed. split; simpl.
  - apply NoDup_remove_dups.
  - intros a b [c Hin]%elem_of_arc_targets. rewrite elem_of_remove_dups.
    apply list_elem_of_bind. exists (a, b, c). split; [set_solver|done].
  - intros a. by apply NoDup_arc_targets.
  - intros a b [c Hin]%elem_of_arc_targets.
    destruct (list_find_elem_of (fun arc : nat * nat * nat => arc.1 = (a, b)) arcs _ Hin)
      as [[i arc] Hf]; [done|].
    rewrite Hf. by eexists.
  - intros a b e Hf. apply elem_of_arc_targets.
    destruct (list_find _ arcs) as [[i [[x y] c]]|] eqn:Hfind; simplify_eq/=.
    apply list_find_Some in Hfind as (Hlook & Heq & _). simplify_eq/=.
    exists c. by eapply list_elem_of_lookup_2.
  - intros a b a' b' e H1 H2.
    destruct (list_find _ arcs) as [[i arc]|] eqn:F1 in H1; simplify_eq/=.
    destruct (list_find _ arcs) as [[j arc']|] eqn:F2 in H2; simplify_eq/=.
    apply list_find_Some in F1 as (L1 & E1 & _), F2 as (L2 & E2 & _).
    rewrite L1 in L2. simplify_eq. rewrite E1 in E2. by simplify_eq.
  - exact Hspeed.
Qed.
End FromArcs.

(** ** The graph of the spec's scenario *)

(** Nodes A, B, C, D are 0, 1, 2, 3; the roads A-B, B-C, C-D cost 1 and
    A-D costs 5, each road being two arcs. *)
Definition abcd_arcs : list (nat * nat * nat) :=
  [(0, 1, 1); (1, 0, 1); (1, 2, 1); (2, 1, 1); (2, 3, 1); (3, 2, 1); (0, 3, 5); (3, 0, 5)].

Definition abcd : RoadGraph := graph_of_arcs abcd_arcs (fun _ _ => 0) 1.

#[export] Instance abcd_wf : WfGraph abcd.
Proof. apply graph_of_arcs_wf; [decide_by_eval|lia]. Qed.
