(* ===== verification/PQueue.v ===== *)
(** * PQueue.v: the Stanford library [PriorityQueue] and [Map<int, V>]

    [aStarHeuristic] keeps its frontier in a [PriorityQueue<Path>].  The
    library class is a binary heap whose entries carry an insertion sequence
    number, so [dequeue] returns an entry of least priority and, among equal
    priorities, the earliest enqueued.  That observable behaviour is modelled
    by a list of (value, priority) pairs kept sorted by priority, a new entry
    going after every entry of priority at most its own.  The second
    part of the file models the library [Map<int, V>] of [encoding.cpp]. *)

From S2P Require Import Prelude.
From Stdlib Require Import Sorted.

Section PQueue.
Context {A : Type}.

(** [pq.enqueue(x, pri)] *)
Fixpoint pq_enqueue (x : A) (pri : nat) (q : list (A * nat)) : list (A * nat) :=
  match q with
  | [] => [(x, pri)]
  | (y, p) :: q' =>
      if p <=? pri then (y, p) :: pq_enqueue x pri q' else (x, pri) :: q
  end.

(** [pq.dequeue()] on a non-empty queue; [None] when empty. *)
Definition pq_dequeue (q : list (A * nat)) : option (A * list (A * nat)) :=
  match q with
  | [] => None
  | (x, _) :: q' => Some (x, q')
  end.

Definition prio_le (a b : A * nat) : Prop := a.2 <= b.2.

Definition pq_sorted (q : list (A * nat)) : Prop := Sorted prio_le q.

Lemma pq_enqueue_perm x pri q : pq_enqueue x pri q ≡ₚ (x, pri) :: q.
Proof.
  induction q as [|[y p] q IH]; simpl; [done|].
  destruct (p <=? pri); [|done].
  rewrite IH. by constructor.
Qed.

Lemma elem_of_pq_enqueue e x pri q :
  e ∈ pq_enqueue x pri q <-> e = (x, pri) \/ e ∈ q.
Proof. rewrite (pq_enqueue_perm x pri q). set_solver. Qed.

Lemma pq_enqueue_length x pri q : length (pq_enqueue x pri q) = S (length q).
Proof. by rewrite (pq_enqueue_perm x pri q). Qed.

Lemma pq_enqueue_sorted x pri q :
  pq_sorted q -> pq_sorted (pq_enqueue x pri q).
Proof.
  unfold pq_sorted. induction 1 as [|[y p] q Hs IH Hhd]; simpl.
  - repeat constructor.
  - destruct (Nat.leb_spec p pri).
    + constructor; [exact IH|].
      destruct q as [|[z r] q]; simpl; [constructor; unfold prio_le; simpl; lia|].
      inversion Hhd; subst.
      destruct (r <=? pri); constructor; unfold prio_le in *; simpl in *; lia.
    + constructor; [by constructor|]. constructor. unfold prio_le; simpl; lia.
Qed.

(** The entry at the head has the least priority. *)
Lemma pq_sorted_head_min x p q :
  pq_sorted ((x, p) :: q) -> forall e, e ∈ q -> p <= e.2.
Proof.
  intros Hs%Sorted_StronglySorted; [|intros [] [] []; unfold prio_le; simpl; lia].
  apply StronglySorted_inv in Hs as [_ Hall].
  intros e He.
  rewrite Forall_forall in Hall. exact (Hall e He).
Qed.

(** An entry of priority at least every queued one goes to the back. *)
Lemma pq_enqueue_last x pri q :
  Forall (fun e => e.2 <= pri) q -> pq_enqueue x pri q = q ++ [(x, pri)].
Proof.
  induction q as [|[y p] q IH]; simpl; [done|]. intros [Hp Hq]%Forall_cons_1. simpl in Hp.
  rewrite (proj2 (Nat.leb_le _ _) Hp). f_equal. by apply IH.
Qed.

Lemma pq_sorted_tail e q : pq_sorted (e :: q) -> pq_sorted q.
Proof. unfold pq_sorted. intros Hs. by apply Sorted_inv in Hs as [? _]. Qed.

End PQueue.

#[export] Hint Resolve pq_enqueue_sorted pq_sorted_tail : cs106.

(** ** The Stanford library [Map<int, V>]

    The library class is a binary search tree: [get] and [containsKey]
    look a key up, [put] (and assignment through [operator[]]) inserts or
    replaces, and iteration visits the keys in ascending order.  That
    observable behaviour is modelled by an association list kept sorted by
    key; [for (int k : map)] is iteration over [smap_keys].  Reading a
    missing key through the [const] [operator[]] gives the value type's
    default ([smap_get_default]). *)

Section SMap.
Context {V : Type}.

Definition smap := list (Z * V).

Fixpoint smap_get (m : smap) (k : Z) : option V :=
  match m with
  | [] => None
  | (k', v) :: m' => if decide (k = k') then Some v else smap_get m' k
  end.

Definition smap_get_default (m : smap) (k : Z) (d : V) : V :=
  from_option id d (smap_get m k).

Fixpoint smap_put (k : Z) (v : V) (m : smap) : smap :=
  match m with
  | [] => [(k, v)]
  | (k', v') :: m' =>
      if decide (k < k')%Z then (k, v) :: m
      else if decide (k = k') then (k, v) :: m'
      else (k', v') :: smap_put k v m'
  end.

Definition smap_keys (m : smap) : list Z := m.*1.

Lemma smap_get_put_eq k v m : smap_get (smap_put k v m) k = Some v.
Proof.
  induction m as [|[k' v'] m IH]; simpl; [by rewrite decide_True|].
  case_decide; [simpl; by rewrite decide_True|].
  case_decide; simpl; [by rewrite decide_True|]. by rewrite decide_False.
Qed.

Lemma smap_get_put_ne k k' v m : k <> k' -> smap_get (smap_put k v m) k' = smap_get m k'.
Proof.
  intros Hne. induction m as [|[j w] m IH]; simpl; [by rewrite decide_False|].
  case_decide; [simpl; by rewrite decide_False|].
  case_decide; simpl.
  - subst j. by rewrite !decide_False.
  - case_decide; [done|]. apply IH.
Qed.

Lemma smap_keys_put k v m j : j ∈ smap_keys (smap_put k v m) <-> j = k \/ j ∈ smap_keys m.
Proof.
  unfold smap_keys. induction m as [|[k' v'] m IH]; simpl; [set_solver|].
  case_decide; [set_solver|]. case_decide; [subst; set_solver|].
  simpl. rewrite !elem_of_cons, IH. tauto.
Qed.

Lemma smap_get_keys m k : is_Some (smap_get m k) <-> k ∈ smap_keys m.
Proof.
  unfold smap_keys. induction m as [|[k' v'] m IH]; simpl.
  - split; [by intros []|intros ?%elem_of_nil; done].
  - rewrite elem_of_cons, <- IH. case_decide; [split; eauto|]. naive_solver.
Qed.

Lemma smap_put_length k v m : length (smap_put k v m) <= S (length m).
Proof. induction m as [|[k' v'] m IH]; simpl; [lia|]. repeat case_decide; simpl; lia. Qed.

(** The keys stay in ascending order, each once. *)
Lemma smap_put_sorted k v m :
  StronglySorted Z.lt (smap_keys m) -> StronglySorted Z.lt (smap_keys (smap_put k v m)).
Proof.
  unfold smap_keys. induction m as [|[k' v'] m IH]; simpl; intros Hs; [by repeat constructor|].
  pose proof Hs as Hs0. apply StronglySorted_inv in Hs as [Hs Hall]. rewrite Forall_forall in Hall.
  case_decide; [|case_decide].
  - constructor; [exact Hs0|]. apply Forall_forall. intros j [->|Hj]%elem_of_cons; simpl; [lia|].
    specialize (Hall j Hj). lia.
  - subst. exact Hs0.
  - simpl. constructor; [by apply IH|]. apply Forall_forall. intros j Hj.
    pose proof (smap_keys_put k v m j) as Hk. unfold smap_keys in Hk.
    apply Hk in Hj as [->|Hj]; [lia|by apply Hall].
Qed.
End SMap.

Arguments smap : clear implicits.
