(* ===== verification/Trailblazer.v ===== *)
(** * Trailblazer.v: the route-finding functions of [src/trailblazer/src/Trailblazer.cpp]

    One definition per C++ function, with the same name:
    [pathCost], [populateSet], [pathDifference], [breadthFirstSearch],
    [aStarHeuristic], [dijkstrasAlgorithm], [aStar] and [alternativeRoute].
    Each [while] loop is a step function run by [iter_loop]; each [for]
    loop over [graph.neighborsOf(node)] is a [foldl] of the loop body.
    This file holds the model only; its theorems are in [SearchSoundness.v],
    [SearchTermination.v], [SearchOptimality.v] and [AlternativeRoute.v]. *)

From S2P Require Import Prelude Graph PQueue.
From Stdlib Require Import QArith.
Local Open Scope nat_scope.

Section Trailblazer.
Context (g : RoadGraph).

(** [edge->cost()] for the edge [graph.edgeBetween(a, b)].  A [NULL]
    edge would be dereferenced by the code; no path the searches build
    has one in a [WfGraph], and it counts 0. *)
Definition edge_cost_of (e : option nat) : nat :=
  match e with Some e => edgeCost g e | None => 0 end.

(** [pathCost]: the sum of [edgeBetween(path[i-1], path[i])->cost()]. *)
Fixpoint pathCost (path : list nat) : nat :=
  match path with
  | a :: ((b :: _) as rest) => edge_cost_of (edgeBetween g a b) + pathCost rest
  | _ => 0
  end.

(** [populateSet]: the nodes of a path, added one by one to a [Set]. *)
Definition populateSet (path : list nat) : gset nat :=
  foldl (fun pathSet node => pathSet ∪ {[node]}) ∅ path.

(** [pathDifference]: the share of the best route's nodes that the
    alternative does not visit, as the quotient of two [double]s. *)
Definition pathDifference (bestRoute currentAlt : list nat) : Q :=
  let best := populateSet bestRoute in
  let alt := populateSet currentAlt in
  let common := best ∩ alt in
  let nodesInPNotB := inject_Z (Z.of_nat (size best) - Z.of_nat (size common)) in
  let nodesInB := inject_Z (Z.of_nat (size best)) in
  (nodesInPNotB / nodesInB)%Q.

(** The message of the Stanford [Vector] when [current[current.size() - 1]]
    is read on an empty path. *)
Definition index_error : string := "Vector::operator []: index out of range".

(** ** [breadthFirstSearch] *)

(** Body of the [for (RoadNode* next : graph.neighborsOf(node))] loop. *)
Definition bfs_visit (visited : gset nat) (current : list nat)
    (paths : list (list nat)) (next : nat) : list (list nat) :=
  if bool_decide (next ∉ visited) then paths ++ [current ++ [next]] else paths.

(** One iteration of [while (!paths.isEmpty())]; the state is the
    [Queue<Path>] (front first) and the visited [Set]. *)
Definition bfs_step (end_ : nat) (st : list (list nat) * gset nat)
    : (list (list nat) * gset nat) + res (list nat) :=
  let '(paths, visited) := st in
  match paths with
  | [] => inr (Ret [])
  | current :: paths' =>
      match last current with
      | None => inr (Throw index_error)
      | Some node =>
          let visited' := visited ∪ {[node]} in
          if decide (node = end_) then inr (Ret current)
          else inl (foldl (bfs_visit visited' current) paths' (neighborsOf g node),
                    visited')
      end
  end.

Definition breadthFirstSearch (fuel : nat) (start end_ : nat) : res (list nat) :=
  iter_loop (bfs_step end_) fuel ([[start]], ∅).

(** ** [aStarHeuristic] *)

(** Body of the [for] loop over the neighbours: skip visited neighbours
    and the excluded [edge]; enqueue the extended path with priority
    [priority + nextEdge->cost() + (crowFlyDistance / maxRoadSpeed) * isAStar]. *)
Definition astar_visit (end_ : nat) (isAStar : bool) (edge : option nat)
    (maxRoadSpeed : nat) (visited : gset nat) (node : nat) (current : list nat)
    (priority : nat) (paths : list (list nat * nat)) (next : nat)
    : list (list nat * nat) :=
  let nextEdge := edgeBetween g node next in
  if bool_decide (next ∉ visited) && bool_decide (nextEdge ≠ edge) then
    let nextPath := current ++ [next] in
    let crowFlyDistance := crowFlyDistanceBetween g next end_ in
    let cost := (crowFlyDistance / maxRoadSpeed) * Nat.b2n isAStar in
    let nextPriority := priority + edge_cost_of nextEdge + cost in
    pq_enqueue nextPath nextPriority paths
  else paths.

(** One iteration of the main loop; the state is the [PriorityQueue<Path>]
    and the visited [Set].  The priority of the dequeued path is recomputed
    as its [pathCost]. *)
Definition astar_step (end_ : nat) (isAStar : bool) (edge : option nat)
    (maxRoadSpeed : nat) (st : list (list nat * nat) * gset nat)
    : (list (list nat * nat) * gset nat) + res (list nat) :=
  let '(paths, visited) := st in
  match pq_dequeue paths with
  | None => inr (Ret [])
  | Some (current, paths') =>
      let priority := pathCost current in
      match last current with
      | None => inr (Throw index_error)
      | Some node =>
          let visited' := visited ∪ {[node]} in
          if decide (node = end_) then inr (Ret current)
          else inl (foldl (astar_visit end_ isAStar edge maxRoadSpeed visited' node
                             current priority) paths' (neighborsOf g node),
                    visited')
      end
  end.

Definition aStarHeuristic (fuel : nat) (start end_ : nat) (isAStar : bool)
    (edge : option nat) : res (list nat) :=
  let maxRoadSpeed := maxRoadSpeed g in
  iter_loop (astar_step end_ isAStar edge maxRoadSpeed) fuel ([([start], 0)], ∅).

Definition dijkstrasAlgorithm (fuel : nat) (start end_ : nat) : res (list nat) :=
  aStarHeuristic fuel start end_ false None.

Definition aStar (fuel : nat) (start end_ : nat) : res (list nat) :=
  aStarHeuristic fuel start end_ true None.

(** ** [alternativeRoute] *)

Definition SUFFICIENT_DIFFERENCE : Q := 1 # 5.

(** [x < y] on [double]s. *)
Definition Qltb (x y : Q) : bool := negb (Qle_bool y x).

(** The pairs [(bestRoute[i - 1], bestRoute[i])] for [i = 1 .. size - 1]. *)
Definition route_edges (p : list nat) : list (nat * nat) := zip p (tail p).

(** The [for] loop over the edges of the best route, carrying
    [bestAltCost] (initially [-1]) and [altRoute]. *)
Fixpoint alt_loop (fuel : nat) (start end_ : nat) (bestRoute : list nat)
    (edges : list (nat * nat)) (bestAltCost : Z) (altRoute : list nat)
    : res (list nat) :=
  match edges with
  | [] => Ret altRoute
  | (a, b) :: edges' =>
      let edge := edgeBetween g a b in
      (let* currentAlt := aStarHeuristic fuel start end_ true edge in
       let difference := pathDifference bestRoute currentAlt in
       let altPathCost := Z.of_nat (pathCost currentAlt) in
       if Qltb SUFFICIENT_DIFFERENCE difference &&
          ((altPathCost <? bestAltCost)%Z || (bestAltCost =? -1)%Z) &&
          negb (bool_decide (currentAlt = []))
       then alt_loop fuel start end_ bestRoute edges' altPathCost currentAlt
       else alt_loop fuel start end_ bestRoute edges' bestAltCost altRoute)%res
  end.

Definition alternativeRoute (fuel : nat) (start end_ : nat) : res (list nat) :=
  (let* bestRoute := aStar fuel start end_ in
   alt_loop fuel start end_ bestRoute (route_edges bestRoute) (-1)%Z [])%res.

End Trailblazer.
