(* ===== verification/SearchSoundness.v ===== *)
(** * SearchSoundness.v: the search loops of [Trailblazer.cpp] return routes

    The [for] loop over [graph.neighborsOf(node)] adds at most one entry per
    neighbour ([astar_expand], [bfs_expand]); every queued path is a walk
    from [start] that avoids the excluded edge ([frontier_path]); so when a
    search loop leaves, it returns the empty path or a route, and never
    reads [current[current.size() - 1]] on an empty path. *)

From S2P Require Import Prelude Graph PQueue Trailblazer.

(** ** The loop bodies *)

Section LoopBodies.
Context (g : RoadGraph).

(** The entry the A* loop body enqueues for neighbour [next]: the
    extended path with the priority the code computes. *)
Definition astar_entry end_ isAStar edge sp (visited : gset nat) node current priority next
    (a : list nat * nat) : Prop :=
  (next ∉ visited) /\ edgeBetween g node next ≠ edge /\
  a = (current ++ [next],
       priority + edge_cost_of g (edgeBetween g node next) +
       (crowFlyDistanceBetween g next end_ / sp) * Nat.b2n isAStar).

Lemma astar_visit_cases end_ isAStar edge sp visited node current priority paths next :
  astar_visit g end_ isAStar edge sp visited node current priority paths next = paths \/
  (exists a, astar_entry end_ isAStar edge sp visited node current priority next a /\
    astar_visit g end_ isAStar edge sp visited node current priority paths next
      ≡ₚ a :: paths).
Proof.
  unfold astar_visit, astar_entry.
  destruct (bool_decide (next ∉ visited)) eqn:E1; [|by left].
  destruct (bool_decide (edgeBetween g node next ≠ edge)) eqn:E2; [|by left].
  apply bool_decide_eq_true in E1, E2. right.
  eexists. split; [split_and!; [exact E1|exact E2|reflexivity]|].
  apply pq_enqueue_perm.
Qed.

Definition bfs_entry (visited : gset nat) (current : list nat) next (a : list nat) : Prop :=
  (next ∉ visited) /\ a = current ++ [next].

Lemma bfs_visit_cases visited current paths next :
  bfs_visit visited current paths next = paths \/
  (exists a, bfs_entry visited current next a /\
             bfs_visit visited current paths next ≡ₚ a :: paths).
Proof.
  unfold bfs_visit, bfs_entry. case_bool_decide; [right|by left].
  eexists. split; [done|]. symmetry. apply Permutation_cons_append.
Qed.

(** The frontier after the [for] loop of A*: the old entries and at most
    one new entry per neighbour. *)
Lemma astar_expand end_ isAStar edge sp visited node current priority paths :
  exists added,
    foldl (astar_visit g end_ isAStar edge sp visited node current priority)
      paths (neighborsOf g node) ≡ₚ added ++ paths /\
    length added <= length (neighborsOf g node) /\
    forall a, a ∈ added -> exists next, next ∈ neighborsOf g node /\
      astar_entry end_ isAStar edge sp visited node current priority next a.
Proof.
  apply foldl_adds. intros acc n. apply astar_visit_cases.
Qed.

Lemma bfs_expand visited current paths node :
  exists added,
    foldl (bfs_visit visited current) paths (neighborsOf g node) ≡ₚ paths ++ added /\
    length added <= length (neighborsOf g node) /\
    forall a, a ∈ added -> exists next, next ∈ neighborsOf g node /\
      bfs_entry visited current next a.
Proof.
  destruct (foldl_adds (bfs_visit visited current) (bfs_entry visited current)
              (neighborsOf g node) paths) as (added & Hp & Hl & Ha);
    [intros acc n; apply bfs_visit_cases|].
  exists added. split_and!; [by rewrite Hp, Permutation_app_comm|exact Hl|exact Ha].
Qed.
End LoopBodies.

(** ** Soundness: every path a search returns is a route *)

Section Soundness.
Context (g : RoadGraph).

(** A frontier entry: a walk from [start] avoiding the excluded edge. *)
Definition frontier_path (excl : option nat) (start : nat) (q : list nat) : Prop :=
  head q = Some start /\ is_walk g excl q = true.

Lemma frontier_path_push excl start current node next :
  frontier_path excl start current -> last current = Some node ->
  next ∈ neighborsOf g node -> edgeBetween g node next ≠ excl ->
  frontier_path excl start (current ++ [next]).
Proof.
  intros [Hh Hw] Hl Hn He. split.
  - destruct current; [discriminate|exact Hh].
  - rewrite (is_walk_snoc g excl current node next Hl), Hw.
    by rewrite !bool_decide_eq_true_2.
Qed.

Lemma frontier_path_last excl start q :
  frontier_path excl start q -> exists node, last q = Some node.
Proof.
  intros [Hh _]. destruct q as [|x q]; [discriminate|].
  destruct (last (x :: q)) eqn:E; [eauto|]. by apply last_None in E.
Qed.

(** What a search loop leaves with: a route, or the empty path. *)
Definition search_result (excl : option nat) (start end_ : nat) (r : res (list nat)) : Prop :=
  exists p, r = Ret p /\ (p = [] \/ route g excl start end_ p).

Definition astar_inv (edge : option nat) (start : nat)
    (st : list (list nat * nat) * gset nat) : Prop :=
  forall e, e ∈ st.1 -> frontier_path edge start e.1.

Lemma astar_step_inv end_ isAStar edge sp start st st' :
  astar_inv edge start st -> astar_step g end_ isAStar edge sp st = inl st' ->
  astar_inv edge start st'.
Proof.
  destruct st as [[|[current pr] paths'] visited]; simpl; [discriminate|].
  intros Hinv. destruct (last current) as [node|] eqn:Hl; [|discriminate].
  case_decide; [discriminate|]. intros [= <-]. intros e; simpl.
  destruct (astar_expand g end_ isAStar edge sp (visited ∪ {[node]}) node current
              (pathCost g current) paths') as (added & -> & _ & Hadd).
  intros [He|He]%elem_of_app.
  - destruct (Hadd e He) as (next & Hn & _ & Hne & ->).
    apply (frontier_path_push _ _ _ node); auto. apply (Hinv (current, pr)). set_solver.
  - apply Hinv. set_solver.
Qed.

Lemma astar_step_exit end_ isAStar edge sp start st r :
  astar_inv edge start st -> astar_step g end_ isAStar edge sp st = inr r ->
  search_result edge start end_ r.
Proof.
  destruct st as [[|[current pr] paths'] visited]; simpl.
  - intros _ [= <-]. eexists; eauto.
  - intros Hinv. assert (Hc : frontier_path edge start current)
      by (apply (Hinv (current, pr)); set_solver).
    destruct (frontier_path_last _ _ _ Hc) as [node Hl]. rewrite Hl.
    case_decide as Hend; [|discriminate]. intros [= <-].
    exists current. split; [done|]. right. destruct Hc as [Hh Hw].
    subst. split_and!; done.
Qed.

(** [current.size() - 1] never indexes an empty path and the loop
    returns a route or the empty path. *)
Lemma astar_init_inv edge start : astar_inv edge start ([([start], 0)], ∅).
Proof. intros e [->|[]%elem_of_nil]%elem_of_cons. by split. Qed.

Definition bfs_inv (start : nat) (st : list (list nat) * gset nat) : Prop :=
  forall q, q ∈ st.1 -> frontier_path None start q.

Context `{!WfGraph g}.

Lemma bfs_step_inv end_ start st st' :
  bfs_inv start st -> bfs_step g end_ st = inl st' -> bfs_inv start st'.
Proof.
  destruct st as [[|current paths'] visited]; simpl; [discriminate|].
  intros Hinv. destruct (last current) as [node|] eqn:Hl; [|discriminate].
  case_decide; [discriminate|]. intros [= <-]. intros q; simpl.
  destruct (bfs_expand g (visited ∪ {[node]}) current paths' node)
    as (added & -> & _ & Hadd).
  intros [Hq|Hq]%elem_of_app; [apply Hinv; set_solver|].
  destruct (Hadd q Hq) as (next & Hn & _ & ->).
  apply (frontier_path_push _ _ _ node); auto; [apply Hinv; set_solver|].
  destruct (wf_edge_exists node next Hn) as [e ->]. done.
Qed.

Lemma bfs_step_exit end_ start st r :
  bfs_inv start st -> bfs_step g end_ st = inr r -> search_result None start end_ r.
Proof.
  destruct st as [[|current paths'] visited]; simpl.
  - intros _ [= <-]. eexists; eauto.
  - intros Hinv. assert (Hc : frontier_path None start current) by (apply Hinv; set_solver).
    destruct (frontier_path_last _ _ _ Hc) as [node Hl]. rewrite Hl.
    case_decide as Hend; [|discriminate]. intros [= <-].
    exists current. split; [done|]. right. destruct Hc as [Hh Hw].
    subst. split_and!; done.
Qed.

End Soundness.

(** *** Partial correctness of the two search loops *)

(** When the search loop of [aStarHeuristic] leaves, it returns (never
    throws) the empty path or a route from [start] to [end] that never uses
    the excluded [edge]. *)
Lemma astar_search_result g fuel start end_ isAStar edge :
  completed (aStarHeuristic g fuel start end_ isAStar edge) = true ->
  search_result g edge start end_ (aStarHeuristic g fuel start end_ isAStar edge).
Proof.
  apply (iter_loop_inv _ (astar_inv g edge start)).
  - intros s s'. apply astar_step_inv.
  - intros s r. apply astar_step_exit.
  - apply astar_init_inv.
Qed.

(** The same for [breadthFirstSearch] on a well-formed graph. *)
Lemma bfs_search_result g `{!WfGraph g} fuel start end_ :
  completed (breadthFirstSearch g fuel start end_) = true ->
  search_result g None start end_ (breadthFirstSearch g fuel start end_).
Proof.
  apply (iter_loop_inv _ (bfs_inv g start)).
  - intros s s'. by apply bfs_step_inv.
  - intros s r. by apply bfs_step_exit.
  - intros q [->|[]%elem_of_nil]%elem_of_cons. by split.
Qed.
