(* ===== verification/SearchTermination.v ===== *)
(** * SearchTermination.v: the search loops of [Trailblazer.cpp] terminate

    The [while (!paths.isEmpty())] loops of [breadthFirstSearch] and
    [aStarHeuristic] do not skip a dequeued path whose last node is already
    visited, and the frontier may hold several paths to one node, so the
    number of iterations is not bounded by the number of nodes.  What bounds
    it: a path is only extended by a node that is not visited yet, while all
    its other nodes are, so every queued path is simple and has at most [N]
    nodes ([N] = size of the node set).  Giving a queued path [q] the weight
    [B ^ (N + 1 - |q|)], with [B] one more than the largest out-degree,
    every iteration replaces the weight of the dequeued path by at most
    [B - 1] weights [B] times smaller: the sum decreases.  It starts at
    [B ^ N], which is therefore enough fuel. *)

From S2P Require Import Prelude Graph PQueue Trailblazer SearchSoundness.


Section Termination.
Context (g : RoadGraph) `{!WfGraph g}.

(** A queued path is simple, lies in the node set, and every node but
    its last is visited. *)
Definition simple_entry (visited : gset nat) (q : list nat) : Prop :=
  NoDup q /\ (forall x, x ∈ q -> x ∈ nodeSet g) /\
  exists pre y, q = pre ++ [y] /\ forall x, x ∈ pre -> x ∈ visited.

Lemma simple_entry_mono v v' q : v ⊆ v' -> simple_entry v q -> simple_entry v' q.
Proof.
  intros Hsub (Hnd & Hin & pre & y & -> & Hpre).
  split_and!; [done|done|]. exists pre, y. split; [done|set_solver].
Qed.

Lemma simple_entry_push visited current node next :
  simple_entry visited current -> last current = Some node ->
  next ∈ neighborsOf g node -> (next ∉ visited ∪ {[node]}) ->
  simple_entry (visited ∪ {[node]}) (current ++ [next]).
Proof.
  intros (Hnd & Hin & pre & y & -> & Hpre) Hl Hn Hnot.
  rewrite last_snoc in Hl. injection Hl as ->.
  split_and!.
  - apply NoDup_app. split_and!; [done| |apply NoDup_singleton].
    intros x Hx ->%list_elem_of_singleton. apply Hnot.
    apply elem_of_app in Hx as [Hx|Hx]; [set_solver|].
    apply list_elem_of_singleton in Hx. set_solver.
  - intros x [Hx|Hx%list_elem_of_singleton]%elem_of_app;
      [by apply Hin|subst; by eapply wf_neighbors_in].
  - exists (pre ++ [node]), next. split; [done|].
    intros x [Hx|Hx%list_elem_of_singleton]%elem_of_app; set_solver.
Qed.

Definition num_nodes : nat := length (nodeSet g).

Definition branching : nat :=
  S (max_list (map (fun n => length (neighborsOf g n)) (nodeSet g))).

Definition path_weight (q : list nat) : nat := branching ^ (num_nodes + 1 - length q).

Lemma simple_entry_length v q : simple_entry v q -> length q <= num_nodes.
Proof.
  intros (Hnd & Hin & _). apply List.NoDup_incl_length; [by apply NoDup_ListNoDup|].
  intros x Hx. apply list_elem_of_In, Hin, list_elem_of_In, Hx.
Qed.

Lemma degree_lt_branching n : n ∈ nodeSet g -> length (neighborsOf g n) < branching.
Proof.
  intros Hn. unfold branching. apply Nat.lt_succ_r, max_list_elem_of_le.
  apply list_elem_of_fmap. eauto.
Qed.

(** Expanding [current] replaces its weight by at most [deg] weights of
    paths one node longer: a strictly smaller total. *)
Lemma expand_weight_lt {A} (f : A -> list nat) current node (added : list A) :
  length current <= num_nodes -> node ∈ nodeSet g ->
  length added <= length (neighborsOf g node) ->
  (forall a, a ∈ added -> length (f a) = S (length current)) ->
  sum_with (fun a => path_weight (f a)) added < path_weight current.
Proof.
  intros Hlen Hnode Hadd Hla.
  set (X := branching ^ (num_nodes - length current)).
  assert (Hw : sum_with (fun a => path_weight (f a)) added <= length added * X).
  { apply sum_with_le_const. intros a Ha. unfold path_weight, X.
    rewrite (Hla a Ha). replace (num_nodes + 1 - S (length current))
      with (num_nodes - length current) by lia. lia. }
  assert (HX : 0 < X) by (apply Nat.neq_0_lt_0, Nat.pow_nonzero; unfold branching; lia).
  assert (Hcur : path_weight current = branching * X).
  { unfold path_weight, X. rewrite <- Nat.pow_succ_r'. f_equal. lia. }
  pose proof (degree_lt_branching node Hnode).
  rewrite Hcur. apply (Nat.le_lt_trans _ (length added * X)); [exact Hw|].
  apply Nat.mul_lt_mono_pos_r; lia.
Qed.

Lemma simple_entry_last v q node : simple_entry v q -> last q = Some node -> node ∈ nodeSet g.
Proof. intros (_ & Hin & _) Hl. apply Hin, last_Some_elem_of, Hl. Qed.

End Termination.

Section Loops.
Context (g : RoadGraph) `{!WfGraph g}.

Definition astar_tinv (st : list (list nat * nat) * gset nat) : Prop :=
  forall e, e ∈ st.1 -> simple_entry g st.2 e.1.

Definition astar_measure (st : list (list nat * nat) * gset nat) : nat :=
  sum_with (fun e => path_weight g e.1) st.1.

Lemma astar_step_decreases end_ isAStar edge sp st st' :
  astar_tinv st -> astar_step g end_ isAStar edge sp st = inl st' ->
  astar_tinv st' /\ astar_measure st' < astar_measure st.
Proof.
  destruct st as [[|[current pr] paths'] visited]; simpl; [discriminate|].
  intros Hinv. destruct (last current) as [node|] eqn:Hl; [|discriminate].
  case_decide; [discriminate|]. intros [= <-].
  destruct (astar_expand g end_ isAStar edge sp (visited ∪ {[node]}) node current
              (pathCost g current) paths') as (added & Hperm & Hlen & Hadd).
  assert (Hc : simple_entry g visited current) by (apply (Hinv (current, pr)); set_solver).
  split.
  - intros e; simpl. rewrite Hperm. intros [He|He]%elem_of_app.
    + destruct (Hadd e He) as (next & Hn & Hnot & _ & ->).
      by apply (simple_entry_push g visited current node next).
    + apply (simple_entry_mono g visited); [set_solver|]. apply (Hinv e). set_solver.
  - unfold astar_measure; simpl. rewrite Hperm, sum_with_app.
    enough (sum_with (fun e => path_weight g e.1) added < path_weight g current) by lia.
    apply (expand_weight_lt g fst current node added).
    + by apply simple_entry_length with visited.
    + by apply simple_entry_last with visited current.
    + exact Hlen.
    + intros a Ha. destruct (Hadd a Ha) as (next & _ & _ & _ & ->).
      simpl. rewrite length_app. simpl. lia.
Qed.

Lemma astar_step_exit_completed end_ isAStar edge sp st r :
  astar_step g end_ isAStar edge sp st = inr r -> completed r = true.
Proof.
  destruct st as [[|[current pr] paths'] visited]; simpl; [by intros [= <-]|].
  destruct (last current); [case_decide; [by intros [= <-]|discriminate]|by intros [= <-]].
Qed.

Definition bfs_tinv (st : list (list nat) * gset nat) : Prop :=
  forall q, q ∈ st.1 -> simple_entry g st.2 q.

Definition bfs_measure (st : list (list nat) * gset nat) : nat :=
  sum_with (path_weight g) st.1.

Lemma bfs_step_decreases end_ st st' :
  bfs_tinv st -> bfs_step g end_ st = inl st' ->
  bfs_tinv st' /\ bfs_measure st' < bfs_measure st.
Proof.
  destruct st as [[|current paths'] visited]; simpl; [discriminate|].
  intros Hinv. destruct (last current) as [node|] eqn:Hl; [|discriminate].
  case_decide; [discriminate|]. intros [= <-].
  destruct (bfs_expand g (visited ∪ {[node]}) current paths' node)
    as (added & Hperm & Hlen & Hadd).
  assert (Hc : simple_entry g visited current) by (apply Hinv; set_solver).
  split.
  - intros q; simpl. rewrite Hperm. intros [Hq|Hq]%elem_of_app.
    + apply (simple_entry_mono g visited); [set_solver|]. apply Hinv. set_solver.
    + destruct (Hadd q Hq) as (next & Hn & Hnot & ->).
      by apply (simple_entry_push g visited current node next).
  - unfold bfs_measure; simpl. rewrite Hperm, sum_with_app.
    enough (sum_with (path_weight g) added < path_weight g current) by lia.
    apply (expand_weight_lt g id current node added).
    + by apply simple_entry_length with visited.
    + by apply simple_entry_last with visited current.
    + exact Hlen.
    + intros a Ha. destruct (Hadd a Ha) as (next & _ & _ & ->).
      simpl. rewrite length_app. simpl. lia.
Qed.

Lemma bfs_step_exit_completed end_ st r :
  bfs_step g end_ st = inr r -> completed r = true.
Proof.
  destruct st as [[|current paths'] visited]; simpl; [by intros [= <-]|].
  destruct (last current); [case_decide; [by intros [= <-]|discriminate]|by intros [= <-]].
Qed.

Lemma initial_simple start : start ∈ nodeSet g -> simple_entry g ∅ [start].
Proof.
  intros Hs. split_and!.
  - apply NoDup_singleton.
  - intros x ->%list_elem_of_singleton. exact Hs.
  - exists [], start. split; [done|set_solver].
Qed.

Lemma initial_weight start : path_weight g [start] = branching g ^ num_nodes g.
Proof. unfold path_weight. simpl. f_equal. lia. Qed.
End Loops.

(** ** The theorems *)

(** C3. [aStarHeuristic] (and so [dijkstrasAlgorithm], [aStar] and every
    search of [alternativeRoute]) returns, given fuel above [B ^ N]: it
    neither throws nor loops, and its result is the empty path or a route
    from [start] to [end] that never crosses the excluded [edge]. *)
Theorem aStarHeuristic_returns_route g `{!WfGraph g} fuel start end_ isAStar edge :
  start ∈ nodeSet g -> branching g ^ num_nodes g < fuel ->
  exists p, aStarHeuristic g fuel start end_ isAStar edge = Ret p /\
            (p = [] \/ route g edge start end_ p).
Proof.
  intros Hs Hf. apply astar_search_result.
  pose proof (astar_step_decreases g end_ isAStar edge (maxRoadSpeed g)) as Hdec.
  apply (iter_loop_terminates _ (astar_tinv g) (fun s s' Hi H => proj1 (Hdec s s' Hi H))
           (astar_measure g) (fun s s' Hi H => proj2 (Hdec s s' Hi H))).
  - intros st r _. apply astar_step_exit_completed.
  - intros e [->|[]%elem_of_nil]%elem_of_cons. by apply initial_simple.
  - unfold astar_measure; simpl. rewrite initial_weight. lia.
Qed.

(** [breadthFirstSearch] returns, given fuel above [B ^ N], the empty
    path or a route from [start] to [end]. *)
Theorem breadthFirstSearch_returns_route g `{!WfGraph g} fuel start end_ :
  start ∈ nodeSet g -> branching g ^ num_nodes g < fuel ->
  exists p, breadthFirstSearch g fuel start end_ = Ret p /\
            (p = [] \/ route g None start end_ p).
Proof.
  intros Hs Hf. apply (bfs_search_result g fuel start end_).
  pose proof (bfs_step_decreases g end_) as Hdec.
  apply (iter_loop_terminates _ (bfs_tinv g) (fun s s' Hi H => proj1 (Hdec s s' Hi H))
           (bfs_measure g) (fun s s' Hi H => proj2 (Hdec s s' Hi H))).
  - intros st r _. apply bfs_step_exit_completed.
  - intros q [->|[]%elem_of_nil]%elem_of_cons. by apply initial_simple.
  - unfold bfs_measure; simpl. rewrite initial_weight. lia.
Qed.

(** ** Witnesses on the graph of the spec's scenario *)

Lemma aStarHeuristic_returns_route_witness :
  (0 ∈ nodeSet abcd /\ branching abcd ^ num_nodes abcd < 1000) /\
  exists p, aStarHeuristic abcd 1000 0 3 true None = Ret p /\
            (p = [] \/ route abcd None 0 3 p).
Proof.
  split; [split; [decide_by_eval|vm_compute; lia]|].
  apply (aStarHeuristic_returns_route abcd 1000 0 3 true None);
    [decide_by_eval|vm_compute; lia].
Defined.

Lemma breadthFirstSearch_returns_route_witness :
  (0 ∈ nodeSet abcd /\ branching abcd ^ num_nodes abcd < 1000) /\
  exists p, breadthFirstSearch abcd 1000 0 3 = Ret p /\
            (p = [] \/ route abcd None 0 3 p).
Proof.
  split; [split; [decide_by_eval|vm_compute; lia]|].
  apply (breadthFirstSearch_returns_route abcd 1000 0 3);
    [decide_by_eval|vm_compute; lia].
Defined.
