(* ===== verification/SearchOptimality.v ===== *)
(** * SearchOptimality.v: Dijkstra and A* return cheapest routes

    [aStarHeuristic] with [isAStar = false] is Dijkstra's algorithm; with
    [isAStar = true] it adds [h n = (crowFlyDistance n end / maxRoadSpeed)]
    to the priority of a path ending at [n].  When the heuristic is
    consistent ([h x <= cost (x, y) + h y] along every usable edge, and
    [h end = 0]), the path returned is a route of least [pathCost] among all
    routes from [start] to [end] that avoid the excluded edge, and it is the
    empty path only when there is no such route.  The heuristic of Dijkstra
    is 0, which is consistent, so Dijkstra needs no hypothesis at all.

    The invariant [opt_inv] is the classical one, adapted to the code: the
    start entry has priority 0 rather than [h start], and a dequeued node
    that is already visited is expanded again (its expansion only adds
    entries, it does not disturb the invariant). *)

From S2P Require Import Prelude Graph PQueue Trailblazer SearchSoundness.

(** ** Path costs *)

Lemma pathCost_snoc g p x y :
  last p = Some x ->
  pathCost g (p ++ [y]) = pathCost g p + edge_cost_of g (edgeBetween g x y).
Proof.
  induction p as [|a [|b p] IH]; intros Hl; [discriminate| |].
  - simpl in Hl. injection Hl as <-. simpl. lia.
  - rewrite last_cons_cons in Hl. specialize (IH Hl). simpl in IH |- *. lia.
Qed.

(** The estimate [(crowFlyDistance / maxRoadSpeed) * isAStar] the code adds
    to the priority of a path ending at [n]. *)
Definition heuristic (g : RoadGraph) (end_ : nat) (isAStar : bool) (n : nat) : nat :=
  (crowFlyDistanceBetween g n end_ / maxRoadSpeed g) * Nat.b2n isAStar.

(** A consistent heuristic never drops by more than the cost of a usable
    edge, and is 0 at the destination. *)
Definition consistent (g : RoadGraph) (end_ : nat) (isAStar : bool) (excl : option nat) : Prop :=
  (forall x y, y ∈ neighborsOf g x -> edgeBetween g x y ≠ excl ->
     heuristic g end_ isAStar x <= edge_cost_of g (edgeBetween g x y) + heuristic g end_ isAStar y) /\
  heuristic g end_ isAStar end_ = 0.

(** Dijkstra's heuristic is 0. *)
Lemma consistent_dijkstra g end_ excl : consistent g end_ false excl.
Proof. unfold consistent, heuristic. simpl. split; [intros; lia|lia]. Qed.

(** ** The loop invariant *)

Section Optimality.
Context (g : RoadGraph) (end_ : nat) (isAStar : bool) (excl : option nat) (start : nat).
Hypothesis Hcons : consistent g end_ isAStar excl.

Abbreviation h := (heuristic g end_ isAStar).

(** The priority of a queued path: its cost plus the estimate at its last
    node, except the start entry, enqueued with priority 0. *)
Definition entry_ok (e : list nat * nat) : Prop :=
  frontier_path g excl start e.1 /\
  exists n, last e.1 = Some n /\ (e.2 = pathCost g e.1 + h n \/ (e.1 = [start] /\ e.2 = 0)).

Record opt_inv (st : list (list nat * nat) * gset nat) : Prop := {
  oi_entries : forall e, e ∈ st.1 -> entry_ok e;
  oi_sorted : pq_sorted st.1;
  oi_start : start ∈ st.2 \/ ([start], 0) ∈ st.1;
  oi_end : end_ ∉ st.2;
  (** Every usable edge from a visited node [v] to an unvisited node [u]
      is covered by a queued path to [u] no dearer than any route to [v]
      followed by the edge. *)
  oi_cover : forall u v r, (u ∉ st.2) -> v ∈ st.2 -> u ∈ neighborsOf g v ->
    edgeBetween g v u ≠ excl -> route g excl start v r ->
    exists e, e ∈ st.1 /\ last e.1 = Some u /\
      e.2 <= pathCost g r + edge_cost_of g (edgeBetween g v u) + h u
}.

(** The frontier holds an entry no dearer than (the cost plus estimate of)
    any walk from [start] to an unvisited node. *)
Lemma frontier_lower_bound st r y :
  opt_inv st -> head r = Some start -> is_walk g excl r = true ->
  last r = Some y -> (y ∉ st.2) ->
  exists e, e ∈ st.1 /\ e.2 <= pathCost g r + h y.
Proof.
  intros Hinv. revert y. induction r as [|x r' IH] using rev_ind; intros y Hh Hw Hl Hy;
    [discriminate|].
  rewrite last_snoc in Hl. injection Hl as <-.
  destruct r' as [|z r''] eqn:Er'.
  - simpl in Hh. injection Hh as ->.
    destruct (oi_start _ Hinv) as [Hin|Hin]; [done|].
    exists ([start], 0). split; [exact Hin|simpl; lia].
  - rewrite <- Er' in *. assert (Hne : r' <> []) by (subst; discriminate).
    destruct (last r') as [w|] eqn:Hlw; [|by apply last_None in Hlw].
    rewrite (is_walk_snoc g excl r' w x Hlw) in Hw.
    apply andb_prop in Hw as [[Hw' Hn%bool_decide_eq_true]%andb_prop He%bool_decide_eq_true].
    assert (Hh' : head r' = Some start) by (subst; exact Hh).
    rewrite (pathCost_snoc g r' w x Hlw).
    destruct (decide (w ∈ st.2)) as [Hw|Hw].
    + destruct (oi_cover _ Hinv x w r' Hy Hw Hn He) as (e & He1 & _ & He2);
        [split_and!; done|].
      exists e. split; [exact He1|lia].
    + destruct (IH w Hh' Hw' eq_refl Hw) as (e & He1 & He2).
      destruct Hcons as [Hc _]. specialize (Hc w x Hn He).
      exists e. split; [exact He1|lia].
Qed.

Abbreviation sp := (maxRoadSpeed g).

Lemma astar_visit_keeps visited node current priority acc next y :
  y ∈ acc -> y ∈ astar_visit g end_ isAStar excl sp visited node current priority acc next.
Proof.
  destruct (astar_visit_cases g end_ isAStar excl sp visited node current priority acc next)
    as [->|(a & _ & ->)]; [done|set_solver].
Qed.

Lemma astar_expand_sorted visited node current priority paths ns :
  pq_sorted paths ->
  pq_sorted (foldl (astar_visit g end_ isAStar excl sp visited node current priority) paths ns).
Proof.
  revert paths. induction ns as [|n ns IH]; intros paths Hs; simpl; [done|].
  apply IH. unfold astar_visit. destruct (_ && _); [by apply pq_enqueue_sorted|done].
Qed.

(** The dequeued path is a cheapest route to its last node, when that node
    was not visited before. *)
Lemma dequeued_cheapest st current pr rest node r :
  opt_inv st -> st.1 = (current, pr) :: rest -> last current = Some node ->
  (node ∉ st.2) -> route g excl start node r -> pathCost g current <= pathCost g r.
Proof.
  intros Hinv Hst Hl Hn (Hh & Hlr & Hw).
  destruct (frontier_lower_bound st r node Hinv Hh Hw Hlr Hn) as (e & He & Hle).
  assert (Hmin : pr <= e.2).
  { pose proof (oi_sorted _ Hinv) as Hs. rewrite Hst in Hs, He.
    apply elem_of_cons in He as [->|He]; [done|]. by apply (pq_sorted_head_min current pr rest). }
  destruct (oi_entries _ Hinv (current, pr)) as [_ (n & Hln & [Hpr|[Hc Hpr]])];
    [rewrite Hst; set_solver| |]; simpl in *.
  - rewrite Hl in Hln. injection Hln as <-. lia.
  - subst current. simpl. lia.
Qed.

Lemma opt_step_inv st st' :
  opt_inv st -> astar_step g end_ isAStar excl sp st = inl st' -> opt_inv st'.
Proof.
  intros Hinv Hstep. destruct st as [F V].
  destruct F as [|[current pr] rest]; simpl in Hstep; [discriminate|].
  destruct (last current) as [node|] eqn:Hl; [|discriminate].
  case_decide as Hend; [discriminate|]. injection Hstep as <-.
  set (f := astar_visit g end_ isAStar excl sp (V ∪ {[node]}) node current (pathCost g current)).
  destruct (astar_expand g end_ isAStar excl sp (V ∪ {[node]}) node current
              (pathCost g current) rest) as (added & Hperm & _ & Hadd).
  fold f in Hperm.
  assert (Hrest : forall e, e ∈ rest -> e ∈ foldl f rest (neighborsOf g node))
    by (intros e He; apply foldl_keeps; [apply astar_visit_keeps|exact He]).
  assert (Hcur : entry_ok (current, pr)) by (apply (oi_entries _ Hinv); set_solver).
  split; simpl.
  - intros e. rewrite Hperm. intros [He|He]%elem_of_app.
    + destruct (Hadd e He) as (next & Hn & _ & Hne & ->). split; simpl.
      * apply (frontier_path_push _ _ _ _ node); [apply Hcur|done|done|done].
      * exists next. rewrite last_snoc. split; [done|left].
        rewrite (pathCost_snoc g current node next Hl). unfold heuristic. lia.
    + apply (oi_entries _ Hinv). set_solver.
  - apply astar_expand_sorted. eapply pq_sorted_tail, (oi_sorted _ Hinv).
  - destruct (oi_start _ Hinv) as [Hs|Hs]; [set_solver|]. simpl in Hs.
    apply elem_of_cons in Hs as [Hs|Hs].
    + injection Hs as <- _. simpl in Hl. injection Hl as ->. set_solver.
    + right. by apply Hrest.
  - pose proof (oi_end _ Hinv). set_solver.
  - intros u v r Hu Hv Hn He Hr. simpl in Hv.
    destruct (decide (v ∈ V)) as [HvV|HvV].
    + destruct (oi_cover _ Hinv u v r ltac:(set_solver) HvV Hn He Hr) as (e & He1 & He2 & He3).
      exists e. split_and!; [|done|done]. simpl in He1.
      apply elem_of_cons in He1 as [->|He1]; [|by apply Hrest].
      simpl in He2. rewrite Hl in He2. injection He2 as ->. set_solver.
    + assert (v = node) as -> by set_solver.
      pose proof (dequeued_cheapest (((current, pr) :: rest), V) current pr rest node r
                    Hinv eq_refl Hl HvV Hr).
      eexists. split_and!.
      * apply (foldl_gets f (neighborsOf g node) rest u
                 (current ++ [u], pathCost g current + edge_cost_of g (edgeBetween g node u) + h u));
          [apply astar_visit_keeps| |exact Hn].
        intros acc. unfold f, astar_visit.
        rewrite bool_decide_eq_true_2 by exact Hu. rewrite bool_decide_eq_true_2 by exact He.
        simpl. apply elem_of_pq_enqueue. left. reflexivity.
      * simpl. apply last_snoc.
      * simpl. lia.
Qed.

(** What the loop leaves with: for every route, a non-empty path no dearer. *)
Definition opt_result (res : res (list nat)) : Prop :=
  forall r, route g excl start end_ r ->
  exists p, res = Ret p /\ p <> [] /\ pathCost g p <= pathCost g r.

Lemma opt_step_exit st res :
  opt_inv st -> astar_step g end_ isAStar excl sp st = inr res -> opt_result res.
Proof.
  intros Hinv Hstep r Hr. destruct st as [F V].
  pose proof (oi_end _ Hinv) as HendV. simpl in HendV.
  destruct Hr as (Hh & Hlr & Hw).
  destruct F as [|[current pr] rest]; simpl in Hstep.
  - destruct (frontier_lower_bound ([], V) r end_ Hinv Hh Hw Hlr HendV) as (e & He & _).
    by apply elem_of_nil in He.
  - assert (Hcur : entry_ok (current, pr)) by (apply (oi_entries _ Hinv); set_solver).
    destruct Hcur as [Hfp (n & Hln & _)]. simpl in Hln. rewrite Hln in Hstep.
    case_decide as Hn; [|discriminate]. subst n. injection Hstep as <-.
    exists current. split_and!; [done| |].
    + intros ->. discriminate.
    + apply (dequeued_cheapest (((current, pr) :: rest), V) current pr rest end_ r
               Hinv eq_refl Hln HendV). split_and!; done.
Qed.

Lemma opt_init : opt_inv ([([start], 0)], ∅).
Proof.
  split; simpl.
  - intros e [->|[]%elem_of_nil]%elem_of_cons. split; [by split|].
    exists start. split; [done|by right].
  - repeat constructor.
  - right. set_solver.
  - set_solver.
  - intros u v r _ Hv. set_solver.
Qed.

End Optimality.

(** The loop of [aStarHeuristic] leaves with a non-empty path no dearer
    than any route, as soon as one route exists. *)
Lemma astar_opt_result g fuel start end_ isAStar excl :
  consistent g end_ isAStar excl ->
  completed (aStarHeuristic g fuel start end_ isAStar excl) = true ->
  opt_result g end_ excl start (aStarHeuristic g fuel start end_ isAStar excl).
Proof.
  intros Hc. apply (iter_loop_inv _ (opt_inv g end_ isAStar excl start)).
  - intros s s'. by apply opt_step_inv.
  - intros s res. by apply opt_step_exit.
  - by apply opt_init.
Qed.

Lemma astar_optimal_helper g fuel start end_ isAStar excl p r :
  consistent g end_ isAStar excl ->
  aStarHeuristic g fuel start end_ isAStar excl = Ret p ->
  route g excl start end_ r -> p <> [] /\ pathCost g p <= pathCost g r.
Proof.
  intros Hc Hp Hr.
  destruct (astar_opt_result g fuel start end_ isAStar excl Hc ltac:(by rewrite Hp) r Hr)
    as (p' & Hp' & Hne & Hle).
  rewrite Hp in Hp'. injection Hp' as <-. done.
Qed.

(** C2. Optimality of [aStarHeuristic]: with a consistent heuristic, when
    a route from [start] to [end] avoiding the excluded edge exists, the
    search returns a non-empty path whose [pathCost] is at most that of
    every such route. *)
Theorem aStarHeuristic_optimal g fuel start end_ isAStar excl p r :
  consistent g end_ isAStar excl ->
  aStarHeuristic g fuel start end_ isAStar excl = Ret p ->
  route g excl start end_ r ->
  p <> [] /\ pathCost g p <= pathCost g r.
Proof. apply astar_optimal_helper. Qed.

(** C1. [dijkstrasAlgorithm] returns a cheapest route: whenever a route
    from [start] to [end] exists, its result is not empty and costs at most
    as much as the route. *)
Theorem dijkstrasAlgorithm_optimal g fuel start end_ p r :
  dijkstrasAlgorithm g fuel start end_ = Ret p ->
  route g None start end_ r ->
  p <> [] /\ pathCost g p <= pathCost g r.
Proof. apply astar_optimal_helper, consistent_dijkstra. Qed.

(** With a consistent heuristic, [aStar] and [dijkstrasAlgorithm]
    agree: both find a route or neither does, and the two routes cost the
    same. *)
Theorem aStar_dijkstra_same_cost g fuel start end_ p q :
  consistent g end_ true None ->
  aStar g fuel start end_ = Ret p ->
  dijkstrasAlgorithm g fuel start end_ = Ret q ->
  (p = [] <-> q = []) /\ pathCost g p = pathCost g q.
Proof.
  intros Hc Hp Hq. pose proof (consistent_dijkstra g end_ None) as Hd.
  unfold aStar in Hp. unfold dijkstrasAlgorithm in Hq.
  destruct (astar_search_result g fuel start end_ true None ltac:(by rewrite Hp))
    as (p' & Hp' & Hrp). rewrite Hp in Hp'. injection Hp' as <-.
  destruct (astar_search_result g fuel start end_ false None ltac:(by rewrite Hq))
    as (q' & Hq' & Hrq). rewrite Hq in Hq'. injection Hq' as <-.
  destruct Hrp as [->|Hrp], Hrq as [->|Hrq].
  - done.
  - by destruct (astar_optimal_helper _ _ _ _ _ _ _ _ Hc Hp Hrq).
  - by destruct (astar_optimal_helper _ _ _ _ _ _ _ _ Hd Hq Hrp).
  - destruct (astar_optimal_helper _ _ _ _ _ _ _ _ Hc Hp Hrq) as [Hnp Hle1].
    destruct (astar_optimal_helper _ _ _ _ _ _ _ _ Hd Hq Hrp) as [Hnq Hle2].
    split; [done|lia].
Qed.

(** ** Witnesses *)

(** For a graph given by its arcs, consistency is a check over the arcs. *)
Lemma graph_of_arcs_consistent arcs crow speed end_ isAStar excl :
  let g := graph_of_arcs arcs crow speed in
  forallb (fun arc : nat * nat * nat =>
    heuristic g end_ isAStar arc.1.1 <=?
      edge_cost_of g (edgeBetween g arc.1.1 arc.1.2) + heuristic g end_ isAStar arc.1.2) arcs
    = true ->
  heuristic g end_ isAStar end_ = 0 ->
  consistent g end_ isAStar excl.
Proof.
  intros g Hall Hend. split; [|exact Hend].
  intros x y [c Hin]%elem_of_arc_targets _.
  rewrite forallb_forall in Hall. apply list_elem_of_In in Hin.
  specialize (Hall _ Hin). simpl in Hall. by apply Nat.leb_le in Hall.
Qed.

(** The scenario graph with the estimate [h n = 2 (3 - n) / 2 = 3 - n]
    towards D, which is consistent. *)
Definition abcd_astar : RoadGraph := graph_of_arcs abcd_arcs (fun n m => 2 * (m - n)) 2.

Lemma abcd_astar_consistent : consistent abcd_astar 3 true None.
Proof. apply graph_of_arcs_consistent; vm_compute; reflexivity. Qed.

(** A-B-C-D (cost 3) beats A-D (cost 5). *)
Lemma aStarHeuristic_optimal_witness :
  consistent abcd_astar 3 true None /\
  aStarHeuristic abcd_astar 1000 0 3 true None = Ret [0; 1; 2; 3] /\
  route abcd_astar None 0 3 [0; 3] /\
  ([0; 1; 2; 3] <> [] /\ pathCost abcd_astar [0; 1; 2; 3] <= pathCost abcd_astar [0; 3]).
Proof.
  split; [exact abcd_astar_consistent|]. split; [vm_compute; reflexivity|].
  split; [split_and!; [reflexivity|reflexivity|vm_compute; reflexivity]|].
  apply (aStarHeuristic_optimal abcd_astar 1000 0 3 true None);
    [exact abcd_astar_consistent|vm_compute; reflexivity|split_and!; [reflexivity|reflexivity|vm_compute; reflexivity]].
Defined.

Lemma dijkstrasAlgorithm_optimal_witness :
  dijkstrasAlgorithm abcd 1000 0 3 = Ret [0; 1; 2; 3] /\
  route abcd None 0 3 [0; 3] /\
  ([0; 1; 2; 3] <> [] /\ pathCost abcd [0; 1; 2; 3] <= pathCost abcd [0; 3]).
Proof.
  split; [vm_compute; reflexivity|].
  split; [split_and!; [reflexivity|reflexivity|vm_compute; reflexivity]|].
  apply (dijkstrasAlgorithm_optimal abcd 1000 0 3);
    [vm_compute; reflexivity|split_and!; [reflexivity|reflexivity|vm_compute; reflexivity]].
Defined.

Lemma aStar_dijkstra_same_cost_witness :
  consistent abcd_astar 3 true None /\
  aStar abcd_astar 1000 0 3 = Ret [0; 1; 2; 3] /\
  dijkstrasAlgorithm abcd_astar 1000 0 3 = Ret [0; 1; 2; 3] /\
  (([0; 1; 2; 3] : list nat) = [] <-> ([0; 1; 2; 3] : list nat) = []) /\
  pathCost abcd_astar [0; 1; 2; 3] = pathCost abcd_astar [0; 1; 2; 3].
Proof.
  split; [exact abcd_astar_consistent|].
  split; [vm_compute; reflexivity|]. split; [vm_compute; reflexivity|].
  apply (aStar_dijkstra_same_cost abcd_astar 1000 0 3);
    [exact abcd_astar_consistent|vm_compute; reflexivity|vm_compute; reflexivity].
Defined.
