(* ===== verification/BreadthFirst.v ===== *)
(** * BreadthFirst.v: breadth-first search is Dijkstra on unit costs

    [breadthFirstSearch] keeps a FIFO [Queue<Path>]; [dijkstrasAlgorithm]
    a [PriorityQueue<Path>] ordered by [pathCost].  On the graph
    [unit_graph g], which is [g] with every road costing 1, the priority of
    a queued path is its number of roads.  The FIFO queue of BFS holds
    paths of [L] and [L + 1] roads, shortest first, so a new path of
    [L + 1] roads goes to the back of the priority queue as it does in the
    FIFO queue: the two loops run in lock step ([bfs_rel]) and return the
    same result on the same fuel.  Dijkstra's optimality then says that
    BFS returns a route with the fewest roads. *)

From S2P Require Import Prelude Graph PQueue Trailblazer SearchSoundness SearchOptimality.

(** [g] with every edge of cost 1. *)
Definition unit_graph (g : RoadGraph) : RoadGraph := {|
  nodeSet := nodeSet g;
  neighborsOf := neighborsOf g;
  edgeBetween := edgeBetween g;
  edgeCost := fun _ => 1;
  crowFlyDistanceBetween := crowFlyDistanceBetween g;
  maxRoadSpeed := maxRoadSpeed g |}.

Section BFS.
Context (g : RoadGraph) `{!WfGraph g} (end_ : nat).

Local Abbreviation gu := (unit_graph g).

(** A walk of [n] nodes has [n - 1] roads, each costing 1 in [gu]. *)
Lemma pathCost_unit p : is_walk g None p = true -> pathCost gu p = length p - 1.
Proof.
  induction p as [|a [|b p] IH]; [done|done|]. cbn [is_walk].
  intros Hw. apply andb_prop in Hw as [Hw1 Hw]. apply andb_prop in Hw1 as [_ Hab].
  apply bool_decide_eq_true_1 in Hab.
  change (pathCost gu (a :: b :: p)) with (edge_cost_of gu (edgeBetween g a b) + pathCost gu (b :: p)).
  rewrite IH by done. destruct (edgeBetween g a b); [|done]. cbn. lia.
Qed.

(** The queued entries: priorities between [L] and [L + 1], each the
    path's cost in [gu]. *)
Definition layer (L : nat) (e : list nat * nat) : Prop := L <= e.2 <= S L /\ e.2 = pathCost gu e.1.

(** The two states hold the same paths in the same order, and the same
    visited set; the priority queue is sorted and spans two layers. *)
Definition bfs_rel (st1 : list (list nat) * gset nat) (st2 : list (list nat * nat) * gset nat) : Prop :=
  st1.1 = st2.1.*1 /\ st1.2 = st2.2 /\ pq_sorted st2.1 /\ exists L, Forall (layer L) st2.1.

(** The [for] loops over the neighbours of [node] enqueue the same paths,
    the priority queue at its back. *)
Lemma bfs_visit_fold visited current node P ns q :
  last current = Some node -> pathCost gu current = P ->
  (forall n, n ∈ ns -> n ∈ neighborsOf g node) ->
  pq_sorted q -> Forall (layer P) q ->
  let qa := foldl (astar_visit gu end_ false None (maxRoadSpeed g) visited node current P) q ns in
  foldl (bfs_visit visited current) q.*1 ns = qa.*1 /\ pq_sorted qa /\ Forall (layer P) qa.
Proof.
  intros Hl HP. revert q. induction ns as [|n ns IH]; intros q Hns Hs Hq; [done|]. cbn [foldl].
  assert (Hn : n ∈ neighborsOf g node) by (apply Hns; set_solver).
  destruct (wf_edge_exists node n Hn) as [e He].
  assert (Hstep : bfs_visit visited current q.*1 n =
                  (astar_visit gu end_ false None (maxRoadSpeed g) visited node current P q n).*1 /\
                  pq_sorted (astar_visit gu end_ false None (maxRoadSpeed g) visited node current P q n) /\
                  Forall (layer P) (astar_visit gu end_ false None (maxRoadSpeed g) visited node current P q n)).
  { unfold bfs_visit, astar_visit. cbn [edgeBetween unit_graph]. rewrite He.
    rewrite (bool_decide_eq_true_2 (Some e ≠ None)) by done. rewrite andb_true_r.
    case_bool_decide; [|done].
    cbn [edge_cost_of edgeCost unit_graph Nat.b2n]. rewrite Nat.mul_0_r, Nat.add_0_r.
    rewrite pq_enqueue_last by (eapply Forall_impl; [exact Hq|]; intros ? [? _]; lia).
    split_and!; [by rewrite fmap_app| |].
    - rewrite <- pq_enqueue_last by (eapply Forall_impl; [exact Hq|]; intros ? [? _]; lia).
      by apply pq_enqueue_sorted.
    - apply Forall_app. split; [done|]. constructor; [|done]. cbn [fst snd]. unfold layer. cbn [fst snd].
      rewrite (pathCost_snoc gu current node n Hl). cbn [edgeBetween unit_graph]. rewrite He. cbn. lia. }
  destruct Hstep as (-> & Hs' & Hq'). apply IH; [|done|done]. intros m Hm. apply Hns. set_solver.
Qed.

Lemma bfs_rel_step st1 st2 : bfs_rel st1 st2 ->
  (exists s' t', bfs_step g end_ st1 = inl s' /\
     astar_step gu end_ false None (maxRoadSpeed g) st2 = inl t' /\ bfs_rel s' t') \/
  (exists r, bfs_step g end_ st1 = inr r /\ astar_step gu end_ false None (maxRoadSpeed g) st2 = inr r).
Proof.
  destruct st1 as [paths visited], st2 as [q visited2].
  intros (Hp & Hv & Hs & L & HL). cbn [fst snd] in *. subst paths visited2.
  destruct q as [|[current pr] q']; [right; by eexists|]. cbn [fmap list_fmap fst].
  unfold bfs_step, astar_step. cbn [pq_dequeue].
  destruct (last current) as [node|] eqn:Hl; [|right; by eexists].
  case_decide; [right; by eexists|]. left.
  apply Forall_cons_1 in HL as [[Hpr Hcost] HL]. cbn [fst snd] in Hpr, Hcost.
  assert (Hq' : Forall (layer pr) q').
  { apply Forall_forall. intros e He. pose proof (pq_sorted_head_min _ _ _ Hs e He).
    rewrite Forall_forall in HL. destruct (HL e He) as [? ?]. split; [lia|done]. }
  destruct (bfs_visit_fold (visited ∪ {[node]}) current node pr (neighborsOf g node) q' Hl (eq_sym Hcost))
    as (Hfold & Hs' & Hl'); [done|by eapply pq_sorted_tail|done|].
  rewrite <- Hcost. eexists _, _. split_and!; [reflexivity|reflexivity|].
  split_and!; [exact Hfold|done|done|by exists pr].
Qed.

(** [breadthFirstSearch] computes what [dijkstrasAlgorithm] computes on
    unit costs, on the same fuel. *)
Lemma bfs_is_dijkstra fuel start :
  breadthFirstSearch g fuel start end_ = dijkstrasAlgorithm gu fuel start end_.
Proof.
  unfold breadthFirstSearch, dijkstrasAlgorithm, aStarHeuristic.
  apply (iter_loop_sim _ _ bfs_rel); [apply bfs_rel_step|].
  split_and!; [done|done|repeat constructor|]. exists 0. repeat constructor.
Qed.

End BFS.

(** BFS returns a route with the fewest roads, or the empty path only
    when no route exists. *)
Lemma bfs_fewest g `{!WfGraph g} fuel start end_ p r :
  breadthFirstSearch g fuel start end_ = Ret p -> route g None start end_ r ->
  p <> [] /\ length p <= length r.
Proof.
  intros Hp Hr. rewrite bfs_is_dijkstra in Hp by done. unfold dijkstrasAlgorithm in Hp.
  assert (Hr' : route (unit_graph g) None start end_ r) by exact Hr.
  destruct (astar_optimal_helper _ _ _ _ _ _ _ _ (consistent_dijkstra _ end_ None) Hp Hr') as [Hne Hle].
  destruct (astar_search_result (unit_graph g) fuel start end_ false None ltac:(by rewrite Hp))
    as (p' & Hp' & Hres). rewrite Hp in Hp'. injection Hp' as <-.
  destruct Hres as [->|(_ & _ & Hw)]; [done|].
  destruct Hr as (Hh & _ & Hwr).
  rewrite (pathCost_unit g p Hw), (pathCost_unit g r Hwr) in Hle.
  destruct p, r; [done|done|done|]. simpl in *. split; [done|lia].
Qed.

Module BFSTheorems.

(** C24. On a well-formed graph, [breadthFirstSearch] computes exactly
    what [dijkstrasAlgorithm] computes when every road costs 1, on the same
    fuel: the FIFO queue of paths behaves as the priority queue ordered by
    number of roads, a new path always going to its back. *)
Theorem breadthFirstSearch_dijkstra_unit g `{!WfGraph g} fuel start end_ :
  breadthFirstSearch g fuel start end_ = dijkstrasAlgorithm (unit_graph g) fuel start end_.
Proof. by apply bfs_is_dijkstra. Qed.

Lemma breadthFirstSearch_dijkstra_unit_witness :
  WfGraph abcd /\ breadthFirstSearch abcd 1000 0 3 = dijkstrasAlgorithm (unit_graph abcd) 1000 0 3.
Proof. split; [exact abcd_wf|apply (breadthFirstSearch_dijkstra_unit abcd)]. Defined.

(** C4. [breadthFirstSearch] returns a route with the fewest roads:
    whenever a route from [start] to [end] exists, the path it returns is
    not empty and has no more nodes than that route. *)
Theorem breadthFirstSearch_fewest_roads g `{!WfGraph g} fuel start end_ p r :
  breadthFirstSearch g fuel start end_ = Ret p -> route g None start end_ r ->
  p <> [] /\ length p <= length r.
Proof. intros Hp Hr. exact (bfs_fewest g fuel start end_ p r Hp Hr). Qed.

Lemma breadthFirstSearch_fewest_roads_witness :
  breadthFirstSearch abcd 1000 0 3 = Ret [0; 3] /\ route abcd None 0 3 [0; 1; 2; 3] /\
  ([0; 3] <> [] /\ length [0; 3] <= length [0; 1; 2; 3]).
Proof.
  assert (Hb : breadthFirstSearch abcd 1000 0 3 = Ret [0; 3]) by (vm_compute; reflexivity).
  assert (Hr : route abcd None 0 3 [0; 1; 2; 3]) by (split_and!; [reflexivity|reflexivity|vm_compute; reflexivity]).
  split; [exact Hb|]. split; [exact Hr|]. exact (breadthFirstSearch_fewest_roads abcd 1000 0 3 _ _ Hb Hr).
Defined.

End BFSTheorems.
