(* ===== verification/AlternativeRoute.v ===== *)
(** * AlternativeRoute.v: path divergence and the alternative-route selector

    [pathDifference] is the share of the best route's nodes that an
    alternative misses; [alternativeRoute] runs one A* search per edge of
    the best route with that edge excluded and keeps, among the results that
    differ by more than [SUFFICIENT_DIFFERENCE] and are not empty, the first
    of least cost.  This file proves both against that description. *)

From S2P Require Import Prelude Graph PQueue Trailblazer SearchSoundness.
From Stdlib Require Import QArith.
Local Open Scope nat_scope.

(** ** [populateSet] and [pathDifference] *)

Lemma elem_of_populateSet p x : x ∈ populateSet p <-> x ∈ p.
Proof.
  unfold populateSet.
  enough (forall acc, x ∈ foldl (fun s n => s ∪ {[n]}) acc p <-> x ∈ acc \/ x ∈ p)
    by (rewrite H; set_solver).
  induction p as [|n p IH]; intros acc; simpl; [set_solver|]. rewrite IH. set_solver.
Qed.

(** A quotient of naturals [a / b] with [a <= b] and [b > 0]. *)
Lemma Qratio_nat a b : a <= b -> 0 < b ->
  let r := (inject_Z (Z.of_nat a) / inject_Z (Z.of_nat b))%Q in
  (0 <= r <= 1)%Q /\ ((r == 0)%Q <-> a = 0) /\ ((r == 1)%Q <-> a = b).
Proof.
  intros Hab Hb r. destruct b as [|b]; [lia|].
  assert (Hr : (r == Z.of_nat a # Pos.of_succ_nat b)%Q).
  { unfold r. rewrite Qmake_Qdiv. rewrite Zpos_P_of_succ_nat, <- Nat2Z.inj_succ. reflexivity. }
  rewrite Hr. unfold Qle, Qeq; simpl. rewrite Zpos_P_of_succ_nat. lia.
Qed.

(** The code's [best.size() - common.size()] is the number of nodes of
    the best route missing from the alternative. *)
Lemma pathDifference_as_ratio p q :
  pathDifference p q =
    (inject_Z (Z.of_nat (size (populateSet p ∖ populateSet q))) /
     inject_Z (Z.of_nat (size (populateSet p))))%Q.
Proof.
  unfold pathDifference. cbv zeta.
  pose proof (size_difference_alt (populateSet p) (populateSet q)) as Hd. rewrite Hd.
  pose proof (subseteq_size (populateSet p ∩ populateSet q) (populateSet p)
                ltac:(set_solver)).
  do 3 f_equal. lia.
Qed.

(** For a non-empty best route, [pathDifference] lies in [0, 1]; it is
    0 exactly when every node of the best route is on the alternative
    (in particular for a path compared with itself) and 1 exactly when the
    two paths share no node. *)
Theorem pathDifference_range p q :
  p <> [] ->
  (0 <= pathDifference p q <= 1)%Q /\
  ((pathDifference p q == 0)%Q <-> forall x, x ∈ p -> x ∈ q) /\
  ((pathDifference p q == 1)%Q <-> forall x, x ∈ p -> x ∉ q).
Proof.
  intros Hp. rewrite pathDifference_as_ratio.
  set (P := populateSet p). set (Q := populateSet q).
  assert (HP : size P <> 0).
  { destruct p as [|x p]; [done|]. apply size_non_empty_iff.
    intros Hempty. assert (x ∈ P) by (apply elem_of_populateSet; set_solver).
    set_solver. }
  pose proof (size_difference_alt P Q) as Hd.
  pose proof (subseteq_size (P ∩ Q) P ltac:(set_solver)) as Hi.
  destruct (Qratio_nat (size (P ∖ Q)) (size P)) as (Hrange & H0 & H1); [lia|lia|].
  split; [exact Hrange|split].
  - rewrite H0, size_empty_iff. unfold P, Q. split.
    + intros He x Hx. destruct (decide (x ∈ q)) as [|Hn]; [done|].
      assert (x ∈ populateSet p ∖ populateSet q)
        by (rewrite elem_of_difference, !elem_of_populateSet; done).
      set_solver.
    + intros Hall. apply elem_of_equiv_empty. intros x.
      rewrite elem_of_difference, !elem_of_populateSet.
      intros [Hx Hn]. by apply Hn, Hall.
  - rewrite H1. assert (size (P ∖ Q) = size P <-> size (P ∩ Q) = 0) as -> by lia.
    rewrite size_empty_iff. unfold P, Q. split.
    + intros He x Hx Hq.
      assert (x ∈ populateSet p ∩ populateSet q)
        by (rewrite elem_of_intersection, !elem_of_populateSet; done).
      set_solver.
    + intros Hall. apply elem_of_equiv_empty. intros x.
      rewrite elem_of_intersection, !elem_of_populateSet.
      intros [Hx Hq]. by apply (Hall x).
Qed.

(** The best route A-B-C-D and the alternative A-D of the spec's scenario. *)
Definition abcd_best : list nat := [0; 1; 2; 3].
Definition abcd_alt : list nat := [0; 3].

Lemma pathDifference_range_witness :
  abcd_best <> [] /\
  (0 <= pathDifference abcd_best abcd_alt <= 1)%Q /\
  ((pathDifference abcd_best abcd_alt == 0)%Q <-> forall x, x ∈ abcd_best -> x ∈ abcd_alt) /\
  ((pathDifference abcd_best abcd_alt == 1)%Q <-> forall x, x ∈ abcd_best -> x ∉ abcd_alt).
Proof. split; [discriminate|]. apply pathDifference_range. discriminate. Defined.

(** ** The selector [alternativeRoute] *)

(** A candidate the selector may keep: it differs from the best route by
    more than [SUFFICIENT_DIFFERENCE] and is not empty. *)
Definition qualifies (bestRoute currentAlt : list nat) : bool :=
  Qltb SUFFICIENT_DIFFERENCE (pathDifference bestRoute currentAlt) &&
  negb (bool_decide (currentAlt = [])).

Section Selector.
Context (g : RoadGraph) (fuel start end_ : nat) (bestRoute : list nat).

(** The loop state [(bestAltCost, altRoute)]: nothing kept yet ([-1] and
    the empty path), or a qualifying candidate with its cost. *)
Definition selector_state (bestAltCost : Z) (altRoute : list nat) : Prop :=
  (bestAltCost = (-1)%Z /\ altRoute = []) \/
  (bestAltCost = Z.of_nat (pathCost g altRoute) /\ qualifies bestRoute altRoute = true).

(** What the loop over [edges] leaves with, from the state [(bc, ar)]. *)
Definition selector_result (edges : list (nat * nat)) (bc : Z) (ar r : list nat) : Prop :=
  (r = [] \/ qualifies bestRoute r = true) /\
  (bc <> (-1)%Z -> r <> [] /\ pathCost g r <= pathCost g ar) /\
  forall a b c, (a, b) ∈ edges ->
    aStarHeuristic g fuel start end_ true (edgeBetween g a b) = Ret c ->
    qualifies bestRoute c = true -> r <> [] /\ pathCost g r <= pathCost g c.

Lemma qualifies_nonempty c : qualifies bestRoute c = true -> c <> [].
Proof. unfold qualifies. intros [_ Hc]%andb_prop. by apply negb_true_iff, bool_decide_eq_false in Hc. Qed.

Lemma alt_loop_cond c bc :
  Qltb SUFFICIENT_DIFFERENCE (pathDifference bestRoute c) &&
  ((Z.of_nat (pathCost g c) <? bc)%Z || (bc =? -1)%Z) && negb (bool_decide (c = [])) =
  qualifies bestRoute c && ((Z.of_nat (pathCost g c) <? bc)%Z || (bc =? -1)%Z).
Proof.
  unfold qualifies. destruct (Qltb _ _), (_ || _), (negb _); reflexivity.
Qed.

Lemma alt_loop_best edges bc ar r :
  selector_state bc ar ->
  alt_loop g fuel start end_ bestRoute edges bc ar = Ret r ->
  selector_result edges bc ar r.
Proof.
  revert bc ar. induction edges as [|[a b] edges IH]; intros bc ar Hst Hrun; simpl in Hrun.
  - injection Hrun as <-. split_and!.
    + destruct Hst as [[_ ->]|[_ ->]]; auto.
    + intros Hbc. destruct Hst as [[-> _]|[_ Hq]]; [done|]. split; [by apply qualifies_nonempty|lia].
    + intros ? ? ? Hin. by apply elem_of_nil in Hin.
  - destruct (res_bind_Ret _ _ _ Hrun) as (c & Hc & Hrun'). clear Hrun.
    rewrite alt_loop_cond in Hrun'.
    destruct (qualifies bestRoute c) eqn:Hq; simpl in Hrun';
      [destruct ((Z.of_nat (pathCost g c) <? bc)%Z || (bc =? -1)%Z) eqn:Hlt|].
    + destruct (IH _ _ (or_intror (conj eq_refl Hq)) Hrun') as (Hr & Hmono & Hall).
      split_and!; [exact Hr| |].
      * intros Hbc. destruct (Hmono ltac:(lia)) as [Hne Hle]. split; [done|].
        destruct Hst as [[-> _]|[-> _]]; [done|].
        apply orb_true_iff in Hlt as [Hlt%Z.ltb_lt|Heq%Z.eqb_eq]; lia.
      * intros a' b' c' [[= -> ->]|Hin]%elem_of_cons Hc' Hq'.
        -- rewrite Hc in Hc'. injection Hc' as <-. apply Hmono. lia.
        -- by apply (Hall a' b').
    + destruct (IH _ _ Hst Hrun') as (Hr & Hmono & Hall).
      split_and!; [exact Hr|exact Hmono|].
      intros a' b' c' [[= -> ->]|Hin]%elem_of_cons Hc' Hq'.
      * rewrite Hc in Hc'. injection Hc' as <-.
        apply orb_false_iff in Hlt as [Hlt%Z.ltb_ge Hneq%Z.eqb_neq].
        destruct (Hmono Hneq) as [Hne Hle]. split; [done|].
        destruct Hst as [[-> _]|[-> _]]; lia.
      * by apply (Hall a' b').
    + destruct (IH _ _ Hst Hrun') as (Hr & Hmono & Hall).
      split_and!; [exact Hr|exact Hmono|].
      intros a' b' c' [[= -> ->]|Hin]%elem_of_cons Hc' Hq'.
      * rewrite Hc in Hc'. injection Hc' as <-. congruence.
      * by apply (Hall a' b').
Qed.
End Selector.

(** C5. [alternativeRoute] keeps the cheapest qualifying candidate: its
    result is empty or differs from the best route by more than 0.2 and is
    not empty, and for every edge of the best route whose exclusion yields a
    qualifying A* route, the result is not empty and costs at most as much. *)
Theorem alternativeRoute_best g fuel start end_ bestRoute r :
  aStar g fuel start end_ = Ret bestRoute ->
  alternativeRoute g fuel start end_ = Ret r ->
  (r = [] \/ qualifies bestRoute r = true) /\
  forall a b c, (a, b) ∈ route_edges bestRoute ->
    aStarHeuristic g fuel start end_ true (edgeBetween g a b) = Ret c ->
    qualifies bestRoute c = true -> r <> [] /\ pathCost g r <= pathCost g c.
Proof.
  intros Hbest Hr. unfold alternativeRoute in Hr. rewrite Hbest in Hr. simpl in Hr.
  destruct (alt_loop_best g fuel start end_ bestRoute _ _ _ _ (or_introl (conj eq_refl eq_refl)) Hr)
    as (H1 & _ & H3).
  split; [exact H1|exact H3].
Qed.

Lemma alternativeRoute_best_witness :
  (aStar abcd 1000 0 3 = Ret abcd_best /\ alternativeRoute abcd 1000 0 3 = Ret abcd_alt) /\
  (abcd_alt = [] \/ qualifies abcd_best abcd_alt = true) /\
  (forall a b c, (a, b) ∈ route_edges abcd_best ->
    aStarHeuristic abcd 1000 0 3 true (edgeBetween abcd a b) = Ret c ->
    qualifies abcd_best c = true -> abcd_alt <> [] /\ pathCost abcd abcd_alt <= pathCost abcd c).
Proof.
  split; [split; vm_compute; reflexivity|].
  apply (alternativeRoute_best abcd 1000 0 3); vm_compute; reflexivity.
Defined.
