(* ===== verification/PatientQueueSpec.v ===== *)
(** * PatientQueueSpec.v: the patient-queue interface and what it promises

    [VectorPatientQueue] and [LinkedListPatientQueue] implement the abstract
    class [PatientQueue] of the assignment ([patientqueue.h], not part of
    the sources), modelled as the typeclass [PatientQueue].  What the class
    promises is stated on the patients in arrival order (a patient whose
    priority is upgraded arrives again): the front patient is the first of
    least priority ([is_front]); [upgradePatient] acts on the first of least
    priority among the patients of that name ([is_named_front]).

    The second half is the library on lists kept in priority order that the
    linked-list refinement uses: [prio_sorted], the per-priority
    subsequences [same_classes] (an equivalence, with [Proper] instances),
    the fact that a sorted list is determined by them
    ([sorted_classes_unique]), and [remove_first]. *)

From S2P Require Import Prelude.
From stdpp Require Import sorting.

Record Patient := mkPatient { name : string; priority : Z }.

#[export] Instance Patient_eq_dec : EqDecision Patient.
Proof. solve_decision. Defined.

#[export] Instance Patient_inhabited : Inhabited Patient := populate (mkPatient "" 0).

(** The operations of the abstract class [PatientQueue]. *)
Class PatientQueue (Q : Type) := {
  pq_create : Q;
  pq_clear : Q -> Q;
  pq_frontName : Q -> res string;
  pq_frontPriority : Q -> res Z;
  pq_isEmpty : Q -> bool;
  pq_newPatient : string -> Z -> Q -> Q;
  pq_processPatient : Q -> res (string * Q);
  pq_upgradePatient : string -> Z -> Q -> res Q;
  pq_toString : Q -> string
}.

(** ** The contract, on the patients in arrival order *)

(** [x] is the first patient of least priority among the patients of [a]
    that satisfy [P]: every such patient before it is less urgent, every
    such patient after it at most as urgent. *)
Definition first_min (P : Patient -> Prop) (a pre : list Patient) (x : Patient)
    (post : list Patient) : Prop :=
  a = pre ++ x :: post /\ P x /\
  (forall y, y ∈ pre -> P y -> (priority x < priority y)%Z) /\
  (forall y, y ∈ post -> P y -> (priority x <= priority y)%Z).

(** The front patient of the queue. *)
Definition is_front : list Patient -> list Patient -> Patient -> list Patient -> Prop :=
  first_min (fun _ => True).

(** The front patient among those named [n]. *)
Definition is_named_front (n : string) : list Patient -> list Patient -> Patient ->
    list Patient -> Prop :=
  first_min (fun y => name y = n).

(** ** Lists in priority order *)

Definition patient_le (x y : Patient) : Prop := (priority x <= priority y)%Z.

#[export] Instance patient_le_dec : RelDecision patient_le :=
  fun x y => decide (priority x <= priority y)%Z.

Definition prio_sorted (l : list Patient) : Prop := Sorted patient_le l.

(** The subsequence of the patients of priority [p], for every [p]. *)
Definition same_classes (l1 l2 : list Patient) : Prop :=
  forall p, filter (fun x => priority x = p) l1 = filter (fun x => priority x = p) l2.

#[export] Instance same_classes_equiv : Equivalence same_classes.
Proof.
  split.
  - intros l p. reflexivity.
  - intros l1 l2 H p. by rewrite H.
  - intros l1 l2 l3 H1 H2 p. by rewrite H1, H2.
Qed.

#[export] Instance same_classes_app : Proper (same_classes ==> same_classes ==> same_classes) (++).
Proof. intros l1 l1' H1 l2 l2' H2 p. by rewrite !filter_app, H1, H2. Qed.

Lemma same_classes_elem l1 l2 x : same_classes l1 l2 -> x ∈ l1 -> x ∈ l2.
Proof.
  intros H Hx. assert (x ∈ filter (fun y => priority y = priority x) l1)
    by (apply list_elem_of_filter; done).
  rewrite H in H0. by apply list_elem_of_filter in H0 as [_ ?].
Qed.

Lemma prio_sorted_head_le x l y : prio_sorted (x :: l) -> y ∈ l -> (priority x <= priority y)%Z.
Proof.
  intros Hs%Sorted_StronglySorted; [|intros a b c; unfold patient_le; lia].
  apply StronglySorted_inv in Hs as [_ Hall]. rewrite Forall_forall in Hall.
  intros Hy. exact (Hall y Hy).
Qed.

Lemma prio_sorted_tail x l : prio_sorted (x :: l) -> prio_sorted l.
Proof. unfold prio_sorted. intros Hs. by apply Sorted_inv in Hs as [? _]. Qed.

(** A list in priority order is determined by its per-priority
    subsequences. *)
Lemma sorted_classes_unique l1 l2 :
  prio_sorted l1 -> prio_sorted l2 -> same_classes l1 l2 -> l1 = l2.
Proof.
  revert l2. induction l1 as [|x l1 IH]; intros l2 S1 S2 C.
  - destruct l2 as [|y l2]; [done|]. specialize (C (priority y)).
    rewrite filter_cons_True in C by done. discriminate.
  - destruct l2 as [|y l2].
    { specialize (C (priority x)). rewrite filter_cons_True in C by done. discriminate. }
    assert (Hxy : priority x = priority y).
    { assert (x ∈ y :: l2) as [->|Hx]%elem_of_cons by (eapply same_classes_elem; [exact C|set_solver]);
        [done|].
      assert (y ∈ x :: l1) as [->|Hy]%elem_of_cons
        by (eapply same_classes_elem; [symmetry; exact C|set_solver]); [done|].
      pose proof (prio_sorted_head_le _ _ _ S1 Hy). pose proof (prio_sorted_head_le _ _ _ S2 Hx).
      lia. }
    pose proof (C (priority x)) as Cx.
    rewrite !filter_cons_True in Cx by done. injection Cx as <- Cx.
    f_equal. apply IH; [by eapply prio_sorted_tail|by eapply prio_sorted_tail|].
    intros p. specialize (C p). rewrite !filter_cons in C.
    case_decide; [|done]. by injection C.
Qed.

(** ** Removing the first patient with a property *)

Fixpoint remove_first (P : Patient -> Prop) `{!forall x, Decision (P x)} (l : list Patient)
    : list Patient :=
  match l with
  | [] => []
  | y :: l' => if decide (P y) then l' else y :: remove_first P l'
  end.

Section RemoveFirst.
Context (P : Patient -> Prop) `{!forall x, Decision (P x)}.

Lemma remove_first_split pre x post :
  (forall y, y ∈ pre -> ~ P y) -> P x -> remove_first P (pre ++ x :: post) = pre ++ post.
Proof.
  intros Hpre Hx. induction pre as [|y pre IH]; simpl; [by rewrite decide_True|].
  rewrite decide_False by (apply Hpre; set_solver). f_equal. apply IH. set_solver.
Qed.

(** Removing a patient of priority [m] changes only the class [m]. *)
Lemma filter_remove_first m q l :
  (forall y, P y -> priority y = m) ->
  filter (fun x => priority x = q) (remove_first P l) =
    if decide (q = m) then remove_first P (filter (fun x => priority x = q) l)
    else filter (fun x => priority x = q) l.
Proof.
  intros Hm. induction l as [|y l IH]; simpl; [by case_decide|].
  destruct (decide (P y)) as [Hy|Hy].
  - rewrite filter_cons. pose proof (Hm y Hy).
    case_decide; case_decide; simpl; try rewrite decide_True by done; subst; try done; lia.
  - rewrite !filter_cons, IH. case_decide; case_decide; simpl; subst;
      try rewrite decide_False by done; done.
Qed.

Lemma same_classes_remove_first m l1 l2 :
  (forall y, P y -> priority y = m) -> same_classes l1 l2 ->
  same_classes (remove_first P l1) (remove_first P l2).
Proof.
  intros Hm Hc q. rewrite !(filter_remove_first m q) by done.
  case_decide; by rewrite Hc.
Qed.

Lemma remove_first_sublist l : sublist (remove_first P l) l.
Proof.
  induction l as [|y l IH]; simpl; [done|].
  case_decide; [by apply sublist_cons|by apply sublist_skip].
Qed.
End RemoveFirst.

Lemma prio_sorted_sublist l1 l2 : sublist l1 l2 -> prio_sorted l2 -> prio_sorted l1.
Proof.
  intros Hsub Hs. apply StronglySorted_Sorted.
  apply Sorted_StronglySorted in Hs; [|intros a b c; unfold patient_le; lia].
  induction Hsub as [|x l1 l2 Hsub IH|x l1 l2 Hsub IH].
  - constructor.
  - apply StronglySorted_inv in Hs as [Hs Hall]. constructor; [by apply IH|].
    rewrite Forall_forall in Hall |- *. intros y Hy. apply Hall.
    by eapply elem_of_sublist.
  - apply StronglySorted_inv in Hs as [Hs _]. by apply IH.
Qed.

(** ** The first patient of least priority *)

Lemma split_lt (pre pre' post post' : list Patient) x x' :
  pre ++ x :: post = pre' ++ x' :: post' -> length pre < length pre' -> x ∈ pre' /\ x' ∈ post.
Proof.
  revert pre'. induction pre as [|z pre IH]; intros [|w pre'] Heq Hlt; simpl in *; try lia.
  - injection Heq as -> ->. set_solver.
  - injection Heq as -> Heq. destruct (IH pre' Heq) as [? ?]; [lia|set_solver].
Qed.

Lemma filter_all_false {A} (P : A -> Prop) `{!forall x, Decision (P x)} (l : list A) :
  (forall y, y ∈ l -> ~ P y) -> filter P l = [].
Proof.
  induction l as [|y l IH]; intros Hl; [done|].
  rewrite filter_cons_False by (apply Hl; set_solver). apply IH. set_solver.
Qed.

Section FirstMin.
Context (P : Patient -> Prop) `{!forall x, Decision (P x)}.

Lemma first_min_le a pre x post y :
  first_min P a pre x post -> y ∈ a -> P y -> (priority x <= priority y)%Z.
Proof.
  intros (-> & _ & Hpre & Hpost) Hy HPy.
  apply elem_of_app in Hy as [Hy|Hy]; [specialize (Hpre y Hy HPy); lia|].
  apply elem_of_cons in Hy as [->|Hy]; [lia|by apply Hpost].
Qed.

(** The decomposition is unique. *)
Lemma first_min_unique a pre x post pre' x' post' :
  first_min P a pre x post -> first_min P a pre' x' post' ->
  pre = pre' /\ x = x' /\ post = post'.
Proof.
  intros H1 H2. pose proof H1 as (Ha & Hx & Hpre & Hpost).
  pose proof H2 as (Ha' & Hx' & Hpre' & Hpost').
  destruct (Nat.lt_total (length pre) (length pre')) as [Hlt|[Heq|Hlt]].
  - destruct (split_lt _ _ _ _ _ _ (eq_trans (eq_sym Ha) Ha') Hlt) as [Hin Hin'].
    specialize (Hpre' x Hin Hx). specialize (Hpost x' Hin' Hx'). lia.
  - rewrite Ha in Ha'. apply app_inj_1 in Ha' as [-> Ht]; [|done]. by injection Ht as -> ->.
  - destruct (split_lt _ _ _ _ _ _ (eq_trans (eq_sym Ha') Ha) Hlt) as [Hin Hin'].
    specialize (Hpre x' Hin Hx'). specialize (Hpost' x Hin' Hx). lia.
Qed.

(** In a list in priority order the first patient with [P] is the first
    of least priority among them. *)
Lemma first_min_sorted l b z c :
  prio_sorted l -> l = b ++ z :: c -> (forall y, y ∈ b -> ~ P y) -> P z ->
  first_min P l b z c.
Proof.
  intros Hs -> Hb Hz. split_and!; [done|done| |].
  - intros y Hy HPy. by destruct (Hb y Hy).
  - intros y Hy _. apply (prio_sorted_head_le z c y); [|done].
    eapply prio_sorted_sublist; [|exact Hs]. by apply sublist_inserts_l.
Qed.

(** Two lists with the same per-priority subsequences have the same first
    patient of least priority with [P], and removing it leaves lists with
    the same per-priority subsequences. *)
Lemma first_min_classes a l pre x post b z c :
  same_classes a l -> first_min P a pre x post -> first_min P l b z c ->
  z = x /\ same_classes (pre ++ post) (b ++ c).
Proof.
  intros Hc H1 H2.
  assert (Hzx : priority z = priority x).
  { pose proof (first_min_le _ _ _ _ z H1) as Hle1. pose proof (first_min_le _ _ _ _ x H2) as Hle2.
    destruct H1 as (-> & Hx & _), H2 as (-> & Hz & _).
    assert (Hxl : x ∈ b ++ z :: c) by (eapply same_classes_elem; [exact Hc|set_solver]).
    assert (Hza : z ∈ pre ++ x :: post)
      by (eapply same_classes_elem; [symmetry; exact Hc|set_solver]).
    specialize (Hle1 Hza Hz). specialize (Hle2 Hxl Hx). lia. }
  set (Pm := fun y => P y /\ priority y = priority x).
  destruct H1 as (Ha & Hx & Hpre & _), H2 as (Hl & Hz & Hb & _).
  assert (Hra : remove_first Pm a = pre ++ post).
  { rewrite Ha. apply remove_first_split; [|done]. intros y Hy [HPy Hp].
    specialize (Hpre y Hy HPy). lia. }
  assert (Hrl : remove_first Pm l = b ++ c).
  { rewrite Hl. apply remove_first_split; [|unfold Pm; done]. intros y Hy [HPy Hp].
    specialize (Hb y Hy HPy). lia. }
  split.
  - assert (Hf : filter P (filter (fun y => priority y = priority x) a) =
                 filter P (filter (fun y => priority y = priority x) l)) by by rewrite Hc.
    rewrite !list_filter_filter, Ha, Hl, !filter_app, !filter_cons_True in Hf by done.
    rewrite !(filter_all_false _ pre), !(filter_all_false _ b) in Hf.
    + by injection Hf.
    + intros y Hy [HPy Hp]. specialize (Hb y Hy HPy). lia.
    + intros y Hy [HPy Hp]. specialize (Hpre y Hy HPy). lia.
  - rewrite <- Hra, <- Hrl. apply (same_classes_remove_first Pm (priority x)); [|done].
    by intros y [_ ?].
Qed.
(** Every list with a patient satisfying [P] has a first patient of least
    priority among them. *)
Lemma first_min_exists a :
  (exists y, y ∈ a /\ P y) -> exists pre x post, first_min P a pre x post.
Proof.
  induction a as [|y a IH]; intros Hex; [by destruct Hex as (? & ?%elem_of_nil & _)|].
  destruct (decide (Exists P a)) as [Ha|Ha].
  - destruct (IH (proj1 (Exists_exists _ _) Ha)) as (pre & x & post & Hm).
    destruct (decide (P y /\ (priority y <= priority x)%Z)) as [[Hy Hle]|Hy].
    + exists [], y, a. split_and!; [done|done|intros ? ?%elem_of_nil; done|].
      intros z Hz HPz. pose proof (first_min_le _ _ _ _ z Hm Hz HPz). lia.
    + destruct Hm as (-> & Hx & Hpre & Hpost). exists (y :: pre), x, post.
      split_and!; [done|done| |done].
      intros z [->|Hz]%elem_of_cons HPz; [|by apply Hpre].
      assert (~ (priority y <= priority x)%Z) by tauto. lia.
  - assert (Hy : P y).
    { destruct Hex as (z & [->|Hz]%elem_of_cons & HPz); [done|].
      destruct Ha. apply Exists_exists. eauto. }
    exists [], y, a. split_and!; [done|done|intros ? ?%elem_of_nil; done|].
    intros z Hz HPz. destruct Ha. apply Exists_exists. eauto.
Qed.
End FirstMin.

(** The first patient of a list that satisfies [P]. *)
Lemma split_first (P : Patient -> Prop) `{!forall x, Decision (P x)} l :
  (exists y, y ∈ l /\ P y) ->
  exists b z c, l = b ++ z :: c /\ (forall y, y ∈ b -> ~ P y) /\ P z.
Proof.
  induction l as [|y l IH]; intros Hex; [by destruct Hex as (? & ?%elem_of_nil & _)|].
  destruct (decide (P y)) as [Hy|Hy]; [exists [], y, l; split_and!; set_solver|].
  destruct IH as (b & z & c & -> & Hb & Hz).
  { destruct Hex as (z & [->|Hz]%elem_of_cons & HPz); [done|eauto]. }
  exists (y :: b), z, c. split_and!; [done| |done]. intros w [->|Hw]%elem_of_cons; auto.
Qed.

(** ** The contract *)

Definition throws {A} (r : res A) : Prop := exists msg, r = Throw msg.

(** What an implementation promises, through a relation [pq_abs] between
    its states and the patients in arrival order.  The laws leave out
    [upgradePatient] on an empty queue. *)
Class PatientQueueLaws (Q : Type) `{!PatientQueue Q} := {
  pq_abs : Q -> list Patient -> Prop;
  law_create : pq_abs pq_create [];
  law_clear q a : pq_abs q a -> pq_abs (pq_clear q) [];
  law_isEmpty q a : pq_abs q a -> pq_isEmpty q = bool_decide (a = []);
  law_empty q : pq_abs q [] ->
    throws (pq_frontName q) /\ throws (pq_frontPriority q) /\ throws (pq_processPatient q);
  law_front q a pre x post : pq_abs q a -> is_front a pre x post ->
    pq_frontName q = Ret (name x) /\ pq_frontPriority q = Ret (priority x) /\
    exists q', pq_processPatient q = Ret (name x, q') /\ pq_abs q' (pre ++ post);
  law_newPatient q a n p : pq_abs q a -> (p < INT_MAX)%Z ->
    pq_abs (pq_newPatient n p q) (a ++ [mkPatient n p]);
  law_upgrade_absent q a n p : pq_abs q a -> a <> [] -> (forall y, y ∈ a -> name y <> n) ->
    throws (pq_upgradePatient n p q);
  law_upgrade_refused q a n p pre x post : pq_abs q a -> is_named_front n a pre x post ->
    (priority x <= p)%Z -> throws (pq_upgradePatient n p q);
  law_upgrade q a n p pre x post : pq_abs q a -> is_named_front n a pre x post ->
    (p < priority x)%Z ->
    exists q', pq_upgradePatient n p q = Ret q' /\ pq_abs q' (pre ++ post ++ [mkPatient n p])
}.
