(* ===== verification/PatientQueueClient.v ===== *)
(** * PatientQueueClient.v: a client of the [PatientQueue] interface

    [run_ops] plays a sequence of calls on any [PatientQueue] and records
    what each returns: the calls of the assignment's interactive menu
    except [toString] (whose format differs between the two classes by
    design: the vector prints arrival order, the list priority order).  A
    thrown [string] is caught and recorded as [ObsError] (the two classes
    word their messages differently), and the queue is left as it was, as
    it is in the code: every [throw] comes before the first write.
    Undefined behaviour ends the run.

    [lawful_run_agree] is proved against [PatientQueueLaws] alone: two
    implementations of the contract give the same observations on every
    sequence whose new priorities are below [INT_MAX] and that does not
    upgrade a patient in an empty queue ([client_ok]). *)

From S2P Require Import Prelude PatientQueueSpec.

Inductive pq_op :=
| OpNewPatient (n : string) (p : Z)
| OpProcessPatient
| OpUpgradePatient (n : string) (p : Z)
| OpFrontName
| OpFrontPriority
| OpIsEmpty
| OpClear.

Inductive pq_obs :=
| ObsDone
| ObsName (s : string)
| ObsPriority (p : Z)
| ObsBool (b : bool)
| ObsError
| ObsUndefined.

Section Client.
Context {Q : Type} `{!PatientQueue Q}.

(** The observation of a call that returns a value and leaves the queue
    unchanged. *)
Definition observe {A} (r : res A) (obs : A -> pq_obs) (k : list pq_obs) : list pq_obs :=
  match r with
  | Ret v => obs v :: k
  | Throw _ => ObsError :: k
  | _ => [ObsUndefined]
  end.

Fixpoint run_ops (q : Q) (ops : list pq_op) : list pq_obs :=
  match ops with
  | [] => []
  | op :: ops' =>
      match op with
      | OpNewPatient n p => ObsDone :: run_ops (pq_newPatient n p q) ops'
      | OpProcessPatient =>
          match pq_processPatient q with
          | Ret (n, q') => ObsName n :: run_ops q' ops'
          | Throw _ => ObsError :: run_ops q ops'
          | _ => [ObsUndefined]
          end
      | OpUpgradePatient n p =>
          match pq_upgradePatient n p q with
          | Ret q' => ObsDone :: run_ops q' ops'
          | Throw _ => ObsError :: run_ops q ops'
          | _ => [ObsUndefined]
          end
      | OpFrontName => observe (pq_frontName q) ObsName (run_ops q ops')
      | OpFrontPriority => observe (pq_frontPriority q) ObsPriority (run_ops q ops')
      | OpIsEmpty => ObsBool (pq_isEmpty q) :: run_ops q ops'
      | OpClear => ObsDone :: run_ops (pq_clear q) ops'
      end
  end.
End Client.

(** The sequences the contract covers, given the number of patients
    waiting. *)
Fixpoint client_ok (size : nat) (ops : list pq_op) : bool :=
  match ops with
  | [] => true
  | OpNewPatient _ p :: ops' => bool_decide (p < INT_MAX)%Z && client_ok (S size) ops'
  | OpProcessPatient :: ops' => client_ok (Nat.pred size) ops'
  | OpUpgradePatient _ _ :: ops' => bool_decide (size ≠ 0) && client_ok size ops'
  | OpClear :: ops' => client_ok 0 ops'
  | _ :: ops' => client_ok size ops'
  end.

Lemma first_min_length P `{!forall x, Decision (P x)} a pre x post :
  first_min P a pre x post -> length a = S (length (pre ++ post)).
Proof. intros (-> & _). rewrite !length_app. simpl. lia. Qed.

Lemma is_front_exists a : a <> [] -> exists pre x post, is_front a pre x post.
Proof.
  intros Hne. apply (first_min_exists (fun _ => True)). destruct a as [|y a]; [done|].
  exists y. set_solver.
Qed.

Section Agree.
Context {Q1 Q2 : Type} `{!PatientQueue Q1, !PatientQueueLaws Q1}
  `{!PatientQueue Q2, !PatientQueueLaws Q2}.

Ltac same_throw H1 H2 :=
  destruct H1 as [? ->], H2 as [? ->].

Lemma lawful_run_agree (q1 : Q1) (q2 : Q2) a ops :
  pq_abs q1 a -> pq_abs q2 a -> client_ok (length a) ops = true ->
  run_ops q1 ops = run_ops q2 ops.
Proof.
  revert q1 q2 a. induction ops as [|op ops IH]; intros q1 q2 a H1 H2 Hok; [done|].
  destruct op as [n p| |n p| | | |]; simpl in Hok |- *.
  - apply andb_true_iff in Hok as [Hp%bool_decide_eq_true_1 Hok]. f_equal.
    apply (IH _ _ (a ++ [mkPatient n p])); [by apply law_newPatient..|].
    by rewrite length_app, Nat.add_comm.
  - destruct (decide (a = [])) as [->|Hne].
    + destruct (law_empty q1 H1) as (_ & _ & [? ->]), (law_empty q2 H2) as (_ & _ & [? ->]).
      f_equal. by apply (IH _ _ []).
    + destruct (is_front_exists a Hne) as (pre & x & post & Hf).
      destruct (law_front q1 a pre x post H1 Hf) as (_ & _ & q1' & -> & H1').
      destruct (law_front q2 a pre x post H2 Hf) as (_ & _ & q2' & -> & H2').
      f_equal. apply (IH _ _ (pre ++ post)); [done|done|].
      by rewrite (first_min_length _ _ _ _ _ Hf) in Hok.
  - apply andb_true_iff in Hok as [Hne%bool_decide_eq_true_1 Hok].
    assert (Ha : a <> []) by (by intros ->).
    destruct (decide (Exists (fun y => name y = n) a)) as [Hex|Hnex].
    + destruct (first_min_exists (fun y => name y = n) a (proj1 (Exists_exists _ _) Hex))
        as (pre & x & post & Hf).
      destruct (decide (priority x <= p)%Z) as [Hle|Hlt].
      * same_throw (law_upgrade_refused q1 a n p pre x post H1 Hf Hle)
          (law_upgrade_refused q2 a n p pre x post H2 Hf Hle).
        f_equal. by apply (IH _ _ a).
      * destruct (law_upgrade q1 a n p pre x post H1 Hf ltac:(lia)) as (q1' & -> & H1').
        destruct (law_upgrade q2 a n p pre x post H2 Hf ltac:(lia)) as (q2' & -> & H2').
        f_equal. apply (IH _ _ _ H1' H2'). rewrite (first_min_length _ _ _ _ _ Hf) in Hok.
        assert (Hl : length (pre ++ post ++ [mkPatient n p]) = S (length (pre ++ post)))
          by (rewrite !length_app; simpl; lia).
        by rewrite Hl.
    + assert (Hn : forall y, y ∈ a -> name y <> n)
        by (intros y Hy Hyn; apply Hnex, Exists_exists; eauto).
      same_throw (law_upgrade_absent q1 a n p H1 Ha Hn) (law_upgrade_absent q2 a n p H2 Ha Hn).
      f_equal. by apply (IH _ _ a).
  - destruct (decide (a = [])) as [->|Hne].
    + destruct (law_empty q1 H1) as ([? ->] & _), (law_empty q2 H2) as ([? ->] & _).
      simpl. f_equal. by apply (IH _ _ []).
    + destruct (is_front_exists a Hne) as (pre & x & post & Hf).
      destruct (law_front q1 a pre x post H1 Hf) as (-> & _).
      destruct (law_front q2 a pre x post H2 Hf) as (-> & _).
      simpl. f_equal. by apply (IH _ _ a).
  - destruct (decide (a = [])) as [->|Hne].
    + destruct (law_empty q1 H1) as (_ & [? ->] & _), (law_empty q2 H2) as (_ & [? ->] & _).
      simpl. f_equal. by apply (IH _ _ []).
    + destruct (is_front_exists a Hne) as (pre & x & post & Hf).
      destruct (law_front q1 a pre x post H1 Hf) as (_ & -> & _).
      destruct (law_front q2 a pre x post H2 Hf) as (_ & -> & _).
      simpl. f_equal. by apply (IH _ _ a).
  - rewrite (law_isEmpty q1 a H1), (law_isEmpty q2 a H2). f_equal. by apply (IH _ _ a).
  - f_equal. apply (IH _ _ []); [by eapply law_clear..|done].
Qed.
End Agree.
