(* ===== verification/VectorPatientQueue.v ===== *)
(** * VectorPatientQueue.v: [src/PatientQueue/src/VectorPatientQueue.cpp]

    The queue is the unsorted [Vector<Patient> patients], in arrival order.
    One definition per method, with the same name, in [Module
    VectorPatientQueue]; [getMostUrgentIndex] and the search loop of
    [upgradePatient] are [foldl]s of their loop bodies over [seq 0 n].
    [VectorPQ_queue] is the class as an instance of the interface.  This
    file holds the model only; its theorems are in
    [VectorPatientQueueProofs.v]. *)

From S2P Require Import Prelude PatientQueueSpec.
From stdpp Require Import pretty.

Record VectorPQ := { patients : list Patient }.

Module VectorPatientQueue.

Definition empty_error : string := "Error. There are no patients in the queue.".
Definition absent_error : string := "This patient is not present in the queue.".
Definition more_urgent_error : string := "This patient already has a more urgent priority.".

(** The constructor: an empty [Vector]. *)
Definition create : VectorPQ := {| patients := [] |}.

Definition clear (q : VectorPQ) : VectorPQ := {| patients := [] |}.

Definition isEmpty (q : VectorPQ) : bool := bool_decide (patients q = []).

(** [getMostUrgentIndex]: [index] starts at 0 and moves to [i] when
    [patients[index].priority > patients[i].priority].  [patients[i]] is
    [!!!]; every index read is below [patients.size()]. *)
Definition getMostUrgentIndex (q : VectorPQ) : nat :=
  let ps := patients q in
  foldl (fun index i =>
           if decide (i ≠ index) then
             let urgent := priority (ps !!! index) in
             let current := priority (ps !!! i) in
             if bool_decide (urgent > current)%Z then i else index
           else index) 0 (seq 0 (length ps)).

Definition frontName (q : VectorPQ) : res string :=
  if isEmpty q then Throw empty_error
  else let urgentIndex := getMostUrgentIndex q in Ret (name (patients q !!! urgentIndex)).

Definition frontPriority (q : VectorPQ) : res Z :=
  if isEmpty q then Throw empty_error
  else let urgentIndex := getMostUrgentIndex q in Ret (priority (patients q !!! urgentIndex)).

(** [patients.add(patientNew)]. *)
Definition newPatient (n : string) (p : Z) (q : VectorPQ) : VectorPQ :=
  {| patients := patients q ++ [mkPatient n p] |}.

Definition processPatient (q : VectorPQ) : res (string * VectorPQ) :=
  if isEmpty q then Throw empty_error
  else
    (let* nameMostUrgent := frontName q in
     let indexMostUrgent := getMostUrgentIndex q in
     Ret (nameMostUrgent, {| patients := delete indexMostUrgent (patients q) |}))%res.

(** The body of the search loop of [upgradePatient], on
    [(index, currentPriority)]. *)
Definition upgrade_body (n : string) (ps : list Patient) (st : Z * Z) (i : nat) : Z * Z :=
  let '(index, currentPriority) := st in
  if bool_decide (name (ps !!! i) = n) && bool_decide (priority (ps !!! i) < currentPriority)%Z
  then (Z.of_nat i, priority (ps !!! i))
  else (index, currentPriority).

Definition upgradePatient (n : string) (newPriority : Z) (q : VectorPQ) : res VectorPQ :=
  let ps := patients q in
  let '(index, currentPriority) :=
    foldl (upgrade_body n ps) ((-1)%Z, INT_MAX) (seq 0 (length ps)) in
  if (index =? -1)%Z then Throw absent_error
  else if (currentPriority <=? newPriority)%Z then Throw more_urgent_error
  else
    let tempName := name (ps !!! Z.to_nat index) in
    Ret (newPatient tempName newPriority {| patients := delete (Z.to_nat index) ps |}).

(** [toString]: ["{p:name, p:name}"] in the order of the vector. *)
Definition toString (q : VectorPQ) : string :=
  let ps := patients q in
  let queueSize := length ps in
  "{" +:+ foldl (fun result i =>
                   let result := result +:+ pretty (priority (ps !!! i)) +:+ ":" +:+
                                 name (ps !!! i) in
                   if bool_decide (i ≠ queueSize - 1) then result +:+ ", " else result)
                "" (seq 0 queueSize) +:+ "}".

End VectorPatientQueue.

#[export] Instance VectorPQ_queue : PatientQueue VectorPQ := {
  pq_create := VectorPatientQueue.create;
  pq_clear := VectorPatientQueue.clear;
  pq_frontName := VectorPatientQueue.frontName;
  pq_frontPriority := VectorPatientQueue.frontPriority;
  pq_isEmpty := VectorPatientQueue.isEmpty;
  pq_newPatient := VectorPatientQueue.newPatient;
  pq_processPatient := VectorPatientQueue.processPatient;
  pq_upgradePatient := VectorPatientQueue.upgradePatient;
  pq_toString := VectorPatientQueue.toString
}.
