(* ===== verification/VectorPatientQueueProofs.v ===== *)
(** * VectorPatientQueueProofs.v: what [VectorPatientQueue.cpp] computes

    [getMostUrgentIndex] finds the first patient of least priority; the
    search loop of [upgradePatient] finds the first patient of least
    priority with the given name when that priority is below the sentinel
    [INT_MAX]; the vector queue satisfies [PatientQueueLaws] with the
    identity abstraction (all priorities below [INT_MAX]); and every
    branch of [processPatient] and [upgradePatient] is characterised. *)

From S2P Require Import Prelude PatientQueueSpec VectorPatientQueue.

(** ** The first of least priority, by indices *)

Section ByIndex.
Context (P : Patient -> Prop) `{!forall x, Decision (P x)}.

Lemma first_min_of_index (ps : list Patient) (i : nat) :
  i < length ps -> P (ps !!! i) ->
  (forall j, j < i -> P (ps !!! j) -> (priority (ps !!! i) < priority (ps !!! j))%Z) ->
  (forall j, i < j < length ps -> P (ps !!! j) -> (priority (ps !!! i) <= priority (ps !!! j))%Z) ->
  first_min P ps (take i ps) (ps !!! i) (drop (S i) ps).
Proof.
  intros Hi HP Hpre Hpost. split_and!; [|done| |].
  - symmetry. apply take_drop_middle. by apply list_lookup_lookup_total_lt.
  - intros y (j & Hj & Hji)%elem_of_take HPy.
    apply list_lookup_total_correct in Hj as Hy. subst y. by apply Hpre.
  - intros y (j & Hj)%list_elem_of_lookup HPy. rewrite lookup_drop in Hj.
    pose proof (lookup_lt_Some _ _ _ Hj).
    apply list_lookup_total_correct in Hj. subst y. apply Hpost; [lia|done].
Qed.
End ByIndex.

Module VectorPatientQueueFacts.
Import VectorPatientQueue.

(** [getMostUrgentIndex] finds the front patient. *)
Lemma getMostUrgentIndex_front q :
  patients q <> [] ->
  let i := getMostUrgentIndex q in
  is_front (patients q) (take i (patients q)) (patients q !!! i) (drop (S i) (patients q)).
Proof.
  intros Hne. unfold getMostUrgentIndex. set (ps := patients q) in *.
  assert (Hlen : 0 < length ps) by (destruct ps; simpl; [done|lia]).
  set (Inv := fun k index =>
         index < length ps /\ (index < k \/ index = 0) /\
         (forall j, j < k -> j < index -> (priority (ps !!! index) < priority (ps !!! j))%Z) /\
         (forall j, j < k -> (priority (ps !!! index) <= priority (ps !!! j))%Z)).
  assert (Hinv : Inv (length ps) (foldl (fun index i =>
           if decide (i ≠ index) then
             if bool_decide (priority (ps !!! index) > priority (ps !!! i))%Z then i else index
           else index) 0 (seq 0 (length ps)))).
  { apply foldl_seq_inv.
    - split_and!; [lia|lia|intros; lia|intros; lia].
    - intros k index Hk (Hil & Hik & Hlt & Hle). case_decide as Hne'.
      + case_bool_decide as Hgt.
        * split_and!; [lia|lia| |].
          -- intros j Hj Hjk. specialize (Hle j ltac:(lia)). lia.
          -- intros j Hj. destruct (decide (j = k)) as [->|]; [lia|].
             specialize (Hle j ltac:(lia)). lia.
        * split_and!; [lia|lia| |].
          -- intros j Hj Hji. destruct (decide (j = k)) as [->|]; [lia|]. apply Hlt; lia.
          -- intros j Hj. destruct (decide (j = k)) as [->|]; [lia|]. apply Hle; lia.
      + subst index. split_and!; [lia|lia| |].
        * intros j Hj Hji. apply Hlt; lia.
        * intros j Hj. destruct (decide (j = k)) as [->|]; [lia|]. apply Hle; lia. }
  destruct Hinv as (Hil & _ & Hlt & Hle).
  apply first_min_of_index; [done|done| |].
  - intros j Hj _. apply Hlt; lia.
  - intros j Hj _. apply Hle; lia.
Qed.

Lemma upgrade_body_cases n ps index cur i :
  (name (ps !!! i) = n /\ (priority (ps !!! i) < cur)%Z /\
     upgrade_body n ps (index, cur) i = (Z.of_nat i, priority (ps !!! i))) \/
  ((name (ps !!! i) = n -> (cur <= priority (ps !!! i))%Z) /\
     upgrade_body n ps (index, cur) i = (index, cur)).
Proof.
  unfold upgrade_body.
  destruct (decide (name (ps !!! i) = n)) as [Hn|Hn],
    (decide (priority (ps !!! i) < cur)%Z) as [Hp|Hp];
    rewrite ?bool_decide_true, ?bool_decide_false by done; simpl.
  - by left.
  - right. split; [lia|done].
  - right. split; [done|done].
  - right. split; [done|done].
Qed.

(** The search loop of [upgradePatient] either finds no patient named [n]
    of priority below [INT_MAX], or the first of least priority of them. *)
Lemma upgrade_search n ps :
  let '(index, cur) := foldl (upgrade_body n ps) ((-1)%Z, INT_MAX) (seq 0 (length ps)) in
  (index = (-1)%Z /\ (forall y, y ∈ ps -> name y = n -> (INT_MAX <= priority y)%Z)) \/
  (exists i, index = Z.of_nat i /\ cur = priority (ps !!! i) /\ (cur < INT_MAX)%Z /\
     is_named_front n ps (take i ps) (ps !!! i) (drop (S i) ps)).
Proof.
  set (Inv := fun k (st : Z * Z) =>
    (st = ((-1)%Z, INT_MAX) /\
       forall j, j < k -> name (ps !!! j) = n -> (INT_MAX <= priority (ps !!! j))%Z) \/
    (exists i, i < k /\ st = (Z.of_nat i, priority (ps !!! i)) /\ name (ps !!! i) = n /\
       (priority (ps !!! i) < INT_MAX)%Z /\
       (forall j, j < k -> j < i -> name (ps !!! j) = n ->
          (priority (ps !!! i) < priority (ps !!! j))%Z) /\
       (forall j, j < k -> name (ps !!! j) = n ->
          (priority (ps !!! i) <= priority (ps !!! j))%Z))).
  assert (Hinv : Inv (length ps) (foldl (upgrade_body n ps) ((-1)%Z, INT_MAX) (seq 0 (length ps)))).
  { apply foldl_seq_inv; [left; split; [done|intros; lia]|].
    intros k [index cur] Hk Hi.
    destruct (upgrade_body_cases n ps index cur k) as [(Hn & Hlt & ->)|(Hge & ->)].
    - right. exists k. split_and!; [lia|done|done| | |].
      + destruct Hi as [([= -> ->] & _)|(i & _ & [= -> ->] & _ & Hmax & _)]; lia.
      + intros j Hj Hjk Hjn. destruct Hi as [([= -> ->] & Hall)|(i & Hik & [= -> ->] & _ & _ & _ & Hle)].
        * specialize (Hall j ltac:(lia) Hjn). lia.
        * specialize (Hle j ltac:(lia) Hjn). lia.
      + intros j Hj Hjn. destruct (decide (j = k)) as [->|]; [lia|].
        destruct Hi as [([= -> ->] & Hall)|(i & Hik & [= -> ->] & _ & _ & _ & Hle)].
        * specialize (Hall j ltac:(lia) Hjn). lia.
        * specialize (Hle j ltac:(lia) Hjn). lia.
    - destruct Hi as [(Heq & Hall)|(i & Hik & Heq & Hn & Hmax & Hlt & Hle)].
      + left. split; [done|]. injection Heq as -> ->.
        intros j Hj Hjn. destruct (decide (j = k)) as [->|]; [by apply Hge|]. apply Hall; [lia|done].
      + right. exists i. injection Heq as -> ->. split_and!; [lia|done|done|done| |].
        * intros j Hj Hji Hjn. apply Hlt; [lia|done|done].
        * intros j Hj Hjn. destruct (decide (j = k)) as [->|]; [by apply Hge|]. apply Hle; [lia|done]. }
  destruct (foldl _ _ _) as [index cur].
  destruct Hinv as [([= -> ->] & Hall)|(i & Hi & [= -> ->] & Hn & Hmax & Hlt & Hle)].
  - left. split; [done|]. intros y (j & Hj)%list_elem_of_lookup Hyn.
    pose proof (lookup_lt_Some _ _ _ Hj). apply list_lookup_total_correct in Hj. subst y.
    by apply Hall.
  - right. exists i. split_and!; [done|done|done|].
    apply first_min_of_index; [done|done| |].
    + intros j Hj Hjn. apply Hlt; [lia|lia|done].
    + intros j Hj Hjn. apply Hle; [lia|done].
Qed.

(** Every branch of [upgradePatient]. *)
Lemma upgradePatient_cases q n p :
  (upgradePatient n p q = Throw absent_error /\
     forall y, y ∈ patients q -> name y = n -> (INT_MAX <= priority y)%Z) \/
  (exists pre x post, is_named_front n (patients q) pre x post /\ (priority x < INT_MAX)%Z /\
     upgradePatient n p q =
       if (priority x <=? p)%Z then Throw more_urgent_error
       else Ret {| patients := pre ++ post ++ [mkPatient n p] |}).
Proof.
  unfold upgradePatient. pose proof (upgrade_search n (patients q)) as Hs.
  destruct (foldl _ _ _) as [index cur].
  destruct Hs as [(-> & Hall)|(i & -> & -> & Hmax & Hf)]; [by left|right].
  exists (take i (patients q)), (patients q !!! i), (drop (S i) (patients q)).
  split_and!; [done|done|].
  rewrite (proj2 (Z.eqb_neq _ _)) by lia. rewrite Nat2Z.id.
  destruct Hf as (_ & Hn & _). rewrite Hn.
  destruct (_ <=? _)%Z; [done|]. unfold newPatient; simpl. by rewrite delete_take_drop, <- app_assoc.
Qed.

Lemma vector_not_empty q pre x post : patients q = pre ++ x :: post -> isEmpty q = false.
Proof. intros Hq. unfold isEmpty. rewrite Hq. by destruct pre. Qed.
End VectorPatientQueueFacts.

(** ** The vector queue satisfies the contract *)

Definition vector_abs (q : VectorPQ) (a : list Patient) : Prop :=
  patients q = a /\ Forall (fun y => (priority y < INT_MAX)%Z) a.

Module VectorLaws.
Import VectorPatientQueue VectorPatientQueueFacts.

Lemma vector_law_front q a pre x post : vector_abs q a -> is_front a pre x post ->
  frontName q = Ret (name x) /\ frontPriority q = Ret (priority x) /\
  exists q', processPatient q = Ret (name x, q') /\ vector_abs q' (pre ++ post).
Proof.
  intros [Hq Hall] Hf. pose proof Hf as (Ha & _).
  assert (Hne : patients q <> []) by (rewrite Hq, Ha; by destruct pre).
  pose proof (getMostUrgentIndex_front q Hne) as Hg. rewrite Hq in Hg.
  destruct (first_min_unique _ _ _ _ _ _ _ _ Hf Hg) as (Hpre & Hx & Hpost).
  unfold processPatient, frontName, frontPriority.
  rewrite (vector_not_empty q pre x post) by congruence. simpl.
  rewrite Hq, <- Hx. split_and!; [done|done|].
  eexists. split; [reflexivity|]. split; [|rewrite Ha, Forall_app, Forall_cons in Hall; apply Forall_app; tauto].
  simpl. rewrite delete_take_drop, <- Hq. by rewrite Hpre, Hpost, Hq.
Qed.

Lemma vector_law_upgrade q a n p pre x post : vector_abs q a -> is_named_front n a pre x post ->
  upgradePatient n p q =
    if (priority x <=? p)%Z then Throw more_urgent_error
    else Ret {| patients := pre ++ post ++ [mkPatient n p] |}.
Proof.
  intros [<- Hall] Hf. destruct (upgradePatient_cases q n p) as [(_ & Habs)|(pre' & x' & post' & Hf' & _ & ->)].
  - exfalso. destruct Hf as (Ha & Hn & _). rewrite Forall_forall in Hall.
    assert (Hx : x ∈ patients q) by (rewrite Ha; set_solver).
    specialize (Habs x Hx Hn). specialize (Hall x Hx). lia.
  - by destruct (first_min_unique _ _ _ _ _ _ _ _ Hf Hf') as (<- & <- & <-).
Qed.
End VectorLaws.

#[export] Program Instance VectorPQ_laws : PatientQueueLaws VectorPQ := {
  pq_abs := vector_abs
}.
Next Obligation. by split. Qed.
Next Obligation. by split. Qed.
Next Obligation. intros q a [<- _]. done. Qed.
Next Obligation. intros [ps] [Hq _]. simpl in Hq. subst ps. split_and!; eexists; reflexivity. Qed.
Next Obligation. intros q a pre x post Habs Hf. exact (VectorLaws.vector_law_front q a pre x post Habs Hf). Qed.
Next Obligation.
  intros q a n p [Hq Hall] Hp. split; [simpl; by rewrite Hq|]. apply Forall_app. by split; [|constructor].
Qed.
Next Obligation.
  intros q a n p Habs Hne Hn. simpl. destruct (VectorPatientQueueFacts.upgradePatient_cases q n p)
    as [(-> & _)|(pre & x & post & (Ha & Hxn & _) & _)]; [by eexists|].
  exfalso. destruct Habs as [Hq _]. apply (Hn x); [|done]. rewrite <- Hq, Ha. set_solver.
Qed.
Next Obligation.
  intros q a n p pre x post Habs Hf Hle. simpl. erewrite VectorLaws.vector_law_upgrade by done.
  rewrite (proj2 (Z.leb_le _ _)) by lia. by eexists.
Qed.
Next Obligation.
  intros q a n p pre x post Habs Hf Hlt. simpl. erewrite VectorLaws.vector_law_upgrade by done.
  rewrite (proj2 (Z.leb_gt _ _)) by lia. eexists. split; [reflexivity|].
  destruct Habs as [_ Hall], Hf as (-> & _). split; [done|].
  rewrite Forall_app, Forall_cons in Hall. rewrite !Forall_app, Forall_singleton.
  split_and!; [tauto|tauto|simpl; lia].
Qed.

(** ** The result of each operation *)

Module VectorTheorems.
Import VectorPatientQueue VectorPatientQueueFacts.

(** [processPatient] returns the name of the first patient of least
    priority and removes exactly that patient; on an empty queue it
    throws. *)
Theorem vector_processPatient_spec q n q' :
  processPatient q = Ret (n, q') <->
  exists pre x post, is_front (patients q) pre x post /\ n = name x /\
                     patients q' = pre ++ post.
Proof.
  destruct (decide (patients q = [])) as [Hnil|Hne].
  { unfold processPatient, isEmpty. rewrite bool_decide_true by done. split; [done|].
    intros (pre & x & post & (Ha & _) & _). rewrite Hnil in Ha. by destruct pre. }
  pose proof (getMostUrgentIndex_front q Hne) as Hg. simpl in Hg.
  assert (Hp : processPatient q =
    Ret (name (patients q !!! getMostUrgentIndex q),
         {| patients := take (getMostUrgentIndex q) (patients q) ++
                        drop (S (getMostUrgentIndex q)) (patients q) |})).
  { unfold processPatient, frontName, isEmpty. rewrite bool_decide_false by done.
    simpl. by rewrite delete_take_drop. }
  rewrite Hp. split.
  - intros [= <- <-]. eexists _, _, _. split_and!; [exact Hg|done|done].
  - intros (pre & x & post & Hf & -> & Hq').
    destruct (first_min_unique _ _ _ _ _ _ _ _ Hf Hg) as (-> & -> & ->).
    destruct q'. simpl in Hq'. by subst.
Qed.

(** Every branch of [upgradePatient]: it succeeds exactly when the
    first patient of least priority named [n] has a priority below
    [INT_MAX] and above [p], and then moves that patient to the back with
    priority [p]; it reports "more urgent" when that priority is at most
    [p]; it reports "not present" exactly when every patient named [n]
    has priority [INT_MAX] or more (in particular when there is none). *)
Theorem vector_upgradePatient_spec q n p :
  (forall q', upgradePatient n p q = Ret q' <->
     exists pre x post, is_named_front n (patients q) pre x post /\
       (priority x < INT_MAX)%Z /\ (p < priority x)%Z /\
       patients q' = pre ++ post ++ [mkPatient n p]) /\
  (upgradePatient n p q = Throw more_urgent_error <->
     exists pre x post, is_named_front n (patients q) pre x post /\
       (priority x < INT_MAX)%Z /\ (priority x <= p)%Z) /\
  (upgradePatient n p q = Throw absent_error <->
     forall y, y ∈ patients q -> name y = n -> (INT_MAX <= priority y)%Z).
Proof.
  destruct (upgradePatient_cases q n p) as [(-> & Habs)|(pre & x & post & Hf & Hmax & ->)].
  - assert (Hno : forall pre x post, is_named_front n (patients q) pre x post ->
                  (priority x < INT_MAX)%Z -> False).
    { intros pre x post (Ha & Hn & _) Hx. assert (Hin : x ∈ patients q) by (rewrite Ha; set_solver).
      specialize (Habs x Hin Hn). lia. }
    split_and!; [|split|split]; try done.
    + intros q'. split; [done|]. intros (pre & x & post & Hf & Hx & _). by destruct (Hno _ _ _ Hf Hx).
    + intros (pre & x & post & Hf & Hx & _). by destruct (Hno _ _ _ Hf Hx).
  - assert (Huniq : forall pre' x' post', is_named_front n (patients q) pre' x' post' ->
                    pre' = pre /\ x' = x /\ post' = post)
      by (intros ??? Hf'; by destruct (first_min_unique _ _ _ _ _ _ _ _ Hf' Hf) as (-> & -> & ->)).
    destruct (Z.leb_spec (priority x) p) as [Hle|Hlt]; split_and!.
    + intros q'. split; [done|]. intros (? & ? & ? & (->&->&->)%Huniq & _ & ? & _). lia.
    + split; [|done]. intros _. eauto 10.
    + split; [done|]. intros Habs. destruct Hf as (Ha & Hn & _).
      assert (Hin : x ∈ patients q) by (rewrite Ha; set_solver). specialize (Habs x Hin Hn). lia.
    + intros [ps']. split.
      * intros [= <-]. eexists _, _, _. split_and!; [exact Hf|done|lia|done].
      * intros (? & ? & ? & (->&->&->)%Huniq & _ & _ & Hq'). simpl in Hq'. by subst.
    + split; [done|]. intros (? & ? & ? & (->&->&->)%Huniq & _ & ?). lia.
    + split; [done|]. intros Habs. destruct Hf as (Ha & Hn & _).
      assert (Hin : x ∈ patients q) by (rewrite Ha; set_solver). specialize (Habs x Hin Hn). lia.
Qed.

(** C33. The search of [upgradePatient] starts from
    [currentPriority = INT_MAX] and keeps only strictly smaller
    priorities: a patient waiting with priority [INT_MAX] is reported as
    not present in the queue. *)
Theorem vector_upgrade_int_max q n p :
  Forall (fun y => name y = n -> priority y = INT_MAX) (patients q) ->
  upgradePatient n p q = Throw absent_error.
Proof.
  intros Hall. rewrite Forall_forall in Hall.
  destruct (upgradePatient_cases q n p) as [(-> & _)|(pre & x & post & (Ha & Hn & _) & Hmax & _)];
    [done|exfalso].
  assert (Hin : x ∈ patients q) by (rewrite Ha; set_solver). specialize (Hall x Hin Hn). lia.
Qed.

(** The patient ["Ann"] waits with priority [INT_MAX]; upgrading her
    reports that she is not present. *)
Lemma vector_upgrade_int_max_witness :
  Forall (fun y => name y = "Ann" -> priority y = INT_MAX)
    (patients {| patients := [mkPatient "Ann" INT_MAX] |}) /\
  upgradePatient "Ann" 1 {| patients := [mkPatient "Ann" INT_MAX] |} = Throw absent_error.
Proof. split; [decide_by_eval|apply vector_upgrade_int_max; decide_by_eval]. Defined.
End VectorTheorems.
