(* ===== verification/LinkedListPatientQueue.v ===== *)
(** * LinkedListPatientQueue.v: [src/PatientQueue/src/LinkedListPatientQueue.cpp]

    The queue is the chain of [PatientNode]s from [start], as the list of
    their [(name, priority)] in chain order; [NULL] is the empty list.  Each
    pointer walk is a [Fixpoint] on that list: [insert_walk] is the loop of
    [newPatient] (the node goes before the first node of greater priority),
    [upgrade_walk] the loop of [upgradePatient] (which reads [node->name]
    before testing [node] for [NULL]: on an empty queue it is undefined),
    [clear_walk] and [toString_walk] the loops of [clear] and [toString].

    [LinkedListPQ_queue] is the class as an instance of the interface.
    This file holds the model only; its theorems are in
    [LinkedListPatientQueueProofs.v]. *)

From S2P Require Import Prelude PatientQueueSpec.
From stdpp Require Import pretty.

Record LinkedListPQ := { start : list Patient }.

Module LinkedListPatientQueue.

Definition empty_error : string := "The queue is empty.".
Definition absent_error : string := "This patient is not in the queue.".
Definition more_urgent_error : string := "The patient already has a more urgent priority.".
Definition null_deref : string := "node->name with node == NULL".

(** The constructor: [start = NULL]. *)
Definition create : LinkedListPQ := {| start := [] |}.

(** [while (start != NULL) { ... start = start->next; delete temp; }] *)
Fixpoint clear_walk (l : list Patient) : list Patient :=
  match l with
  | [] => []
  | _ :: next => clear_walk next
  end.

Definition clear (q : LinkedListPQ) : LinkedListPQ := {| start := clear_walk (start q) |}.

Definition isEmpty (q : LinkedListPQ) : bool := bool_decide (start q = []).

Definition frontName (q : LinkedListPQ) : res string :=
  match start q with
  | [] => Throw empty_error
  | node :: _ => Ret (name node)
  end.

Definition frontPriority (q : LinkedListPQ) : res Z :=
  match start q with
  | [] => Throw empty_error
  | node :: _ => Ret (priority node)
  end.

(** The loop of [newPatient]: walk past the nodes with
    [current->priority <= node->priority] and link [node] in before
    [current]. *)
Fixpoint insert_walk (node : Patient) (current : list Patient) : list Patient :=
  match current with
  | [] => [node]
  | c :: next =>
      if bool_decide (priority c > priority node)%Z then node :: current
      else c :: insert_walk node next
  end.

Definition newPatient (n : string) (p : Z) (q : LinkedListPQ) : LinkedListPQ :=
  {| start := insert_walk (mkPatient n p) (start q) |}.

Definition processPatient (q : LinkedListPQ) : res (string * LinkedListPQ) :=
  match start q with
  | [] => Throw empty_error
  | node :: next => Ret (name node, {| start := next |})
  end.

(** The loop [while (node->name != name)] of [upgradePatient]: the nodes
    passed ([previous] and before), the node found, and the nodes after
    it. *)
Fixpoint upgrade_walk (n : string) (previous node : list Patient)
    : res (list Patient * Patient * list Patient) :=
  match node with
  | [] => Undef null_deref
  | nd :: next =>
      if bool_decide (name nd ≠ n) then
        match next with
        | [] => Throw absent_error
        | _ :: _ => upgrade_walk n (previous ++ [nd]) next
        end
      else Ret (previous, nd, next)
  end.

Definition upgradePatient (n : string) (newPriority : Z) (q : LinkedListPQ)
    : res LinkedListPQ :=
  (let* found := upgrade_walk n [] (start q) in
   let '(before, node, after) := found in
   if (priority node <=? newPriority)%Z then Throw more_urgent_error
   else
     let* q' := match before with
                | [] => let* r := processPatient q in Ret (snd r)
                | _ :: _ => Ret {| start := before ++ after |}
                end in
     Ret (newPatient n newPriority q'))%res.

(** The loop of [toString]. *)
Fixpoint toString_walk (node : list Patient) (result : string) : string :=
  match node with
  | [] => result
  | nd :: next =>
      let result := result +:+ pretty (priority nd) +:+ ":" +:+ name nd in
      let result := match next with [] => result | _ :: _ => result +:+ ", " end in
      toString_walk next result
  end.

Definition toString (q : LinkedListPQ) : string := toString_walk (start q) "{" +:+ "}".

End LinkedListPatientQueue.

#[export] Instance LinkedListPQ_queue : PatientQueue LinkedListPQ := {
  pq_create := LinkedListPatientQueue.create;
  pq_clear := LinkedListPatientQueue.clear;
  pq_frontName := LinkedListPatientQueue.frontName;
  pq_frontPriority := LinkedListPatientQueue.frontPriority;
  pq_isEmpty := LinkedListPatientQueue.isEmpty;
  pq_newPatient := LinkedListPatientQueue.newPatient;
  pq_processPatient := LinkedListPatientQueue.processPatient;
  pq_upgradePatient := LinkedListPatientQueue.upgradePatient;
  pq_toString := LinkedListPatientQueue.toString
}.
