(* ===== verification/LinkedListPatientQueueProofs.v ===== *)
(** * LinkedListPatientQueueProofs.v: what [LinkedListPatientQueue.cpp] computes

    The walk of [newPatient] links a node in behind every node of at most
    its priority; the walk of [upgradePatient] finds the first node with
    the name, and reads [NULL] on an empty queue.  The chain stays in
    priority order, and through [ll_abs] (same per-priority subsequences
    as the patients in arrival order) the linked-list queue satisfies
    [PatientQueueLaws]. *)

From S2P Require Import Prelude PatientQueueSpec LinkedListPatientQueue.

Module LinkedListFacts.
Import LinkedListPatientQueue.

Lemma insert_walk_sorted x l : prio_sorted l -> prio_sorted (insert_walk x l).
Proof.
  unfold prio_sorted. induction 1 as [|c l Hs IH Hhd]; simpl; [by repeat constructor|].
  case_bool_decide as Hgt.
  - constructor; [by constructor|]. constructor. unfold patient_le. lia.
  - constructor; [done|]. destruct Hhd as [|d l Hcd]; simpl.
    + constructor. unfold patient_le. lia.
    + case_bool_decide; constructor; unfold patient_le in *; lia.
Qed.

Lemma filter_prio_gt m c l :
  prio_sorted (c :: l) -> (m < priority c)%Z -> filter (fun y => priority y = m) (c :: l) = [].
Proof.
  intros Hs Hm. apply filter_all_false. intros y [->|Hy]%elem_of_cons; [lia|].
  pose proof (prio_sorted_head_le _ _ _ Hs Hy). lia.
Qed.

(** [newPatient] puts the patient behind every patient of the same
    priority. *)
Lemma insert_walk_classes x l : prio_sorted l -> same_classes (l ++ [x]) (insert_walk x l).
Proof.
  intros Hs m. induction l as [|c l IH]; [done|]. cbn [insert_walk].
  case_bool_decide as Hgt.
  - change ((c :: l) ++ [x]) with ((c :: l) ++ [x]). rewrite filter_app.
    destruct (decide (priority x = m)) as [<-|Hm].
    + rewrite (filter_cons_True _ x (c :: l)), filter_prio_gt by (done || lia).
      by rewrite filter_cons_True by done.
    + rewrite !(filter_cons_False _ x) by done. by rewrite filter_nil, app_nil_r.
  - cbn [app]. rewrite !filter_cons, IH by by eapply prio_sorted_tail. done.
Qed.

Lemma upgrade_walk_found n previous b z c :
  (forall y, y ∈ b -> name y <> n) -> name z = n ->
  upgrade_walk n previous (b ++ z :: c) = Ret (previous ++ b, z, c).
Proof.
  revert previous. induction b as [|y b IH]; intros previous Hb Hz; simpl.
  - rewrite bool_decide_false by auto. by rewrite app_nil_r.
  - rewrite bool_decide_true by (apply Hb; set_solver).
    specialize (IH (previous ++ [y]) ltac:(set_solver) Hz).
    destruct (b ++ z :: c) eqn:E; [by destruct b|]. rewrite IH. by rewrite <- app_assoc.
Qed.

Lemma upgrade_walk_absent n previous l :
  l <> [] -> (forall y, y ∈ l -> name y <> n) -> upgrade_walk n previous l = Throw absent_error.
Proof.
  revert previous. induction l as [|y l IH]; intros previous Hne Hl; simpl; [done|].
  rewrite bool_decide_true by (apply Hl; set_solver).
  destruct l; [done|]. apply IH; [done|set_solver].
Qed.

Lemma upgrade_walk_defined n previous l w :
  l <> [] -> upgrade_walk n previous l <> Undef w.
Proof.
  revert previous. induction l as [|y l IH]; intros previous Hne; simpl; [done|].
  case_bool_decide; [|done]. destruct l; [done|]. by apply IH.
Qed.

Lemma upgrade_walk_Ret n previous l b z c :
  upgrade_walk n previous l = Ret (b, z, c) -> previous ++ l = b ++ z :: c.
Proof.
  revert previous. induction l as [|y l IH]; intros previous; simpl; [done|].
  case_bool_decide; [|by intros [= -> -> ->]].
  destruct l; [done|]. intros Hw%IH. by rewrite <- Hw, <- app_assoc.
Qed.
End LinkedListFacts.

(** ** The linked-list queue satisfies the contract *)

(** The chain is in priority order and has the per-priority subsequences
    of the patients in arrival order. *)
Definition ll_abs (q : LinkedListPQ) (a : list Patient) : Prop :=
  prio_sorted (start q) /\ same_classes a (start q).

Module LinkedListLaws.
Import LinkedListPatientQueue LinkedListFacts.

Lemma same_classes_nil a l : same_classes a l -> a = [] <-> l = [].
Proof.
  intros Hc. split; intros ->.
  - destruct l as [|y l]; [done|]. exfalso.
    assert (y ∈ @nil Patient) as ?%elem_of_nil; [|done].
    eapply same_classes_elem; [symmetry; exact Hc|set_solver].
  - destruct a as [|y a]; [done|]. exfalso.
    assert (y ∈ @nil Patient) as ?%elem_of_nil; [|done].
    eapply same_classes_elem; [exact Hc|set_solver].
Qed.

Lemma ll_law_front q a pre x post : ll_abs q a -> is_front a pre x post ->
  exists rest, start q = x :: rest /\ prio_sorted rest /\ same_classes (pre ++ post) rest.
Proof.
  intros [Hs Hc] Hf. destruct (start q) as [|h rest] eqn:Hq.
  { assert (Ha : a = []) by (by apply (same_classes_nil _ _ Hc)).
    destruct Hf as (Ha' & _). rewrite Ha in Ha'.
    by destruct pre. }
  assert (Hf' : is_front (h :: rest) [] h rest)
    by (apply first_min_sorted; [done|done|set_solver|done]).
  destruct (first_min_classes _ _ _ _ _ _ _ _ _ Hc Hf Hf') as [-> Hc'].
  exists rest. split_and!; [done|by eapply prio_sorted_tail|done].
Qed.

Lemma ll_upgrade_found q a n p pre x post : ll_abs q a -> is_named_front n a pre x post ->
  exists rest, prio_sorted rest /\ same_classes (pre ++ post) rest /\
    upgradePatient n p q =
      if (priority x <=? p)%Z then Throw more_urgent_error
      else Ret (newPatient n p {| start := rest |}).
Proof.
  intros [Hs Hc] Hf.
  destruct (split_first (fun y => name y = n) (start q)) as (b & z & c & Hq & Hb & Hz).
  { exists x. split; [|by destruct Hf as (_ & ? & _)].
    eapply same_classes_elem; [exact Hc|]. destruct Hf as (-> & _). set_solver. }
  assert (Hf' : is_named_front n (start q) b z c) by (by apply first_min_sorted).
  destruct (first_min_classes _ _ _ _ _ _ _ _ _ Hc Hf Hf') as [-> Hc'].
  exists (b ++ c). split_and!; [|done|].
  - eapply prio_sorted_sublist; [|exact Hs]. rewrite Hq.
    apply sublist_app; [done|by apply sublist_cons].
  - unfold upgradePatient. rewrite Hq, upgrade_walk_found by done. simpl.
    destruct (_ <=? _)%Z; [done|]. destruct b as [|y b]; [|done].
    unfold processPatient. by rewrite Hq.
Qed.

Lemma ll_abs_newPatient q a n p : ll_abs q a ->
  ll_abs (newPatient n p q) (a ++ [mkPatient n p]).
Proof.
  intros [Hs Hc]. split; [by apply insert_walk_sorted|]. simpl.
  etransitivity; [|by apply insert_walk_classes]. by rewrite Hc.
Qed.
End LinkedListLaws.

Lemma clear_walk_nil l : LinkedListPatientQueue.clear_walk l = [].
Proof. by induction l. Qed.

#[export] Program Instance LinkedListPQ_laws : PatientQueueLaws LinkedListPQ := {
  pq_abs := ll_abs
}.
Next Obligation. split; [constructor|done]. Qed.
Next Obligation. intros q a _. unfold ll_abs. cbn. rewrite clear_walk_nil. split; [constructor|done]. Qed.
Next Obligation.
  intros q a [_ Hc]. simpl. apply bool_decide_ext. symmetry. by apply LinkedListLaws.same_classes_nil.
Qed.
Next Obligation.
  intros q [_ Hc]. simpl. unfold LinkedListPatientQueue.frontName,
    LinkedListPatientQueue.frontPriority, LinkedListPatientQueue.processPatient.
  assert (start q = []) as -> by (by apply (LinkedListLaws.same_classes_nil _ _ Hc)).
  split_and!; eexists; reflexivity.
Qed.
Next Obligation.
  intros q a pre x post Habs Hf. simpl.
  destruct (LinkedListLaws.ll_law_front q a pre x post Habs Hf) as (rest & Hq & Hs & Hc).
  unfold LinkedListPatientQueue.frontName, LinkedListPatientQueue.frontPriority,
    LinkedListPatientQueue.processPatient. rewrite Hq.
  split_and!; [done|done|]. eexists. split; [reflexivity|]. by split.
Qed.
Next Obligation. intros q a n p Habs _. by apply LinkedListLaws.ll_abs_newPatient. Qed.
Next Obligation.
  intros q a n p [_ Hc] Hne Hn. simpl. unfold LinkedListPatientQueue.upgradePatient.
  rewrite LinkedListFacts.upgrade_walk_absent; [by eexists| |].
  - by rewrite <- (LinkedListLaws.same_classes_nil _ _ Hc).
  - intros y Hy. apply Hn. eapply same_classes_elem; [symmetry; exact Hc|done].
Qed.
Next Obligation.
  intros q a n p pre x post Habs Hf Hle. simpl.
  destruct (LinkedListLaws.ll_upgrade_found q a n p pre x post Habs Hf) as (rest & _ & _ & ->).
  rewrite (proj2 (Z.leb_le _ _)) by lia. by eexists.
Qed.
Next Obligation.
  intros q a n p pre x post Habs Hf Hlt. simpl.
  destruct (LinkedListLaws.ll_upgrade_found q a n p pre x post Habs Hf) as (rest & Hs & Hc & ->).
  rewrite (proj2 (Z.leb_gt _ _)) by lia. eexists. split; [reflexivity|].
  rewrite app_assoc. by apply LinkedListLaws.ll_abs_newPatient.
Qed.

(** ** The result of each operation *)

Module LinkedListTheorems.
Import LinkedListPatientQueue LinkedListFacts.

(** [newPatient] links the new node in after every node of priority
    at most [p], before the first node of greater priority. *)
Theorem ll_newPatient_spec q n p :
  exists lo hi, start q = lo ++ hi /\ start (newPatient n p q) = lo ++ mkPatient n p :: hi /\
    (forall y, y ∈ lo -> (priority y <= p)%Z) /\
    (forall y, head hi = Some y -> (p < priority y)%Z).
Proof.
  unfold newPatient. simpl. induction (start q) as [|c l IH]; simpl.
  - exists [], []. split_and!; [done|done|set_solver|done].
  - case_bool_decide as Hgt.
    + exists [], (c :: l). split_and!; [done|done|set_solver|]. intros y [= <-]. simpl in Hgt. lia.
    + destruct IH as (lo & hi & -> & -> & Hlo & Hhi). exists (c :: lo), hi.
      split_and!; [done|done| |done]. intros y [->|Hy]%elem_of_cons; [simpl in Hgt; lia|auto].
Qed.

(** C32. [upgradePatient] reads [node->name] before it tests [node]: it is
    undefined exactly when the queue is empty. *)
Theorem ll_upgradePatient_undefined q n p :
  (exists w, upgradePatient n p q = Undef w) <-> start q = [].
Proof.
  split; [|intros Hq; unfold upgradePatient; rewrite Hq; by eexists].
  intros [w Hw]. destruct (start q) as [|y l] eqn:Hq; [done|exfalso].
  unfold upgradePatient in Hw. rewrite Hq in Hw.
  destruct (upgrade_walk n [] (y :: l)) as [[[b z] c]| |what|] eqn:Hwalk; simpl in Hw; try done.
  - destruct (_ <=? _)%Z; [done|]. destruct b; [|done].
    unfold processPatient in Hw. by rewrite Hq in Hw.
  - by apply (upgrade_walk_defined n [] (y :: l) what).
Qed.

(** C29. Every operation keeps the chain in priority order. *)
Theorem ll_operations_sorted q :
  prio_sorted (start q) ->
  prio_sorted (start (clear q)) /\
  (forall n p, prio_sorted (start (newPatient n p q))) /\
  (forall n q', processPatient q = Ret (n, q') -> prio_sorted (start q')) /\
  (forall n p q', upgradePatient n p q = Ret q' -> prio_sorted (start q')).
Proof.
  intros Hs. split_and!.
  - simpl. rewrite clear_walk_nil. constructor.
  - intros n p. by apply insert_walk_sorted.
  - intros n q'. unfold processPatient. destruct (start q) as [|y l]; [done|].
    intros [= _ <-]. by eapply prio_sorted_tail.
  - intros n p q'. unfold upgradePatient.
    destruct (upgrade_walk n [] (start q)) as [[[b z] c]| | |] eqn:Hwalk; simpl; try done.
    apply upgrade_walk_Ret in Hwalk. simpl in Hwalk.
    assert (Hbc : prio_sorted (b ++ c)).
    { eapply prio_sorted_sublist; [|exact Hs]. rewrite Hwalk.
      apply sublist_app; [done|by apply sublist_cons]. }
    destruct (_ <=? _)%Z; [done|]. destruct b as [|y b].
    + unfold processPatient. rewrite Hwalk. intros [= <-]. by apply insert_walk_sorted.
    + intros [= <-]. by apply insert_walk_sorted.
Qed.

(** A chain of two patients in priority order. *)
Lemma ll_operations_sorted_witness :
  prio_sorted (start {| start := [mkPatient "Ben" 1; mkPatient "Ann" 3] |}) /\
  prio_sorted (start (newPatient "Cy" 2 {| start := [mkPatient "Ben" 1; mkPatient "Ann" 3] |})).
Proof.
  split; [decide_by_eval|].
  apply (ll_operations_sorted {| start := [mkPatient "Ben" 1; mkPatient "Ann" 3] |}).
  decide_by_eval.
Defined.
End LinkedListTheorems.
