(* ===== verification/PatientQueueEquiv.v ===== *)
(** * PatientQueueEquiv.v: the two patient queues behave alike

    Both classes satisfy [PatientQueueLaws] ([VectorPQ_laws],
    [LinkedListPQ_laws]), so the interface-level [lawful_run_agree] makes
    them indistinguishable by [run_ops] from their constructors on every
    sequence [client_ok] admits.  The two examples after it show that the
    two side conditions of [client_ok] are needed: a new patient of
    priority [INT_MAX], and an upgrade in an empty queue. *)

From S2P Require Import Prelude PatientQueueSpec PatientQueueClient.
From S2P Require Import VectorPatientQueue VectorPatientQueueProofs.
From S2P Require Import LinkedListPatientQueue LinkedListPatientQueueProofs.

(** C6. From their constructors, [VectorPatientQueue] and
    [LinkedListPatientQueue] return the same results (names, priorities,
    emptiness, and whether a call throws) on every sequence of calls
    whose new priorities are below [INT_MAX] and that upgrades no patient
    while the queue is empty. *)
Theorem vector_linkedlist_agree ops :
  client_ok 0 ops = true ->
  run_ops VectorPatientQueue.create ops = run_ops LinkedListPatientQueue.create ops.
Proof.
  intros Hok. apply (lawful_run_agree (Q1 := VectorPQ) (Q2 := LinkedListPQ) _ _ []);
    [exact (@law_create VectorPQ _ _)|exact (@law_create LinkedListPQ _ _)|done].
Qed.

(** Patients of equal priority leave in arrival order, and an upgrade
    sends the patient behind those of the new priority. *)
Definition triage : list pq_op :=
  [OpNewPatient "Anat" 3; OpNewPatient "Ben" 1; OpNewPatient "Cy" 3; OpNewPatient "Dee" 2;
   OpUpgradePatient "Cy" 2; OpUpgradePatient "Ben" 5; OpUpgradePatient "Eve" 1;
   OpProcessPatient; OpFrontName; OpProcessPatient; OpFrontPriority; OpProcessPatient;
   OpProcessPatient; OpIsEmpty; OpProcessPatient; OpNewPatient "Fay" 4; OpClear; OpIsEmpty].

Lemma vector_linkedlist_agree_witness :
  client_ok 0 triage = true /\
  run_ops VectorPatientQueue.create triage = run_ops LinkedListPatientQueue.create triage.
Proof. split; [reflexivity|apply vector_linkedlist_agree; reflexivity]. Defined.

(** A patient admitted with priority [INT_MAX] cannot be upgraded in
    the vector queue ("not present"), while the linked-list queue upgrades
    her: the two classes then report different front priorities. *)
Example int_max_divergence :
  let ops := [OpNewPatient "Ann" INT_MAX; OpUpgradePatient "Ann" 1; OpFrontPriority] in
  run_ops VectorPatientQueue.create ops = [ObsDone; ObsError; ObsPriority INT_MAX] /\
  run_ops LinkedListPatientQueue.create ops = [ObsDone; ObsDone; ObsPriority 1].
Proof. split; vm_compute; reflexivity. Qed.

(** An upgrade in an empty queue throws in the vector queue and is
    undefined in the linked-list queue. *)
Example empty_upgrade_divergence :
  let ops := [OpUpgradePatient "Ann" 1; OpIsEmpty] in
  run_ops VectorPatientQueue.create ops = [ObsError; ObsBool true] /\
  run_ops LinkedListPatientQueue.create ops = [ObsUndefined].
Proof. split; vm_compute; reflexivity. Qed.
