(* ===== verification/Huffman.v ===== *)
(** * Huffman.v: [src/Huffman/src/encoding.cpp]

    One definition per function of [encoding.cpp], with the same name.
    Characters are the [int]s [input.get()] returns (0 to 255; its [-1]
    is the end of the list), bits are [bool]s, the encoding strings of
    [buildEncodingMap] are [string]s of ['0'] and ['1'] as in the code.
    A [HuffmanNode] is a leaf (both children [NULL]) or an inner node with
    two children; it keeps the node's [character] and [count].  The two
    [while] loops whose number of rounds is not structural
    ([buildEncodingTree] and the loop of [decodeData]) run on fuel by
    [iter_loop].  The file streams are lists: the compressed file is its
    header (the frequency table, written by [output << freqTable]) and the
    list of bits after it.  [freeTree], and the nodes [buildEncodingTree]
    allocates, are modelled on a heap in [Memory.v]; [rewindStream] only
    repositions a stream and is not modelled. *)

From S2P Require Import Prelude PQueue.
From Stdlib Require Import Ascii.

(** The constants of [huffmanutil.h]. *)
Definition PSEUDO_EOF : Z := 256.
Definition NOT_A_CHAR : Z := 257.

Inductive HuffmanNode :=
| HLeaf (character : Z) (count : nat)
| HNode (character : Z) (count : nat) (zero one : HuffmanNode).

Definition node_count (n : HuffmanNode) : nat :=
  match n with HLeaf _ c | HNode _ c _ _ => c end.

(** The message of the Stanford [PriorityQueue] on [dequeue] of an empty
    queue. *)
Definition dequeue_error : string := "PriorityQueue::dequeue: Attempting to dequeue an empty queue".

Module Huffman.

(** [buildFrequencyTable]: one round of the [while (true)] loop per
    character read. *)
Definition buildFrequencyTable (input : list Z) : smap nat :=
  let freqTable :=
    foldl (fun freqTable charInput =>
             match smap_get freqTable charInput with
             | Some n => smap_put charInput (n + 1) freqTable
             | None => smap_put charInput 1 freqTable
             end) [] input in
  smap_put PSEUDO_EOF 1 freqTable.

(** One round of [while (priorityQ.size() > 1)]; when at most one node
    is left, the loop is over and [priorityQ.dequeue()] is returned. *)
Definition merge_step (priorityQ : list (HuffmanNode * nat))
    : list (HuffmanNode * nat) + res HuffmanNode :=
  match priorityQ with
  | (first, _) :: (second, _) :: priorityQ' =>
      let joined := HNode NOT_A_CHAR (node_count first + node_count second) first second in
      inl (pq_enqueue joined (node_count joined) priorityQ')
  | [(root, _)] => inr (Ret root)
  | [] => inr (Throw dequeue_error)
  end.

Definition buildEncodingTree (fuel : nat) (freqTable : smap nat) : res HuffmanNode :=
  let priorityQ :=
    foldl (fun priorityQ '(character, count) =>
             pq_enqueue (HLeaf character count) count priorityQ) [] freqTable in
  iter_loop merge_step fuel priorityQ.

(** The recursive [buildEncodingMap(node, encodingMap, encoding)]. *)
Fixpoint buildEncodingMap_rec (node : HuffmanNode) (encodingMap : smap string)
    (encoding : string) : smap string :=
  match node with
  | HLeaf character _ => smap_put character encoding encodingMap
  | HNode _ _ zero one =>
      let zero_code := encoding +:+ "0" in
      let encodingMap := buildEncodingMap_rec zero encodingMap zero_code in
      let one_code := encoding +:+ "1" in
      buildEncodingMap_rec one encodingMap one_code
  end.

Definition buildEncodingMap (encodingTree : HuffmanNode) : smap string :=
  buildEncodingMap_rec encodingTree [] "".

(** [bitWriter]: appends a bit for each ['0'] or ['1'] of [str]. *)
Fixpoint bitWriter (output : list bool) (str : string) : list bool :=
  match str with
  | EmptyString => output
  | String c str' =>
      let output :=
        if decide (c = "0"%char) then output ++ [false]
        else if decide (c = "1"%char) then output ++ [true]
        else output in
      bitWriter output str'
  end.

Definition encodeData (input : list Z) (encodingMap : smap string) : list bool :=
  let output :=
    foldl (fun output charInput =>
             let codedData := smap_get_default encodingMap charInput "" in
             bitWriter output codedData) [] input in
  let eofCode := smap_get_default encodingMap PSEUDO_EOF "" in
  bitWriter output eofCode.

(** The recursive [decodeData(input, encodingTree, output, current)]:
    whether to go on, the bits left and the characters written.  At the
    end of the bits [readBit] returns [-1]. *)
Fixpoint decodeData_rec (current : HuffmanNode) (input : list bool) (output : list Z)
    : bool * list bool * list Z :=
  match current with
  | HLeaf character _ =>
      if decide (character = PSEUDO_EOF) then (false, input, output)
      else (true, input, output ++ [character])
  | HNode _ _ zero one =>
      match input with
      | false :: input' => decodeData_rec zero input' output
      | true :: input' => decodeData_rec one input' output
      | [] => (false, input, output)
      end
  end.

(** [while (decoding)] of [decodeData(input, encodingTree, output)]. *)
Definition decode_step (encodingTree : HuffmanNode) (st : list bool * list Z)
    : (list bool * list Z) + res (list Z) :=
  let '(input, output) := st in
  let '(decoding, input, output) := decodeData_rec encodingTree input output in
  if decoding then inl (input, output) else inr (Ret output).

Definition decodeData (fuel : nat) (input : list bool) (encodingTree : HuffmanNode)
    : res (list Z) :=
  iter_loop (decode_step encodingTree) fuel (input, []).

Definition compress (fuel : nat) (input : list Z) : res (smap nat * list bool) :=
  (let freqTable := buildFrequencyTable input in
   let* encodingTree := buildEncodingTree fuel freqTable in
   let encodingMap := buildEncodingMap encodingTree in
   Ret (freqTable, encodeData input encodingMap))%res.

Definition decompress (fuel : nat) (file : smap nat * list bool) : res (list Z) :=
  (let '(freqTable, input) := file in
   let* encodingTree := buildEncodingTree fuel freqTable in
   decodeData fuel input encodingTree)%res.

End Huffman.
