(* ===== verification/HuffmanProofs.v ===== *)
(** * HuffmanProofs.v: what [encoding.cpp] computes

    - [buildFrequencyTable] counts every character and adds [PSEUDO_EOF]
      once;
    - [buildEncodingTree] returns, given fuel above the size of the table,
      a tree whose leaves are the table's characters;
    - [buildEncodingMap] gives every leaf the path to it, a prefix-free
      code;
    - [decodeData] follows a code to its leaf;
    - hence [decompress] undoes [compress] on every input of bytes;
    - and [decompress] never returns on a header with a single character
      other than [PSEUDO_EOF]. *)

From S2P Require Import Prelude PQueue Huffman.
From Stdlib Require Import Ascii Sorted.
Import Huffman.

(** ** The frequency table *)

Definition occurrences (c : Z) (input : list Z) : nat := length (filter (fun x => x = c) input).

Definition count_step (freqTable : smap nat) (charInput : Z) : smap nat :=
  match smap_get freqTable charInput with
  | Some n => smap_put charInput (n + 1) freqTable
  | None => smap_put charInput 1 freqTable
  end.

Lemma count_step_get m x c :
  smap_get (count_step m x) c =
    if decide (c = x) then Some (from_option id 0 (smap_get m c) + 1) else smap_get m c.
Proof.
  unfold count_step. case_decide as Hc.
  - subst. destruct (smap_get m x) eqn:E; by rewrite smap_get_put_eq.
  - destruct (smap_get m x); by rewrite smap_get_put_ne by congruence.
Qed.

Lemma count_loop_get input c :
  smap_get (foldl count_step [] input) c =
    match occurrences c input with 0 => None | n => Some n end.
Proof.
  induction input as [|x input IH] using rev_ind; [done|].
  rewrite foldl_app. cbn [foldl]. rewrite count_step_get, IH.
  unfold occurrences. rewrite filter_app, length_app.
  case_decide as Hc.
  - subst. rewrite filter_cons_True, filter_nil by done. cbn [length].
    destruct (length (filter _ input)); simpl; f_equal; lia.
  - rewrite filter_cons_False, filter_nil by congruence. cbn [length]. by rewrite Nat.add_0_r.
Qed.

Lemma count_loop_length input : length (foldl count_step [] input) <= length input.
Proof.
  assert (Hstep : forall m x, length (count_step m x) <= S (length m))
    by (intros m x; unfold count_step; destruct (smap_get m x); apply smap_put_length).
  induction input as [|x input IH] using rev_ind; [simpl; lia|].
  rewrite foldl_app, length_app. cbn [foldl length].
  specialize (Hstep (foldl count_step [] input) x). lia.
Qed.

(** ** The encoding tree *)

Fixpoint leaves (t : HuffmanNode) : list Z :=
  match t with
  | HLeaf c _ => [c]
  | HNode _ _ zero one => leaves zero ++ leaves one
  end.

Definition queue_leaves (q : list (HuffmanNode * nat)) : list Z :=
  foldr (fun e acc => leaves e.1 ++ acc) [] q.

#[export] Instance queue_leaves_perm : Proper ((≡ₚ) ==> (≡ₚ)) queue_leaves.
Proof.
  induction 1 as [|e q q' _ IH|e e' q|q q' q'' _ IH1 _ IH2]; simpl.
  - done.
  - by rewrite IH.
  - by rewrite !app_assoc, (Permutation_app_comm (leaves e'.1)).
  - by rewrite IH1.
Qed.

Lemma queue_leaves_enqueue x pri q :
  queue_leaves (pq_enqueue x pri q) ≡ₚ leaves x ++ queue_leaves q.
Proof. by rewrite (pq_enqueue_perm x pri q). Qed.

(** The queue of leaves built by the [for] loop of [buildEncodingTree]. *)
Definition init_queue (freqTable : smap nat) : list (HuffmanNode * nat) :=
  foldl (fun priorityQ '(character, count) =>
           pq_enqueue (HLeaf character count) count priorityQ) [] freqTable.

Lemma buildEncodingTree_unfold fuel freqTable :
  buildEncodingTree fuel freqTable = iter_loop merge_step fuel (init_queue freqTable).
Proof. reflexivity. Qed.

Lemma init_queue_spec freqTable :
  queue_leaves (init_queue freqTable) ≡ₚ smap_keys freqTable /\
  length (init_queue freqTable) = length freqTable.
Proof.
  unfold init_queue, smap_keys.
  induction freqTable as [|[c n] m IH] using rev_ind; [done|].
  rewrite foldl_app, fmap_app, length_app. simpl.
  destruct IH as [IHl IHn]. split.
  - rewrite queue_leaves_enqueue, IHl. simpl. by rewrite Permutation_cons_append.
  - rewrite pq_enqueue_length. lia.
Qed.

Lemma merge_step_inl q q' :
  merge_step q = inl q' -> queue_leaves q' ≡ₚ queue_leaves q /\ S (length q') = length q /\ q' <> [].
Proof.
  destruct q as [|[a pa] [|[b pb] q]]; simpl; try discriminate. intros [= <-].
  split_and!.
  - rewrite queue_leaves_enqueue. simpl. by rewrite app_assoc.
  - rewrite pq_enqueue_length. done.
  - rewrite <- length_zero_iff_nil, pq_enqueue_length. done.
Qed.

Lemma merge_step_inr q r :
  merge_step q = inr r -> q <> [] -> exists root pri, q = [(root, pri)] /\ r = Ret root.
Proof.
  destruct q as [|[a pa] [|[b pb] q]]; simpl; try discriminate; [done|].
  intros [= <-] _. eauto.
Qed.

Definition queue_count (q : list (HuffmanNode * nat)) : nat := sum_with (fun e => node_count e.1) q.

Lemma init_queue_count freqTable : queue_count (init_queue freqTable) = sum_with snd freqTable.
Proof.
  unfold init_queue, queue_count.
  induction freqTable as [|[c n] m IH] using rev_ind; [done|].
  rewrite foldl_app, sum_with_app. simpl. rewrite (pq_enqueue_perm _ n). simpl. lia.
Qed.

Lemma merge_step_count q q' : merge_step q = inl q' -> queue_count q' = queue_count q.
Proof.
  destruct q as [|[a pa] [|[b pb] q]]; simpl; try discriminate. intros [= <-].
  unfold queue_count. rewrite (pq_enqueue_perm _ _ q). simpl. lia.
Qed.

(** With fuel above the size of the table, [buildEncodingTree] returns
    a tree whose leaves are the characters of the table and whose root
    counts all of them. *)
Lemma buildEncodingTree_result fuel freqTable :
  freqTable <> [] -> length freqTable < fuel ->
  exists t, buildEncodingTree fuel freqTable = Ret t /\ leaves t ≡ₚ smap_keys freqTable /\
            node_count t = sum_with snd freqTable.
Proof.
  intros Hne Hfuel. rewrite buildEncodingTree_unfold.
  destruct (init_queue_spec freqTable) as [Hl Hn].
  set (P := fun q => q <> [] /\ queue_leaves q ≡ₚ smap_keys freqTable /\
            queue_count q = sum_with snd freqTable).
  set (Q := fun (r : res HuffmanNode) =>
              exists t, r = Ret t /\ leaves t ≡ₚ smap_keys freqTable /\
            node_count t = sum_with snd freqTable).
  assert (Hinv : forall q q', P q -> merge_step q = inl q' -> P q').
  { intros q q' (_ & Hq & Hc) Hs. pose proof (merge_step_count q q' Hs).
    apply merge_step_inl in Hs as (Hl' & _ & Hne'). split_and!; [done|by rewrite Hl'|lia]. }
  assert (Hexit : forall q r, P q -> merge_step q = inr r -> Q r).
  { intros q r (Hq & Hql & Hqc) Hs. destruct (merge_step_inr q r Hs Hq) as (root & pri & -> & ->).
    exists root. split_and!; [done| |].
    - rewrite <- Hql. simpl. by rewrite app_nil_r.
    - rewrite <- Hqc. unfold queue_count. simpl. lia. }
  assert (HP : P (init_queue freqTable)).
  { split_and!; [|done|apply init_queue_count]. intros Hq. rewrite Hq in Hn. by destruct freqTable. }
  assert (Hc : completed (iter_loop merge_step fuel (init_queue freqTable)) = true).
  { apply (iter_loop_terminates merge_step P Hinv (@length _)); [| |done|lia].
    - intros q q' _ (_ & Hlen & _)%merge_step_inl. lia.
    - intros q r HPq Hs. by destruct (Hexit q r HPq Hs) as (t & -> & _). }
  exact (iter_loop_inv merge_step P Q Hinv Hexit fuel _ HP Hc).
Qed.

(** ** The shape of the tree *)

(** Every internal node is labelled [NOT_A_CHAR] and counts the sum of
    its children's counts. *)
Fixpoint huff_wf (t : HuffmanNode) : Prop :=
  match t with
  | HLeaf _ _ => True
  | HNode ch n zero one => ch = NOT_A_CHAR /\ n = node_count zero + node_count one /\ huff_wf zero /\ huff_wf one
  end.

Fixpoint leaf_entries (t : HuffmanNode) : list (Z * nat) :=
  match t with
  | HLeaf c n => [(c, n)]
  | HNode _ _ zero one => leaf_entries zero ++ leaf_entries one
  end.

(** A queue entry: a well-formed tree, queued with its count, whose
    leaves are entries of the table. *)
Definition entry_ok (freqTable : smap nat) (e : HuffmanNode * nat) : Prop :=
  huff_wf e.1 /\ e.2 = node_count e.1 /\ Forall (fun p => p ∈ freqTable) (leaf_entries e.1).

Lemma init_queue_ok freqTable : Forall (entry_ok freqTable) (init_queue freqTable).
Proof.
  unfold init_queue. assert (Hsub : forall m, m ⊆ freqTable -> Forall (entry_ok freqTable)
    (foldl (fun priorityQ '(character, count) => pq_enqueue (HLeaf character count) count priorityQ) [] m)).
  { intros m. induction m as [|[c n] m IH] using rev_ind; intros Hm; [constructor|].
    rewrite foldl_app. cbn [foldl]. rewrite pq_enqueue_perm. constructor.
    - split_and!; [done|done|]. constructor; [|constructor]. apply Hm. set_solver.
    - apply IH. set_solver. }
  by apply Hsub.
Qed.

Lemma merge_step_ok freqTable q q' :
  Forall (entry_ok freqTable) q -> merge_step q = inl q' -> Forall (entry_ok freqTable) q'.
Proof.
  destruct q as [|[a pa] [|[b pb] q]]; simpl; try discriminate.
  intros (Ha & Hq)%Forall_cons_1 [= <-]. apply Forall_cons_1 in Hq as [Hb Hq'].
  rewrite pq_enqueue_perm. constructor; [|done].
  destruct Ha as (Hwa & _ & Hla), Hb as (Hwb & _ & Hlb).
  split_and!; [cbn [huff_wf fst]; by split_and!|done|cbn [leaf_entries fst]; by apply Forall_app].
Qed.

(** ** Codes and the encoding map *)

(** [reaches t p c]: following the bits [p] from the root of [t] leads
    to a leaf holding [c]. *)
Inductive reaches : HuffmanNode -> list bool -> Z -> Prop :=
| reaches_leaf c n : reaches (HLeaf c n) [] c
| reaches_zero ch n zero one p c : reaches zero p c -> reaches (HNode ch n zero one) (false :: p) c
| reaches_one ch n zero one p c : reaches one p c -> reaches (HNode ch n zero one) (true :: p) c.

#[export] Hint Constructors reaches : cs106.

Definition bits_of (s : string) : list bool := bitWriter [] s.

Lemma bitWriter_app output s : bitWriter output s = output ++ bits_of s.
Proof.
  unfold bits_of. revert output. induction s as [|a s IH]; intros output; simpl.
  - by rewrite app_nil_r.
  - rewrite IH, (IH (if decide (a = "0"%char) then _ else _)).
    repeat case_decide; simpl; by rewrite <-?app_assoc.
Qed.

Lemma bits_of_append s1 s2 : bits_of (s1 +:+ s2) = bits_of s1 ++ bits_of s2.
Proof.
  induction s1 as [|a s1 IH]; [done|]. unfold bits_of in *. simpl.
  rewrite !(bitWriter_app (if decide (a = "0"%char) then _ else _)), <- app_assoc.
  f_equal. apply IH.
Qed.

Lemma map_rec_other node m enc c :
  c ∉ leaves node -> smap_get (buildEncodingMap_rec node m enc) c = smap_get m c.
Proof.
  revert m enc. induction node as [c' n|ch n zero IHz one IHo]; intros m enc Hc; simpl in *.
  - apply smap_get_put_ne. set_solver.
  - rewrite IHo, IHz by set_solver. done.
Qed.

(** Every leaf's character gets the path to one of its leaves. *)
Lemma map_rec_leaf node m enc c :
  c ∈ leaves node -> exists s p, smap_get (buildEncodingMap_rec node m enc) c = Some s /\
    bits_of s = bits_of enc ++ p /\ reaches node p c.
Proof.
  revert m enc. induction node as [c' n|ch n zero IHz one IHo]; intros m enc Hc; simpl in *.
  - apply list_elem_of_singleton in Hc as ->. exists enc, [].
    rewrite smap_get_put_eq, app_nil_r. eauto with cs106.
  - destruct (decide (c ∈ leaves one)) as [Ho|Ho].
    + destruct (IHo (buildEncodingMap_rec zero m (enc +:+ "0")) (enc +:+ "1") Ho)
        as (s & p & Hs & Hb & Hr).
      exists s, (true :: p). rewrite Hb, bits_of_append, <- app_assoc. eauto with cs106.
    + rewrite map_rec_other by done.
      destruct (IHz m (enc +:+ "0")) as (s & p & Hs & Hb & Hr); [set_solver|].
      exists s, (false :: p). rewrite Hb, bits_of_append, <- app_assoc. eauto with cs106.
Qed.

(** Every value of the map is the path to a leaf holding its key. *)
Lemma map_rec_values node m enc c s :
  smap_get (buildEncodingMap_rec node m enc) c = Some s ->
  (exists p, bits_of s = bits_of enc ++ p /\ reaches node p c) \/ smap_get m c = Some s.
Proof.
  revert m enc. induction node as [c' n|ch n zero IHz one IHo]; intros m enc Hs; simpl in *.
  - destruct (decide (c = c')) as [->|Hne].
    + rewrite smap_get_put_eq in Hs. injection Hs as <-. left. exists [].
      rewrite app_nil_r. eauto with cs106.
    + rewrite smap_get_put_ne in Hs by congruence. by right.
  - apply IHo in Hs as [(p & Hb & Hr)|Hs].
    + left. exists (true :: p). rewrite Hb, bits_of_append, <- app_assoc. eauto with cs106.
    + apply IHz in Hs as [(p & Hb & Hr)|Hs]; [|by right].
      left. exists (false :: p). rewrite Hb, bits_of_append, <- app_assoc. eauto with cs106.
Qed.

(** ** Decoding follows a code *)

Lemma decodeData_rec_reaches t p c rest output :
  reaches t p c ->
  decodeData_rec t (p ++ rest) output =
    if decide (c = PSEUDO_EOF) then (false, rest, output) else (true, rest, output ++ [c]).
Proof. induction 1; simpl; [done|exact IHreaches|exact IHreaches]. Qed.

Lemma encodeData_codes input m :
  encodeData input m =
    concat (map (fun c => bits_of (smap_get_default m c "")) input) ++
    bits_of (smap_get_default m PSEUDO_EOF "").
Proof.
  unfold encodeData. rewrite bitWriter_app. f_equal.
  induction input as [|c input IH] using rev_ind; [done|].
  rewrite foldl_app. simpl. rewrite bitWriter_app, IH, map_app, concat_app. simpl.
  by rewrite app_nil_r.
Qed.

Lemma decode_loop t (code : Z -> list bool) w rest output fuel :
  (forall c, c ∈ w -> c <> PSEUDO_EOF /\ reaches t (code c) c) ->
  reaches t (code PSEUDO_EOF) PSEUDO_EOF -> length w < fuel ->
  iter_loop (decode_step t) fuel (concat (map code w) ++ code PSEUDO_EOF ++ rest, output) =
    Ret (output ++ w).
Proof.
  revert output fuel. induction w as [|c w IH]; intros output fuel Hw Heof Hfuel;
    (destruct fuel as [|fuel]; [simpl in Hfuel; lia|]); rewrite iter_loop_S; simpl.
  - rewrite (decodeData_rec_reaches _ _ PSEUDO_EOF) by done. rewrite decide_True by done.
    by rewrite app_nil_r.
  - destruct (Hw c ltac:(set_solver)) as [Hc Hr].
    rewrite <- app_assoc, (decodeData_rec_reaches _ _ c) by done. rewrite decide_False by done.
    rewrite IH by (set_solver || simpl in Hfuel; lia || done). by rewrite <- app_assoc.
Qed.

(** ** The round trip *)

Lemma buildFrequencyTable_unfold input :
  buildFrequencyTable input = smap_put PSEUDO_EOF 1 (foldl count_step [] input).
Proof. reflexivity. Qed.

Lemma buildFrequencyTable_keys input c :
  c = PSEUDO_EOF \/ c ∈ input -> c ∈ smap_keys (buildFrequencyTable input).
Proof.
  rewrite buildFrequencyTable_unfold, smap_keys_put. intros [->|Hc]; [by left|right].
  apply smap_get_keys. rewrite count_loop_get. unfold occurrences.
  assert (Hlen : 0 < length (filter (fun x => x = c) input)).
  { destruct (filter (fun x => x = c) input) eqn:E; simpl; [|lia].
    exfalso. eapply filter_nil_not_elem_of; [exact E|reflexivity|exact Hc]. }
  destruct (length _); [lia|]. by eexists.
Qed.

Lemma buildFrequencyTable_length input : length (buildFrequencyTable input) <= S (length input).
Proof.
  rewrite buildFrequencyTable_unfold. pose proof (count_loop_length input).
  pose proof (smap_put_length PSEUDO_EOF 1 (foldl count_step [] input)). lia.
Qed.

(** Every character of the tree gets, in [buildEncodingMap], the path to
    one of its leaves. *)
Lemma encodingMap_code t c :
  c ∈ leaves t -> reaches t (bits_of (smap_get_default (buildEncodingMap t) c "")) c.
Proof.
  intros Hc. destruct (map_rec_leaf t [] "" c Hc) as (s & p & Hs & Hb & Hr).
  unfold smap_get_default, buildEncodingMap. rewrite Hs. simpl. by rewrite Hb.
Qed.

(** C7. [decompress] undoes [compress]: on every input of bytes, given
    fuel above its length plus one, decompressing the header and the bits
    [compress] writes gives the input back, whatever bits follow them
    (the padding of the last byte of the file). *)
Theorem huffman_roundtrip fuel input padding :
  Forall (fun c => (0 <= c < 256)%Z) input -> S (length input) < fuel ->
  (let* file := compress fuel input in decompress fuel (file.1, file.2 ++ padding))%res =
    Ret input.
Proof.
  intros Hbytes Hfuel. rewrite Forall_forall in Hbytes.
  set (m := buildFrequencyTable input).
  assert (Hne : m <> []).
  { intros Hm. pose proof (buildFrequencyTable_keys input PSEUDO_EOF (or_introl eq_refl)) as Hk.
    fold m in Hk. rewrite Hm in Hk. by apply elem_of_nil in Hk. }
  destruct (buildEncodingTree_result fuel m Hne) as (t & Ht & Hl & _).
  { pose proof (buildFrequencyTable_length input). unfold m. lia. }
  unfold compress. fold m. rewrite Ht. cbn [res_bind fst snd]. unfold decompress. rewrite Ht.
  cbn [res_bind]. unfold decodeData. rewrite encodeData_codes, <- app_assoc.
  assert (Hcode : forall c, c = PSEUDO_EOF \/ c ∈ input ->
            reaches t (bits_of (smap_get_default (buildEncodingMap t) c "")) c).
  { intros c Hc. apply encodingMap_code. rewrite Hl. by apply buildFrequencyTable_keys. }
  apply (decode_loop t (fun c => bits_of (smap_get_default (buildEncodingMap t) c ""))
           input padding [] fuel); [|by apply Hcode; left|lia].
  intros c Hc. split; [specialize (Hbytes c Hc); unfold PSEUDO_EOF; lia|by apply Hcode; right].
Qed.

Lemma huffman_roundtrip_witness :
  Forall (fun c => (0 <= c < 256)%Z) [104; 117; 102; 102; 109; 97; 110]%Z /\
  S (length [104; 117; 102; 102; 109; 97; 110]%Z) < 20 /\
  (let* file := compress 20 [104; 117; 102; 102; 109; 97; 110]%Z in
   decompress 20 (file.1, file.2 ++ [false; false; false]))%res =
    Ret [104; 117; 102; 102; 109; 97; 110]%Z.
Proof.
  assert (Hb : Forall (fun c => (0 <= c < 256)%Z) [104; 117; 102; 102; 109; 97; 110]%Z)
    by decide_by_eval.
  split_and!; [exact Hb|simpl; lia|]. apply huffman_roundtrip; [exact Hb|simpl; lia].
Defined.

(** [buildFrequencyTable] maps every character of the input to its
    number of occurrences and [PSEUDO_EOF] to 1, and has no other key. *)
Theorem buildFrequencyTable_counts input c :
  smap_get (buildFrequencyTable input) c =
    if decide (c = PSEUDO_EOF) then Some 1
    else match occurrences c input with 0 => None | n => Some n end.
Proof.
  rewrite buildFrequencyTable_unfold. case_decide as Hc.
  - subst. apply smap_get_put_eq.
  - rewrite smap_get_put_ne by congruence. apply count_loop_get.
Qed.

(** [buildEncodingTree] on a non-empty table, given fuel above its
    size, returns a tree whose leaves are the table's characters, each
    once per key, and whose root's count is the sum of the counts; on an
    empty table (a compressed file with an empty header) the final
    [dequeue] throws. *)
Theorem buildEncodingTree_spec fuel freqTable :
  length freqTable < fuel ->
  (freqTable = [] -> buildEncodingTree fuel freqTable = Throw dequeue_error) /\
  (freqTable <> [] -> exists t, buildEncodingTree fuel freqTable = Ret t /\
     (leaves t ≡ₚ smap_keys freqTable) /\ node_count t = sum_with snd freqTable).
Proof.
  intros Hfuel. split; [intros ->; destruct fuel; [simpl in Hfuel; lia|reflexivity]|].
  intros Hne. by apply buildEncodingTree_result.
Qed.

Lemma buildEncodingTree_spec_witness :
  length [(97%Z, 2); (98%Z, 1); (PSEUDO_EOF, 1)] < 4 /\
  buildEncodingTree 4 [(97%Z, 2); (98%Z, 1); (PSEUDO_EOF, 1)] =
    Ret (HNode NOT_A_CHAR 4 (HLeaf 97 2) (HNode NOT_A_CHAR 2 (HLeaf 98 1) (HLeaf PSEUDO_EOF 1))) /\
  ([(97%Z, 2); (98%Z, 1); (PSEUDO_EOF, 1)] <> [] -> exists t,
     buildEncodingTree 4 [(97%Z, 2); (98%Z, 1); (PSEUDO_EOF, 1)] = Ret t /\
     (leaves t ≡ₚ smap_keys [(97%Z, 2); (98%Z, 1); (PSEUDO_EOF, 1)]) /\
     node_count t = sum_with snd [(97%Z, 2); (98%Z, 1); (PSEUDO_EOF, 1)]).
Proof.
  assert (Hf : length [(97%Z, 2); (98%Z, 1); (PSEUDO_EOF, 1)] < 4) by (simpl; lia).
  split_and!; [exact Hf|vm_compute; reflexivity|].
  exact (proj2 (buildEncodingTree_spec 4 _ Hf)).
Defined.

(** C26. The tree [buildEncodingTree] builds from a non-empty table,
    given fuel above its size, is well formed: every internal node is
    labelled [NOT_A_CHAR] and carries the sum of its children's counts,
    and every leaf is an entry [(character, count)] of the table. *)
Theorem buildEncodingTree_wf fuel freqTable :
  freqTable <> [] -> length freqTable < fuel ->
  exists t, buildEncodingTree fuel freqTable = Ret t /\ huff_wf t /\
    Forall (fun e => e ∈ freqTable) (leaf_entries t).
Proof.
  intros Hne Hfuel. destruct (buildEncodingTree_result fuel freqTable Hne Hfuel) as (t & Ht & _).
  exists t. split; [done|]. rewrite buildEncodingTree_unfold in Ht.
  set (Q := fun r : res HuffmanNode => forall t, r = Ret t -> huff_wf t /\ Forall (fun e => e ∈ freqTable) (leaf_entries t)).
  enough (HQ : Q (iter_loop merge_step fuel (init_queue freqTable))) by (by apply HQ).
  apply (iter_loop_inv merge_step (Forall (entry_ok freqTable)) Q); [apply merge_step_ok| |apply init_queue_ok|by rewrite Ht].
  intros q r Hq Hs t' ->. destruct q as [|[a pa] [|[b pb] q]]; simpl in Hs; try discriminate.
  injection Hs as <-. by apply Forall_cons_1 in Hq as [(? & _ & ?) _].
Qed.

Lemma buildEncodingTree_wf_witness :
  exists t, buildEncodingTree 4 [(97%Z, 2); (98%Z, 1); (PSEUDO_EOF, 1)] = Ret t /\ huff_wf t /\
    Forall (fun e => e ∈ [(97%Z, 2); (98%Z, 1); (PSEUDO_EOF, 1)]) (leaf_entries t).
Proof. apply (buildEncodingTree_wf 4 [(97%Z, 2); (98%Z, 1); (PSEUDO_EOF, 1)]); [discriminate|simpl; lia]. Defined.

(** ** The counts stay within an [int] *)

(** Replacing the value of a key in a table with sorted keys. *)
Lemma smap_sum_put k v (m : smap nat) :
  StronglySorted Z.lt (smap_keys m) ->
  sum_with snd (smap_put k v m) + from_option id 0 (smap_get m k) = sum_with snd m + v.
Proof.
  induction m as [|[k' v'] m IH]; intros Hs; [cbn; lia|].
  pose proof Hs as Hs0. unfold smap_keys in Hs. cbn [fmap list_fmap fst] in Hs.
  apply StronglySorted_inv in Hs as [Hs Hall]. rewrite Forall_forall in Hall.
  cbn [smap_put]. destruct (decide (k < k')%Z) as [Hlt|Hge]; [|destruct (decide (k = k')) as [<-|Hne]];
    cbn [smap_get].
  - rewrite decide_False by lia.
    assert (Hnone : smap_get m k = None).
    { destruct (smap_get m k) eqn:E; [|done]. exfalso.
      assert (Hk : k ∈ smap_keys m) by (apply smap_get_keys; by rewrite E). apply Hall in Hk. lia. }
    rewrite Hnone. cbn. lia.
  - rewrite decide_True by done. cbn. lia.
  - rewrite decide_False by done. specialize (IH Hs). unfold sum_with in *. cbn in *. lia.
Qed.

Lemma count_loop_sum input :
  StronglySorted Z.lt (smap_keys (foldl count_step [] input)) /\
  sum_with snd (foldl count_step [] input) = length input.
Proof.
  induction input as [|x input [Hs IH]] using rev_ind; [split; [constructor|done]|].
  rewrite foldl_app, length_app. cbn [foldl length].
  assert (Hstep : forall m, count_step m x = smap_put x (from_option id 0 (smap_get m x) + 1) m)
    by (intros m; unfold count_step; by destruct (smap_get m x)).
  rewrite Hstep. split; [by apply smap_put_sorted|].
  pose proof (smap_sum_put x (from_option id 0 (smap_get (foldl count_step [] input) x) + 1) _ Hs). lia.
Qed.

(** The counts of the table add up to at most one more than the input's
    length: one per character read and one for [PSEUDO_EOF]. *)
Lemma buildFrequencyTable_sum input : sum_with snd (buildFrequencyTable input) <= S (length input).
Proof.
  rewrite buildFrequencyTable_unfold. destruct (count_loop_sum input) as [Hs Hsum].
  pose proof (smap_sum_put PSEUDO_EOF 1 _ Hs). lia.
Qed.

Lemma sum_with_elem {A} (w : A -> nat) (l : list A) a : a ∈ l -> w a <= sum_with w l.
Proof. induction l as [|b l IH]; [by intros ?%elem_of_nil|]. intros [->|Ha]%elem_of_cons; unfold sum_with in *; cbn; [lia|]. specialize (IH Ha). lia. Qed.

(** The count of every node of a tree, each [first->count +
    second->count] included. *)
Fixpoint node_counts (t : HuffmanNode) : list nat :=
  match t with
  | HLeaf _ n => [n]
  | HNode _ n zero one => n :: node_counts zero ++ node_counts one
  end.

Lemma wf_counts_le t : huff_wf t -> Forall (fun n => n <= node_count t) (node_counts t).
Proof.
  induction t as [c n|ch n zero IH0 one IH1]; cbn; intros Hwf; [constructor; [lia|constructor]|].
  destruct Hwf as (_ & -> & Hw0 & Hw1). constructor; [lia|]. apply Forall_app. split.
  - eapply Forall_impl; [by apply IH0|]. cbn. lia.
  - eapply Forall_impl; [by apply IH1|]. cbn. lia.
Qed.

(** The tree [buildEncodingTree] returns is well formed and its root
    counts the whole table. *)
Lemma buildEncodingTree_root fuel freqTable t :
  buildEncodingTree fuel freqTable = Ret t -> huff_wf t /\ node_count t = sum_with snd freqTable.
Proof.
  rewrite buildEncodingTree_unfold. intros Ht.
  set (P := fun q => Forall (entry_ok freqTable) q /\ queue_count q = sum_with snd freqTable).
  set (Q := fun r : res HuffmanNode => forall t, r = Ret t -> huff_wf t /\ node_count t = sum_with snd freqTable).
  enough (HQ : Q (iter_loop merge_step fuel (init_queue freqTable))) by (by apply HQ).
  apply (iter_loop_inv merge_step P Q); [| |split; [apply init_queue_ok|apply init_queue_count]|by rewrite Ht].
  - intros q q' [Hq Hc] Hs. split; [by eapply merge_step_ok|by rewrite (merge_step_count q q' Hs)].
  - intros q r [Hq Hc] Hs t' ->. destruct q as [|[a pa] [|[b pb] q]]; cbn in Hs; try discriminate.
    injection Hs as <-. apply Forall_inv in Hq as (Hw & _ & _). split; [done|].
    rewrite <- Hc. unfold queue_count. cbn. lia.
Qed.

(** C27. The [int] counts of [compress] never overflow on an input of
    fewer than [INT_MAX] bytes: every count of the frequency table
    ([freqTable[charInput] += 1]) and the count of every node of the
    tree (each [first->count + second->count]) is at most the input's
    length plus one. *)
Theorem compress_counts_fit_int fuel input t :
  (Z.of_nat (length input) < INT_MAX)%Z ->
  buildEncodingTree fuel (buildFrequencyTable input) = Ret t ->
  Forall (fun n => n <= S (length input) /\ (Z.of_nat n <= INT_MAX)%Z)
    ((buildFrequencyTable input).*2 ++ node_counts t).
Proof.
  intros Hlen Ht. destruct (buildEncodingTree_root _ _ _ Ht) as [Hwf Hroot].
  pose proof (buildFrequencyTable_sum input) as Hsum.
  assert (Hb : forall n, n <= S (length input) -> n <= S (length input) /\ (Z.of_nat n <= INT_MAX)%Z)
    by (intros n Hn; split; [done|unfold INT_MAX in *; lia]).
  apply Forall_app. split; apply Forall_forall; intros n Hn; apply Hb.
  - apply list_elem_of_fmap in Hn as ([c m] & -> & He). pose proof (sum_with_elem snd _ _ He). cbn in *. lia.
  - pose proof (wf_counts_le t Hwf) as Hc. rewrite Forall_forall in Hc. specialize (Hc n Hn). lia.
Qed.

Lemma compress_counts_fit_int_witness :
  (Z.of_nat (length [97; 98; 97]%Z) < INT_MAX)%Z /\
  buildEncodingTree 10 (buildFrequencyTable [97; 98; 97]%Z) =
    Ret (HNode 257 4 (HLeaf 97 2) (HNode 257 2 (HLeaf 98 1) (HLeaf 256 1))) /\
  Forall (fun n => n <= S (length [97; 98; 97]%Z) /\ (Z.of_nat n <= INT_MAX)%Z)
    ((buildFrequencyTable [97; 98; 97]%Z).*2 ++ node_counts (HNode 257 4 (HLeaf 97 2) (HNode 257 2 (HLeaf 98 1) (HLeaf 256 1)))).
Proof.
  assert (Hl : (Z.of_nat (length [97; 98; 97]%Z) < INT_MAX)%Z) by (unfold INT_MAX; simpl; lia).
  assert (Hb : buildEncodingTree 10 (buildFrequencyTable [97; 98; 97]%Z) =
    Ret (HNode 257 4 (HLeaf 97 2) (HNode 257 2 (HLeaf 98 1) (HLeaf 256 1)))) by (vm_compute; reflexivity).
  split; [exact Hl|]. split; [exact Hb|]. exact (compress_counts_fit_int 10 _ _ Hl Hb).
Defined.

Lemma reaches_prefix t p1 c1 p2 c2 :
  reaches t p1 c1 -> reaches t (p1 ++ p2) c2 -> p2 = [] /\ c1 = c2.
Proof.
  intros H1. revert p2 c2. induction H1; intros p2 c2 H2; simpl in H2.
  - by inversion H2.
  - inversion H2; subst. by apply IHreaches.
  - inversion H2; subst. by apply IHreaches.
Qed.

(** C25. The code of [buildEncodingMap] is prefix-free: when the bits of
    one character's code begin with the bits of another's, the two codes
    are equal and belong to the same character. *)
Theorem buildEncodingMap_prefix_free t c1 c2 s1 s2 rest :
  smap_get (buildEncodingMap t) c1 = Some s1 ->
  smap_get (buildEncodingMap t) c2 = Some s2 ->
  bits_of s2 = bits_of s1 ++ rest -> rest = [] /\ c1 = c2.
Proof.
  intros H1 H2 Hpre.
  destruct (map_rec_values t [] "" c1 s1 H1) as [(p1 & Hb1 & Hr1)|?]; [|done].
  destruct (map_rec_values t [] "" c2 s2 H2) as [(p2 & Hb2 & Hr2)|?]; [|done].
  simpl in Hb1, Hb2. rewrite Hb1, Hb2 in Hpre. subst p2.
  by apply (reaches_prefix t p1 c1 rest c2).
Qed.

Definition abc_tree : HuffmanNode :=
  HNode NOT_A_CHAR 4 (HLeaf 97 2) (HNode NOT_A_CHAR 2 (HLeaf 98 1) (HLeaf PSEUDO_EOF 1)).

Lemma buildEncodingMap_prefix_free_witness :
  smap_get (buildEncodingMap abc_tree) 98 = Some "10" /\
  smap_get (buildEncodingMap abc_tree) 98 = Some "10" /\
  bits_of "10" = bits_of "10" ++ [] /\ ([] : list bool) = [] /\ (98 = 98)%Z.
Proof.
  assert (H : smap_get (buildEncodingMap abc_tree) 98 = Some "10") by (vm_compute; reflexivity).
  assert (Hb : bits_of "10" = bits_of "10" ++ []) by (vm_compute; reflexivity).
  split_and!; [exact H|exact H|exact Hb|..];
    [exact (proj1 (buildEncodingMap_prefix_free abc_tree 98 98 "10" "10" [] H H Hb))
    |exact (proj2 (buildEncodingMap_prefix_free abc_tree 98 98 "10" "10" [] H H Hb))].
Defined.

Lemma decode_leaf_forever c n fuel st :
  c <> PSEUDO_EOF -> iter_loop (decode_step (HLeaf c n)) fuel st = OutOfFuel.
Proof.
  intros Hc. revert st. induction fuel as [|fuel IH]; intros [input output]; [done|].
  rewrite iter_loop_S. simpl. rewrite decide_False by done. apply IH.
Qed.

(** C34. On a compressed file whose header holds a single character other
    than [PSEUDO_EOF], [decompress] never returns: the tree is one leaf,
    and [decodeData] writes that character again and again without
    reading a bit. *)
Theorem decompress_single_character_diverges fuel c n input :
  c <> PSEUDO_EOF -> decompress fuel ([(c, n)], input) = OutOfFuel.
Proof.
  intros Hc. destruct fuel as [|fuel]; [done|]. unfold decompress, buildEncodingTree.
  rewrite iter_loop_S. simpl. by apply decode_leaf_forever.
Qed.

Lemma decompress_single_character_diverges_witness :
  (97 <> PSEUDO_EOF)%Z /\ decompress 1000 ([(97%Z, 5)], [true; false]) = OutOfFuel.
Proof.
  assert (Hc : (97 <> PSEUDO_EOF)%Z) by (unfold PSEUDO_EOF; lia).
  split; [exact Hc|exact (decompress_single_character_diverges 1000 97 5 [true; false] Hc)].
Defined.
