(* ===== verification/Memory.v ===== *)
(** * Memory.v: the Huffman tree and the patient list on the heap

    The two places where the code releases memory, modelled on a heap:
    [freeTree] of [encoding.cpp] (the encoding tree, after [compress] and
    [decompress]) and the destructor of [LinkedListPatientQueue] with the
    loop of [clear].  A heap maps locations ([nat]) to the objects
    allocated there; a pointer is an [option nat], [NULL] being [None].
    Reading through [NULL] or a freed pointer, and deleting a pointer
    that is not allocated, are undefined behaviour ([heap_read],
    [heap_delete]); [delete NULL] does nothing.

    [HuffmanHeap] is [encoding.cpp] with its [new HuffmanNode] objects on
    the heap: [buildEncodingTree] (the priority queue holding pointers),
    the pointer walks [buildEncodingMap] and [decodeData], [freeTree],
    and [compress] and [decompress] composing them.  The recursions
    through the pointers run on a fuel (more than the tree's depth is
    enough).  The theorems are in [MemoryProofs.v]. *)

From S2P Require Import Prelude PQueue PatientQueueSpec LinkedListPatientQueue Huffman.

(** ** The heap *)

(** A heap of objects of type [V]. *)
Abbreviation heap V := (gmap nat V) (only parsing).

Section Heap.
Context {V : Type}.

Definition use_after_free : string := "read through a freed pointer".
Definition null_dereference : string := "read through NULL".
Definition double_free : string := "delete of a pointer that is not allocated".

(** [*p]. *)
Definition heap_read (h : heap V) (p : option nat) : res V :=
  match p with
  | None => Undef null_dereference
  | Some l => match h !! l with Some v => Ret v | None => Undef use_after_free end
  end.

(** [delete p]. *)
Definition heap_delete (h : heap V) (p : option nat) : res (heap V) :=
  match p with
  | None => Ret h
  | Some l => if decide (is_Some (h !! l)) then Ret (delete l h) else Undef double_free
  end.

End Heap.

(** ** The encoding tree on the heap *)

Module HuffmanHeap.

(** A [HuffmanNode] object: its character, its count and its two child
    pointers. *)
Record hnode := mkHNode { h_character : Z; h_count : nat; h_zero : option nat; h_one : option nat }.

(** [node->isLeaf()]: both children are [NULL]. *)
Definition isLeaf (n : hnode) : bool := bool_decide (h_zero n = None /\ h_one n = None).

(** [new HuffmanNode(...)]: the object at a location that is not
    allocated. *)
Definition new_node (h : heap hnode) (n : hnode) : heap hnode * nat :=
  let l := fresh (dom h) in (<[l := n]> h, l).

(** A read that fails leaves the loop with its error. *)
Definition read_then {St R} (h : heap hnode) (p : option nat) (k : hnode -> St + res R) : St + res R :=
  match heap_read h p with
  | Ret n => k n
  | Throw e => inr (Throw e)
  | Undef w => inr (Undef w)
  | OutOfFuel => inr OutOfFuel
  end.

(** One round of [while (priorityQ.size() > 1)] on the queue of node
    pointers: [first->count + second->count] reads both nodes, [joined]
    is a new node. *)
Definition merge_step (st : heap hnode * list (option nat * nat))
    : heap hnode * list (option nat * nat) + res (heap hnode * option nat) :=
  let '(h, priorityQ) := st in
  match priorityQ with
  | (first, _) :: (second, _) :: priorityQ' =>
      read_then h first (fun fn =>
      read_then h second (fun sn =>
        let '(h, joined) := new_node h (mkHNode NOT_A_CHAR (h_count fn + h_count sn) first second) in
        inl (h, pq_enqueue (Some joined) (h_count fn + h_count sn) priorityQ')))
  | [(root, _)] => inr (Ret (h, root))
  | [] => inr (Throw dequeue_error)
  end.

(** The [for] loop of [buildEncodingTree]: one new leaf per entry. *)
Definition init_step (st : heap hnode * list (option nat * nat)) (e : Z * nat)
    : heap hnode * list (option nat * nat) :=
  let '(h, priorityQ) := st in
  let '(character, count) := e in
  let '(h, huffNode) := new_node h (mkHNode character count None None) in
  (h, pq_enqueue (Some huffNode) count priorityQ).

(** [buildEncodingTree(freqTable)]: the heap after it and the root. *)
Definition buildEncodingTree (fuel : nat) (h : heap hnode) (freqTable : smap nat)
    : res (heap hnode * option nat) :=
  iter_loop merge_step fuel (foldl init_step (h, []) freqTable).

(** [freeTree(node)]: free both subtrees of an inner node, then the node;
    the recursion runs on a fuel. *)
Fixpoint freeTree (fuel : nat) (h : heap hnode) (node : option nat) : res (heap hnode) :=
  match fuel with
  | O => OutOfFuel
  | S fuel' =>
      (let* n := heap_read h node in
       let* h := if negb (isLeaf n) then
                   (let* h := freeTree fuel' h (h_zero n) in freeTree fuel' h (h_one n))
                 else Ret h in
       heap_delete h node)%res
  end.

(** The recursive [buildEncodingMap(node, encodingMap, encoding)] through
    the pointers. *)
Fixpoint buildEncodingMap_rec (fuel : nat) (h : heap hnode) (node : option nat) (encodingMap : smap string)
    (encoding : string) : res (smap string) :=
  match fuel with
  | O => OutOfFuel
  | S fuel' =>
      (let* n := heap_read h node in
       if isLeaf n then Ret (smap_put (h_character n) encoding encodingMap)
       else
         let zero := encoding +:+ "0" in
         let* encodingMap := buildEncodingMap_rec fuel' h (h_zero n) encodingMap zero in
         let one := encoding +:+ "1" in
         buildEncodingMap_rec fuel' h (h_one n) encodingMap one)%res
  end.

Definition buildEncodingMap (fuel : nat) (h : heap hnode) (encodingTree : option nat) : res (smap string) :=
  buildEncodingMap_rec fuel h encodingTree [] "".

(** The recursive [decodeData(input, encodingTree, output, current)]
    through the pointers. *)
Fixpoint decodeData_rec (fuel : nat) (h : heap hnode) (current : option nat) (input : list bool)
    (output : list Z) : res (bool * list bool * list Z) :=
  match fuel with
  | O => OutOfFuel
  | S fuel' =>
      (let* n := heap_read h current in
       if isLeaf n then
         if decide (h_character n = PSEUDO_EOF) then Ret (false, input, output)
         else Ret (true, input, output ++ [h_character n])
       else
         match input with
         | false :: input' => decodeData_rec fuel' h (h_zero n) input' output
         | true :: input' => decodeData_rec fuel' h (h_one n) input' output
         | [] => Ret (false, input, output)
         end)%res
  end.

(** [while (decoding)] of [decodeData(input, encodingTree, output)]. *)
Definition decode_step (fuel : nat) (h : heap hnode) (encodingTree : option nat) (st : list bool * list Z)
    : (list bool * list Z) + res (list Z) :=
  let '(input, output) := st in
  match decodeData_rec fuel h encodingTree input output with
  | Ret (decoding, input, output) => if decoding then inl (input, output) else inr (Ret output)
  | Throw e => inr (Throw e)
  | Undef w => inr (Undef w)
  | OutOfFuel => inr OutOfFuel
  end.

Definition decodeData (fuel : nat) (h : heap hnode) (input : list bool) (encodingTree : option nat)
    : res (list Z) :=
  iter_loop (decode_step fuel h encodingTree) fuel (input, []).

(** [compress(input, output)]: the tree is built on the heap, read by
    [buildEncodingMap] and freed; the heap after it and the file. *)
Definition compress (fuel : nat) (h : heap hnode) (input : list Z) : res (heap hnode * (smap nat * list bool)) :=
  (let freqTable := Huffman.buildFrequencyTable input in
   let* st := buildEncodingTree fuel h freqTable in
   let '(h, encodingTree) := st in
   let* encodingMap := buildEncodingMap fuel h encodingTree in
   let output := Huffman.encodeData input encodingMap in
   let* h := freeTree fuel h encodingTree in
   Ret (h, (freqTable, output)))%res.

(** [decompress(input, output)]. *)
Definition decompress (fuel : nat) (h : heap hnode) (file : smap nat * list bool) : res (heap hnode * list Z) :=
  (let '(freqTable, input) := file in
   let* st := buildEncodingTree fuel h freqTable in
   let '(h, encodingTree) := st in
   let* output := decodeData fuel h input encodingTree in
   let* h := freeTree fuel h encodingTree in
   Ret (h, output))%res.

End HuffmanHeap.

(** ** The destructor of [LinkedListPatientQueue] *)

Module LinkedListFree.

(** A [PatientNode] object. *)
Record pnode := mkPNode { p_name : string; p_priority : Z; p_next : option nat }.

(** The loop of [clear]: [while (start != NULL) { temp = start;
    start = start->next; delete temp; }]; it returns the heap and the new
    [start]. *)
Fixpoint clear_loop (fuel : nat) (h : heap pnode) (start : option nat) : res (heap pnode * option nat) :=
  match fuel with
  | O => OutOfFuel
  | S fuel' =>
      match start with
      | None => Ret (h, None)
      | Some _ =>
          (let temp := start in
           let* n := heap_read h start in
           let start := p_next n in
           let* h := heap_delete h temp in
           clear_loop fuel' h start)%res
      end
  end.

(** [~LinkedListPatientQueue()]: [clear(); delete start;]. *)
Definition destroy (fuel : nat) (h : heap pnode) (start : option nat) : res (heap pnode) :=
  (let* st := clear_loop fuel h start in
   let '(h, start) := st in
   heap_delete h start)%res.

End LinkedListFree.

