(* ===== verification/MemoryProofs.v ===== *)
(** * MemoryProofs.v: the theorems of [Memory.v]

    [released h h' L]: [h'] is [h] with the locations [L] deleted.
    [stored] and [chain] say that a pointer leads to a tree or a chain of
    nodes at distinct locations.  The lemmas follow the recursion of
    [freeTree] and the loop of [clear]; [buildEncodingTree_stored] runs
    the heap version of [buildEncodingTree] in lock step with the model
    of [Huffman.v] ([iter_loop_sim_res]); the pointer walks follow the
    recursion of the model on a stored tree, so [compress] and
    [decompress] on the heap compute the model's results.  The claims
    are in [MemoryTheorems]. *)

From S2P Require Import Prelude PQueue PatientQueueSpec LinkedListPatientQueue LinkedListPatientQueueProofs Huffman HuffmanProofs Memory.

Section Released.
Context {V : Type}.

(** [h'] is [h] with the locations [L] released. *)
Definition released (h h' : heap V) (L : gset nat) : Prop :=
  forall l, h' !! l = if decide (l ∈ L) then None else h !! l.

Lemma released_empty h : released h h ∅.
Proof. intros l. by rewrite decide_False by set_solver. Qed.

Lemma released_trans h1 h2 h3 L1 L2 :
  released h1 h2 L1 -> released h2 h3 L2 -> released h1 h3 (L1 ∪ L2).
Proof.
  intros H12 H23 l. rewrite H23, H12. repeat case_decide; set_solver.
Qed.

Lemma released_delete h l : is_Some (h !! l) -> released h (delete l h) {[l]}.
Proof.
  intros _ l'. destruct (decide (l' = l)) as [->|Hne].
  - rewrite lookup_delete_eq. by rewrite decide_True by set_solver.
  - rewrite lookup_delete_ne by congruence. by rewrite decide_False by set_solver.
Qed.

Lemma released_equiv h h' L L' : L ≡ L' -> released h h' L -> released h h' L'.
Proof. intros Heq Hr l. rewrite Hr. repeat case_decide; set_solver. Qed.

(** Releasing other locations keeps what is stored at [l]. *)
Lemma released_keep h h' L l : released h h' L -> l ∉ L -> h' !! l = h !! l.
Proof. intros Hr Hl. by rewrite Hr, decide_False. Qed.

End Released.

Import HuffmanHeap LinkedListFree.

(** ** Structures on the heap *)

(** [stored h p t L]: the pointer [p] leads to the tree [t], whose nodes
    are at the distinct locations [L]. *)
Inductive stored (h : heap hnode) : option nat -> HuffmanNode -> gset nat -> Prop :=
| stored_leaf l c n :
    h !! l = Some (mkHNode c n None None) -> stored h (Some l) (HLeaf c n) {[l]}
| stored_node l ch n l0 l1 zero one L0 L1 :
    h !! l = Some (mkHNode ch n (Some l0) (Some l1)) ->
    stored h (Some l0) zero L0 -> stored h (Some l1) one L1 ->
    L0 ## L1 -> l ∉ L0 ∪ L1 ->
    stored h (Some l) (HNode ch n zero one) ({[l]} ∪ L0 ∪ L1).

Fixpoint depth (t : HuffmanNode) : nat :=
  match t with HLeaf _ _ => 0 | HNode _ _ zero one => S (Nat.max (depth zero) (depth one)) end.

(** [chain h p ps L]: following [next] from [p] visits the patients [ps],
    at the distinct locations [L], and ends at [NULL]. *)
Inductive chain (h : heap pnode) : option nat -> list Patient -> gset nat -> Prop :=
| chain_nil : chain h None [] ∅
| chain_cons l nm pr next ps L :
    h !! l = Some (mkPNode nm pr next) -> chain h next ps L -> l ∉ L ->
    chain h (Some l) (mkPatient nm pr :: ps) ({[l]} ∪ L).

(** A structure is unaffected by writes outside its locations. *)
Lemma stored_frame h h' p t L :
  stored h p t L -> (forall l, l ∈ L -> h' !! l = h !! l) -> stored h' p t L.
Proof.
  induction 1 as [l c n Hl|l ch n l0 l1 zero one L0 L1 Hl _ IH0 _ IH1 Hdisj Hnotin]; intros Hsame.
  - constructor. rewrite Hsame by set_solver. done.
  - apply (stored_node h' l ch n l0 l1); [rewrite Hsame by set_solver; done|apply IH0|apply IH1|done|done];
      intros l' Hl'; apply Hsame; set_solver.
Qed.

Lemma stored_in h p t L : stored h p t L -> exists l, p = Some l /\ l ∈ L.
Proof. destruct 1; eexists; split; [done|set_solver|done|set_solver]. Qed.

Lemma freeTree_stored t : forall h p L fuel,
  stored h p t L -> depth t < fuel ->
  exists h', freeTree fuel h p = Ret h' /\ released h h' L.
Proof.
  induction t as [c n|ch n zero IH0 one IH1]; intros h p L [|fuel] Hs Hfuel; cbn [depth] in Hfuel; [lia| |lia|].
  - inversion Hs as [l c' n' Hl| ]; subst. cbn [freeTree heap_read]. rewrite Hl. cbn [res_bind].
    unfold isLeaf. cbn [h_zero h_one]. rewrite bool_decide_true by done. cbn [negb res_bind heap_delete].
    rewrite decide_True by (by rewrite Hl). eexists. split; [reflexivity|]. apply released_delete. by rewrite Hl.
  - inversion Hs as [|l ch' n' l0 l1 zero' one' L0 L1 Hl Hs0 Hs1 Hdisj Hnotin]; subst.
    cbn [freeTree heap_read]. rewrite Hl. cbn [res_bind]. unfold isLeaf. cbn [h_zero h_one].
    rewrite bool_decide_false by naive_solver. cbn [negb].
    destruct (IH0 h (Some l0) L0 fuel Hs0 ltac:(lia)) as (h0 & -> & Hr0). cbn [res_bind].
    assert (Hs1' : stored h0 (Some l1) one L1).
    { apply (stored_frame h); [done|]. intros l' Hl'. apply (released_keep _ _ L0); [done|set_solver]. }
    destruct (IH1 h0 (Some l1) L1 fuel Hs1' ltac:(lia)) as (h1 & -> & Hr1). cbn [res_bind heap_delete].
    assert (Hl1 : h1 !! l = Some (mkHNode ch n (Some l0) (Some l1))).
    { rewrite (released_keep h0 h1 L1), (released_keep h h0 L0); [done|done|set_solver|done|set_solver]. }
    rewrite decide_True by (by rewrite Hl1). eexists. split; [reflexivity|].
    apply (released_equiv h _ (L0 ∪ L1 ∪ {[l]})); [set_solver|].
    eapply released_trans; [eapply released_trans; [exact Hr0|exact Hr1]|].
    apply released_delete. by rewrite Hl1.
Qed.

Lemma chain_frame h h' p ps L :
  chain h p ps L -> (forall l, l ∈ L -> h' !! l = h !! l) -> chain h' p ps L.
Proof.
  induction 1 as [|l nm pr next ps L Hl _ IH Hnotin]; intros Hsame; [constructor|].
  apply (chain_cons h' l nm pr next); [rewrite Hsame by set_solver; done|apply IH|done].
  intros l' Hl'. apply Hsame. set_solver.
Qed.

(** The loop of [clear] walks the chain, deleting each node after reading
    its [next]: it ends with [start] at [NULL] and the chain's locations
    released, in one iteration per node and one for the test that ends it. *)
Lemma clear_loop_chain ps : forall h p L fuel,
  chain h p ps L -> length ps < fuel ->
  exists h', clear_loop fuel h p = Ret (h', None) /\ released h h' L.
Proof.
  induction ps as [|[nm pr] ps IH]; intros h p L [|fuel] Hc Hfuel; cbn [length] in Hfuel; [lia| |lia|].
  - inversion Hc; subst. eexists. split; [reflexivity|apply released_empty].
  - inversion Hc as [|l nm' pr' next ps' L' Hl Hc' Hnotin]; subst.
    cbn [clear_loop heap_read]. rewrite Hl. cbn [res_bind p_next heap_delete].
    rewrite decide_True by (by rewrite Hl). cbn [res_bind].
    assert (Hc'' : chain (delete l h) next ps L').
    { apply (chain_frame h); [done|]. intros l' Hl'. rewrite lookup_delete_ne; [done|set_solver]. }
    destruct (IH _ _ _ fuel Hc'' ltac:(lia)) as (h' & -> & Hr).
    eexists. split; [reflexivity|].
    apply (released_equiv h _ ({[l]} ∪ L')); [set_solver|].
    eapply released_trans; [apply released_delete; by rewrite Hl|exact Hr].
Qed.

(** The destructor: after [clear], [delete start] deletes [NULL]. *)
Lemma destroy_chain h p ps L fuel :
  chain h p ps L -> length ps < fuel ->
  exists h', destroy fuel h p = Ret h' /\ released h h' L.
Proof.
  intros Hc Hfuel. destruct (clear_loop_chain ps h p L fuel Hc Hfuel) as (h' & Hl & Hr).
  unfold destroy. rewrite Hl. cbn [res_bind heap_delete]. by exists h'.
Qed.

(** ** [buildEncodingTree] allocates the tree of the model *)

Lemma stored_dom h p t L : stored h p t L -> L ⊆ dom h.
Proof.
  induction 1 as [l c n Hl|l ch n l0 l1 zero one L0 L1 Hl _ IH0 _ IH1 _ _];
    apply elem_of_dom_2 in Hl; set_solver.
Qed.

Lemma stored_read h p t L : stored h p t L -> exists n, heap_read h p = Ret n /\ h_count n = node_count t.
Proof. destruct 1 as [l c n Hl|l ch n l0 l1 zero one L0 L1 Hl]; eexists; cbn [heap_read]; by rewrite Hl. Qed.

Lemma stored_alloc h p t L l (v : hnode) : stored h p t L -> l ∉ dom h -> stored (<[l:=v]> h) p t L.
Proof.
  intros Hs Hl. apply (stored_frame h); [done|]. intros l' Hl'.
  apply lookup_insert_ne. apply stored_dom in Hs. set_solver.
Qed.

Lemma released_alloc (h h0 : heap hnode) L l v : released h h0 L -> l ∉ dom h -> released (<[l:=v]> h) h0 ({[l]} ∪ L).
Proof.
  intros Hr Hl l'. rewrite Hr. apply not_elem_of_dom in Hl.
  destruct (decide (l' = l)) as [->|Hne].
  - rewrite Hl. repeat case_decide; set_solver.
  - rewrite lookup_insert_ne by done. repeat case_decide; set_solver.
Qed.

(** Releasing the same locations gives the same heap. *)
Lemma released_unique {V} (h h1 h2 : heap V) L : released h h1 L -> released h h2 L -> h1 = h2.
Proof. intros H1 H2. apply map_eq. intros l. by rewrite H1, H2. Qed.

(** The queue of pointers holds the queue of trees of the model, entry
    by entry with the same priorities, at disjoint locations [L]. *)
Inductive queue_stored (h : heap hnode) : list (option nat * nat) -> list (HuffmanNode * nat) -> gset nat -> Prop :=
| qs_nil : queue_stored h [] [] ∅
| qs_cons p t pri qp qt L L' :
    stored h p t L -> queue_stored h qp qt L' -> L ## L' ->
    queue_stored h ((p, pri) :: qp) ((t, pri) :: qt) (L ∪ L').

Lemma queue_stored_dom h qp qt L : queue_stored h qp qt L -> L ⊆ dom h.
Proof. induction 1 as [|p t pri qp qt L L' Hs _ IH _]; [set_solver|]. apply stored_dom in Hs. set_solver. Qed.

Lemma queue_stored_alloc h qp qt L l (v : hnode) :
  queue_stored h qp qt L -> l ∉ dom h -> queue_stored (<[l:=v]> h) qp qt L.
Proof.
  induction 1 as [|p t pri qp qt L L' Hs _ IH Hd]; intros Hl; constructor; [by apply stored_alloc|by apply IH|done].
Qed.

(** [enqueue] puts a pointer and its tree at the same place, since the
    place depends on the priorities only. *)
Lemma queue_stored_enqueue h p t L pri qp qt L' :
  stored h p t L -> queue_stored h qp qt L' -> L ## L' ->
  queue_stored h (pq_enqueue p pri qp) (pq_enqueue t pri qt) (L ∪ L').
Proof.
  intros Hs Hq. induction Hq as [|p' t' pri' qp qt L1 L2 Hs' Hq' IH Hd]; intros Hdisj.
  - cbn. by apply qs_cons; [|constructor|set_solver].
  - cbn [pq_enqueue]. destruct (pri' <=? pri).
    + replace (L ∪ (L1 ∪ L2)) with (L1 ∪ (L ∪ L2)) by set_solver.
      constructor; [done|apply IH; set_solver|set_solver].
    + apply qs_cons; [done|by constructor|set_solver].
Qed.

Section Build.
Context (h0 : heap hnode).

(** The loop states: the heap holds the model's queue at locations [L]
    that were not allocated before [buildEncodingTree]. *)
Definition heap_rel (st : heap hnode * list (option nat * nat)) (qt : list (HuffmanNode * nat)) : Prop :=
  exists L, queue_stored st.1 st.2 qt L /\ released st.1 h0 L.

(** The results: the root pointer holds the model's tree, on fresh
    locations, or both throw the same error. *)
Definition tree_rel (r1 : res (heap hnode * option nat)) (r2 : res HuffmanNode) : Prop :=
  match r1, r2 with
  | Ret (h, p), Ret t => exists L, stored h p t L /\ released h h0 L
  | Throw e1, Throw e2 => e1 = e2
  | OutOfFuel, OutOfFuel => True
  | _, _ => False
  end.

(** A new node on top of two stored trees. *)
Lemma stored_join h p1 t1 L1 p2 t2 L2 ch c l :
  stored h p1 t1 L1 -> stored h p2 t2 L2 -> L1 ## L2 -> l ∉ dom h ->
  stored (<[l := mkHNode ch c p1 p2]> h) (Some l) (HNode ch c t1 t2) ({[l]} ∪ L1 ∪ L2).
Proof.
  intros Hs1 Hs2 Hd Hl.
  destruct (stored_in _ _ _ _ Hs1) as (l1 & -> & _), (stored_in _ _ _ _ Hs2) as (l2 & -> & _).
  pose proof (stored_dom _ _ _ _ Hs1). pose proof (stored_dom _ _ _ _ Hs2).
  apply (stored_node _ l ch c l1 l2); [by rewrite lookup_insert_eq|by apply stored_alloc|by apply stored_alloc|done|set_solver].
Qed.

Lemma merge_step_rel s t : heap_rel s t ->
  (exists s' t', HuffmanHeap.merge_step s = inl s' /\ Huffman.merge_step t = inl t' /\ heap_rel s' t') \/
  (exists r1 r2, HuffmanHeap.merge_step s = inr r1 /\ Huffman.merge_step t = inr r2 /\ tree_rel r1 r2).
Proof.
  destruct s as [h qp]. intros (L & Hq & Hr). cbn [fst snd] in *.
  destruct Hq as [|p1 t1 pri1 qp1 qt1 L1 L1' Hs1 Hq1 Hd1].
  { right. eexists _, _. split_and!; [reflexivity|reflexivity|done]. }
  destruct Hq1 as [|p2 t2 pri2 qp2 qt2 L2 L2' Hs2 Hq2 Hd2].
  { right. eexists _, _. split_and!; [reflexivity|reflexivity|]. exists L1.
    split; [done|]. apply (released_equiv _ _ (L1 ∪ ∅)); [set_solver|done]. }
  left. destruct (stored_read _ _ _ _ Hs1) as (n1 & Hn1 & Hc1), (stored_read _ _ _ _ Hs2) as (n2 & Hn2 & Hc2).
  cbn [HuffmanHeap.merge_step Huffman.merge_step]. unfold read_then, new_node. rewrite Hn1, Hn2.
  pose proof (is_fresh (dom h)) as Hl. set (l := fresh (dom h)) in *.
  eexists _, _. split_and!; [reflexivity|reflexivity|]. cbn [fst snd node_count]. rewrite Hc1, Hc2.
  pose proof (queue_stored_dom _ _ _ _ Hq2).
  exists ({[l]} ∪ L1 ∪ L2 ∪ L2'). split.
  - apply queue_stored_enqueue; [apply stored_join; [done|done|set_solver|done]|by apply queue_stored_alloc|].
    pose proof (stored_dom _ _ _ _ Hs1). pose proof (stored_dom _ _ _ _ Hs2). set_solver.
  - apply (released_equiv _ _ ({[l]} ∪ (L1 ∪ (L2 ∪ L2')))); [set_solver|]. by apply released_alloc.
Qed.

(** The [for] loop allocates one leaf per entry of the table. *)
Lemma init_rel freqTable : forall st qt, heap_rel st qt ->
  heap_rel (foldl init_step st freqTable)
    (foldl (fun priorityQ '(character, count) => pq_enqueue (HLeaf character count) count priorityQ) qt freqTable).
Proof.
  induction freqTable as [|[c n] m IH]; intros [h qp] qt (L & Hq & Hr); [by exists L|]. cbn [foldl]. apply IH.
  unfold init_step, new_node. pose proof (is_fresh (dom h)) as Hl. set (l := fresh (dom h)) in *.
  pose proof (queue_stored_dom _ _ _ _ Hq).
  exists ({[l]} ∪ L). split; [|by apply released_alloc]. cbn [fst snd].
  apply queue_stored_enqueue; [|by apply queue_stored_alloc|set_solver].
  apply stored_leaf. by rewrite lookup_insert_eq.
Qed.

(** The two [buildEncodingTree] run in lock step: the heap one stores
    the tree of the model on fresh locations, or both throw the same
    error, or both run out of fuel. *)
Lemma buildEncodingTree_rel fuel freqTable :
  tree_rel (HuffmanHeap.buildEncodingTree fuel h0 freqTable) (Huffman.buildEncodingTree fuel freqTable).
Proof.
  rewrite buildEncodingTree_unfold. unfold HuffmanHeap.buildEncodingTree.
  apply (iter_loop_sim_res _ _ heap_rel tree_rel I merge_step_rel).
  apply init_rel. exists ∅. split; [constructor|apply released_empty].
Qed.

(** [buildEncodingTree] leaves the tree of the model on locations that
    were free before it, and changes nothing else. *)
Lemma buildEncodingTree_stored fuel freqTable t :
  Huffman.buildEncodingTree fuel freqTable = Ret t ->
  exists h1 p L, HuffmanHeap.buildEncodingTree fuel h0 freqTable = Ret (h1, p) /\
    stored h1 p t L /\ released h1 h0 L.
Proof.
  intros Ht. pose proof (buildEncodingTree_rel fuel freqTable) as Hsim. rewrite Ht in Hsim.
  destruct (HuffmanHeap.buildEncodingTree fuel h0 freqTable) as [[h1 p]| | |]; cbn in Hsim; try contradiction.
  destruct Hsim as (L & Hs & Hr). by exists h1, p, L.
Qed.

End Build.

(** ** The pointer walks of [encoding.cpp] *)

(** Each round of the merge loop makes the trees at most one level
    deeper, so the tree it returns is shallower than its fuel. *)
Lemma merge_loop_depth fuel : forall q t k,
  Forall (fun e => depth e.1 <= k) q -> iter_loop Huffman.merge_step fuel q = Ret t -> depth t < k + fuel.
Proof.
  induction fuel as [|fuel IH]; intros q t k Hq Ht; [discriminate|]. rewrite iter_loop_S in Ht.
  destruct q as [|[a pa] [|[b pb] q]]; cbn [Huffman.merge_step] in Ht; [discriminate| |].
  - injection Ht as <-. apply Forall_inv in Hq. cbn in Hq. lia.
  - apply (IH _ _ (S k)) in Ht; [lia|]. apply Forall_forall. intros e [->|He]%elem_of_pq_enqueue.
    + apply Forall_cons_1 in Hq as [Ha Hq]. apply Forall_inv in Hq. cbn in *. lia.
    + do 2 apply Forall_cons_1 in Hq as [_ Hq]. rewrite Forall_forall in Hq. specialize (Hq e He). lia.
Qed.

Lemma init_queue_leaves freqTable : Forall (fun e => depth e.1 <= 0) (init_queue freqTable).
Proof.
  unfold init_queue. generalize (@nil (HuffmanNode * nat)) (Forall_nil_2 (fun e : HuffmanNode * nat => depth e.1 <= 0)).
  induction freqTable as [|[c n] m IH]; intros q Hq; [done|]. cbn [foldl]. apply IH.
  apply Forall_forall. intros e [->|He]%elem_of_pq_enqueue; [cbn; lia|]. by rewrite Forall_forall in Hq; apply Hq.
Qed.

Lemma buildEncodingTree_depth fuel freqTable t :
  Huffman.buildEncodingTree fuel freqTable = Ret t -> depth t < fuel.
Proof.
  rewrite buildEncodingTree_unfold. intros Ht.
  pose proof (merge_loop_depth fuel _ t 0 (init_queue_leaves freqTable) Ht). lia.
Qed.

(** [buildEncodingMap] through the pointers builds the map of the model. *)
Lemma buildEncodingMap_rec_stored h p t L : stored h p t L ->
  forall fuel m enc, depth t < fuel ->
  HuffmanHeap.buildEncodingMap_rec fuel h p m enc = Ret (Huffman.buildEncodingMap_rec t m enc).
Proof.
  induction 1 as [l c n Hl|l ch n l0 l1 zero one L0 L1 Hl _ IH0 _ IH1 _ _];
    intros [|fuel] m enc Hd; cbn [depth] in Hd; try lia;
    cbn [HuffmanHeap.buildEncodingMap_rec heap_read]; rewrite Hl; cbn [res_bind]; unfold isLeaf; cbn [h_zero h_one h_character].
  - by rewrite bool_decide_true.
  - rewrite bool_decide_false by naive_solver. rewrite IH0 by lia. cbn [res_bind]. rewrite IH1 by lia. done.
Qed.

(** [decodeData] through the pointers walks the tree of the model. *)
Lemma decodeData_rec_stored h p t L : stored h p t L ->
  forall fuel input output, depth t < fuel ->
  HuffmanHeap.decodeData_rec fuel h p input output = Ret (Huffman.decodeData_rec t input output).
Proof.
  induction 1 as [l c n Hl|l ch n l0 l1 zero one L0 L1 Hl _ IH0 _ IH1 _ _];
    intros [|fuel] input output Hd; cbn [depth] in Hd; try lia;
    cbn [HuffmanHeap.decodeData_rec heap_read]; rewrite Hl; cbn [res_bind]; unfold isLeaf; cbn [h_zero h_one h_character].
  - rewrite bool_decide_true by done. cbn. by destruct (decide (c = PSEUDO_EOF)).
  - rewrite bool_decide_false by naive_solver. cbn [Huffman.decodeData_rec].
    destruct input as [|[|] input]; [done|apply IH1; lia|apply IH0; lia].
Qed.

Lemma decodeData_stored h p t L fuel input : stored h p t L -> depth t < fuel ->
  HuffmanHeap.decodeData fuel h input p = Huffman.decodeData fuel input t.
Proof.
  intros Hs Hd. unfold HuffmanHeap.decodeData, Huffman.decodeData.
  apply (iter_loop_sim _ _ eq); [|done]. intros [input' output] _ <-.
  unfold HuffmanHeap.decode_step, Huffman.decode_step.
  rewrite (decodeData_rec_stored h p t L Hs fuel input' output Hd).
  destruct (Huffman.decodeData_rec t input' output) as [[[] ?] ?]; [left; by eexists _, _|right; by eexists].
Qed.

(** The three outcomes of the two [buildEncodingTree]. *)
Lemma buildEncodingTree_cases h0 fuel freqTable :
  (exists t h1 p L, Huffman.buildEncodingTree fuel freqTable = Ret t /\
     HuffmanHeap.buildEncodingTree fuel h0 freqTable = Ret (h1, p) /\
     stored h1 p t L /\ released h1 h0 L /\ depth t < fuel) \/
  (exists e, Huffman.buildEncodingTree fuel freqTable = Throw e /\
     HuffmanHeap.buildEncodingTree fuel h0 freqTable = Throw e) \/
  (Huffman.buildEncodingTree fuel freqTable = OutOfFuel /\
     HuffmanHeap.buildEncodingTree fuel h0 freqTable = OutOfFuel).
Proof.
  pose proof (buildEncodingTree_rel h0 fuel freqTable) as Hr.
  destruct (Huffman.buildEncodingTree fuel freqTable) as [t|e| |] eqn:Ht;
    destruct (HuffmanHeap.buildEncodingTree fuel h0 freqTable) as [[h1 p]|e'| |]; cbn in Hr; try contradiction.
  - destruct Hr as (L & Hs & Hrel). left. exists t, h1, p, L. split_and!; try done. by eapply buildEncodingTree_depth.
  - subst. right; left. by exists e.
  - by right; right.
Qed.

(** The tree on fresh locations, freed, gives back the heap before. *)
Lemma freeTree_restores h0 h1 p t L fuel :
  stored h1 p t L -> released h1 h0 L -> depth t < fuel -> freeTree fuel h1 p = Ret h0.
Proof.
  intros Hs Hr Hd. destruct (freeTree_stored t h1 p L fuel Hs Hd) as (h2 & -> & Hr2).
  by rewrite (released_unique h1 h2 h0 L).
Qed.

Lemma compress_on_heap h0 fuel input :
  HuffmanHeap.compress fuel h0 input = (let* file := Huffman.compress fuel input in Ret (h0, file))%res.
Proof.
  unfold HuffmanHeap.compress, Huffman.compress.
  destruct (buildEncodingTree_cases h0 fuel (Huffman.buildFrequencyTable input))
    as [(t & h1 & p & L & -> & -> & Hs & Hr & Hd)|[(e & -> & ->)|(-> & ->)]]; [|done|done].
  cbn [res_bind]. unfold HuffmanHeap.buildEncodingMap.
  rewrite (buildEncodingMap_rec_stored h1 p t L Hs) by done. cbn [res_bind].
  by rewrite (freeTree_restores h0 h1 p t L).
Qed.

Lemma decompress_on_heap h0 fuel file :
  HuffmanHeap.decompress fuel h0 file = (let* output := Huffman.decompress fuel file in Ret (h0, output))%res.
Proof.
  destruct file as [freqTable input]. unfold HuffmanHeap.decompress, Huffman.decompress.
  destruct (buildEncodingTree_cases h0 fuel freqTable)
    as [(t & h1 & p & L & -> & -> & Hs & Hr & Hd)|[(e & -> & ->)|(-> & ->)]]; [|done|done].
  cbn [res_bind]. rewrite (decodeData_stored h1 p t L) by done.
  destruct (Huffman.decodeData fuel input t); [|done..]. cbn [res_bind].
  by rewrite (freeTree_restores h0 h1 p t L).
Qed.

Module MemoryTheorems.

(** C8. [compress] and [decompress] as the code runs them, with the
    encoding tree on the heap ([new] nodes, [buildEncodingMap] and
    [decodeData] walking the pointers, [freeTree] at the end), compute
    exactly what the tree model of [Huffman.v] computes, on the same
    fuel, and give back exactly the heap they started from: no node
    leaks, none is freed twice or read after it is freed; the
    exceptions and running out of fuel are the model's too. *)
Theorem compress_decompress_on_heap h0 fuel input file :
  HuffmanHeap.compress fuel h0 input = (let* f := Huffman.compress fuel input in Ret (h0, f))%res /\
  HuffmanHeap.decompress fuel h0 file = (let* out := Huffman.decompress fuel file in Ret (h0, out))%res.
Proof. split; [apply compress_on_heap|apply decompress_on_heap]. Qed.

(** [freeTree] on any tree stored at distinct locations, with fuel
    above its depth, returns, having deleted exactly the tree's nodes,
    each once, after its children, and left every other location as it
    was. *)
Theorem freeTree_releases h p t L fuel :
  stored h p t L -> depth t < fuel ->
  exists h', freeTree fuel h p = Ret h' /\ released h h' L.
Proof. intros Hs Hd. exact (freeTree_stored t h p L fuel Hs Hd). Qed.

Lemma freeTree_releases_witness :
  stored (list_to_map [(1, mkHNode 257 3 (Some 2) (Some 3)); (2, mkHNode 97 2 None None);
                       (3, mkHNode 98 1 None None); (9, mkHNode 0 0 None None)])
    (Some 1) (HNode 257 3 (HLeaf 97 2) (HLeaf 98 1)) ({[1]} ∪ {[2]} ∪ {[3]}) /\
  depth (HNode 257 3 (HLeaf 97 2) (HLeaf 98 1)) < 2 /\
  exists h', freeTree 2 (list_to_map [(1, mkHNode 257 3 (Some 2) (Some 3)); (2, mkHNode 97 2 None None);
                                      (3, mkHNode 98 1 None None); (9, mkHNode 0 0 None None)]) (Some 1) = Ret h' /\
    released (list_to_map [(1, mkHNode 257 3 (Some 2) (Some 3)); (2, mkHNode 97 2 None None);
                           (3, mkHNode 98 1 None None); (9, mkHNode 0 0 None None)]) h' ({[1]} ∪ {[2]} ∪ {[3]}).
Proof.
  assert (Hs : stored (list_to_map [(1, mkHNode 257 3 (Some 2) (Some 3)); (2, mkHNode 97 2 None None);
                       (3, mkHNode 98 1 None None); (9, mkHNode 0 0 None None)])
    (Some 1) (HNode 257 3 (HLeaf 97 2) (HLeaf 98 1)) ({[1]} ∪ {[2]} ∪ {[3]})).
  { apply (stored_node _ 1 257 3 2 3); [reflexivity|apply stored_leaf; reflexivity|apply stored_leaf; reflexivity|set_solver|set_solver]. }
  assert (Hd : depth (HNode 257 3 (HLeaf 97 2) (HLeaf 98 1)) < 2) by (simpl; lia).
  split; [exact Hs|]. split; [exact Hd|]. exact (freeTree_releases _ _ _ _ _ Hs Hd).
Defined.

(** C30. The destructor of [LinkedListPatientQueue] on a queue whose
    patients lie on the heap as a chain of nodes from [start], at
    distinct locations: the loop of [clear] returns with [start] NULL, the
    heap then holding the empty chain of the model's [clear], and the
    destructor returns, having deleted exactly the chain's nodes, each
    once, its final [delete start] deleting NULL. *)
Theorem destructor_releases_queue h p q L fuel :
  chain h p (start q) L -> length (start q) < fuel ->
  (exists h', clear_loop fuel h p = Ret (h', None) /\
     chain h' None (start (LinkedListPatientQueue.clear q)) ∅ /\ released h h' L) /\
  (exists h', destroy fuel h p = Ret h' /\ released h h' L).
Proof.
  intros Hc Hfuel. split; [|exact (destroy_chain h p (start q) L fuel Hc Hfuel)].
  destruct (clear_loop_chain (start q) h p L fuel Hc Hfuel) as (h' & Hl & Hr).
  exists h'. split_and!; [done| |done]. cbn [LinkedListPatientQueue.clear start]. rewrite clear_walk_nil. constructor.
Qed.

Lemma destructor_releases_queue_witness :
  chain (list_to_map [(3, mkPNode "a" 1 (Some 7)); (7, mkPNode "b" 2 None); (1, mkPNode "c" 0 None)])
    (Some 3) (start {| start := [mkPatient "a" 1; mkPatient "b" 2] |}) ({[3]} ∪ ({[7]} ∪ ∅)) /\
  length (start {| start := [mkPatient "a" 1; mkPatient "b" 2] |}) < 3 /\
  ((exists h', clear_loop 3 (list_to_map [(3, mkPNode "a" 1 (Some 7)); (7, mkPNode "b" 2 None); (1, mkPNode "c" 0 None)])
                 (Some 3) = Ret (h', None) /\
     chain h' None (start (LinkedListPatientQueue.clear {| start := [mkPatient "a" 1; mkPatient "b" 2] |})) ∅ /\
     released (list_to_map [(3, mkPNode "a" 1 (Some 7)); (7, mkPNode "b" 2 None); (1, mkPNode "c" 0 None)]) h'
       ({[3]} ∪ ({[7]} ∪ ∅))) /\
   (exists h', destroy 3 (list_to_map [(3, mkPNode "a" 1 (Some 7)); (7, mkPNode "b" 2 None); (1, mkPNode "c" 0 None)])
                 (Some 3) = Ret h' /\
     released (list_to_map [(3, mkPNode "a" 1 (Some 7)); (7, mkPNode "b" 2 None); (1, mkPNode "c" 0 None)]) h'
       ({[3]} ∪ ({[7]} ∪ ∅)))).
Proof.
  assert (Hc : chain (list_to_map [(3, mkPNode "a" 1 (Some 7)); (7, mkPNode "b" 2 None); (1, mkPNode "c" 0 None)])
    (Some 3) (start {| start := [mkPatient "a" 1; mkPatient "b" 2] |}) ({[3]} ∪ ({[7]} ∪ ∅))).
  { cbn [start]. apply (chain_cons _ 3 "a" 1 (Some 7)); [reflexivity| |set_solver].
    apply (chain_cons _ 7 "b" 2 None); [reflexivity|constructor|set_solver]. }
  assert (Hl : length (start {| start := [mkPatient "a" 1; mkPatient "b" 2] |}) < 3) by (simpl; lia).
  split; [exact Hc|]. split; [exact Hl|]. exact (destructor_releases_queue _ _ _ _ _ Hc Hl).
Defined.

(** [freeTree] relies on its argument being a tree: on a node whose
    two child pointers are the same leaf, it deletes the leaf through
    [node->zero] and then calls [isLeaf] on it through [node->one], a read
    of freed memory, whatever the fuel. *)
Theorem freeTree_shared_child h l l1 c n c' n' fuel :
  h !! l = Some (mkHNode c n (Some l1) (Some l1)) -> h !! l1 = Some (mkHNode c' n' None None) ->
  l <> l1 -> 2 <= fuel -> freeTree fuel h (Some l) = Undef use_after_free.
Proof.
  intros Hl Hl1 Hne Hfuel. destruct fuel as [|[|fuel]]; [lia|lia|].
  cbn [freeTree heap_read]. rewrite Hl. cbn [res_bind]. unfold isLeaf. cbn [h_zero h_one].
  rewrite bool_decide_false by naive_solver. cbn [negb].
  destruct fuel as [|fuel]; cbn [freeTree heap_read]; rewrite Hl1; cbn [res_bind h_zero h_one];
    rewrite bool_decide_true by done; cbn [negb res_bind heap_delete];
    rewrite decide_True by (by rewrite Hl1); cbn [res_bind heap_read]; by rewrite lookup_delete_eq.
Qed.

Lemma freeTree_shared_child_witness :
  (list_to_map [(1, mkHNode 257 2 (Some 2) (Some 2)); (2, mkHNode 97 1 None None)] : heap hnode) !! 1 =
    Some (mkHNode 257 2 (Some 2) (Some 2)) /\
  (list_to_map [(1, mkHNode 257 2 (Some 2) (Some 2)); (2, mkHNode 97 1 None None)] : heap hnode) !! 2 =
    Some (mkHNode 97 1 None None) /\ 1 <> 2 /\ 2 <= 5 /\
  freeTree 5 (list_to_map [(1, mkHNode 257 2 (Some 2) (Some 2)); (2, mkHNode 97 1 None None)]) (Some 1) =
    Undef use_after_free.
Proof.
  split_and!; [reflexivity|reflexivity|lia|lia|]. apply (freeTree_shared_child _ 1 2 257 2 97 1 5); [reflexivity|reflexivity|lia|lia].
Defined.

End MemoryTheorems.
