(* ===== verification/StanfordGrid.v ===== *)
(** * StanfordGrid.v: the Stanford library [Grid<T>]

    A grid of [nRows] by [nCols] cells stored row by row.  [inBounds] is
    the library's [inBounds(row, col)] on [int] coordinates (they may be
    negative, as in [row + r] with [r = -1]).  [grid_at] reads a cell the
    way [grid[row][col]] does inside the grid (every read in the code is
    guarded by an [inBounds] test, by a loop bound, or, in Life's wrapped
    count, by the modulo); [grid_set] is the assignment
    [grid[row][col] = x], which throws outside the grid; [grid_resize] is
    the constructor [Grid(nRows, nCols)] and [resize], which reject
    negative sizes.  [row_major] lists the cells in the order of the
    nested loops [for (row ...) for (col ...)]; [grid_fold_cells] is the
    shape of every loop that writes each cell of a list once. *)

From S2P Require Import Prelude.

Record grid (A : Type) := mkGrid { nRows : Z; nCols : Z; cells : list A }.
Arguments mkGrid {A}.
Arguments nRows {A}.
Arguments nCols {A}.
Arguments cells {A}.

Section Grid.
Context {A : Type} `{!Inhabited A}.

(** [Grid<T> g(nRows, nCols, value)] on non-negative dimensions. *)
Definition grid_new (r c : Z) (x : A) : grid A :=
  mkGrid r c (replicate (Z.to_nat (r * c)) x).

Definition grid_resize_error : string := "Grid::resize: Attempt to resize grid to invalid size".

(** [Grid<T> g(nRows, nCols)] and [g.resize(nRows, nCols)]: every cell
    holds the default value [x]; negative dimensions are an error. *)
Definition grid_resize (r c : Z) (x : A) : res (grid A) :=
  if bool_decide (r < 0 \/ c < 0)%Z then Throw grid_resize_error else Ret (grid_new r c x).

Definition inBounds (g : grid A) (row col : Z) : bool :=
  bool_decide (0 <= row < nRows g)%Z && bool_decide (0 <= col < nCols g)%Z.

Definition grid_index (g : grid A) (row col : Z) : nat := Z.to_nat (row * nCols g + col).

Definition grid_at (g : grid A) (row col : Z) : A := cells g !!! grid_index g row col.

Definition grid_error : string := "Grid::set: index out of range".

Definition grid_set (g : grid A) (row col : Z) (x : A) : res (grid A) :=
  if inBounds g row col then Ret (mkGrid (nRows g) (nCols g) (<[grid_index g row col := x]> (cells g)))
  else Throw grid_error.

(** The grid is well formed when it holds [nRows * nCols] cells. *)
Definition grid_wf (g : grid A) : Prop :=
  (0 <= nRows g)%Z /\ (0 <= nCols g)%Z /\ length (cells g) = Z.to_nat (nRows g * nCols g).

Lemma grid_new_wf r c x : (0 <= r)%Z -> (0 <= c)%Z -> grid_wf (grid_new r c x).
Proof. intros. unfold grid_wf, grid_new. simpl. by rewrite length_replicate. Qed.

Lemma grid_index_lt g row col :
  grid_wf g -> inBounds g row col = true -> grid_index g row col < length (cells g).
Proof.
  intros (Hr & Hc & Hl) Hin. unfold inBounds in Hin.
  apply andb_true_iff in Hin as [Hrow%bool_decide_eq_true_1 Hcol%bool_decide_eq_true_1].
  unfold grid_index. rewrite Hl. nia.
Qed.

Lemma grid_index_inj g r1 c1 r2 c2 :
  inBounds g r1 c1 = true -> inBounds g r2 c2 = true ->
  grid_index g r1 c1 = grid_index g r2 c2 -> r1 = r2 /\ c1 = c2.
Proof.
  unfold inBounds, grid_index.
  intros [H1%bool_decide_eq_true_1 H2%bool_decide_eq_true_1]%andb_true_iff
         [H3%bool_decide_eq_true_1 H4%bool_decide_eq_true_1]%andb_true_iff Heq.
  apply Z2Nat.inj in Heq; [|nia|nia].
  assert (r1 = r2) by (destruct (Z.lt_total r1 r2) as [?|[?|?]]; [nia|done|nia]).
  subst. lia.
Qed.

Lemma grid_set_in g row col x :
  inBounds g row col = true ->
  grid_set g row col x = Ret (mkGrid (nRows g) (nCols g) (<[grid_index g row col := x]> (cells g))).
Proof. unfold grid_set. by intros ->. Qed.

Lemma grid_set_wf g g' row col x : grid_wf g -> grid_set g row col x = Ret g' -> grid_wf g'.
Proof.
  unfold grid_set. destruct (inBounds g row col); [|done]. intros (? & ? & Hl) [= <-].
  unfold grid_wf. simpl. by rewrite length_insert.
Qed.

Lemma grid_at_set g g' row col x r c :
  grid_wf g -> grid_set g row col x = Ret g' -> inBounds g r c = true ->
  grid_at g' r c = if decide (r = row /\ c = col) then x else grid_at g r c.
Proof.
  intros Hwf Hs Hin. unfold grid_set in Hs. destruct (inBounds g row col) eqn:Hin'; [|done].
  injection Hs as <-. unfold grid_at. simpl.
  pose proof (grid_index_lt g row col Hwf Hin'). pose proof (grid_index_lt g r c Hwf Hin).
  case_decide as Heq.
  - destruct Heq as [-> ->]. by rewrite list_lookup_total_insert_eq by lia.
  - rewrite list_lookup_total_insert_ne; [done|]. intros Hidx.
    change (grid_index g row col = grid_index g r c) in Hidx.
    apply (grid_index_inj g row col r c) in Hidx as [-> ->]; [|done|done]. by apply Heq.
Qed.

Lemma inBounds_set g g' row col x r c :
  grid_set g row col x = Ret g' -> inBounds g' r c = inBounds g r c.
Proof. unfold grid_set. destruct (inBounds g row col); [|done]. by intros [= <-]. Qed.
Lemma grid_set_dims g g' row col x :
  grid_set g row col x = Ret g' -> nRows g' = nRows g /\ nCols g' = nCols g.
Proof. unfold grid_set. destruct (inBounds g row col); [|done]. by intros [= <-]. Qed.
(** Two well-formed grids of the same size with the same cells are equal. *)
Lemma grid_ext g1 g2 :
  grid_wf g1 -> grid_wf g2 -> nRows g1 = nRows g2 -> nCols g1 = nCols g2 ->
  (forall r c, inBounds g1 r c = true -> grid_at g1 r c = grid_at g2 r c) -> g1 = g2.
Proof.
  destruct g1 as [nr nc l1], g2 as [nr' nc' l2]. unfold grid_wf, grid_at, grid_index, inBounds. simpl.
  intros (Hr & Hc & Hl1) (_ & _ & Hl2) <- <- Hcells. f_equal.
  apply (list_eq_same_length _ _ (Z.to_nat (nr * nc))); [done|done|].
  intros i x y Hi Hx Hy.
  assert (Hnc : (0 < nc)%Z) by (destruct (Z.eq_dec nc 0) as [->|]; [rewrite Z.mul_0_r in Hi; simpl in Hi; lia|lia]).
  specialize (Hcells (Z.of_nat i / nc) (Z.of_nat i mod nc))%Z.
  replace (Z.to_nat (Z.of_nat i / nc * nc + Z.of_nat i mod nc)) with i in Hcells
    by (rewrite Z.mul_comm, <- Z.div_mod by lia; lia).
  rewrite (list_lookup_total_correct _ _ _ Hx), (list_lookup_total_correct _ _ _ Hy) in Hcells.
  apply Hcells. apply andb_true_iff. split; apply bool_decide_eq_true_2.
  - split; [apply Z.div_pos; lia|]. apply Z.div_lt_upper_bound; lia.
  - apply Z.mod_pos_bound. lia.
Qed.
Lemma inBounds_dims_same g1 g2 r c :
  nRows g1 = nRows g2 -> nCols g1 = nCols g2 -> inBounds g1 r c = inBounds g2 r c.
Proof. unfold inBounds. by intros -> ->. Qed.

(** A loop over the cells [l] whose step writes [val rc] into the cell
    [rc] (or leaves the grid alone when [val rc] is [None]) writes each
    cell of [l] once, whatever the order. *)
Lemma grid_fold_cells (st : grid A -> Z * Z -> res (grid A)) (val : Z * Z -> option A) l : forall g,
  grid_wf g -> (forall r c, (r, c) ∈ l -> inBounds g r c = true) ->
  (forall (g' : grid A) (rc : Z * Z), nRows g' = nRows g -> nCols g' = nCols g -> rc ∈ l ->
     st g' rc = match val rc with Some x => grid_set g' rc.1 rc.2 x | None => Ret g' end) ->
  exists g', foldl (fun acc rc => res_bind acc (fun t => st t rc)) (Ret g) l = Ret g' /\
    grid_wf g' /\ nRows g' = nRows g /\ nCols g' = nCols g /\
    forall r c, inBounds g r c = true ->
      grid_at g' r c = match (if decide ((r, c) ∈ l) then val (r, c) else None) with
                       | Some x => x | None => grid_at g r c end.
Proof.
  induction l as [|[r0 c0] l IH]; intros g Hwf Hl Hst.
  { exists g. split_and!; try done; intros r c _; by rewrite decide_False by set_solver. }
  cbn [foldl res_bind]. rewrite Hst by (done || set_solver). cbn [fst snd].
  assert (Hstep : exists g1, match val (r0, c0) with Some x => grid_set g r0 c0 x | None => Ret g end = Ret g1 /\
    grid_wf g1 /\ nRows g1 = nRows g /\ nCols g1 = nCols g /\ forall r c, inBounds g r c = true ->
    grid_at g1 r c = if decide (r = r0 /\ c = c0) then match val (r0, c0) with Some x => x | None => grid_at g r c end
                     else grid_at g r c).
  { destruct (val (r0, c0)) as [x|] eqn:Hv.
    - rewrite grid_set_in by (apply Hl; set_solver). eexists. split; [reflexivity|].
      assert (Hs : grid_set g r0 c0 x = Ret (mkGrid (nRows g) (nCols g) (<[grid_index g r0 c0 := x]> (cells g))))
        by (rewrite grid_set_in by (apply Hl; set_solver); done).
      split_and!; [by eapply grid_set_wf|done|done|]. intros r c Hin. by rewrite (grid_at_set g _ r0 c0 x r c Hwf Hs Hin).
    - exists g. split_and!; try done. intros r c _. by case_decide. }
  destruct Hstep as (g1 & -> & Hwf1 & Hr1 & Hc1 & Hcells1). cbn [res_bind].
  destruct (IH g1) as (g' & -> & Hwf' & Hr' & Hc' & Hcells); [done| | |].
  { intros r c Hrc. rewrite (inBounds_dims_same g1 g) by done. apply Hl. apply elem_of_cons; by right. }
  { intros g'' rc ? ? ?. apply Hst; [congruence|congruence|apply elem_of_cons; by right]. }
  exists g'. split_and!; try congruence. intros r c Hrc.
  rewrite Hcells by (rewrite (inBounds_dims_same g1 g); done). rewrite Hcells1 by done.
  destruct (decide ((r, c) ∈ l)) as [Hl'|Hl'].
  - rewrite (decide_True (P := (r, c) ∈ (r0, c0) :: l)) by (apply elem_of_cons; by right). destruct (val (r, c)) eqn:Hv; [done|].
    case_decide as Heq; [destruct Heq as [-> ->]; by rewrite Hv|done].
  - destruct (decide (r = r0 /\ c = c0)) as [[-> ->]|Hne].
    + rewrite (decide_True (P := (r0, c0) ∈ (r0, c0) :: l)) by (apply elem_of_cons; by left). by destruct (val (r0, c0)).
    + rewrite decide_False; [done|]. intros [[= -> ->]|?]%elem_of_cons; [by apply Hne|done].
Qed.
End Grid.

(** The [(row, col)] of [for (row = 0; row < height; row++) for (col = 0; col < width; col++)]. *)
Definition row_major (height width : Z) : list (Z * Z) :=
  seq 0 (Z.to_nat height) ≫= fun r => (fun c => (Z.of_nat r, Z.of_nat c)) <$> seq 0 (Z.to_nat width).

Lemma row_major_elem h w r c : (r, c) ∈ row_major h w <-> (0 <= r < h)%Z /\ (0 <= c < w)%Z.
Proof.
  unfold row_major. rewrite list_elem_of_bind. split.
  - intros (i & Hin & Hi). apply list_elem_of_fmap in Hin as (j & [= -> ->] & Hj).
    apply elem_of_seq in Hi, Hj. lia.
  - intros [Hr Hc]. exists (Z.to_nat r). split; [|apply elem_of_seq; lia].
    apply list_elem_of_fmap. exists (Z.to_nat c). split; [f_equal; lia|apply elem_of_seq; lia].
Qed.

(** Every cell of [row_major] of a grid's dimensions is in the grid. *)
Lemma row_major_inBounds {A} `{!Inhabited A} (g : grid A) r c :
  (r, c) ∈ row_major (nRows g) (nCols g) <-> inBounds g r c = true.
Proof.
  rewrite row_major_elem. unfold inBounds. rewrite andb_true_iff, !bool_decide_eq_true. done.
Qed.

(** [inBounds] depends only on the dimensions. *)
Lemma inBounds_dims {A B} `{!Inhabited A, !Inhabited B} (g1 : grid A) (g2 : grid B) r c :
  nRows g1 = nRows g2 -> nCols g1 = nCols g2 -> inBounds g1 r c = inBounds g2 r c.
Proof. unfold inBounds. by intros -> ->. Qed.
