(* ===== verification/StanfordStrlib.v ===== *)
(** * StanfordStrlib.v: [strlib.h], the [Lexicon], [Vector] access, [randomInteger]

    [toUpperCase] and [toLowerCase] apply [toupper] and [tolower] (C locale:
    only ['a'..'z'] and ['A'..'Z'] change) to every character;
    [charToString] and [stringToChar] convert between a [char] and a
    one-character [string].  A [Lexicon] stores its words in lower case
    and answers [contains] and [containsPrefix] without regard to case.
    The last part of the file models [stringSplit], range-checked
    [Vector] access and [randomInteger]. *)

From S2P Require Import Prelude.
From stdpp Require Import sorting.
From Stdlib Require Import Ascii String.

Definition ascii_upper (c : ascii) : ascii :=
  let n := nat_of_ascii c in
  if (97 <=? n) && (n <=? 122) then ascii_of_nat (n - 32) else c.

Definition ascii_lower (c : ascii) : ascii :=
  let n := nat_of_ascii c in
  if (65 <=? n) && (n <=? 90) then ascii_of_nat (n + 32) else c.

Fixpoint toUpperCase (s : string) : string :=
  match s with
  | EmptyString => EmptyString
  | String c s' => String (ascii_upper c) (toUpperCase s')
  end.

Fixpoint toLowerCase (s : string) : string :=
  match s with
  | EmptyString => EmptyString
  | String c s' => String (ascii_lower c) (toLowerCase s')
  end.

Definition charToString (c : ascii) : string := String c EmptyString.

Definition stringToChar_error : string := "stringToChar: string must contain exactly one character".

Definition stringToChar (s : string) : res ascii :=
  match s with
  | String c EmptyString => Ret c
  | _ => Throw stringToChar_error
  end.

(** [s[i]] of [std::string]: the character at [i], and the null character
    at [i = s.length()] (and, in this model, beyond). *)
Definition char_at (s : string) (i : nat) : ascii :=
  match String.get i s with Some c => c | None => "000"%char end.

(** ** [stringToInteger] and [integerToString] *)

Definition is_space (c : ascii) : bool :=
  existsb (Ascii.eqb c) [" "; "009"; "010"; "011"; "012"; "013"]%char.

Fixpoint trim_left (l : list ascii) : list ascii :=
  match l with
  | c :: l' => if is_space c then trim_left l' else l
  | [] => []
  end.

(** [trim]: the string without its leading and trailing white space. *)
Definition trim (s : string) : list ascii :=
  rev (trim_left (rev (trim_left (list_ascii_of_string s)))).

Definition is_digit (c : ascii) : bool := (48 <=? nat_of_ascii c) && (nat_of_ascii c <=? 57).
Definition digit_value (c : ascii) : Z := Z.of_nat (nat_of_ascii c) - 48.

(** The value of a string of decimal digits, read left to right. *)
Fixpoint digits_value (l : list ascii) (acc : Z) : option Z :=
  match l with
  | [] => Some acc
  | c :: l' => if is_digit c then digits_value l' (acc * 10 + digit_value c)%Z else None
  end.


Definition stringToInteger_error (str : string) : string :=
  "stringToInteger: Illegal integer format: " ++ str.

(** [stringToInteger(str)]: [istringstream(trim(str)) >> value] must read
    an optional sign and at least one digit, stay within [int], and reach
    the end of the string. *)
Definition stringToInteger (str : string) : res Z :=
  let parse (neg : bool) (ds : list ascii) : res Z :=
    match ds with
    | [] => Throw (stringToInteger_error str)
    | _ => match digits_value ds 0 with
           | Some v => let v := if neg then (- v)%Z else v in
                       if bool_decide (INT_MIN <= v <= INT_MAX)%Z then Ret v
                       else Throw (stringToInteger_error str)
           | None => Throw (stringToInteger_error str)
           end
    end in
  match trim str with
  | c :: rest =>
      if Ascii.eqb c "-" then parse true rest
      else if Ascii.eqb c "+" then parse false rest
      else parse false (c :: rest)
  | [] => Throw (stringToInteger_error str)
  end.

Definition digit_char (d : Z) : ascii := ascii_of_nat (Z.to_nat d + 48).

(** The decimal digits of [n >= 0], least significant first; [fuel] above
    the number of digits. *)
Fixpoint digits_rev (fuel : nat) (n : Z) : list ascii :=
  match fuel with
  | O => []
  | S f => if (n <? 10)%Z then [digit_char n] else digit_char (n mod 10) :: digits_rev f (n / 10)
  end.

(** [integerToString(n)], as [ostringstream << n] writes it. *)
Definition integerToString (n : Z) : string :=
  string_of_list_ascii
    ((if (n <? 0)%Z then ["-"%char] else []) ++ rev (digits_rev (S (Z.to_nat (Z.abs n))) (Z.abs n))).

Record Lexicon := mkLexicon { lex_words : list string }.

Definition lex_contains (d : Lexicon) (w : string) : bool :=
  bool_decide (toLowerCase w ∈ lex_words d).

Definition lex_containsPrefix (d : Lexicon) (p : string) : bool :=
  existsb (fun w => String.prefix (toLowerCase p) w) (lex_words d).

Lemma length_toUpperCase s : String.length (toUpperCase s) = String.length s.
Proof. induction s; simpl; auto. Qed.

Lemma toUpperCase_idem s : toUpperCase (toUpperCase s) = toUpperCase s.
Proof.
  induction s as [|c s IH]; [done|]. simpl. rewrite IH. f_equal.
  unfold ascii_upper. destruct c as [[] [] [] [] [] [] [] []]; reflexivity.
Qed.

Lemma toLowerCase_toUpperCase s : toLowerCase (toUpperCase s) = toLowerCase s.
Proof.
  induction s as [|c s IH]; [done|]. simpl. rewrite IH. f_equal.
  unfold ascii_upper, ascii_lower. destruct c as [[] [] [] [] [] [] [] []]; reflexivity.
Qed.

Lemma toLowerCase_idem s : toLowerCase (toLowerCase s) = toLowerCase s.
Proof.
  induction s as [|c s IH]; [done|]. simpl. rewrite IH. f_equal.
  unfold ascii_lower. destruct c as [[] [] [] [] [] [] [] []]; reflexivity.
Qed.

Lemma lex_contains_lower d w : lex_contains d (toLowerCase w) = lex_contains d w.
Proof. unfold lex_contains. by rewrite toLowerCase_idem. Qed.

Lemma lex_contains_upper d w : lex_contains d (toUpperCase w) = lex_contains d w.
Proof. unfold lex_contains. by rewrite toLowerCase_toUpperCase. Qed.

(** Every prefix of a word of the lexicon is a prefix the lexicon
    contains. *)
Lemma lex_containsPrefix_of_contains d w p :
  lex_contains d w = true -> String.prefix (toLowerCase p) (toLowerCase w) = true ->
  lex_containsPrefix d p = true.
Proof.
  unfold lex_contains, lex_containsPrefix. intros Hw%bool_decide_eq_true_1 Hp.
  apply existsb_exists. exists (toLowerCase w). split; [by apply list_elem_of_In|done].
Qed.

(** ** [stringToInteger] reads back what [integerToString] writes *)

Lemma digits_value_app l c acc :
  is_digit c = true ->
  digits_value (l ++ [c]) acc = (fun v => v * 10 + digit_value c)%Z <$> digits_value l acc.
Proof.
  revert acc. induction l as [|c' l IH]; intros acc Hc; simpl; [by rewrite Hc|].
  destruct (is_digit c'); [by apply IH|done].
Qed.

Lemma digit_char_spec d :
  (0 <= d < 10)%Z -> is_digit (digit_char d) = true /\ digit_value (digit_char d) = d.
Proof.
  intros Hd. unfold is_digit, digit_value, digit_char.
  rewrite nat_ascii_embedding by lia. split; [apply andb_true_iff; split; apply Nat.leb_le|]; lia.
Qed.

Lemma digits_rev_value f n :
  (0 <= n)%Z -> Z.to_nat n < f ->
  Forall (fun c => is_digit c = true) (digits_rev f n) /\ digits_rev f n <> [] /\
  digits_value (rev (digits_rev f n)) 0 = Some n.
Proof.
  revert n. induction f as [|f IH]; intros n Hn Hf; [lia|]. simpl.
  destruct (Z.ltb_spec n 10).
  - destruct (digit_char_spec n) as [Hd Hv]; [lia|]. simpl. rewrite Hd, Hv.
    split_and!; [by constructor|done|done].
  - destruct (IH (n / 10)%Z) as (Hall & Hne & Hval); [Z.div_mod_to_equations; lia..|].
    destruct (digit_char_spec (n mod 10)) as [Hd Hv]; [Z.div_mod_to_equations; lia|].
    simpl. split_and!; [by constructor|done|]. rewrite digits_value_app, Hval by done. simpl.
    rewrite Hv. f_equal. Z.div_mod_to_equations; lia.
Qed.

Lemma digit_not_space c : is_digit c = true -> is_space c = false.
Proof.
  intros Hd. destruct (is_space c) eqn:E; [|done]. exfalso.
  unfold is_space in E. apply existsb_exists in E as (x & Hx & ->%Ascii.eqb_eq).
  repeat (destruct Hx as [<-|Hx]; [vm_compute in Hd; discriminate|]). done.
Qed.

Lemma trim_left_nonspace l : Forall (fun c => is_space c = false) l -> trim_left l = l.
Proof. destruct l as [|c l]; [done|]. intros Hall. inversion Hall. simpl. by rewrite H1. Qed.

Lemma trim_nonspace l :
  Forall (fun c => is_space c = false) l -> rev (trim_left (rev (trim_left l))) = l.
Proof.
  intros Hall. rewrite (trim_left_nonspace l), (trim_left_nonspace (rev l)) by (by apply Forall_rev || done).
  apply rev_involutive.
Qed.

Lemma list_ascii_of_string_of_list l : list_ascii_of_string (string_of_list_ascii l) = l.
Proof. induction l; simpl; by f_equal. Qed.

Lemma stringToInteger_integerToString n :
  (INT_MIN <= n <= INT_MAX)%Z -> stringToInteger (integerToString n) = Ret n.
Proof.
  intros Hn. unfold stringToInteger, integerToString, trim.
  rewrite list_ascii_of_string_of_list.
  destruct (digits_rev_value (S (Z.to_nat (Z.abs n))) (Z.abs n)) as (Hall & Hne & Hval); [lia|lia|].
  set (ds := digits_rev _ _) in *. clearbody ds.
  assert (Hsp : Forall (fun c => is_space c = false) (rev ds))
    by (apply Forall_rev; eapply Forall_impl; [exact Hall|apply digit_not_space]).
  assert (Hdig : Forall (fun c => is_digit c = true) (rev ds)) by (by apply Forall_rev).
  assert (Hne' : rev ds <> []) by (intros Hr; apply Hne; by apply (f_equal (@rev ascii)) in Hr; rewrite rev_involutive in Hr).
  destruct (Z.ltb_spec n 0).
  - rewrite trim_nonspace by (constructor; [reflexivity|done]). simpl.
    destruct (rev ds) as [|c l] eqn:E; [done|]. rewrite Hval. rewrite bool_decide_true by lia. f_equal. lia.
  - rewrite app_nil_l, trim_nonspace by done.
    destruct (rev ds) as [|c l] eqn:E; [done|].
    assert (Hc : is_digit c = true) by (by inversion Hdig).
    assert (Hm : Ascii.eqb c "-" = false) by (apply Ascii.eqb_neq; intros ->; discriminate).
    assert (Hp : Ascii.eqb c "+" = false) by (apply Ascii.eqb_neq; intros ->; discriminate).
    rewrite Hm, Hp, Hval. rewrite bool_decide_true by lia. f_equal. lia.
Qed.

(** ** Console output

    What a program writes to [cout] is the list of the pieces written,
    in order; [endl] is the newline piece. *)

(** [endl]. *)
Definition endl : string := String "010"%char EmptyString.

(** The order of [operator<] on [string], which the library [Set]
    iterates in. *)
Definition str_le (a b : string) : Prop := String.leb a b = true.
#[export] Instance str_le_dec : RelDecision str_le := fun a b => decide (String.leb a b = true).

Definition dquote : string := String "034"%char EmptyString.

(** [cout << set] for a [Set<string>]: the elements in ascending order,
    each in double quotes, separated by [", "], between braces. *)
Definition set_toString (s : gset string) : string :=
  "{" +:+ String.concat ", " ((fun w => dquote +:+ w +:+ dquote) <$> merge_sort str_le (elements s)) +:+ "}".

(** ** [stringSplit], [Vector] access and [randomInteger]

    Library functions the grammar solver and the n-gram writer call.
    - [stringSplit(str, delimiter)] (strlib.h) repeatedly finds the first
      occurrence of [delimiter] in what is left of [str], adds the text
      before it to the result and erases it together with the delimiter;
      what remains at the end is added when it is not empty.
    - [Vector::get] and [Vector::operator[]] check the index and raise the
      library's range error outside [0, size - 1].
    - [randomInteger(low, high)] (random.h) returns a value of
      [low..high]; the generator is modelled by an arbitrary function
      [rng] from the number of the draw to an integer, reduced into the
      range.  Any sequence of draws the library can make is one [rng]. *)

Local Open Scope string_scope.

(** ** [stringSplit] *)

(** The [while] loop of [stringSplit] on the text [str2] left; [fuel]
    bounds its rounds: each erases at least the delimiter. *)
Fixpoint split_loop (fuel : nat) (delim str2 : string) : list string :=
  match fuel with
  | O => [str2]
  | S f =>
      match String.index 0 delim str2 with
      | None => if (0 <? String.length str2)%nat then [str2] else []
      | Some i =>
          String.substring 0 i str2 ::
          split_loop f delim (String.substring (i + String.length delim)
                                (String.length str2 - (i + String.length delim)) str2)
      end
  end.

Definition stringSplit (str delim : string) : list string :=
  split_loop (S (String.length str)) delim str.

(** The pieces joined back with the delimiter. *)
Fixpoint join (delim : string) (rs : list string) : string :=
  match rs with
  | [] => ""
  | [r] => r
  | r :: rs' => r ++ delim ++ join delim rs'
  end.

(** ** [Vector] element access *)

Definition vector_range_error : string := "Vector::get: index out of range".

(** [v.get(i)] and [v[i]] for an [int] index. *)
Definition vec_get {A} (v : list A) (i : Z) : res A :=
  if (0 <=? i)%Z then
    match v !! Z.to_nat i with Some x => Ret x | None => Throw vector_range_error end
  else Throw vector_range_error.

(** ** [randomInteger] *)

(** The [k]-th draw of [randomInteger(low, high)] with [low <= high];
    returns the value and the number of the next draw. *)
Definition randomInteger (rng : nat -> Z) (k : nat) (low high : Z) : Z * nat :=
  (if (high <? low)%Z then low else (low + rng k mod (high - low + 1))%Z, S k).

(** ** Lemmas *)

Lemma string_app_cons x (a b : string) : String x a ++ b = String x (a ++ b).
Proof. reflexivity. Qed.

Lemma string_app_nil_l (a : string) : "" ++ a = a.
Proof. reflexivity. Qed.

Lemma string_app_assoc (a b c : string) : (a ++ b) ++ c = a ++ (b ++ c).
Proof. induction a as [|x a IH]; rewrite ?string_app_cons, ?string_app_nil_l; simpl; [done|by rewrite IH]. Qed.

Lemma string_app_nil_r (a : string) : a ++ "" = a.
Proof. induction a as [|x a IH]; rewrite ?string_app_cons, ?string_app_nil_l; simpl; [done|by rewrite IH]. Qed.

Lemma string_length_app (a b : string) : String.length (a ++ b) = String.length a + String.length b.
Proof. induction a as [|x a IH]; rewrite ?string_app_cons, ?string_app_nil_l; simpl; [done|by rewrite IH]. Qed.

(** A character that does not occur in a string. *)
Fixpoint char_free (c : ascii) (s : string) : bool :=
  match s with
  | EmptyString => true
  | String x s' => negb (bool_decide (x = c)) && char_free c s'
  end.

Lemma char_free_app c a b : char_free c (a ++ b) = char_free c a && char_free c b.
Proof. induction a as [|x a IH]; rewrite ?string_app_cons, ?string_app_nil_l; simpl; [done|]. rewrite IH. by destruct (negb _). Qed.

Lemma substring_prefix a b : String.substring 0 (String.length a) (a ++ b) = a.
Proof. induction a as [|x a IH]; rewrite ?string_app_cons, ?string_app_nil_l; simpl; [by destruct b|by rewrite IH]. Qed.

Lemma prefix_self (d s : string) : String.prefix d (d ++ s) = true.
Proof. apply prefix_correct, substring_prefix. Qed.

Lemma prefix_head_ne c d x s : x <> c -> String.prefix (String c d) (String x s) = false.
Proof.
  intros Hne. destruct (String.prefix _ _) eqn:E; [|done].
  apply prefix_correct in E. simpl in E. by injection E as ->.
Qed.

Lemma index_cons0 d x s : String.index 0 d (String x s) =
  if String.prefix d (String x s) then Some 0
  else match String.index 0 d s with Some n => Some (S n) | None => None end.
Proof. reflexivity. Qed.

Lemma index_app_delim c d a b : char_free c a = true ->
  String.index 0 (String c d) (a ++ String c d ++ b) = Some (String.length a).
Proof.
  induction a as [|x a IH]; intros Ha.
  - by rewrite string_app_nil_l, string_app_cons, index_cons0, <- string_app_cons, prefix_self.
  - simpl in Ha. apply andb_prop in Ha as [Hx Ha]. rewrite string_app_cons, index_cons0.
    rewrite prefix_head_ne by (by intros ->; rewrite bool_decide_true in Hx). by rewrite IH.
Qed.

Lemma index_char_free c d a : char_free c a = true -> String.index 0 (String c d) a = None.
Proof.
  induction a as [|x a IH]; intros Ha; [done|].
  simpl in Ha. apply andb_prop in Ha as [Hx Ha]. rewrite index_cons0.
  rewrite prefix_head_ne by (by intros ->; rewrite bool_decide_true in Hx). by rewrite IH.
Qed.

Lemma substring_all b : String.substring 0 (String.length b) b = b.
Proof. induction b as [|x b IH]; rewrite ?string_app_cons, ?string_app_nil_l; simpl; [done|by rewrite IH]. Qed.

Lemma substring_suffix a b m : String.substring (String.length a) m (a ++ b) = String.substring 0 m b.
Proof. induction a as [|x a IH]; rewrite ?string_app_cons, ?string_app_nil_l; simpl; [by destruct m, b|by rewrite IH]. Qed.

Lemma substring_rest a b : String.substring (String.length a) (String.length (a ++ b) - String.length a) (a ++ b) = b.
Proof. rewrite substring_suffix, string_length_app. replace (_ + _ - _) with (String.length b) by lia. apply substring_all. Qed.

Lemma join_pieces c d rs : List.length rs <= S (String.length (join (String c d) rs)).
Proof.
  induction rs as [|r [|r' rs] IH]; [simpl; lia|simpl; lia|].
  change (join _ (r :: r' :: rs)) with (r ++ String c d ++ join (String c d) (r' :: rs)).
  rewrite !string_length_app. simpl in *. lia.
Qed.

(** Splitting pieces joined with a delimiter gives the pieces back, when
    the delimiter's first character occurs in none and the last is not
    empty (a trailing empty piece is dropped). *)
Lemma split_loop_join c d rs fuel :
  Forall (fun r => char_free c r = true) rs -> last rs <> Some "" -> rs <> [] -> List.length rs <= fuel ->
  split_loop fuel (String c d) (join (String c d) rs) = rs.
Proof.
  revert fuel. induction rs as [|r [|r' rs] IH]; intros fuel Hfree Hlast Hne Hlen; [done| |].
  - destruct fuel as [|fuel]; [simpl in Hlen; lia|]. cbn [split_loop join].
    apply Forall_inv in Hfree. rewrite index_char_free by done.
    destruct r as [|x r]; [done|]. reflexivity.
  - destruct fuel as [|fuel]; [simpl in Hlen; lia|]. apply Forall_cons in Hfree as [Hr Hfree].
    change (join _ (r :: r' :: rs)) with (r ++ String c d ++ join (String c d) (r' :: rs)).
    cbn [split_loop]. rewrite index_app_delim by done. rewrite substring_prefix. f_equal.
    replace (String.length r + String.length (String c d)) with (String.length (r ++ String c d))
      by apply string_length_app.
    rewrite <- string_app_assoc, substring_rest. apply IH; [done|done|done|simpl in *; lia].
Qed.

Lemma stringSplit_join c d rs :
  Forall (fun r => char_free c r = true) rs -> last rs <> Some "" -> rs <> [] ->
  stringSplit (join (String c d) rs) (String c d) = rs.
Proof. intros. apply split_loop_join; [done..|apply join_pieces]. Qed.

(** Without the delimiter's first character, the text is one piece, or
    none when it is empty. *)
Lemma stringSplit_no_delim c d s : char_free c s = true ->
  stringSplit s (String c d) = if (0 <? String.length s)%nat then [s] else [].
Proof. intros Hs. unfold stringSplit. cbn [split_loop]. by rewrite index_char_free. Qed.

(** ** [Vector] access and draws *)

Lemma vec_get_Some {A} (v : list A) i x : vec_get v i = Ret x -> exists n, i = Z.of_nat n /\ v !! n = Some x.
Proof.
  unfold vec_get. destruct (0 <=? i)%Z eqn:Hi; [|discriminate]. apply Z.leb_le in Hi. intros Hv.
  exists (Z.to_nat i). split; [lia|]. by destruct (v !! Z.to_nat i); simplify_eq.
Qed.

Lemma vec_get_nat {A} (v : list A) n x : v !! n = Some x -> vec_get v (Z.of_nat n) = Ret x.
Proof.
  intros Hn. unfold vec_get. replace (0 <=? Z.of_nat n)%Z with true by (symmetry; apply Z.leb_le; lia).
  by rewrite Nat2Z.id, Hn.
Qed.

Lemma vec_get_lt {A} (v : list A) n : n < List.length v -> exists x, vec_get v (Z.of_nat n) = Ret x /\ v !! n = Some x.
Proof.
  intros Hn. destruct (lookup_lt_is_Some_2 v n Hn) as [x Hx]. exists x. split; [by apply vec_get_nat|done].
Qed.

(** A draw of [randomInteger(0, n - 1)] with [n > 0] is an index below [n]. *)
Lemma randomInteger_index rng k n : 0 < n ->
  exists i, i < n /\ randomInteger rng k 0 (Z.of_nat n - 1) = (Z.of_nat i, S k).
Proof.
  intros Hn. unfold randomInteger. replace (Z.of_nat n - 1 <? 0)%Z with false by (symmetry; apply Z.ltb_ge; lia).
  replace (Z.of_nat n - 1 - 0 + 1)%Z with (Z.of_nat n) by lia.
  exists (Z.to_nat (rng k mod Z.of_nat n)).
  pose proof (Z.mod_pos_bound (rng k) (Z.of_nat n) ltac:(lia)).
  split; [apply Nat2Z.inj_lt; rewrite Z2Nat.id; lia|]. f_equal. rewrite Z2Nat.id; lia.
Qed.
