(* ===== verification/Boggle.v ===== *)
(** * Boggle.v: [src/Boggle/src/Boggle.cpp]

    The state of a [Boggle] object is the record [Boggle] of its fields.
    Each method is a definition of [Module BoggleGame] with the method's
    name, taking the object and returning the results and the updated
    object.  [humanSearchHelper] recurses on the word ([word.substr(1)]),
    so it is structural; [compSearchHelper] recurses while the word grows
    and runs on fuel (each call marks one more of the 16 cubes visited,
    so 17 is enough).  The two nested [for] loops over [r, c] in -1..1 are
    folds over [offsets] in the same order; the early [return true] of
    [humanSearchHelper] is a flag that skips the remaining rounds.  The
    random shuffles of [getRandomBoard] are its argument [shuffled] (the
    cubes in their shuffled order, each with its faces shuffled).  The
    [BoggleGUI] calls only draw and are not modelled.  [numCompFound] is
    not initialised by the constructor: it is [None] until
    [computerWordSearch] sets it. *)

From S2P Require Import Prelude StanfordGrid StanfordStrlib.
From Stdlib Require Import Ascii.

Definition SIZE : Z := 4.

Definition CUBES : list string :=
  ["AAEEGN"; "ABBJOO"; "ACHOPS"; "AFFKPS"; "AOOTTW"; "CIMOTU"; "DEILRX"; "DELRVY";
   "DISTTY"; "EEGHNW"; "EEINSU"; "EHRTVW"; "EIOSST"; "ELRTTY"; "HIMNQU"; "HLNNRZ"].

Record Boggle := mkBoggle {
  board : grid string;
  text : string;
  found : gset string;
  dict : Lexicon;
  humanScore : Z;
  compScore : Z;
  numCompFound : option Z
}.

(** The [(r, c)] of [for (int r = -1; r <= 1; r++) for (int c = -1; c <= 1; c++)]. *)
Definition offsets : list (Z * Z) :=
  [(-1, -1); (-1, 0); (-1, 1); (0, -1); (0, 0); (0, 1); (1, -1); (1, 0); (1, 1)]%Z.

(** The [(row, col)] of [for (row = 0; row < SIZE; row++) for (col = 0; col < SIZE; col++)]. *)
Definition board_cells : list (Z * Z) :=
  (fun rc => (Z.of_nat rc.1, Z.of_nat rc.2)) <$>
    (seq 0 (Z.to_nat SIZE) ≫= fun r => (fun c => (r, c)) <$> seq 0 (Z.to_nat SIZE)).

(** The message of [std::string::substr] past the end. *)
Definition substr_error : string := "basic_string::substr".

Module BoggleGame.

Definition getCustomBoard (b : Boggle) : res Boggle :=
  let textLength := String.length (text b) in
  (let* board' :=
     foldl (fun (acc : res (grid string)) (i : nat) =>
              let* board' := acc in
              grid_set board' (Z.of_nat i / SIZE)%Z (Z.of_nat i mod SIZE)%Z
                (toUpperCase (charToString (char_at (text b) i))))
           (Ret (board b)) (seq 0 textLength) in
   Ret (mkBoggle board' (text b) (found b) (dict b) (humanScore b) (compScore b)
          (numCompFound b)))%res.

Definition getRandomBoard (shuffled : list string) (b : Boggle) : res Boggle :=
  foldl (fun (acc : res Boggle) (i : nat) =>
           (let* b := acc in
            let current := shuffled !!! i in
            let* board' := grid_set (board b) (Z.of_nat i / SIZE)%Z (Z.of_nat i mod SIZE)%Z
                             (charToString (char_at current 0)) in
            Ret (mkBoggle board' (text b +:+ charToString (char_at current 0)) (found b) (dict b)
                   (humanScore b) (compScore b) (numCompFound b)))%res)
        (Ret b) (seq 0 (Z.to_nat (SIZE * SIZE))).

(** The constructor [Boggle(dictionary, boardText)]. *)
Definition create (dictionary : Lexicon) (boardText : string) (shuffled : list string)
    : res Boggle :=
  let b := mkBoggle (grid_new SIZE SIZE "") boardText ∅ dictionary 0 0 None in
  if bool_decide (text b = "") then getRandomBoard shuffled b else getCustomBoard b.

Definition getLetter (b : Boggle) (row col : Z) : res ascii :=
  if inBounds (board b) row col then stringToChar (grid_at (board b) row col)
  else Throw grid_error.

Definition checkWord (b : Boggle) (word : string) : bool :=
  let word := toUpperCase word in
  if negb (lex_contains (dict b) (toLowerCase word)) || (String.length word <? 4) ||
     bool_decide (word ∈ found b)
  then false else true.

(** One round of the neighbour loops of [humanSearchHelper]: [visit] is
    the recursive call, made on an in-bounds, unvisited neighbour other
    than the cube itself while no call has returned [true]. *)
Definition human_step (visit : Z -> Z -> grid bool -> res (bool * grid bool)) (row col : Z)
    (acc : res (bool * grid bool)) (rc : Z * Z) : res (bool * grid bool) :=
  res_bind acc (fun st =>
    let '(ok, visited) := st in
    if ok then Ret (true, visited)
    else
      let '(r, c) := rc in
      if inBounds visited (row + r)%Z (col + c)%Z &&
         negb (grid_at visited (row + r)%Z (col + c)%Z) &&
         negb (bool_decide (r = 0 /\ c = 0)%Z)
      then visit (row + r)%Z (col + c)%Z visited
      else Ret (false, visited)).

Definition human_loop (visit : Z -> Z -> grid bool -> res (bool * grid bool))
    (row col : Z) (visited : grid bool) : res (bool * grid bool) :=
  foldl (human_step visit row col) (Ret (false, visited)) offsets.

Fixpoint humanSearchHelper (board : grid string) (row col : Z) (word : string)
    (visited : grid bool) {struct word} : res (bool * grid bool) :=
  if negb (inBounds board row col) then Ret (false, visited)
  else if inBounds visited row col && bool_decide (String.length word = 1) &&
          bool_decide (grid_at board row col = word)
  then Ret (true, visited)
  else if bool_decide (grid_at board row col = charToString (char_at word 0)) then
    (let* visited := grid_set visited row col true in
     let* st := match word with
                | EmptyString => human_loop (fun _ _ _ => Throw substr_error) row col visited
                | String _ rest =>
                    human_loop (fun r c v => humanSearchHelper board r c rest v) row col visited
                end in
     if st.1 then Ret (true, st.2)
     else let* visited := grid_set st.2 row col false in Ret (false, visited))%res
  else Ret (false, visited).

(** One round of the two loops of [humanWordSearch]. *)
Definition human_word_step (word : string) (acc : res (bool * Boggle)) (rc : Z * Z)
    : res (bool * Boggle) :=
  res_bind acc (fun st =>
    let '(ok, b) := st in
    if ok then Ret (true, b)
    else
      let '(row, col) := rc in
      let word := toUpperCase word in
      let visited := grid_new SIZE SIZE false in
      (let* r := humanSearchHelper (board b) row col word visited in
       if r.1 then
         Ret (true, mkBoggle (board b) (text b) ({[word]} ∪ found b) (dict b)
                      (humanScore b + (Z.of_nat (String.length word) - 3))%Z
                      (compScore b) (numCompFound b))
       else Ret (false, b))%res).

Definition humanWordSearch (b : Boggle) (word : string) : res (bool * Boggle) :=
  foldl (human_word_step word) (Ret (false, b)) board_cells.

Definition getScoreHuman (b : Boggle) : Z := humanScore b.
Definition getFoundWords (b : Boggle) : gset string := found b.
Definition numFound (b : Boggle) : Z := Z.of_nat (size (found b)).

(** One round of the neighbour loops of [compSearchHelper]. *)
Definition comp_step
    (visit : Z -> Z -> gset string -> Z -> grid bool -> res (gset string * Z * grid bool))
    (row col : Z) (acc : res (gset string * Z * grid bool)) (rc : Z * Z)
    : res (gset string * Z * grid bool) :=
  res_bind acc (fun st =>
    let '(result, score, visited) := st in
    let '(r, c) := rc in
    if inBounds visited (row + r)%Z (col + c)%Z &&
       negb (grid_at visited (row + r)%Z (col + c)%Z)
    then visit (row + r)%Z (col + c)%Z result score visited
    else Ret st).

Definition comp_loop
    (visit : Z -> Z -> gset string -> Z -> grid bool -> res (gset string * Z * grid bool))
    (row col : Z) (st : gset string * Z * grid bool) : res (gset string * Z * grid bool) :=
  foldl (comp_step visit row col) (Ret st) offsets.

(** [compSearchHelper(row, col, word, result, visited)], with the member
    [compScore] it updates. *)
Fixpoint compSearchHelper (fuel : nat) (b : Boggle) (row col : Z) (word : string)
    (result : gset string) (score : Z) (visited : grid bool)
    : res (gset string * Z * grid bool) :=
  match fuel with
  | O => OutOfFuel
  | S fuel' =>
      if negb (inBounds (board b) row col) || negb (lex_containsPrefix (dict b) word) then
        Ret (result, score, visited)
      else if lex_contains (dict b) word && (4 <=? String.length word) &&
              negb (bool_decide (word ∈ result)) && negb (bool_decide (word ∈ found b))
      then Ret ({[word]} ∪ result, (score + (Z.of_nat (String.length word) - 3))%Z, visited)
      else
        (let word := word +:+ grid_at (board b) row col in
         let* visited := grid_set visited row col true in
         let* st := comp_loop (fun r c result score v =>
                                 compSearchHelper fuel' b r c word result score v)
                              row col (result, score, visited) in
         let '(result, score, visited) := st in
         let* visited := grid_set visited row col false in
         Ret (result, score, visited))%res
  end.

(** One round of the two loops of [computerWordSearch]. *)
Definition comp_word_step (fuel : nat) (b : Boggle) (acc : res (gset string * Z)) (rc : Z * Z)
    : res (gset string * Z) :=
  res_bind acc (fun st =>
    let '(result, score) := st in
    let '(row, col) := rc in
    let visited := grid_new SIZE SIZE false in
    (let* st' := compSearchHelper fuel b row col "" result score visited in
     let '(result, score, _) := st' in
     Ret (result, score))%res).

Definition computerWordSearch (fuel : nat) (b : Boggle) : res (gset string * Boggle) :=
  (let* st := foldl (comp_word_step fuel b) (Ret (∅, compScore b)) board_cells in
   let '(result, score) := st in
   Ret (result, mkBoggle (board b) (text b) (found b) (dict b) (humanScore b) score
                  (Some (Z.of_nat (size result)))))%res.

Definition getScoreComputer (b : Boggle) : Z := compScore b.

Definition numCPUWords (b : Boggle) : res Z :=
  match numCompFound b with
  | Some n => Ret n
  | None => Undef "numCompFound is read before it is set"
  end.

Definition getCustom (b : Boggle) : string := text b.

End BoggleGame.
