(* ===== verification/BoggleProofs.v ===== *)
(** * BoggleProofs.v: what the searches of [Boggle.cpp] find

    [spells board V row col w] says that a path from the cube
    [(row, col)] through neighbouring cubes, none of them in [V] nor
    repeated, spells [w], one letter per cube.  The player's search
    [humanSearchHelper] decides it exactly and leaves [visited] as it
    found it when it fails; [humanWordSearch] therefore accepts exactly
    the words some path spells.  The computer's search [compSearchHelper]
    only records dictionary words of four letters or more that a path
    spells and the player has not found, adds [length - 3] to the score
    for each, and needs no more than 17 rounds of recursion; since it
    records a word only when called on a further free cube, it never
    records one of sixteen letters, which the player's search accepts. *)

From S2P Require Import Prelude StanfordGrid StanfordStrlib Boggle.
From Stdlib Require Import Ascii.
Import BoggleGame.

(** ** The visited grid as a set of cubes *)

Section Visited.
Context (board : grid string).

Definition represents (vis : grid bool) (V : gset (Z * Z)) : Prop :=
  grid_wf vis /\ nRows vis = nRows board /\ nCols vis = nCols board /\
  forall r c, inBounds vis r c = true -> (grid_at vis r c = true <-> (r, c) ∈ V).

Lemma represents_inBounds vis V r c :
  represents vis V -> inBounds vis r c = inBounds board r c.
Proof. intros (_ & Hr & Hc & _). by apply inBounds_dims. Qed.

Lemma represents_mark vis V row col :
  represents vis V -> inBounds board row col = true ->
  exists vis1, grid_set vis row col true = Ret vis1 /\ represents vis1 (V ∪ {[(row, col)]}).
Proof.
  intros Hrep Hin. pose proof Hrep as (Hwf & Hr & Hc & HV).
  rewrite <- (represents_inBounds vis V) in Hin by done.
  rewrite grid_set_in by done. eexists. split; [reflexivity|].
  assert (Hs : grid_set vis row col true =
               Ret (mkGrid (nRows vis) (nCols vis) (<[grid_index vis row col:=true]> (cells vis))))
    by (by rewrite grid_set_in).
  split_and!; [by eapply grid_set_wf|done|done|].
  intros r c Hrc. simpl in Hrc. change (inBounds vis r c = true) in Hrc.
  rewrite (grid_at_set vis _ row col true r c Hwf Hs Hrc), elem_of_union, elem_of_singleton.
  case_decide as Heq; [destruct Heq as [-> ->]; tauto|].
  rewrite HV by done. split; [tauto|]. intros [?|[= -> ->]]; [done|tauto].
Qed.

(** Marking a cube and clearing it again gives the grid back. *)
Lemma unmark_restores vis V row col vis1 :
  represents vis V -> (row, col) ∉ V -> grid_set vis row col true = Ret vis1 ->
  grid_set vis1 row col false = Ret vis.
Proof.
  intros (Hwf & _ & _ & HV) Hnot Hs. unfold grid_set in Hs.
  destruct (inBounds vis row col) eqn:Hin; [|done]. injection Hs as <-.
  rewrite grid_set_in by done. simpl. unfold grid_index. simpl. rewrite list_insert_insert_eq.
  destruct vis as [nr nc cs]. f_equal. f_equal. simpl in *.
  apply list_insert_id. pose proof (grid_index_lt _ row col Hwf Hin) as Hlt.
  rewrite (list_lookup_lookup_total_lt cs) by done. f_equal.
  destruct (grid_at (mkGrid nr nc cs) row col) eqn:E; [|done].
  exfalso. apply Hnot, HV; done.
Qed.
End Visited.

(** ** The player's search *)

Section Human.
Context (board : grid string).

(** Every cube shows one letter (not the [NUL] character). *)
Definition board_letters : Prop :=
  forall row col, inBounds board row col = true ->
    exists ch, grid_at board row col = String ch EmptyString /\ ch <> "000"%char.

Inductive spells : gset (Z * Z) -> Z -> Z -> string -> Prop :=
| spells_one V row col ch :
    inBounds board row col = true -> grid_at board row col = String ch EmptyString ->
    spells V row col (String ch EmptyString)
| spells_more V row col ch rest r c :
    inBounds board row col = true -> grid_at board row col = String ch EmptyString ->
    rest <> EmptyString -> (r, c) ∈ offsets -> (r, c) <> (0, 0)%Z ->
    inBounds board (row + r) (col + c) = true -> (row + r, col + c)%Z ∉ V ∪ {[(row, col)]} ->
    spells (V ∪ {[(row, col)]}) (row + r) (col + c) rest ->
    spells V row col (String ch rest).

Definition human_guard (vis : grid bool) (row col r c : Z) : bool :=
  inBounds vis (row + r) (col + c) && negb (grid_at vis (row + r) (col + c)) &&
  negb (bool_decide (r = 0 /\ c = 0)%Z).

Lemma human_step_true visit row col os v :
  foldl (human_step visit row col) (Ret (true, v)) os = Ret (true, v).
Proof. induction os as [|[r c] os IH]; [done|]. apply IH. Qed.

(** The neighbour loops return [true] when the recursive call on some
    admitted neighbour does, and otherwise leave [visited] unchanged. *)
Lemma human_loop_spec visit row col vis (P : Z * Z -> Prop) os :
  (forall r c, (r, c) ∈ os -> human_guard vis row col r c = true ->
     exists ok v', visit (row + r)%Z (col + c)%Z vis = Ret (ok, v') /\
       (ok = true <-> P (r, c)) /\ (ok = false -> v' = vis)) ->
  exists ok v', foldl (human_step visit row col) (Ret (false, vis)) os = Ret (ok, v') /\
    (ok = true <-> exists r c, (r, c) ∈ os /\ human_guard vis row col r c = true /\ P (r, c)) /\
    (ok = false -> v' = vis).
Proof.
  induction os as [|[r c] os IH]; intros Hvisit.
  { exists false, vis. split_and!; [done| |done]. split; [done|]. intros (? & ? & ?%elem_of_nil & _); done. }
  cbn [foldl]. unfold human_step at 2. cbn [res_bind].
  destruct (human_guard vis row col r c) eqn:Hg.
  - unfold human_guard in Hg. rewrite Hg.
    destruct (Hvisit r c ltac:(set_solver) Hg) as (ok & v' & -> & Hok & Hrest).
    destruct ok.
    + rewrite human_step_true. exists true, v'. split_and!; [done| |done].
      split; [|done]. intros _. exists r, c. split_and!; [set_solver|done|by apply Hok].
    + rewrite (Hrest eq_refl).
      specialize (IH ltac:(intros r' c' Hin' Hg'; apply Hvisit; [set_solver|done])).
      destruct IH as (ok & v'' & -> & Hok' & Hrest').
      exists ok, v''. split_and!; [done| |done]. rewrite Hok'. split.
      * intros (r' & c' & ? & ? & ?). exists r', c'. split_and!; [set_solver|done|done].
      * intros (r' & c' & [[= -> ->]|Hin]%elem_of_cons & Hg' & HP).
        -- apply Hok in HP. discriminate.
        -- by exists r', c'.
  - unfold human_guard in Hg. rewrite Hg.
    specialize (IH ltac:(intros r' c' Hin' Hg'; apply Hvisit; [set_solver|done])).
    destruct IH as (ok & v'' & -> & Hok' & Hrest').
    exists ok, v''. split_and!; [done| |done]. rewrite Hok'. split.
    + intros (r' & c' & ? & ? & ?). exists r', c'. split_and!; [set_solver|done|done].
    + intros (r' & c' & [[= -> ->]|Hin]%elem_of_cons & Hg' & HP).
      * unfold human_guard in Hg'. congruence.
      * by exists r', c'.
Qed.

Lemma human_guard_spec vis V row col r c :
  represents board vis V ->
  human_guard vis row col r c = true <->
    inBounds board (row + r) (col + c) = true /\ (row + r, col + c)%Z ∉ V /\ (r, c) <> (0, 0)%Z.
Proof.
  intros Hrep. pose proof Hrep as (_ & _ & _ & HV). unfold human_guard.
  rewrite <- (represents_inBounds board vis V) by done.
  rewrite !andb_true_iff, negb_true_iff, negb_true_iff, bool_decide_eq_false.
  split.
  - intros [[Hin Hat] Hrc]. split_and!; [done| |intros [= -> ->]; tauto].
    intros Hel. apply HV in Hel; [congruence|done].
  - intros (Hin & Hnot & Hrc). split_and!; [done| |intros [-> ->]; by apply Hrc].
    destruct (grid_at vis _ _) eqn:E; [|done]. exfalso. apply Hnot, HV; done.
Qed.

Lemma spells_bounds V row col w : spells V row col w -> inBounds board row col = true.
Proof. by inversion 1. Qed.

(** [humanSearchHelper] returns [true] exactly when a path from
    [(row, col)] avoiding [V] spells [word], and when it fails it leaves
    the visited grid as it was. *)
Lemma humanSearchHelper_spec (Hl : board_letters) word : forall row col vis V,
  represents board vis V -> (inBounds board row col = true -> (row, col) ∉ V) ->
  exists ok v', humanSearchHelper board row col word vis = Ret (ok, v') /\
    (ok = true <-> spells V row col word) /\ (ok = false -> v' = vis).
Proof.
  induction word as [|a rest IH]; intros row col vis V Hrep Hnot;
    (destruct (inBounds board row col) eqn:Hin;
     [|exists false, vis; cbn [humanSearchHelper]; rewrite Hin; split_and!;
       [done|split; [done|intros ?%spells_bounds; congruence]|done]]);
    destruct (Hl row col Hin) as (ch & Hcell & Hch);
    rewrite <- (represents_inBounds board vis V) in Hin by done;
    cbn [humanSearchHelper]; rewrite (represents_inBounds board vis V) in Hin |- * by done;
    rewrite Hin, Hcell; cbn [negb andb].
  - exists false, vis.
    assert (Hneq : String ch EmptyString <> charToString (char_at EmptyString 0))
      by (intros [= ->]; done).
    rewrite (bool_decide_false _ Hneq). rewrite andb_false_l.
    split_and!; [done|split; [done|inversion 1]|done].
  - destruct (decide (rest = EmptyString)) as [->|Hrest].
    + rewrite bool_decide_true by done.
      destruct (decide (ch = a)) as [->|Hne].
      * rewrite bool_decide_true by done. exists true, vis.
        split_and!; [done| |done]. split; [intros _; by constructor|done].
      * assert (Hd : String ch EmptyString <> String a EmptyString) by (intros [= ?]; done).
        change (charToString (char_at (String a EmptyString) 0)) with (String a EmptyString).
        rewrite (bool_decide_false _ Hd), andb_false_r.
        exists false, vis. split_and!; [done| |done]. split; [done|].
        inversion 1; subst; congruence.
    + rewrite bool_decide_false by (destruct rest; simpl; [done|intros [=]; lia]).
      rewrite andb_false_l.
      destruct (decide (ch = a)) as [->|Hne].
      2:{ assert (Hd : String ch EmptyString <> String a EmptyString) by (intros [= ?]; done).
          change (charToString (char_at (String a rest) 0)) with (String a EmptyString).
          rewrite (bool_decide_false _ Hd). exists false, vis.
          split_and!; [done| |done]. split; [done|]. inversion 1; subst; congruence. }
      rewrite bool_decide_true by done.
      destruct (represents_mark board vis V row col Hrep Hin) as (vis1 & Hmark & Hrep1).
      rewrite Hmark. cbn [res_bind].
      destruct (human_loop_spec (fun r c v => humanSearchHelper board r c rest v) row col vis1
                  (fun rc => spells (V ∪ {[(row, col)]}) (row + rc.1) (col + rc.2) rest) offsets)
        as (ok & v' & Hloop & Hok & Hback).
      { intros r c _ (Hin' & Hnot' & _)%(human_guard_spec vis1 (V ∪ {[(row, col)]})); [|done].
        apply IH; [done|intros _; done]. }
      unfold human_loop. rewrite Hloop. cbn [fst snd].
      destruct ok.
      * exists true, v'. split_and!; [done| |done]. split; [intros _|done].
        destruct (proj1 Hok eq_refl) as (r & c & Hrc & Hg & Hs).
        apply (human_guard_spec vis1 (V ∪ {[(row, col)]})) in Hg as (Hin' & Hnot' & H0); [|done].
        by eapply spells_more.
      * rewrite (Hback eq_refl). cbn [fst snd res_bind]. rewrite (unmark_restores board vis V row col vis1 Hrep (Hnot eq_refl) Hmark).
        exists false, vis. split_and!; [done| |done]. split; [done|].
        inversion 1 as [|? ? ? ? ? r c _ _ Hne' Hrc H0 Hin' Hnot' Hs]; subst; [done|].
        assert (Htrue : false = true); [|done]. apply Hok. exists r, c. split_and!; [done| |done].
        apply (human_guard_spec vis1 (V ∪ {[(row, col)]})); [done|]. split_and!; [done|done|done].
Qed.
End Human.

(** ** The player's word search *)

(** The record after the player is credited with [w]. *)
Definition human_credit (b : Boggle) (w : string) : Boggle :=
  mkBoggle (board b) (text b) ({[w]} ∪ found b) (dict b)
    (humanScore b + (Z.of_nat (String.length w) - 3))%Z (compScore b) (numCompFound b).

(** The board after the constructor has [SIZE] rows and columns. *)
Definition board_dims (g : grid string) : Prop := nRows g = SIZE /\ nCols g = SIZE.

Lemma board_cells_complete (g : grid string) row col :
  board_dims g -> inBounds g row col = true -> (row, col) ∈ board_cells.
Proof.
  intros [Hr Hc]. unfold inBounds. rewrite Hr, Hc. unfold SIZE.
  intros [Hrow%bool_decide_eq_true_1 Hcol%bool_decide_eq_true_1]%andb_true_iff.
  assert (row = 0 \/ row = 1 \/ row = 2 \/ row = 3)%Z as Hrs by lia.
  assert (col = 0 \/ col = 1 \/ col = 2 \/ col = 3)%Z as Hcs by lia.
  destruct Hrs as [ -> | [ -> | [ -> | -> ]]]; destruct Hcs as [ -> | [ -> | [ -> | -> ]]];
    apply (bool_decide_unpack (_ ∈ board_cells)); vm_compute; exact I.
Qed.

Lemma represents_new (g : grid string) :
  board_dims g -> represents g (grid_new SIZE SIZE false) ∅.
Proof.
  intros [Hr Hc]. split_and!; [by apply grid_new_wf|done|done|].
  intros r c Hin. unfold grid_at, grid_new. cbn [cells].
  rewrite lookup_total_replicate_2; [set_solver|].
  unfold inBounds, grid_index in *. cbn [nRows nCols] in *.
  apply andb_true_iff in Hin as [?%bool_decide_eq_true_1 ?%bool_decide_eq_true_1]. unfold SIZE in *. cbn [nRows nCols grid_new] in *. lia.
Qed.

Lemma human_word_step_true word b cs :
  foldl (human_word_step word) (Ret (true, b)) cs = Ret (true, b).
Proof. induction cs as [|[r c] cs IH]; [done|]. apply IH. Qed.

(** The two loops of [humanWordSearch] stop at the first cube from which
    [humanSearchHelper] succeeds. *)
Lemma human_word_loop word b cs (P : Z * Z -> Prop) :
  (forall row col, (row, col) ∈ cs -> exists ok v',
     humanSearchHelper (board b) row col (toUpperCase word) (grid_new SIZE SIZE false) = Ret (ok, v') /\
     (ok = true <-> P (row, col))) ->
  exists ok b', foldl (human_word_step word) (Ret (false, b)) cs = Ret (ok, b') /\
    (ok = true <-> exists rc, rc ∈ cs /\ P rc) /\
    b' = if ok then human_credit b (toUpperCase word) else b.
Proof.
  induction cs as [|[row col] cs IH]; intros Hcs.
  { exists false, b. split_and!; [done| |done]. split; [done|]. intros (? & ?%elem_of_nil & _); done. }
  cbn [foldl]. unfold human_word_step at 2. cbn [res_bind].
  destruct (Hcs row col ltac:(set_solver)) as ([] & v' & Hh & Hok); rewrite Hh; cbn [res_bind fst].
  - rewrite human_word_step_true. exists true. eexists. split_and!; [done| |done].
    split; [intros _|done]. exists (row, col). split; [set_solver|by apply Hok].
  - destruct IH as (ok & b' & -> & Hok' & ->); [intros r c ?; apply Hcs; set_solver|].
    exists ok. eexists. split_and!; [done| |done]. rewrite Hok'. split.
    + intros (rc & ? & ?). exists rc. split; [set_solver|done].
    + intros (rc & [->|?]%elem_of_cons & HP); [apply Hok in HP; discriminate|by exists rc].
Qed.

(** ** The computer's search *)

(** The cubes of the board, as a set. *)
Definition all_cells : gset (Z * Z) := list_to_set board_cells.

Lemma all_cells_size : size all_cells = 16.
Proof. vm_compute. reflexivity. Qed.

(** The points the words of [R] are worth: [length - 3] each. *)
Definition words_score (R : gset string) : Z :=
  foldr (fun w acc => Z.of_nat (String.length w) - 3 + acc)%Z 0%Z (elements R).

Lemma foldr_score_perm (l1 l2 : list string) :
  l1 ≡ₚ l2 ->
  foldr (fun w acc => Z.of_nat (String.length w) - 3 + acc)%Z 0%Z l1 =
  foldr (fun w acc => Z.of_nat (String.length w) - 3 + acc)%Z 0%Z l2.
Proof. induction 1; simpl; lia. Qed.

Lemma words_score_empty : words_score ∅ = 0%Z.
Proof. unfold words_score. by rewrite elements_empty. Qed.

Lemma words_score_add w R :
  w ∉ R -> words_score ({[w]} ∪ R) = (Z.of_nat (String.length w) - 3 + words_score R)%Z.
Proof.
  intros Hw. unfold words_score.
  by rewrite (foldr_score_perm _ _ (elements_union_singleton R w Hw)).
Qed.

(** A word the computer may claim: in the lexicon, four letters or more,
    and not found by the player. *)
Definition comp_word (b : Boggle) (w : string) : Prop :=
  lex_contains (dict b) w = true /\ 4 <= String.length w /\ w ∉ found b.

(** From [(result, score)] to [(result', score')] the computer only adds
    words it may claim, each with its points. *)
Definition comp_inv (b : Boggle) (result : gset string) (score : Z)
    (result' : gset string) (score' : Z) : Prop :=
  result ⊆ result' /\ (forall w, w ∈ result' -> w ∉ result -> comp_word b w) /\
  (score' - words_score result' = score - words_score result)%Z.

Lemma comp_inv_refl b R s : comp_inv b R s R s.
Proof. split_and!; [done|set_solver|done]. Qed.

Lemma comp_inv_trans b R1 s1 R2 s2 R3 s3 :
  comp_inv b R1 s1 R2 s2 -> comp_inv b R2 s2 R3 s3 -> comp_inv b R1 s1 R3 s3.
Proof.
  intros (H12 & Hw12 & Hs12) (H23 & Hw23 & Hs23). split_and!; [set_solver| |lia].
  intros w H3 H1. destruct (decide (w ∈ R2)); [by apply Hw12|by apply Hw23].
Qed.

Lemma comp_inv_add b R s w :
  comp_word b w -> w ∉ R ->
  comp_inv b R s ({[w]} ∪ R) (s + (Z.of_nat (String.length w) - 3))%Z.
Proof.
  intros Hw Hnot. split_and!; [set_solver| |rewrite words_score_add by done; lia].
  intros w' ?%elem_of_union ?. assert (w' = w) as -> by set_solver. done.
Qed.

Lemma comp_loop_inv visit row col (Inv : gset string -> Z -> grid bool -> Prop) os result score vis :
  Inv result score vis ->
  (forall r c result score vis, Inv result score vis ->
     inBounds vis (row + r) (col + c) && negb (grid_at vis (row + r) (col + c)) = true ->
     exists result' score' vis', visit (row + r)%Z (col + c)%Z result score vis = Ret (result', score', vis') /\
       Inv result' score' vis') ->
  exists result' score' vis', foldl (comp_step visit row col) (Ret (result, score, vis)) os =
    Ret (result', score', vis') /\ Inv result' score' vis'.
Proof.
  intros Hinv Hvisit. revert result score vis Hinv.
  induction os as [|[r c] os IH]; intros result score vis Hinv; [by eexists _, _, _|].
  cbn [foldl]. unfold comp_step at 2. cbn [res_bind].
  destruct (inBounds vis (row + r) (col + c) && negb (grid_at vis (row + r) (col + c))) eqn:Hg.
  - destruct (Hvisit r c result score vis Hinv Hg) as (result' & score' & vis' & -> & Hinv').
    by apply IH.
  - by apply IH.
Qed.

Lemma comp_mark_size V x :
  V ⊆ all_cells -> x ∈ all_cells -> x ∉ V -> size (V ∪ {[x]}) = S (size V) /\ size (V ∪ {[x]}) <= 16.
Proof.
  intros HV Hx Hnot. rewrite <- all_cells_size.
  assert (Hle : size (V ∪ {[x]}) <= size all_cells).
  { apply subseteq_size, union_least; [done|by apply singleton_subseteq_l]. }
  split; [|done]. rewrite size_union, size_singleton; [lia|]. by apply disjoint_singleton_r.
Qed.

Lemma board_cells_all (g : grid string) row col :
  board_dims g -> inBounds g row col = true -> (row, col) ∈ all_cells.
Proof. intros. apply elem_of_list_to_set. by eapply board_cells_complete. Qed.

Lemma length_append_letter w ch : String.length (w +:+ String ch EmptyString) = S (String.length w).
Proof. induction w as [|c w IH]; simpl; congruence. Qed.

(** Words of at most fifteen letters, for the words added to [result]. *)
Definition short_words (result result' : gset string) : Prop :=
  forall w, w ∈ result' -> w ∉ result -> String.length w <= 15.

(** [compSearchHelper] with more rounds than there are unvisited cubes
    returns, gives the visited grid back, and only adds words the computer
    may claim, each with its points.  Each round marks one more cube.
    On a board of single letters, a word is recorded only on a call for
    a cube that is not yet visited, with one letter per visited cube, so
    it has at most fifteen letters. *)
Lemma compSearchHelper_spec b (Hd : board_dims (board b)) fuel :
  forall row col word result score vis V,
  represents (board b) vis V -> V ⊆ all_cells ->
  (inBounds (board b) row col = true -> (row, col) ∉ V) -> size all_cells - size V < fuel ->
  (board_letters (board b) -> String.length word <= size V) ->
  exists result' score',
    compSearchHelper fuel b row col word result score vis = Ret (result', score', vis) /\
    comp_inv b result score result' score' /\
    (board_letters (board b) -> short_words result result').
Proof.
  induction fuel as [|fuel IH]; intros row col word result score vis V Hrep HV Hnot Hfuel Hlen; [lia|].
  cbn [compSearchHelper].
  destruct (negb (inBounds (board b) row col) || negb (lex_containsPrefix (dict b) word)) eqn:Hstop.
  { exists result, score. split_and!; [done|apply comp_inv_refl|intros _ w ? ?; done]. }
  apply orb_false_iff in Hstop as [Hin%negb_false_iff _].
  destruct (comp_mark_size V (row, col) HV (board_cells_all _ _ _ Hd Hin) (Hnot Hin)) as [Hs1 Hs2].
  destruct (lex_contains (dict b) word && (4 <=? String.length word) &&
            negb (bool_decide (word ∈ result)) && negb (bool_decide (word ∈ found b))) eqn:Hadd.
  { apply andb_true_iff in Hadd as [[[Hc Hlen4%Nat.leb_le]%andb_true_iff Hr]%andb_true_iff Hf].
    apply negb_true_iff, bool_decide_eq_false in Hr, Hf.
    do 2 eexists. split_and!; [reflexivity|by apply comp_inv_add|].
    intros Hl w Hw Hwr. assert (w = word) as -> by set_solver. specialize (Hlen Hl). lia. }
  destruct (represents_mark (board b) vis V row col Hrep Hin) as (vis1 & Hmark & Hrep1).
  rewrite Hmark. cbn [res_bind].
  destruct (comp_loop_inv (fun r c result score v =>
              compSearchHelper fuel b r c (word +:+ grid_at (board b) row col) result score v) row col
              (fun R s v => v = vis1 /\ comp_inv b result score R s /\
                            (board_letters (board b) -> short_words result R)) offsets result score vis1)
    as (result' & score' & ? & Hloop & -> & Hinv & Hshort);
    [split_and!; [done|apply comp_inv_refl|intros _ w ? ?; done]| |].
  { intros r c R s v (-> & HRs & HRshort) Hg.
    apply andb_true_iff in Hg as [Hin' Hfree%negb_true_iff].
    destruct (IH (row + r)%Z (col + c)%Z (word +:+ grid_at (board b) row col) R s vis1
                 (V ∪ {[(row, col)]})) as (R' & s' & -> & HRs' & HRshort'); [done|
      apply union_least; [done|by apply singleton_subseteq_l, (board_cells_all _ _ _ Hd Hin)]| |pose proof all_cells_size; lia| |].
    - intros _. destruct Hrep1 as (_ & _ & _ & HV1). rewrite <- HV1 by done. congruence.
    - intros Hl. destruct (Hl row col Hin) as (ch & -> & _). rewrite length_append_letter.
      specialize (Hlen Hl). lia.
    - do 3 eexists. split; [reflexivity|]. split_and!; [done|by eapply comp_inv_trans|].
      intros Hl w Hw Hwr. destruct (decide (w ∈ R)); [by apply (HRshort Hl)|by apply (HRshort' Hl)]. }
  unfold comp_loop. rewrite Hloop. cbn [res_bind].
  rewrite (unmark_restores (board b) vis V row col vis1 Hrep (Hnot Hin) Hmark). cbn [res_bind].
  by do 2 eexists.
Qed.

Lemma comp_word_loop b (Hd : board_dims (board b)) cs result score :
  exists result' score',
    foldl (comp_word_step 17 b) (Ret (result, score)) cs = Ret (result', score') /\
    comp_inv b result score result' score' /\ (board_letters (board b) -> short_words result result').
Proof.
  revert result score. induction cs as [|[row col] cs IH]; intros result score.
  { do 2 eexists. split_and!; [reflexivity|apply comp_inv_refl|intros _ w ? ?; done]. }
  cbn [foldl]. unfold comp_word_step at 2. cbn [res_bind].
  destruct (compSearchHelper_spec b Hd 17 row col "" result score (grid_new SIZE SIZE false) ∅)
    as (R & s & -> & HRs & HRsh); [by apply represents_new|set_solver|set_solver|
                             rewrite all_cells_size, size_empty; lia|cbn; lia|].
  cbn [res_bind]. destruct (IH R s) as (R' & s' & -> & HRs' & HRsh'). do 2 eexists.
  split_and!; [reflexivity|by eapply comp_inv_trans|].
  intros Hl w Hw Hwr. destruct (decide (w ∈ R)); [by apply (HRsh Hl)|by apply (HRsh' Hl)].
Qed.

(** [humanWordSearch] accepts a guess exactly when some path of
    neighbouring cubes, none used twice, spells the guess in upper case;
    it then adds the upper-case word to the found words and [length - 3]
    to the player's score, and otherwise leaves the game as it was. *)
Lemma humanWordSearch_correct b word :
  board_dims (board b) -> board_letters (board b) ->
  exists ok b', humanWordSearch b word = Ret (ok, b') /\
    (ok = true <-> exists row col, spells (board b) ∅ row col (toUpperCase word)) /\
    b' = if ok then human_credit b (toUpperCase word) else b.
Proof.
  intros Hd Hl.
  destruct (human_word_loop word b board_cells
              (fun rc => spells (board b) ∅ rc.1 rc.2 (toUpperCase word)))
    as (ok & b' & Hrun & Hok & Hb').
  { intros row col _.
    destruct (humanSearchHelper_spec (board b) Hl (toUpperCase word) row col
                (grid_new SIZE SIZE false) ∅ (represents_new _ Hd) ltac:(set_solver))
      as (ok & v' & -> & Hok & _).
    by exists ok, v'. }
  exists ok, b'. split_and!; [done| |done]. rewrite Hok. split.
  - intros ([row col] & _ & Hs). by exists row, col.
  - intros (row & col & Hs). exists (row, col). split; [|done].
    eapply board_cells_complete; [done|]. by eapply spells_bounds.
Qed.

(** With 17 rounds of recursion, [computerWordSearch] returns; every
    word it returns is in the lexicon, has four letters or more and was
    not found by the player; the computer's score grows by [length - 3]
    for each of them; and [numCPUWords] then reports how many there are. *)
Lemma computerWordSearch_correct b :
  board_dims (board b) ->
  exists result b', computerWordSearch 17 b = Ret (result, b') /\
    (forall w, w ∈ result -> comp_word b w) /\
    compScore b' = (compScore b + words_score result)%Z /\
    numCPUWords b' = Ret (Z.of_nat (size result)) /\
    board b' = board b /\ found b' = found b /\ humanScore b' = humanScore b.
Proof.
  intros Hd. destruct (comp_word_loop b Hd board_cells ∅ (compScore b))
    as (R & s & Hloop & (_ & HR & Hs) & _).
  unfold computerWordSearch. rewrite Hloop. cbn [res_bind].
  do 2 eexists. split; [reflexivity|]. unfold numCPUWords.
  cbn [compScore numCompFound board found humanScore]. split_and!; [|rewrite words_score_empty in Hs; lia|done..].
  intros w Hw. apply HR; [done|apply not_elem_of_empty].
Qed.


(** On a board of single letters the computer never records a word of
    more than fifteen letters. *)
Lemma computerWordSearch_short b result b' :
  board_dims (board b) -> board_letters (board b) -> computerWordSearch 17 b = Ret (result, b') ->
  forall w, w ∈ result -> String.length w <= 15.
Proof.
  intros Hd Hl Hc w Hw. destruct (comp_word_loop b Hd board_cells ∅ (compScore b)) as (R & s & Hloop & _ & Hsh).
  unfold computerWordSearch in Hc. rewrite Hloop in Hc. cbn [res_bind] in Hc. injection Hc as <- _.
  by apply (Hsh Hl).
Qed.

(** ** A concrete game *)

(** Decide [board_letters] on a concrete board. *)
Definition one_letter (s : string) : bool :=
  match s with String ch EmptyString => negb (Ascii.eqb ch "000"%char) | _ => false end.

Lemma board_letters_check g : grid_wf g -> forallb one_letter (cells g) = true -> board_letters g.
Proof.
  intros Hwf Hall row col Hin. unfold grid_at.
  destruct (lookup_lt_is_Some_2 (cells g) (grid_index g row col)) as [s Hs];
    [by apply grid_index_lt|].
  rewrite (list_lookup_total_correct _ _ _ Hs).
  apply (forallb_forall _ _) with (x := s) in Hall; [|by eapply list_elem_of_In, list_elem_of_lookup_2].
  destruct s as [|ch [|]]; try done. exists ch. split; [done|].
  simpl in Hall. by apply negb_true_iff, Ascii.eqb_neq in Hall.
Qed.

(** The board
<<
    D B E E
    C A E E
    E E E E
    E E E E
>>
    with a two-word lexicon. *)
Definition demo_lexicon : Lexicon := mkLexicon ["abcd"; "abce"].
Definition demo_text : string := "DBEECAEEEEEEEEEE".
Definition demo_game : Boggle :=
  match create demo_lexicon demo_text [] with
  | Ret b => b
  | _ => mkBoggle (grid_new SIZE SIZE "") demo_text ∅ demo_lexicon 0 0 None
  end.

Lemma demo_dims : board_dims (board demo_game).
Proof. decide_by_eval. Qed.

Lemma demo_letters : board_letters (board demo_game).
Proof. apply board_letters_check; [decide_by_eval|vm_compute; reflexivity]. Qed.

Module BoggleTheorems.

(** C12. [humanWordSearch] accepts a guess exactly when some path of
    neighbouring cubes, none used twice, spells the guess in upper case;
    it then adds the upper-case word to the found words and [length - 3]
    to the player's score, and otherwise leaves the game as it was. *)
Theorem humanWordSearch_spec b word :
  board_dims (board b) -> board_letters (board b) ->
  exists ok b', humanWordSearch b word = Ret (ok, b') /\
    (ok = true <-> exists row col, spells (board b) ∅ row col (toUpperCase word)) /\
    b' = if ok then human_credit b (toUpperCase word) else b.
Proof. apply humanWordSearch_correct. Qed.

Lemma humanWordSearch_spec_witness :
  board_dims (board demo_game) /\ board_letters (board demo_game) /\
  exists ok b', humanWordSearch demo_game "abcd" = Ret (ok, b') /\
    (ok = true <-> exists row col, spells (board demo_game) ∅ row col (toUpperCase "abcd")) /\
    b' = if ok then human_credit demo_game (toUpperCase "abcd") else demo_game.
Proof.
  split_and!; [exact demo_dims|exact demo_letters|].
  apply humanWordSearch_spec; [exact demo_dims|exact demo_letters].
Defined.

(** C13. With 17 rounds of recursion, [computerWordSearch] returns; every
    word it returns is in the lexicon, has four letters or more and was
    not found by the player; the computer's score grows by [length - 3]
    for each of them; and [numCPUWords] then reports how many there are. *)
Theorem computerWordSearch_spec b :
  board_dims (board b) ->
  exists result b', computerWordSearch 17 b = Ret (result, b') /\
    (forall w, w ∈ result -> comp_word b w) /\
    compScore b' = (compScore b + words_score result)%Z /\
    numCPUWords b' = Ret (Z.of_nat (size result)) /\
    board b' = board b /\ found b' = found b /\ humanScore b' = humanScore b.
Proof. apply computerWordSearch_correct. Qed.

Lemma computerWordSearch_spec_witness :
  board_dims (board demo_game) /\
  exists result b', computerWordSearch 17 demo_game = Ret (result, b') /\
    (forall w, w ∈ result -> comp_word demo_game w) /\
    compScore b' = (compScore demo_game + words_score result)%Z /\
    numCPUWords b' = Ret (Z.of_nat (size result)) /\
    board b' = board demo_game /\ found b' = found demo_game /\ humanScore b' = humanScore demo_game.
Proof. split; [exact demo_dims|]. apply computerWordSearch_spec. exact demo_dims. Defined.

(** C31. The computer misses words the player can find: on a board of
    single letters, a word of sixteen letters that a path of neighbouring
    cubes spells (one covering the whole board) is accepted by the
    player's search, but the computer never records it, dictionary word
    or not: [compSearchHelper] records a word only when it is called for
    one more cube that is in bounds and not yet visited, and a path of
    sixteen cubes leaves none. *)
Theorem computer_misses_full_board_words b w :
  board_dims (board b) -> board_letters (board b) -> toUpperCase w = w -> String.length w = 16 ->
  (exists row col, spells (board b) ∅ row col w) ->
  (exists b', humanWordSearch b w = Ret (true, b')) /\
  (forall result b', computerWordSearch 17 b = Ret (result, b') -> w ∉ result).
Proof.
  intros Hd Hl Hup Hlen Hsp. split.
  - destruct (humanWordSearch_correct b w Hd Hl) as (ok & b' & Hh & Hok & _).
    rewrite Hup in Hok. apply Hok in Hsp as ->. by exists b'.
  - intros result b' Hc Hw. pose proof (computerWordSearch_short b result b' Hd Hl Hc w Hw). lia.
Qed.

Definition snake_text : string := "ABCDHGFEIJKLPONM".
Definition snake_game : Boggle :=
  match create (mkLexicon ["abcdefghijklmnop"]) snake_text [] with
  | Ret b => b
  | _ => mkBoggle (grid_new SIZE SIZE "") snake_text ∅ (mkLexicon []) 0 0 None
  end.

Lemma computer_misses_full_board_words_witness :
  board_dims (board snake_game) /\ board_letters (board snake_game) /\
  toUpperCase "ABCDEFGHIJKLMNOP" = "ABCDEFGHIJKLMNOP" /\ String.length "ABCDEFGHIJKLMNOP" = 16 /\
  (exists row col, spells (board snake_game) ∅ row col "ABCDEFGHIJKLMNOP") /\
  (exists b', humanWordSearch snake_game "ABCDEFGHIJKLMNOP" = Ret (true, b')) /\
  (forall result b', computerWordSearch 17 snake_game = Ret (result, b') -> "ABCDEFGHIJKLMNOP" ∉ result).
Proof.
  assert (Hd : board_dims (board snake_game)) by decide_by_eval.
  assert (Hl : board_letters (board snake_game))
    by (apply board_letters_check; [decide_by_eval|vm_compute; reflexivity]).
  assert (Hu : toUpperCase "ABCDEFGHIJKLMNOP" = "ABCDEFGHIJKLMNOP") by reflexivity.
  assert (Hn : String.length "ABCDEFGHIJKLMNOP" = 16) by reflexivity.
  assert (Hs : exists row col, spells (board snake_game) ∅ row col "ABCDEFGHIJKLMNOP").
  { destruct (humanWordSearch_correct snake_game "ABCDEFGHIJKLMNOP" Hd Hl) as (ok & b' & Hh & Hok & _).
    rewrite Hu in Hok. apply Hok.
    assert (Hr : humanWordSearch snake_game "ABCDEFGHIJKLMNOP" = Ret (true, human_credit snake_game "ABCDEFGHIJKLMNOP"))
      by (vm_compute; reflexivity).
    rewrite Hr in Hh. by injection Hh as <- _. }
  split_and!; [exact Hd|exact Hl|exact Hu|exact Hn|exact Hs|..];
    [exact (proj1 (computer_misses_full_board_words _ _ Hd Hl Hu Hn Hs))
    |exact (proj2 (computer_misses_full_board_words _ _ Hd Hl Hu Hn Hs))].
Defined.

End BoggleTheorems.
