(* ===== verification/BogglePlay.v ===== *)
(** * BogglePlay.v: [src/Boggle/src/boggleplay.cpp]

    One game: the board is random or typed in ([getNewBoggle],
    [fillCustomBoard]), the player guesses words until an empty line
    ([humanTurn]), then the computer searches ([compTurn]) and the higher
    score wins ([declareWinner]).  [Module BoggleConsole] adds what each
    function writes to [cout]; the GUI is left out.  The player's
    answers are arguments: [randBoard] the answer to [getYesOrNo] (its
    prompt is written once), [customLines] and [words] the lines
    [getLine] returns, [shuffled] the shuffled cubes.  When the lines run out
    before a loop ends, the program would wait for more input: the model
    says [OutOfFuel]. *)

From S2P Require Import Prelude StanfordGrid StanfordStrlib Boggle.
From Stdlib Require Import Ascii.
Import BoggleGame.

Definition NUM_CUBES : nat := 16.

Module BogglePlay.

(** The [for] loop of [fillCustomBoard] with its [break]; it returns the
    new value of [invalid]. *)
Fixpoint letters_loop (userInput : string) (invalid : bool) : bool :=
  match userInput with
  | EmptyString => invalid
  | String ch rest =>
      if negb ((nat_of_ascii ch <=? 90) && (65 <=? nat_of_ascii ch)) then true
      else letters_loop rest false
  end.

(** The [while (invalid)] loop; [invalid] is [true] each time the loop
    body starts. *)
Fixpoint fillCustomBoard (lines : list string) : res string :=
  match lines with
  | [] => OutOfFuel
  | line :: rest =>
      let userInput := toUpperCase line in
      let invalid := if String.length userInput =? NUM_CUBES then letters_loop userInput true
                     else true in
      if invalid then fillCustomBoard rest else Ret userInput
  end.

Definition getNewBoggle (dictionary : Lexicon) (randBoard : bool) (customLines : list string)
    (shuffled : list string) : res Boggle :=
  if randBoard then create dictionary "" shuffled
  else (let* customLetters := fillCustomBoard customLines in
        create dictionary customLetters shuffled)%res.

(** [humanTurn(boggle, word)]: [words] is the first word followed by the
    lines read in the loop. *)
Fixpoint humanTurn (boggle : Boggle) (words : list string) : res Boggle :=
  match words with
  | [] => OutOfFuel
  | word :: rest =>
      if bool_decide (word = EmptyString) then Ret boggle
      else
        let word := toUpperCase word in
        if checkWord boggle word then
          (let* st := humanWordSearch boggle word in humanTurn st.2 rest)%res
        else humanTurn boggle rest
  end.

(** [compTurn]: the computer's search, with the 17 rounds of recursion a
    4 x 4 board needs. *)
Definition compTurn (boggle : Boggle) : res (gset string * Boggle) :=
  computerWordSearch 17 boggle.

(** [true] when the computer wins. *)
Definition declareWinner (boggle : Boggle) : bool :=
  bool_decide (compScore boggle > humanScore boggle)%Z.

Definition playOneGame (dictionary : Lexicon) (randBoard : bool) (customLines : list string)
    (shuffled : list string) (words : list string) : res (Boggle * gset string * bool) :=
  (let* boggle := getNewBoggle dictionary randBoard customLines shuffled in
   let* boggle := humanTurn boggle words in
   let* st := compTurn boggle in
   Ret (st.2, st.1, declareWinner st.2))%res.

End BogglePlay.

(** ** What a game prints

    The same functions with what they write to [cout]: the pieces of
    each [<<], in order, and the prompts of [getLine] before each line is
    read.  [clearConsole] and the [BoggleGUI] calls do not write to
    [cout]. *)

Import BogglePlay.

Module BoggleConsole.

(** [cout << boggle] ([operator<<] of [Boggle.cpp]): the cubes row by
    row, one line per row. *)
Definition printBoard (b : Boggle) : list string :=
  foldl (fun out row =>
           foldl (fun out col => out ++ [grid_at (board b) (Z.of_nat row) (Z.of_nat col)]) out
                 (seq 0 (Z.to_nat SIZE)) ++ [endl])
        [] (seq 0 (Z.to_nat SIZE)).

(** The first line of [displayHumanStats]. *)
Definition status_message (word situation : string) : list string :=
  if bool_decide (situation = "turn") then ["It's your turn!"; endl]
  else if bool_decide (situation = "found") then ["You found a new word! " +:+ dquote; word; dquote; endl]
  else if bool_decide (situation = "notFound") then ["That word can't be formed on this board."; endl]
  else ["You must enter an unfound 4+ letter word from the dictionary."; endl].

(** [displayHumanStats(boggle, word, situation)]. *)
Definition displayHumanStats (b : Boggle) (word situation : string) : list string :=
  status_message word situation ++ printBoard b ++ [endl] ++
  ["Your words ("; integerToString (numFound b); "): "; set_toString (getFoundWords b); endl;
   "Your score: "; integerToString (getScoreHuman b); endl].

Definition prompt_word : string := "Type a word (or Enter to stop): ".

(** [humanTurn(boggle, word)] with what it prints. *)
Fixpoint humanTurn_out (boggle : Boggle) (words : list string) : res (Boggle * list string) :=
  match words with
  | [] => OutOfFuel
  | word :: rest =>
      if bool_decide (word = EmptyString) then Ret (boggle, [])
      else
        let word := toUpperCase word in
        if checkWord boggle word then
          (let* st := humanWordSearch boggle word in
           let situation := if st.1 then "found" else "notFound" in
           let* r := humanTurn_out st.2 rest in
           Ret (r.1, displayHumanStats st.2 word situation ++ [prompt_word] ++ r.2))%res
        else
          (let* r := humanTurn_out boggle rest in
           Ret (r.1, displayHumanStats boggle word "invalid" ++ [prompt_word] ++ r.2))%res
  end.

Definition prompt_letters : string := "Type the 16 letters to appear on the board: ".

(** [fillCustomBoard()] with its prompts and its message. *)
Fixpoint fillCustomBoard_out (lines : list string) : res (string * list string) :=
  match lines with
  | [] => OutOfFuel
  | line :: rest =>
      let userInput := toUpperCase line in
      let invalid := if String.length userInput =? NUM_CUBES then letters_loop userInput true
                     else true in
      if invalid then
        (let* r := fillCustomBoard_out rest in
         Ret (r.1, [prompt_letters; "That is not a valid 16-letter board string. Try again. "; endl] ++ r.2))%res
      else Ret (userInput, [prompt_letters])
  end.

Definition prompt_random : string := "Do you want to generate a random board? ".

(** [getNewBoggle(dictionary)]: the [getYesOrNo] answer is [randBoard]. *)
Definition getNewBoggle_out (dictionary : Lexicon) (randBoard : bool) (customLines : list string)
    (shuffled : list string) : res (Boggle * list string) :=
  if randBoard then (let* b := create dictionary "" shuffled in Ret (b, [prompt_random]))%res
  else (let* r := fillCustomBoard_out customLines in
        let* b := create dictionary r.1 shuffled in
        Ret (b, prompt_random :: r.2))%res.

(** [displayCompStats(boggle, foundByComp)]. *)
Definition displayCompStats (b : Boggle) (foundByComp : gset string) : res (list string) :=
  (let* n := numCPUWords b in
   Ret [endl; "It's my turn!"; endl; "My words: ("; integerToString n; "): "; set_toString foundByComp; endl;
        "My score: "; integerToString (getScoreComputer b); endl])%res.

(** [compTurn(boggle)]. *)
Definition compTurn_out (b : Boggle) : res (gset string * Boggle * list string) :=
  (let* st := compTurn b in
   let* out := displayCompStats st.2 st.1 in
   Ret (st.1, st.2, out))%res.

(** [declareWinner(boggle)]. *)
Definition declareWinner_out (b : Boggle) : list string :=
  if bool_decide (getScoreComputer b > getScoreHuman b)%Z
  then ["Ha ha ha, I destroyed you. Better luck next time, puny human!"; endl]
  else ["WOW, you defeated me! Congratulations!"; endl].

(** [playOneGame(dictionary)]: the game and everything it prints. *)
Definition playOneGame_out (dictionary : Lexicon) (randBoard : bool) (customLines : list string)
    (shuffled : list string) (words : list string) : res ((Boggle * gset string * bool) * list string) :=
  (let* r0 := getNewBoggle_out dictionary randBoard customLines shuffled in
   let '(boggle, out0) := r0 in
   let out1 := displayHumanStats boggle "" "turn" ++ [prompt_word] in
   let* r1 := humanTurn_out boggle words in
   let '(boggle, out2) := r1 in
   let* r2 := compTurn_out boggle in
   let '(result, boggle, out3) := r2 in
   Ret ((boggle, result, declareWinner boggle),
        out0 ++ out1 ++ out2 ++ out3 ++ declareWinner_out boggle))%res.

End BoggleConsole.
