(* ===== verification/BoggleSetup.v ===== *)
(** * BoggleSetup.v: the board the constructor builds

    The constructor [Boggle(dictionary, boardText)] builds a 4 x 4 board,
    with no word found and both scores zero, and leaves [numCompFound]
    unset.  A typed board of at most 16 letters puts letter [i], upper
    case, on cube [(i / 4, i % 4)] and leaves the other cubes empty; a
    longer one makes [board[4][0] = ...] throw.  [fillCustomBoard] only
    accepts 16 letters [A-Z], so a typed board it returns shows one letter
    on every cube, as the searches need; so does a random board. *)

From S2P Require Import Prelude StanfordGrid StanfordStrlib Boggle BoggleProofs BogglePlay.
From Stdlib Require Import Ascii.
Import BoggleGame BogglePlay.

(** ** The fields the constructor sets *)

Definition fresh_game (d : Lexicon) (b : Boggle) : Prop :=
  board_dims (board b) /\ grid_wf (board b) /\ found b = ∅ /\ dict b = d /\
  humanScore b = 0%Z /\ compScore b = 0%Z /\ numCompFound b = None.

Lemma fresh_game_set d b g' row col x txt :
  fresh_game d b -> grid_set (board b) row col x = Ret g' ->
  fresh_game d (mkBoggle g' txt (found b) (dict b) (humanScore b) (compScore b) (numCompFound b)).
Proof.
  intros ((Hr & Hc) & Hwf & Hrest) Hs. destruct (grid_set_dims _ _ _ _ _ Hs) as [Hr' Hc'].
  split_and!; simpl; try tauto; [split; congruence|by eapply grid_set_wf].
Qed.

Lemma create_fresh d t sh b : create d t sh = Ret b -> fresh_game d b.
Proof.
  assert (H0 : fresh_game d (mkBoggle (grid_new SIZE SIZE "") t ∅ d 0 0 None))
    by (split_and!; try done; by apply grid_new_wf).
  unfold create. case_bool_decide.
  - unfold getRandomBoard. apply foldl_res_inv; [by intros ? [= <-]|].
    intros x i y Hx (g' & Hs & [= <-])%res_bind_Ret. by eapply fresh_game_set.
  - unfold getCustomBoard. intros (g & Hg & [= <-])%res_bind_Ret.
    cut (board_dims g /\ grid_wf g); [intros []; destruct H0 as (? & ? & ?); by split_and!|].
    revert Hg. apply (foldl_res_inv _ (fun g => board_dims g /\ grid_wf g)); [intros ? [= <-]; split; [done|by apply grid_new_wf]|].
    intros x i y [[Hr Hc] Hwf] Hs. destruct (grid_set_dims _ _ _ _ _ Hs).
    split; [split; congruence|by eapply grid_set_wf].
Qed.

(** ** A typed board *)

Lemma cube_of_index {A} `{!Inhabited A} (g : grid A) (i : nat) :
  nRows g = SIZE -> nCols g = SIZE -> i < 16 ->
  inBounds g (Z.of_nat i / SIZE) (Z.of_nat i mod SIZE) = true /\
  grid_index g (Z.of_nat i / SIZE) (Z.of_nat i mod SIZE) = i.
Proof.
  intros Hr Hc Hi. unfold inBounds, grid_index. rewrite Hr, Hc. unfold SIZE.
  split; [apply andb_true_iff; split; apply bool_decide_eq_true_2|]; Z.div_mod_to_equations; lia.
Qed.

(** Cube [j] after the first [k] rounds of a loop that writes [f i] on
    cube [(i / 4, i % 4)] in round [i], from a board of empty cubes. *)
Definition fill_cell (f : nat -> string) (k j : nat) : string :=
  if decide (j < k) then f j else "".

Definition fill_inv (f : nat -> string) (k : nat) (g : grid string) : Prop :=
  board_dims g /\ grid_wf g /\ forall j, j < 16 -> cells g !!! j = fill_cell f k j.

Lemma fill_new f : fill_inv f 0 (grid_new SIZE SIZE "").
Proof.
  split_and!; [done|by apply grid_new_wf|]. intros j Hj. unfold fill_cell.
  rewrite decide_False by lia. cbn [grid_new cells].
  rewrite lookup_total_replicate_2; [done|]. unfold SIZE. lia.
Qed.

Lemma fill_step f k g :
  k < 16 -> fill_inv f k g ->
  exists g', grid_set g (Z.of_nat k / SIZE)%Z (Z.of_nat k mod SIZE)%Z (f k) = Ret g' /\
    fill_inv f (S k) g'.
Proof.
  intros Hk ([Hr Hc] & Hwf & Hcells). destruct (cube_of_index g k Hr Hc Hk) as [Hin Hidx].
  rewrite grid_set_in by done. eexists. split; [reflexivity|].
  split_and!; [by split|eapply grid_set_wf; [exact Hwf|by apply grid_set_in]|].
  intros j Hj. cbn [cells]. rewrite Hidx. destruct Hwf as (_ & _ & Hl).
  rewrite Hr, Hc in Hl. unfold SIZE in Hl. simpl in Hl. unfold fill_cell.
  destruct (decide (j = k)) as [->|Hne].
  - rewrite list_lookup_total_insert_eq by lia. by rewrite decide_True by lia.
  - rewrite list_lookup_total_insert_ne by done. rewrite Hcells by done. unfold fill_cell.
    destruct (decide (j < k)), (decide (j < S k)); done || lia.
Qed.

(** The letter [getCustomBoard] writes in round [i]. *)
Definition custom_letter (t : string) (i : nat) : string := toUpperCase (charToString (char_at t i)).

Definition custom_step (t : string) (board' : grid string) (i : nat) : res (grid string) :=
  grid_set board' (Z.of_nat i / SIZE)%Z (Z.of_nat i mod SIZE)%Z (custom_letter t i).

Lemma custom_loop t k :
  k <= 16 ->
  exists g, foldl (fun acc i => res_bind acc (fun x => custom_step t x i))
              (Ret (grid_new SIZE SIZE "")) (seq 0 k) = Ret g /\ fill_inv (custom_letter t) k g.
Proof.
  intros Hk. apply (foldl_res_seq _ (fill_inv (custom_letter t))); [apply fill_new|].
  intros i g Hi Hinv. by apply fill_step; [lia|].
Qed.

Lemma getCustomBoard_unfold b :
  getCustomBoard b =
  (let* g := foldl (fun acc i => res_bind acc (fun x => custom_step (text b) x i))
               (Ret (board b)) (seq 0 (String.length (text b))) in
   Ret (mkBoggle g (text b) (found b) (dict b) (humanScore b) (compScore b) (numCompFound b)))%res.
Proof. reflexivity. Qed.

Lemma create_custom_unfold d t sh :
  t <> "" ->
  create d t sh =
  (let* g := foldl (fun acc i => res_bind acc (fun x => custom_step t x i))
               (Ret (grid_new SIZE SIZE "")) (seq 0 (String.length t)) in
   Ret (mkBoggle g t ∅ d 0 0 None))%res.
Proof. intros Ht. unfold create. cbn [text]. rewrite bool_decide_false by done. reflexivity. Qed.

Lemma fill_grid_at f k g i :
  fill_inv f k g -> i < 16 -> grid_at g (Z.of_nat i / SIZE) (Z.of_nat i mod SIZE) = fill_cell f k i.
Proof.
  intros ([Hr Hc] & _ & Hcells) Hi. destruct (cube_of_index g i Hr Hc Hi) as [_ Hidx].
  unfold grid_at. rewrite Hidx. by apply Hcells.
Qed.

Lemma create_custom_board d t sh :
  t <> "" -> String.length t <= 16 ->
  exists b, create d t sh = Ret b /\ fresh_game d b /\ text b = t /\
    fill_inv (custom_letter t) (String.length t) (board b).
Proof.
  intros Ht Hl. destruct (custom_loop t (String.length t) Hl) as (g & Hg & Hinv).
  assert (Hcreate : create d t sh = Ret (mkBoggle g t ∅ d 0 0 None))
    by (rewrite create_custom_unfold, Hg by done; reflexivity).
  eexists. split_and!; [exact Hcreate|by eapply create_fresh|done|done].
Qed.

(** ** A random board *)

(** The letter [getRandomBoard] writes in round [i]: the first face of
    the [i]-th cube in the shuffled order. *)
Definition random_letter (sh : list string) (i : nat) : string := charToString (char_at (sh !!! i) 0).

Definition random_step (sh : list string) (b : Boggle) (i : nat) : res Boggle :=
  (let* board' := grid_set (board b) (Z.of_nat i / SIZE)%Z (Z.of_nat i mod SIZE)%Z (random_letter sh i) in
   Ret (mkBoggle board' (text b +:+ charToString (char_at (sh !!! i) 0)) (found b) (dict b)
          (humanScore b) (compScore b) (numCompFound b)))%res.

Lemma getRandomBoard_unfold sh b :
  getRandomBoard sh b = foldl (fun acc i => res_bind acc (fun x => random_step sh x i)) (Ret b) (seq 0 16).
Proof. reflexivity. Qed.

Lemma create_random_board d sh :
  exists b, create d "" sh = Ret b /\ fresh_game d b /\ fill_inv (random_letter sh) 16 (board b).
Proof.
  assert (H0 : fresh_game d (mkBoggle (grid_new SIZE SIZE "") "" ∅ d 0 0 None))
    by (split_and!; try done; by apply grid_new_wf).
  unfold create. cbn [text]. rewrite bool_decide_true by done. rewrite getRandomBoard_unfold.
  edestruct (foldl_res_seq (random_step sh) (fun k b => fresh_game d b /\ fill_inv (random_letter sh) k (board b)))
    as (b & Hb & Hfresh & Hfill); [split; [exact H0|apply fill_new]| |].
  - intros k b Hk [Hfresh Hf]. destruct (fill_step _ k (board b) Hk Hf) as (g' & Hs & Hf').
    eexists. split; [unfold random_step; rewrite Hs; reflexivity|].
    split; [by eapply fresh_game_set|done].
  - exists b. split_and!; [exact Hb|done|done].
Qed.

(** ** Boards on which every cube shows a letter *)

Lemma board_letters_fill f g :
  fill_inv f 16 g -> (forall i, i < 16 -> exists ch, f i = String ch EmptyString /\ ch <> "000"%char) ->
  board_letters g.
Proof.
  intros ([Hr Hc] & Hwf & Hcells) Hf row col Hin. unfold grid_at.
  pose proof (grid_index_lt g row col Hwf Hin) as Hlt. destruct Hwf as (_ & _ & Hl).
  rewrite Hl, Hr, Hc in Hlt. unfold SIZE in Hlt. simpl in Hlt.
  rewrite Hcells by done. unfold fill_cell. rewrite decide_True by done. by apply Hf.
Qed.

(** ** The board typed in [fillCustomBoard] *)

Definition upper_letter (ch : ascii) : Prop := 65 <= nat_of_ascii ch <= 90.

Lemma letters_loop_false s inv :
  letters_loop s inv = false -> forall i, i < String.length s -> upper_letter (char_at s i).
Proof.
  revert inv. induction s as [|ch s IH]; intros inv Hs i Hi; simpl in Hi; [lia|].
  cbn [letters_loop] in Hs.
  destruct ((nat_of_ascii ch <=? 90) && (65 <=? nat_of_ascii ch)) eqn:Hch; cbn [negb] in Hs; [|discriminate].
  apply andb_true_iff in Hch as [?%Nat.leb_le ?%Nat.leb_le].
  destruct i as [|i]; [unfold upper_letter, char_at; simpl; lia|].
  apply (IH false Hs i). lia.
Qed.

Lemma fillCustomBoard_spec lines t :
  fillCustomBoard lines = Ret t ->
  String.length t = 16 /\ (forall i, i < 16 -> upper_letter (char_at t i)) /\
  exists line, line ∈ lines /\ t = toUpperCase line.
Proof.
  induction lines as [|line lines IH]; [done|]. simpl.
  destruct (String.length (toUpperCase line) =? NUM_CUBES) eqn:Hlen.
  - destruct (letters_loop (toUpperCase line) true) eqn:Hl.
    + intros (? & ? & l & ? & ?)%IH. split_and!; [done..|]. exists l. split; [set_solver|done].
    + intros [= <-]. apply Nat.eqb_eq in Hlen. split_and!; [done| |].
      * intros i Hi. apply (letters_loop_false _ true Hl). unfold NUM_CUBES in Hlen. lia.
      * exists line. split; [set_solver|done].
  - intros (? & ? & l & ? & ?)%IH. split_and!; [done..|]. exists l. split; [set_solver|done].
Qed.

Lemma custom_letter_upper t i :
  upper_letter (char_at t i) -> custom_letter t i = String (char_at t i) EmptyString /\ char_at t i <> "000"%char.
Proof.
  unfold upper_letter, custom_letter. generalize (char_at t i). intros ch Hch. split.
  - simpl. unfold ascii_upper. destruct ((97 <=? nat_of_ascii ch) && (nat_of_ascii ch <=? 122)) eqn:E; [|done].
    apply andb_true_iff in E as [?%Nat.leb_le _]. lia.
  - intros ->. cbv in Hch. lia.
Qed.

(** [fillCustomBoard] returns 16 letters [A-Z], one of the lines
    typed, in upper case; the constructor builds from them a board that
    shows letter [i] on the cube [(i / 4, i % 4)], one letter per cube. *)
Lemma fillCustomBoard_create d lines sh t :
  fillCustomBoard lines = Ret t ->
  (exists line, line ∈ lines /\ t = toUpperCase line) /\
  exists b, create d t sh = Ret b /\ fresh_game d b /\ board_letters (board b) /\
    forall i, i < 16 -> grid_at (board b) (Z.of_nat i / SIZE) (Z.of_nat i mod SIZE) =
                        String (char_at t i) EmptyString.
Proof.
  intros (Hl & Hup & Hline)%fillCustomBoard_spec. split; [done|].
  destruct (create_custom_board d t sh) as (b & Hb & Hfresh & _ & Hfill);
    [by intros ->|lia|].
  rewrite Hl in Hfill. exists b. split_and!; [done|done| |].
  - apply (board_letters_fill _ _ Hfill). intros i Hi.
    exists (char_at t i). by apply custom_letter_upper, Hup.
  - intros i Hi. rewrite (fill_grid_at _ _ _ i Hfill Hi). unfold fill_cell.
    rewrite decide_True by done. by apply custom_letter_upper, Hup.
Qed.

Module SetupTheorems.

(** A typed board of at most 16 letters is built: letter [i], in
    upper case, goes on the cube [(i / 4, i % 4)], the other cubes stay
    empty, no word is found, both scores are zero and [numCompFound] is
    not set. *)
Theorem create_custom d t sh :
  t <> "" -> String.length t <= 16 ->
  exists b, create d t sh = Ret b /\ fresh_game d b /\ text b = t /\
    forall i, i < 16 -> grid_at (board b) (Z.of_nat i / SIZE) (Z.of_nat i mod SIZE) =
                        fill_cell (custom_letter t) (String.length t) i.
Proof.
  intros Ht Hl. destruct (create_custom_board d t sh Ht Hl) as (b & Hb & Hfresh & Htext & Hfill).
  exists b. split_and!; [done..|]. intros i Hi. by apply fill_grid_at.
Qed.

Lemma create_custom_witness :
  demo_text <> "" /\ String.length demo_text <= 16 /\
  exists b, create demo_lexicon demo_text [] = Ret b /\ fresh_game demo_lexicon b /\ text b = demo_text /\
    forall i, i < 16 -> grid_at (board b) (Z.of_nat i / SIZE) (Z.of_nat i mod SIZE) =
                        fill_cell (custom_letter demo_text) (String.length demo_text) i.
Proof.
  assert (Hl : String.length demo_text <= 16) by (vm_compute; lia).
  split_and!; [discriminate|exact Hl|]. apply create_custom; [discriminate|exact Hl].
Defined.

(** C35. A typed board longer than 16 letters makes the constructor
    throw: the assignment of letter 16 to [board[4][0]] is out of range. *)
Theorem create_too_long d t sh :
  16 < String.length t -> create d t sh = Throw grid_error.
Proof.
  intros Hl. rewrite create_custom_unfold by (intros ->; simpl in Hl; lia).
  replace (String.length t) with (16 + S (String.length t - 17)) by lia.
  rewrite seq_app, foldl_app. destruct (custom_loop t 16 ltac:(lia)) as (g & -> & [Hr Hc] & _).
  assert (Hthrow : custom_step t g 16 = Throw grid_error).
  { unfold custom_step, grid_set, inBounds. by rewrite Hr. }
  simpl. rewrite Hthrow, foldl_res_stuck; [done|by intros a].
Qed.

Lemma create_too_long_witness :
  16 < String.length (demo_text +:+ "E") /\ create demo_lexicon (demo_text +:+ "E") [] = Throw grid_error.
Proof.
  assert (Hl : 16 < String.length (demo_text +:+ "E")) by (vm_compute; lia).
  split; [exact Hl|]. by apply create_too_long.
Defined.

(** A random board is always built: the cube [(i / 4, i % 4)] shows
    the first face of the [i]-th cube in the shuffled order. *)
Theorem create_random d sh :
  exists b, create d "" sh = Ret b /\ fresh_game d b /\
    forall i, i < 16 -> grid_at (board b) (Z.of_nat i / SIZE) (Z.of_nat i mod SIZE) = random_letter sh i.
Proof.
  destruct (create_random_board d sh) as (b & Hb & Hfresh & Hfill).
  exists b. split_and!; [done..|]. intros i Hi. rewrite (fill_grid_at _ _ _ i Hfill Hi).
  unfold fill_cell. by rewrite decide_True.
Qed.

(** [fillCustomBoard] returns 16 letters [A-Z], one of the lines
    typed, in upper case; the constructor builds from them a board that
    shows letter [i] on the cube [(i / 4, i % 4)], one letter per cube. *)
Theorem fillCustomBoard_board d lines sh t :
  fillCustomBoard lines = Ret t ->
  (exists line, line ∈ lines /\ t = toUpperCase line) /\
  exists b, create d t sh = Ret b /\ fresh_game d b /\ board_letters (board b) /\
    forall i, i < 16 -> grid_at (board b) (Z.of_nat i / SIZE) (Z.of_nat i mod SIZE) =
                        String (char_at t i) EmptyString.
Proof. apply fillCustomBoard_create. Qed.

Lemma fillCustomBoard_board_witness :
  fillCustomBoard ["abc"; "dbeecaeeeeeeeeee"] = Ret demo_text /\
  (exists line, line ∈ ["abc"; "dbeecaeeeeeeeeee"] /\ demo_text = toUpperCase line) /\
  exists b, create demo_lexicon demo_text [] = Ret b /\ fresh_game demo_lexicon b /\
    board_letters (board b) /\
    forall i, i < 16 -> grid_at (board b) (Z.of_nat i / SIZE) (Z.of_nat i mod SIZE) =
                        String (char_at demo_text i) EmptyString.
Proof.
  assert (Hf : fillCustomBoard ["abc"; "dbeecaeeeeeeeeee"] = Ret demo_text) by (vm_compute; reflexivity).
  split; [exact Hf|]. exact (fillCustomBoard_board _ _ _ _ Hf).
Defined.

(** The constructor leaves [numCompFound] unset: [numCPUWords]
    called before [computerWordSearch] reads an uninitialised [int]. *)
Theorem create_numCPUWords_unset d t sh b :
  create d t sh = Ret b -> numCPUWords b = Undef "numCompFound is read before it is set".
Proof. intros (_ & _ & _ & _ & _ & _ & Hn)%create_fresh. unfold numCPUWords. by rewrite Hn. Qed.

Lemma create_numCPUWords_unset_witness :
  create demo_lexicon demo_text [] = Ret demo_game /\
  numCPUWords demo_game = Undef "numCompFound is read before it is set".
Proof.
  assert (Hc : create demo_lexicon demo_text [] = Ret demo_game) by (vm_compute; reflexivity).
  split; [exact Hc|]. exact (create_numCPUWords_unset _ _ _ _ Hc).
Defined.

End SetupTheorems.
