(* ===== verification/BogglePlayProofs.v ===== *)
(** * BogglePlayProofs.v: one whole game of Boggle

    While the player plays, the game keeps an invariant [human_inv]: the
    board shows one letter per cube, the player's score is the sum of
    [length - 3] over the words found, and every word found is a
    dictionary word of four letters or more that some path on the board
    spells.  [checkWord] lets through exactly the words the computer may
    also claim.  From there a whole game ([playOneGame]) ends, when the
    player stops with an empty line, with two disjoint sets of words and
    each score the sum over its set, and what it prints ends with the
    computer's report of that set and the message naming the winner. *)

From S2P Require Import Prelude StanfordGrid StanfordStrlib Boggle BoggleProofs BogglePlay BoggleSetup.
From Stdlib Require Import Ascii.
Import BoggleGame BogglePlay.

(** [checkWord] accepts a guess exactly when its upper-case form is a
    word the computer may claim. *)
Lemma checkWord_true b w : checkWord b w = true <-> comp_word b (toUpperCase w).
Proof.
  unfold checkWord, comp_word. rewrite lex_contains_lower.
  destruct (lex_contains (dict b) (toUpperCase w)); simpl; [|naive_solver].
  destruct (String.length (toUpperCase w) <? 4) eqn:Hl; simpl.
  - apply Nat.ltb_lt in Hl. split; [done|lia].
  - apply Nat.ltb_ge in Hl. case_bool_decide; naive_solver.
Qed.

(** What holds of the game while the player plays. *)
Definition human_inv (d : Lexicon) (b : Boggle) : Prop :=
  board_dims (board b) /\ board_letters (board b) /\ dict b = d /\ compScore b = 0%Z /\
  humanScore b = words_score (found b) /\
  forall w, w ∈ found b ->
    lex_contains d w = true /\ 4 <= String.length w /\ exists row col, spells (board b) ∅ row col w.

Lemma human_inv_fresh d b : fresh_game d b -> board_letters (board b) -> human_inv d b.
Proof.
  intros (Hd & _ & Hf & Hdict & Hh & Hc & _) Hl. split_and!; try done.
  - rewrite Hh, Hf. by rewrite words_score_empty.
  - intros w. rewrite Hf. by intros ?%not_elem_of_empty.
Qed.

(** Crediting the player with a word that [checkWord] accepts and a path
    spells keeps the invariant. *)
Lemma human_inv_credit d b w :
  human_inv d b -> comp_word b w -> (exists row col, spells (board b) ∅ row col w) ->
  human_inv d (human_credit b w).
Proof.
  intros (Hd & Hl & Hdict & Hc & Hh & Hw) (Hlex & Hlen & Hnot) Hsp.
  unfold human_credit. split_and!; simpl; try done.
  - rewrite words_score_add by done. lia.
  - intros w' [->%elem_of_singleton|Hin]%elem_of_union; [|by apply Hw].
    rewrite <- Hdict. done.
Qed.

Lemma humanTurn_inv d words : forall b,
  human_inv d b -> "" ∈ words ->
  exists b', humanTurn b words = Ret b' /\ human_inv d b' /\ board b' = board b.
Proof.
  induction words as [|w words IH]; intros b Hinv Hstop; [by apply elem_of_nil in Hstop|].
  cbn [humanTurn]. case_bool_decide as Hw; [by exists b|].
  assert (Hrest : "" ∈ words) by (apply elem_of_cons in Hstop as [Heq|]; [congruence|done]).
  destruct (checkWord b (toUpperCase w)) eqn:Hcheck; [|by apply IH].
  apply checkWord_true in Hcheck. rewrite toUpperCase_idem in Hcheck.
  pose proof Hinv as (Hd & Hl & _).
  destruct (humanWordSearch_correct b (toUpperCase w) Hd Hl) as (ok & b1 & -> & Hok & ->).
  cbn [res_bind snd]. rewrite toUpperCase_idem in Hok |- *. destruct ok.
  - assert (Hinv1 : human_inv d (human_credit b (toUpperCase w)))
      by (apply human_inv_credit; [done|done|by apply Hok]).
    destruct (IH _ Hinv1 Hrest) as (b' & -> & Hinv' & Hboard). by exists b'.
  - by apply IH.
Qed.

(** The shuffled cubes of a random board: sixteen of them, none with a
    [NUL] first face. *)
Definition cubes_ok (sh : list string) : Prop :=
  length sh = 16 /\ Forall (fun s => char_at s 0 <> "000"%char) sh.

Lemma random_letters sh :
  cubes_ok sh -> forall i, i < 16 ->
  exists ch, random_letter sh i = String ch EmptyString /\ ch <> "000"%char.
Proof.
  intros [Hlen Hall] i Hi. destruct (lookup_lt_is_Some_2 sh i) as [s Hs]; [lia|].
  unfold random_letter. rewrite (list_lookup_total_correct _ _ _ Hs).
  exists (char_at s 0). split; [done|]. rewrite Forall_lookup in Hall. by apply (Hall i).
Qed.

Lemma getNewBoggle_inv d (rand : bool) lines sh :
  (if rand then cubes_ok sh else exists t, fillCustomBoard lines = Ret t) ->
  exists b, getNewBoggle d rand lines sh = Ret b /\ human_inv d b.
Proof.
  unfold getNewBoggle. destruct rand; intros Hin.
  - destruct (create_random_board d sh) as (b & -> & Hf & Hfill). exists b. split; [done|].
    apply human_inv_fresh; [done|]. apply (board_letters_fill _ _ Hfill). by apply random_letters.
  - destruct Hin as [t Ht]. rewrite Ht. cbn [res_bind].
    destruct (fillCustomBoard_create d lines sh t Ht) as (_ & b & -> & Hf & Hl & _).
    exists b. split; [done|]. by apply human_inv_fresh.
Qed.

(** ** The console adds output only *)

Import BoggleConsole.

(** Forgetting the output of a console function gives the function of
    the game model. *)
Abbreviation game_of m := (res_bind m (fun r => Ret r.1)) (only parsing).

Lemma humanTurn_out_game words : forall b, game_of (humanTurn_out b words) = humanTurn b words.
Proof.
  induction words as [|w words IH]; intros b; [done|]. cbn [humanTurn_out humanTurn].
  case_bool_decide; [done|]. destruct (checkWord b (toUpperCase w)).
  - rewrite !res_bind_assoc. destruct (humanWordSearch b (toUpperCase w)) as [st| | |]; [|done..].
    cbn [res_bind]. rewrite <- IH, res_bind_assoc. by destruct (humanTurn_out st.2 words).
  - rewrite res_bind_assoc, <- IH. by destruct (humanTurn_out b words).
Qed.

Lemma fillCustomBoard_out_game lines : game_of (fillCustomBoard_out lines) = fillCustomBoard lines.
Proof.
  induction lines as [|line lines IH]; [done|]. cbn [fillCustomBoard_out fillCustomBoard].
  destruct (if _ =? _ then _ else _); [|done]. rewrite res_bind_assoc, <- IH.
  by destruct (fillCustomBoard_out lines).
Qed.

Lemma getNewBoggle_out_game d rand lines sh :
  game_of (getNewBoggle_out d rand lines sh) = getNewBoggle d rand lines sh.
Proof.
  unfold getNewBoggle_out, getNewBoggle. destruct rand.
  - rewrite res_bind_assoc. by destruct (create d "" sh).
  - rewrite !res_bind_assoc, <- fillCustomBoard_out_game, res_bind_assoc.
    destruct (fillCustomBoard_out lines) as [[t out]| | |]; [|done..]. cbn [res_bind fst].
    rewrite res_bind_assoc. by destruct (create d t sh).
Qed.

(** The computer's search sets [numCompFound], so its report prints. *)
Lemma compTurn_out_game b :
  res_bind (compTurn_out b) (fun r => Ret (r.1.1, r.1.2)) = compTurn b.
Proof.
  unfold compTurn_out, compTurn, computerWordSearch. rewrite !res_bind_assoc.
  destruct (foldl (comp_word_step 17 b) _ board_cells) as [[result score]| | |]; [|done..].
  reflexivity.
Qed.

Module BogglePlayTheorems.

(** C9. A game in which the board is random or a valid typed board is
    eventually entered, and the player eventually types an empty line,
    ends.  The player's words and the computer's are disjoint, all
    dictionary words of four letters or more; each score is the sum of
    [length - 3] over its words; each word of the player's is spelled by
    a path on the board; [numCPUWords] counts the computer's words; and
    the computer wins exactly when its sum is the larger. *)
Theorem playOneGame_spec d (rand : bool) lines sh words :
  (if rand then cubes_ok sh else exists t, fillCustomBoard lines = Ret t) -> "" ∈ words ->
  exists b result, playOneGame d rand lines sh words = Ret (b, result, declareWinner b) /\
    humanScore b = words_score (found b) /\ compScore b = words_score result /\
    found b ## result /\
    (forall w, w ∈ found b ∪ result -> lex_contains d w = true /\ 4 <= String.length w) /\
    (forall w, w ∈ found b -> exists row col, spells (board b) ∅ row col w) /\
    numCPUWords b = Ret (Z.of_nat (size result)) /\
    (declareWinner b = true <-> (words_score (found b) < words_score result)%Z).
Proof.
  intros Hboard Hstop.
  destruct (getNewBoggle_inv d rand lines sh Hboard) as (b0 & Hb0 & Hinv0).
  destruct (humanTurn_inv d words b0 Hinv0 Hstop) as (b1 & Hb1 & Hinv1 & _).
  pose proof Hinv1 as (Hd1 & Hl1 & Hdict1 & Hc1 & Hh1 & Hw1).
  destruct (computerWordSearch_correct b1 Hd1) as (R & b2 & Hb2 & HR & Hc2 & Hn2 & Hbd2 & Hf2 & Hh2).
  unfold playOneGame, compTurn. rewrite Hb0. cbn [res_bind]. rewrite Hb1. cbn [res_bind].
  rewrite Hb2. cbn [res_bind fst snd]. exists b2, R.
  split_and!; [done|by rewrite Hh2, Hf2|rewrite Hc2, Hc1; lia| | | |done|].
  - apply elem_of_disjoint. intros w Hf HRw. rewrite Hf2 in Hf.
    by destruct (HR w HRw) as (_ & _ & Hnot).
  - intros w [Hf|HRw]%elem_of_union.
    + rewrite Hf2 in Hf. by destruct (Hw1 w Hf) as (? & ? & _).
    + destruct (HR w HRw) as (Hlex & Hlen & _). rewrite <- Hdict1. done.
  - intros w Hf. rewrite Hbd2. rewrite Hf2 in Hf. by destruct (Hw1 w Hf) as (_ & _ & ?).
  - unfold declareWinner. rewrite Hc2, Hh2, Hc1, Hh1, Hf2, bool_decide_eq_true. lia.
Qed.

Lemma playOneGame_spec_witness :
  (exists t, fillCustomBoard ["abc"; "dbeecaeeeeeeeeee"] = Ret t) /\ "" ∈ ["abcd"; ""] /\
  exists b result,
    playOneGame demo_lexicon false ["abc"; "dbeecaeeeeeeeeee"] [] ["abcd"; ""] =
      Ret (b, result, declareWinner b) /\
    humanScore b = words_score (found b) /\ compScore b = words_score result /\
    found b ## result /\
    (forall w, w ∈ found b ∪ result -> lex_contains demo_lexicon w = true /\ 4 <= String.length w) /\
    (forall w, w ∈ found b -> exists row col, spells (board b) ∅ row col w) /\
    numCPUWords b = Ret (Z.of_nat (size result)) /\
    (declareWinner b = true <-> (words_score (found b) < words_score result)%Z).
Proof.
  assert (Hf : exists t, fillCustomBoard ["abc"; "dbeecaeeeeeeeeee"] = Ret t)
    by (exists demo_text; vm_compute; reflexivity).
  assert (Hs : "" ∈ ["abcd"; ""]) by (right; left).
  split_and!; [exact Hf|exact Hs|]. exact (playOneGame_spec demo_lexicon false _ [] _ Hf Hs).
Defined.

End BogglePlayTheorems.

Lemma playOneGame_out_game d rand lines sh words :
  game_of (playOneGame_out d rand lines sh words) = playOneGame d rand lines sh words.
Proof.
  unfold playOneGame_out, playOneGame. rewrite <- getNewBoggle_out_game, !res_bind_assoc.
  destruct (getNewBoggle_out d rand lines sh) as [[b out0]| | |]; [|done..]. cbn [res_bind fst].
  rewrite <- humanTurn_out_game, !res_bind_assoc.
  destruct (humanTurn_out b words) as [[b1 out2]| | |]; [|done..]. cbn [res_bind fst].
  rewrite <- compTurn_out_game, !res_bind_assoc.
  by destruct (compTurn_out b1) as [[[result b2] out3]| | |].
Qed.

(** One guess of the player: the message [displayHumanStats] prints,
    and the game it prints, follow from whether the dictionary accepts
    the word and a path spells it. *)
Lemma humanTurn_out_guess d b w rest :
  human_inv d b -> w <> "" ->
  exists b' situation,
    humanTurn_out b (w :: rest) =
      (let* r := humanTurn_out b' rest in
       Ret (r.1, displayHumanStats b' (toUpperCase w) situation ++ [prompt_word] ++ r.2))%res /\
    ((comp_word b (toUpperCase w) /\ (exists row col, spells (board b) ∅ row col (toUpperCase w)) /\
        situation = "found" /\ b' = human_credit b (toUpperCase w)) \/
     (comp_word b (toUpperCase w) /\ ~ (exists row col, spells (board b) ∅ row col (toUpperCase w)) /\
        situation = "notFound" /\ b' = b) \/
     (~ comp_word b (toUpperCase w) /\ situation = "invalid" /\ b' = b)).
Proof.
  intros Hinv Hw. cbn [humanTurn_out]. rewrite bool_decide_false by done.
  destruct (checkWord b (toUpperCase w)) eqn:Hcheck.
  - apply checkWord_true in Hcheck as Hcw. rewrite toUpperCase_idem in Hcw.
    pose proof Hinv as (Hd & Hl & _).
    destruct (humanWordSearch_correct b (toUpperCase w) Hd Hl) as (ok & b1 & -> & Hok & ->).
    cbn [res_bind fst snd]. rewrite toUpperCase_idem in Hok |- *. destruct ok.
    + eexists _, _. split; [reflexivity|]. left. split_and!; [done|by apply Hok|done|done].
    + eexists _, _. split; [reflexivity|]. right; left.
      split_and!; [done|intros Hs; apply Hok in Hs; discriminate|done|done].
  - eexists _, _. split; [reflexivity|]. right; right. split_and!; [|done|done].
    intros Hcw. rewrite <- (toUpperCase_idem w) in Hcw. apply checkWord_true in Hcw. congruence.
Qed.

(** The sixteen letters of [t], four to a line. *)
Definition board_rows (t : string) : list string :=
  concat (map (fun r => map (fun c => String (char_at t (4 * r + c)) EmptyString) (seq 0 4) ++ [endl]) (seq 0 4)).

(** [cout << boggle] on the board built from a typed board string
    prints that string back, four letters to a line. *)
Lemma printBoard_typed d lines sh t b :
  fillCustomBoard lines = Ret t -> create d t sh = Ret b -> printBoard b = board_rows t.
Proof.
  intros Ht Hb. destruct (fillCustomBoard_create d lines sh t Ht) as (_ & b' & Hb' & _ & _ & Hcells).
  rewrite Hb in Hb'. injection Hb' as <-.
  assert (Hrc : forall r c, r < 4 -> c < 4 ->
            grid_at (board b) (Z.of_nat r) (Z.of_nat c) = String (char_at t (4 * r + c)) EmptyString).
  { intros r c Hr Hc. rewrite <- Hcells by lia. unfold SIZE. f_equal.
    - apply Z.div_unique with (Z.of_nat c); lia.
    - apply Z.mod_unique with (Z.of_nat r); lia. }
  unfold printBoard. change (Z.to_nat SIZE) with 4. cbn [seq foldl app].
  rewrite !Hrc by lia. reflexivity.
Qed.

(** The end of what [playOneGame] prints: the computer's report, then
    the message of [declareWinner], both about the final game. *)
Lemma playOneGame_out_tail d rand lines sh words b result :
  playOneGame d rand lines sh words = Ret (b, result, declareWinner b) ->
  exists pre out3, displayCompStats b result = Ret out3 /\
    playOneGame_out d rand lines sh words = Ret ((b, result, declareWinner b), pre ++ out3 ++ declareWinner_out b).
Proof.
  rewrite <- playOneGame_out_game. unfold playOneGame_out.
  destruct (getNewBoggle_out d rand lines sh) as [[b0 out0]| | |]; try discriminate. cbn [res_bind].
  destruct (humanTurn_out b0 words) as [[b1 out2]| | |]; try discriminate. cbn [res_bind].
  unfold compTurn_out. destruct (compTurn b1) as [[R b2]| | |]; try discriminate. cbn [res_bind fst snd].
  destruct (displayCompStats b2 R) as [out3| | |] eqn:E3; try discriminate. cbn [res_bind fst].
  intros [= E1 E2 _]. subst. eexists _, out3. split; [done|]. by rewrite !app_assoc.
Qed.

Module BoggleConsoleTheorems.

(** C10. What a finished game prints last: in a game that ends (as in
    C9), the output closes with the computer's report, which lists
    exactly its words with their number and the sum of [length - 3]
    over them as its score, then with the taunt when that sum is larger
    than the sum over the player's words and the congratulations
    otherwise. *)
Theorem playOneGame_console_report d (rand : bool) lines sh words :
  (if rand then cubes_ok sh else exists t, fillCustomBoard lines = Ret t) -> "" ∈ words ->
  exists b result pre,
    playOneGame_out d rand lines sh words =
      Ret ((b, result, declareWinner b),
           pre ++ [endl; "It's my turn!"; endl; "My words: ("; integerToString (Z.of_nat (size result)); "): ";
                   set_toString result; endl; "My score: "; integerToString (words_score result); endl;
                   if bool_decide (words_score (found b) < words_score result)%Z
                   then "Ha ha ha, I destroyed you. Better luck next time, puny human!"
                   else "WOW, you defeated me! Congratulations!"; endl]).
Proof.
  intros Hboard Hstop.
  destruct (BogglePlayTheorems.playOneGame_spec d rand lines sh words Hboard Hstop)
    as (b & R & Hg & Hh & Hc & _ & _ & _ & Hn & _).
  destruct (playOneGame_out_tail d rand lines sh words b R Hg) as (pre & out3 & Hout3 & ->).
  unfold displayCompStats in Hout3. rewrite Hn in Hout3. injection Hout3 as <-.
  exists b, R, pre. unfold declareWinner_out, getScoreComputer, getScoreHuman.
  rewrite Hc, Hh. do 3 f_equal. by case_bool_decide; case_bool_decide; try lia.
Qed.

Lemma playOneGame_console_report_witness :
  (exists t, fillCustomBoard ["abc"; "dbeecaeeeeeeeeee"] = Ret t) /\ "" ∈ ["abcd"; ""] /\
  exists b result pre,
    playOneGame_out demo_lexicon false ["abc"; "dbeecaeeeeeeeeee"] [] ["abcd"; ""] =
      Ret ((b, result, declareWinner b),
           pre ++ [endl; "It's my turn!"; endl; "My words: ("; integerToString (Z.of_nat (size result)); "): ";
                   set_toString result; endl; "My score: "; integerToString (words_score result); endl;
                   if bool_decide (words_score (found b) < words_score result)%Z
                   then "Ha ha ha, I destroyed you. Better luck next time, puny human!"
                   else "WOW, you defeated me! Congratulations!"; endl]).
Proof.
  assert (Hf : exists t, fillCustomBoard ["abc"; "dbeecaeeeeeeeeee"] = Ret t)
    by (exists demo_text; vm_compute; reflexivity).
  assert (Hs : "" ∈ ["abcd"; ""]) by (right; left).
  split_and!; [exact Hf|exact Hs|]. exact (playOneGame_console_report demo_lexicon false _ [] _ Hf Hs).
Defined.

(** C11. Each guess of the player prints [displayHumanStats] with the
    situation the guess is in: "found" (and the player is credited) when
    the upper-case word is an unfound dictionary word of four letters or
    more that a path on the board spells; "notFound" (nothing changes)
    when it is such a word that no path spells; "invalid" (nothing
    changes) otherwise; then the prompt for the next word. *)
Theorem humanTurn_guess_message d b w rest :
  human_inv d b -> w <> "" ->
  exists b' situation,
    humanTurn_out b (w :: rest) =
      (let* r := humanTurn_out b' rest in
       Ret (r.1, displayHumanStats b' (toUpperCase w) situation ++ [prompt_word] ++ r.2))%res /\
    ((comp_word b (toUpperCase w) /\ (exists row col, spells (board b) ∅ row col (toUpperCase w)) /\
        situation = "found" /\ b' = human_credit b (toUpperCase w)) \/
     (comp_word b (toUpperCase w) /\ ~ (exists row col, spells (board b) ∅ row col (toUpperCase w)) /\
        situation = "notFound" /\ b' = b) \/
     (~ comp_word b (toUpperCase w) /\ situation = "invalid" /\ b' = b)).
Proof. apply humanTurn_out_guess. Qed.

Lemma humanTurn_guess_message_witness :
  human_inv demo_lexicon demo_game /\ "abcd" <> "" /\
  exists b' situation,
    humanTurn_out demo_game ["abcd"; ""] =
      (let* r := humanTurn_out b' [""] in
       Ret (r.1, displayHumanStats b' (toUpperCase "abcd") situation ++ [prompt_word] ++ r.2))%res /\
    ((comp_word demo_game (toUpperCase "abcd") /\
        (exists row col, spells (board demo_game) ∅ row col (toUpperCase "abcd")) /\
        situation = "found" /\ b' = human_credit demo_game (toUpperCase "abcd")) \/
     (comp_word demo_game (toUpperCase "abcd") /\
        ~ (exists row col, spells (board demo_game) ∅ row col (toUpperCase "abcd")) /\
        situation = "notFound" /\ b' = demo_game) \/
     (~ comp_word demo_game (toUpperCase "abcd") /\ situation = "invalid" /\ b' = demo_game)).
Proof.
  assert (Hinv : human_inv demo_lexicon demo_game).
  { apply human_inv_fresh; [|exact demo_letters]. apply (create_fresh demo_lexicon demo_text []).
    vm_compute. reflexivity. }
  assert (Hw : "abcd" <> "") by discriminate.
  split; [exact Hinv|]. split; [exact Hw|]. exact (humanTurn_guess_message _ _ _ [""] Hinv Hw).
Defined.

(** The board the player types is the board printed: after
    [fillCustomBoard] accepts a line and the constructor builds the
    board from it, [cout << boggle] prints its sixteen letters in
    order, four to a line. *)
Theorem printBoard_typed_board d lines sh t b :
  fillCustomBoard lines = Ret t -> create d t sh = Ret b -> printBoard b = board_rows t.
Proof. apply printBoard_typed. Qed.

Lemma printBoard_typed_board_witness :
  fillCustomBoard ["abc"; "dbeecaeeeeeeeeee"] = Ret demo_text /\
  exists b, create demo_lexicon demo_text [] = Ret b /\ printBoard b = board_rows demo_text.
Proof.
  assert (Ht : fillCustomBoard ["abc"; "dbeecaeeeeeeeeee"] = Ret demo_text) by (vm_compute; reflexivity).
  assert (Hc : exists b, create demo_lexicon demo_text [] = Ret b) by (eexists; vm_compute; reflexivity).
  split; [exact Ht|]. destruct Hc as [b Hb]. exists b. split; [exact Hb|].
  exact (printBoard_typed_board _ _ _ _ _ Ht Hb).
Defined.

End BoggleConsoleTheorems.
