(* ===== verification/Life.v ===== *)
(** * Life.v: [src/Life/src/life.cpp]

    The colony is a [Grid<bool>] ([true] = live, printed [X]).  One
    definition per function of [life.cpp], with the same name, in [Module
    Life]: [readFile] parses the file (its lines are the argument),
    [displayGrid] returns the lines it prints, [updateTempGrid] applies the
    rules to one cell of [temp], [countLiveNeighbors] runs the two loops
    over the cells and, for each, the two loops over the 3 x 3 block around
    it, [getNextGeneration] and [animateGenerations] advance the colony,
    [getRandomGrid] builds a random colony from the random numbers drawn,
    and [main] is the console session, its answers given as lines.  The
    [for] loops are [foldl]s of their bodies; C++'s [%] on the non-negative
    operands it gets here is [Z.rem].  [printIntro], [clearConsole] and
    [pause] only print or wait and are not modelled. *)

From S2P Require Import Prelude StanfordGrid StanfordStrlib.
From Stdlib Require Import Ascii.

(** The [(r, c)] of [for (r = north; r <= south; r++) for (c = west; c <= east; c++)]. *)
Definition block (row col : Z) : list (Z * Z) :=
  [row - 1; row; row + 1]%Z ≫= fun r => (fun c => (r, c)) <$> [col - 1; col; col + 1]%Z.

Module Life.

(** [getline(fileIn, line)]: the next line, or [""] past the end. *)
Definition getline (lines : list string) : string * list string :=
  match lines with [] => ("", []) | l :: rest => (l, rest) end.

(** One round of the loop over the characters of a line. *)
Definition read_cell (row : Z) (line : string) (acc : res (grid bool)) (col : nat) : res (grid bool) :=
  (let* g := acc in
   let ch := char_at line col in
   if Ascii.eqb ch "-" then grid_set g row (Z.of_nat col) false
   else if Ascii.eqb ch "X" then grid_set g row (Z.of_nat col) true
   else Ret g)%res.

(** One round of the loop over the rows of the file. *)
Definition read_row (acc : res (grid bool * list string)) (row : nat) : res (grid bool * list string) :=
  (let* st := acc in
   let '(g, lines) := st in
   let '(line, lines) := getline lines in
   let* g := foldl (read_cell (Z.of_nat row) line) (Ret g) (seq 0 (String.length line)) in
   Ret (g, lines))%res.

Definition readFile (lines : list string) : res (grid bool) :=
  let '(line, lines) := getline lines in
  (let* numRows := stringToInteger line in
   let '(line, lines) := getline lines in
   let* numCols := stringToInteger line in
   let* g := grid_resize numRows numCols false in
   let* st := foldl read_row (Ret (g, lines)) (seq 0 (Z.to_nat numRows)) in
   Ret st.1)%res.

(** The lines [displayGrid] prints. *)
Definition displayGrid (g : grid bool) : list string :=
  (fun row => String.string_of_list_ascii
     ((fun col => if grid_at g (Z.of_nat row) (Z.of_nat col) then "X"%char else "-"%char)
        <$> seq 0 (Z.to_nat (nCols g)))) <$> seq 0 (Z.to_nat (nRows g)).

Definition updateTempGrid (g temp : grid bool) (row col count : Z) : res (grid bool) :=
  (let* temp := if (count <=? 1)%Z || (3 <? count)%Z then grid_set temp row col false else Ret temp in
   let* temp := if (count =? 2)%Z then grid_set temp row col (grid_at g row col) else Ret temp in
   if (count =? 3)%Z then grid_set temp row col true else Ret temp)%res.

(** One round of the loops over the 3 x 3 block around [(row, col)]. *)
Definition neighbour_step (g : grid bool) (wrap : string) (height width row col : Z)
    (count : Z) (rc : Z * Z) : Z :=
  let '(r, c) := rc in
  if bool_decide (wrap = "y") then
    if negb (bool_decide (r = row /\ c = col)) then
      if grid_at g (Z.rem (r + height) height) (Z.rem (c + width) width) then (count + 1)%Z else count
    else count
  else if bool_decide (wrap = "n") then
    if inBounds g r c && grid_at g r c && negb (bool_decide (r = row /\ c = col)) then (count + 1)%Z
    else count
  else count.

Definition countLiveNeighbors (g temp : grid bool) (wrap : string) : res (grid bool) :=
  let height := nRows g in
  let width := nCols g in
  foldl (fun acc rc =>
           (let* temp := acc in
            let '(row, col) := rc in
            let count := foldl (neighbour_step g wrap height width row col) 0%Z (block row col) in
            updateTempGrid g temp row col count)%res)
        (Ret temp) (row_major height width).

Definition getNextGeneration (g : grid bool) (wrap : string) : res (grid bool) :=
  (let* temp := grid_resize (nRows g) (nCols g) false in
   countLiveNeighbors g temp wrap)%res.

Definition animateGenerations (g : grid bool) (numFrames : Z) (wrap : string) : res (grid bool) :=
  foldl (fun acc _ => (let* g := acc in getNextGeneration g wrap)%res) (Ret g)
        (seq 0 (Z.to_nat numFrames)).

(** [getRandomGrid]: [x] and [y] are the two [randomInteger(1, 50)], and
    [rands] the [randomInteger(0, 4)] drawn for the cells in row-major
    order. *)
Definition getRandomGrid (x y : Z) (rands : list Z) : res (grid bool) :=
  (let* g := grid_resize x y false in
   let* st := foldl (fun acc rc =>
                       (let* st := acc in
                        let '(g, rands) := st in
                        let '(rand, rands) := match rands with r :: rs => (r, rs) | [] => (0%Z, []) end in
                        let* g := grid_set g rc.1 rc.2 (bool_decide (rand = 1%Z)) in
                        Ret (g, rands))%res)
                    (Ret (g, rands)) (row_major (nRows g) (nCols g)) in
   Ret st.1)%res.

(** The [while (true)] loop of [main] and the loops that re-prompt for a
    valid choice or a valid number of frames, one line at a time;
    [awaiting_frames] is [true] after the answer [a]. *)
Fixpoint menu (awaiting_frames : bool) (g : grid bool) (wrap : string) (lines : list string)
    : res (grid bool) :=
  match lines with
  | [] => OutOfFuel
  | line :: rest =>
      if awaiting_frames then
        match stringToInteger line with
        | Ret numFrames => (let* g := animateGenerations g numFrames wrap in menu false g wrap rest)%res
        | _ => menu true g wrap rest
        end
      else
        let choice := toLowerCase line in
        if bool_decide (choice = "a") then menu true g wrap rest
        else if bool_decide (choice = "t") then
          (let* g := getNextGeneration g wrap in menu false g wrap rest)%res
        else if bool_decide (choice = "q") then Ret g
        else menu false g wrap rest
  end.

(** The loop asking for a file name until the file exists or the answer
    is [random]. *)
Fixpoint ask_fileName (fileExists : string -> bool) (lines : list string) : res (string * list string) :=
  match lines with
  | [] => OutOfFuel
  | fileName :: rest =>
      if fileExists fileName || bool_decide (fileName = "random") then Ret (fileName, rest)
      else ask_fileName fileExists rest
  end.

(** The loop asking whether to wrap until the answer is [y] or [n]. *)
Fixpoint ask_wrap (lines : list string) : res (string * list string) :=
  match lines with
  | [] => OutOfFuel
  | line :: rest =>
      let wrap := toLowerCase line in
      if bool_decide (wrap = "y") || bool_decide (wrap = "n") then Ret (wrap, rest) else ask_wrap rest
  end.

(** [main]: [files] gives the lines of each existing file, [x], [y] and
    [rands] the random numbers of [getRandomGrid]; the result is the
    colony when the user quits. *)
Definition main (files : string -> option (list string)) (x y : Z) (rands : list Z)
    (lines : list string) : res (grid bool) :=
  (let* st := ask_fileName (fun f => bool_decide (is_Some (files f))) lines in
   let '(fileName, lines) := st in
   let* st := ask_wrap lines in
   let '(wrap, lines) := st in
   let* g := if bool_decide (fileName = "random") then getRandomGrid x y rands
             else readFile (default [] (files fileName)) in
   menu false g wrap lines)%res.

End Life.
