(* ===== verification/LifeProofs.v ===== *)
(** * LifeProofs.v: [getNextGeneration] is Conway's rule

    The rule, stated without the code's loops and temporary grid: a cell
    is live in the next generation when it has three live neighbours, or
    two and is live now ([life_rule]); its neighbours are the eight cells
    around it, either those inside the grid ([wrap = "n"]) or all eight
    taken modulo the grid's size ([wrap = "y"], a torus) ([live_neighbours]).
    [getNextGeneration] computes exactly that for every cell: the nine
    rounds of the inner loops count the eight neighbours ([count_block]),
    [updateTempGrid] writes the rule's value ([updateTempGrid_rule]), and the
    loop over the cells writes each cell of [temp] once and nothing else
    ([countLiveNeighbors_cells]). *)

From S2P Require Import Prelude StanfordGrid StanfordStrlib Life.
From Stdlib Require Import Ascii.
Import Life.

(** ** The rule *)

Definition life_rule (alive : bool) (n : Z) : bool :=
  bool_decide (n = 3)%Z || (bool_decide (n = 2)%Z && alive).

Definition neighbours_of (row col : Z) : list (Z * Z) :=
  [(row - 1, col - 1); (row - 1, col); (row - 1, col + 1); (row, col - 1);
   (row, col + 1); (row + 1, col - 1); (row + 1, col); (row + 1, col + 1)]%Z.

(** Whether the cell [rc] counts as a live neighbour: on a torus the cell
    [rc] taken modulo the grid's size, otherwise [rc] inside the grid. *)
Definition neighbour_live (torus : bool) (g : grid bool) (rc : Z * Z) : bool :=
  if torus then grid_at g (rc.1 mod nRows g) (rc.2 mod nCols g)
  else inBounds g rc.1 rc.2 && grid_at g rc.1 rc.2.

Definition live_neighbours (torus : bool) (g : grid bool) (row col : Z) : Z :=
  Z.of_nat (length (filter (fun rc => neighbour_live torus g rc = true) (neighbours_of row col))).

(** ** Counting the neighbours *)

Section Count.
Context (g : grid bool) (wrap : string) (row col : Z).
Let height := nRows g.
Let width := nCols g.

Lemma neighbour_step_shift n rc :
  neighbour_step g wrap height width row col n rc = (n + neighbour_step g wrap height width row col 0 rc)%Z.
Proof.
  destruct rc as [r c]. unfold neighbour_step.
  repeat (case_bool_decide || destruct (grid_at _ _ _) || destruct (inBounds _ _ _) || destruct (negb _));
    simpl; lia.
Qed.

Lemma neighbour_step_01 rc :
  neighbour_step g wrap height width row col 0 rc = 0%Z \/ neighbour_step g wrap height width row col 0 rc = 1%Z.
Proof.
  destruct rc as [r c]. unfold neighbour_step.
  repeat (case_bool_decide || destruct (grid_at _ _ _) || destruct (inBounds _ _ _) || destruct (negb _));
    simpl; lia.
Qed.

Lemma foldl_neighbour n l :
  foldl (neighbour_step g wrap height width row col) n l =
  (n + Z.of_nat (length (filter (fun rc => neighbour_step g wrap height width row col 0 rc = 1%Z) l)))%Z.
Proof.
  revert n. induction l as [|rc l IH]; intros n; simpl; [lia|].
  rewrite IH, neighbour_step_shift. rewrite filter_cons.
  destruct (neighbour_step_01 rc) as [E|E]; rewrite E.
  - rewrite decide_False by lia. lia.
  - rewrite decide_True by done. simpl. lia.
Qed.
End Count.

Lemma rem_shift (r h : Z) : (0 < h)%Z -> (- h <= r)%Z -> Z.rem (r + h) h = (r mod h)%Z.
Proof.
  intros Hh Hr. rewrite Z.rem_mod_nonneg by lia.
  rewrite <- (Z.mod_add r 1 h) by lia. f_equal. lia.
Qed.

Lemma neighbours_of_near row col r c :
  (r, c) ∈ neighbours_of row col ->
  (row - 1 <= r <= row + 1)%Z /\ (col - 1 <= c <= col + 1)%Z /\ ~ (r = row /\ c = col).
Proof.
  unfold neighbours_of. intros Hin.
  repeat (apply elem_of_cons in Hin as [Hin|Hin]; [injection Hin as -> ->; lia|]).
  by apply elem_of_nil in Hin.
Qed.

Lemma block_split row col :
  block row col = take 4 (neighbours_of row col) ++ [(row, col)] ++ drop 4 (neighbours_of row col).
Proof. reflexivity. Qed.

(** The nine rounds of the inner loops count the live neighbours of
    [(row, col)], on a torus when [wrap = "y"]. *)
Lemma count_block g wrap row col :
  inBounds g row col = true -> wrap = "y" \/ wrap = "n" ->
  foldl (neighbour_step g wrap (nRows g) (nCols g) row col) 0%Z (block row col) =
  live_neighbours (bool_decide (wrap = "y")) g row col.
Proof.
  intros Hin Hwrap. unfold inBounds in Hin.
  apply andb_true_iff in Hin as [Hr%bool_decide_eq_true_1 Hc%bool_decide_eq_true_1].
  rewrite foldl_neighbour, block_split, !filter_app, filter_cons_False.
  2:{ unfold neighbour_step. destruct Hwrap as [->| ->]; simpl;
      rewrite ?(bool_decide_true (row = row /\ col = col)) by done;
      repeat (case_bool_decide || destruct (grid_at _ _ _) || destruct (inBounds _ _ _)); simpl; lia. }
  rewrite filter_nil, app_nil_l, <- filter_app, take_drop. unfold live_neighbours. rewrite Z.add_0_l. do 2 f_equal.
  apply list_filter_iff_in. intros [r c] (Hr' & Hc' & Hnc)%neighbours_of_near.
  unfold neighbour_step, neighbour_live. simpl.
  destruct Hwrap as [->| ->]; simpl.
  - rewrite bool_decide_false by done. simpl.
    rewrite (rem_shift r), (rem_shift c) by lia.
    destruct (grid_at _ _ _); split; done || lia.
  - rewrite bool_decide_false by done. simpl.
    destruct (inBounds g r c), (grid_at g r c); simpl; split; done || lia.
Qed.

(** ** The rules, one cell *)

Lemma updateTempGrid_rule g temp row col n :
  inBounds temp row col = true -> (0 <= n)%Z ->
  updateTempGrid g temp row col n = grid_set temp row col (life_rule (grid_at g row col) n).
Proof.
  intros Hin Hn. unfold updateTempGrid, life_rule.
  destruct (Z.leb_spec n 1), (Z.ltb_spec 3 n), (Z.eqb_spec n 2), (Z.eqb_spec n 3); simpl; try lia;
    (first [subst n | rewrite (bool_decide_false (n = 3%Z)), (bool_decide_false (n = 2%Z)) by lia]);
    simpl; rewrite ?grid_set_in by done; simpl; rewrite ?grid_set_in by done; reflexivity.
Qed.

(** ** The loop over the cells *)

(** The value the loops give the cell [(row, col)] of [temp]. *)
Definition next_cell (g : grid bool) (wrap : string) (row col : Z) : bool :=
  life_rule (grid_at g row col)
    (foldl (neighbour_step g wrap (nRows g) (nCols g) row col) 0%Z (block row col)).

Definition count_step (g : grid bool) (wrap : string) (temp : grid bool) (rc : Z * Z) : res (grid bool) :=
  let '(row, col) := rc in
  updateTempGrid g temp row col (foldl (neighbour_step g wrap (nRows g) (nCols g) row col) 0%Z (block row col)).

Lemma countLiveNeighbors_unfold g temp wrap :
  countLiveNeighbors g temp wrap =
  foldl (fun acc rc => res_bind acc (fun t => count_step g wrap t rc)) (Ret temp) (row_major (nRows g) (nCols g)).
Proof. reflexivity. Qed.

(** One round of the loop writes the cell's next state into [temp]. *)
Lemma count_step_set g wrap temp rc :
  nRows temp = nRows g -> nCols temp = nCols g -> rc ∈ row_major (nRows g) (nCols g) ->
  count_step g wrap temp rc = grid_set temp rc.1 rc.2 (next_cell g wrap rc.1 rc.2).
Proof.
  destruct rc as [r0 c0]. intros Hr Hc Hin%row_major_inBounds. unfold count_step. cbn [fst snd].
  rewrite (updateTempGrid_rule g temp r0 c0); [unfold next_cell; reflexivity|by rewrite (inBounds_dims_same temp g)|rewrite foldl_neighbour; lia].
Qed.

Lemma getNextGeneration_cells g wrap :
  grid_wf g -> wrap = "y" \/ wrap = "n" ->
  exists g', getNextGeneration g wrap = Ret g' /\ grid_wf g' /\
    nRows g' = nRows g /\ nCols g' = nCols g /\
    forall r c, inBounds g r c = true ->
      grid_at g' r c = life_rule (grid_at g r c) (live_neighbours (bool_decide (wrap = "y")) g r c).
Proof.
  intros Hwf Hwrap. pose proof Hwf as (Hr & Hc & _).
  unfold getNextGeneration, grid_resize. rewrite bool_decide_false by lia. cbn [res_bind].
  rewrite countLiveNeighbors_unfold.
  destruct (grid_fold_cells (count_step g wrap) (fun rc => Some (next_cell g wrap rc.1 rc.2))
              (row_major (nRows g) (nCols g)) (grid_new (nRows g) (nCols g) false))
    as (g' & -> & Hwf' & Hr' & Hc' & Hcells); [by apply grid_new_wf| |by intros; apply count_step_set|].
  { intros r c Hrc%row_major_inBounds. by rewrite (inBounds_dims_same _ g). }
  exists g'. split_and!; try done. intros r c Hin.
  rewrite Hcells by (by rewrite (inBounds_dims_same _ g)).
  rewrite decide_True by (by apply row_major_inBounds). cbn [fst snd].
  unfold next_cell. by rewrite count_block.
Qed.

(** A vertical blinker in a 3 x 3 grid. *)
Definition blinker : grid bool := mkGrid 3 3 [false; true; false; false; true; false; false; true; false].

Module LifeTheorems.

(** C14. [getNextGeneration] applies Conway's rule to every cell at once:
    a cell of the next generation is live exactly when it has three live
    neighbours, or two and is live now, counting the eight cells around it
    inside the grid ([wrap = "n"]) or around the torus ([wrap = "y"]); the
    grid keeps its size. *)
Theorem getNextGeneration_spec g wrap :
  grid_wf g -> wrap = "y" \/ wrap = "n" ->
  exists g', getNextGeneration g wrap = Ret g' /\ grid_wf g' /\
    nRows g' = nRows g /\ nCols g' = nCols g /\
    forall r c, inBounds g r c = true ->
      grid_at g' r c = life_rule (grid_at g r c) (live_neighbours (bool_decide (wrap = "y")) g r c).
Proof. apply getNextGeneration_cells. Qed.

Lemma getNextGeneration_spec_witness :
  grid_wf blinker /\ ("y" = "y" \/ "y" = "n") /\
  exists g', getNextGeneration blinker "y" = Ret g' /\ grid_wf g' /\
    nRows g' = nRows blinker /\ nCols g' = nCols blinker /\
    forall r c, inBounds blinker r c = true ->
      grid_at g' r c = life_rule (grid_at blinker r c) (live_neighbours (bool_decide ("y" = "y")) blinker r c).
Proof.
  assert (Hwf : grid_wf blinker) by decide_by_eval.
  split_and!; [exact Hwf|by left|]. apply getNextGeneration_spec; [exact Hwf|by left].
Defined.

End LifeTheorems.
