(* ===== verification/LifeFile.v ===== *)
(** * LifeFile.v: reading a colony file

    A colony file holds the number of rows, the number of columns, and one
    line per row of [X] (live) and [-] (dead) characters; [displayGrid]
    prints the rows that way.  [readFile] reads back what [displayGrid]
    prints after the two sizes ([readFile_life_file]).  It does not check
    the lines against the size: a line longer than the grid is wide makes
    the assignment [grid[row][col]] throw ([readFile_long_line]). *)

From S2P Require Import Prelude StanfordGrid StanfordStrlib Life.
From Stdlib Require Import Ascii.
Import Life.

(** The file of a colony. *)
Definition life_file (g : grid bool) : list string :=
  integerToString (nRows g) :: integerToString (nCols g) :: displayGrid g.

Definition cell_char (b : bool) : ascii := if b then "X"%char else "-"%char.

Definition row_chars (g : grid bool) (row : nat) : list ascii :=
  (fun col => cell_char (grid_at g (Z.of_nat row) (Z.of_nat col))) <$> seq 0 (Z.to_nat (nCols g)).

Lemma displayGrid_lookup g row :
  row < Z.to_nat (nRows g) -> displayGrid g !! row = Some (String.string_of_list_ascii (row_chars g row)).
Proof. intros Hr. unfold displayGrid. by rewrite list_lookup_fmap, lookup_seq_lt. Qed.

Lemma length_displayGrid g : length (displayGrid g) = Z.to_nat (nRows g).
Proof. unfold displayGrid. by rewrite length_fmap, length_seq. Qed.

Lemma length_string_of_list l : String.length (String.string_of_list_ascii l) = length l.
Proof. induction l; simpl; by f_equal. Qed.

Lemma char_at_string_of_list l j :
  char_at (String.string_of_list_ascii l) j = match l !! j with Some c => c | None => "000"%char end.
Proof. revert j. induction l as [|c l IH]; intros [|j]; try done. apply IH. Qed.

Lemma row_chars_at g row col :
  col < Z.to_nat (nCols g) ->
  char_at (String.string_of_list_ascii (row_chars g row)) col = cell_char (grid_at g (Z.of_nat row) (Z.of_nat col)).
Proof. intros Hc. rewrite char_at_string_of_list. unfold row_chars. by rewrite list_lookup_fmap, lookup_seq_lt. Qed.

Lemma read_cell_bind row line acc col :
  read_cell row line acc col = res_bind acc (fun h => read_cell row line (Ret h) col).
Proof. by destruct acc. Qed.

Lemma read_row_bind acc row :
  read_row acc row = res_bind acc (fun st => read_row (Ret st) row).
Proof. by destruct acc. Qed.

(** Reading one line of the file into row [row]. *)
Lemma read_line g h0 row :
  grid_wf g -> grid_wf h0 -> nRows h0 = nRows g -> nCols h0 = nCols g -> row < Z.to_nat (nRows g) ->
  exists h, foldl (read_cell (Z.of_nat row) (String.string_of_list_ascii (row_chars g row))) (Ret h0)
              (seq 0 (String.length (String.string_of_list_ascii (row_chars g row)))) = Ret h /\
    grid_wf h /\ nRows h = nRows g /\ nCols h = nCols g /\
    forall r c, inBounds h0 r c = true ->
      grid_at h r c = if decide (r = Z.of_nat row) then grid_at g r c else grid_at h0 r c.
Proof.
  intros Hwf Hwf0 Hr Hc Hrow.
  rewrite length_string_of_list. unfold row_chars at 2. rewrite length_fmap, length_seq.
  rewrite (foldl_ext_fun _ (fun acc i => res_bind acc (fun h => read_cell (Z.of_nat row)
             (String.string_of_list_ascii (row_chars g row)) (Ret h) i))) by apply read_cell_bind.
  pose proof Hwf as (HgR & HgC & _).
  edestruct (foldl_res_seq (fun h i => read_cell (Z.of_nat row)
               (String.string_of_list_ascii (row_chars g row)) (Ret h) i) (fun k h => grid_wf h /\ nRows h = nRows g /\ nCols h = nCols g /\
     forall r c, inBounds h0 r c = true ->
       grid_at h r c = if decide (r = Z.of_nat row /\ (c < Z.of_nat k)%Z) then grid_at g r c else grid_at h0 r c))
    as (h & Hh & Hwfh & Hrh & Hch & Hcells); [| |exists h; split_and!; [exact Hh|done..|] ].
  - split_and!; [done..|]. intros r c Hrc. rewrite decide_False; [done|].
    unfold inBounds in Hrc. apply andb_true_iff in Hrc as [_ ?%bool_decide_eq_true_1]. lia.
  - intros k h Hk (Hwfh & Hrh & Hch & Hcells).
    assert (Hin : inBounds h (Z.of_nat row) (Z.of_nat k) = true).
    { unfold inBounds. rewrite Hrh, Hch. apply andb_true_iff. split; apply bool_decide_eq_true_2; lia. }
    assert (Hset : read_cell (Z.of_nat row) (String.string_of_list_ascii (row_chars g row)) (Ret h) k =
                   grid_set h (Z.of_nat row) (Z.of_nat k) (grid_at g (Z.of_nat row) (Z.of_nat k))).
    { unfold read_cell. cbn [res_bind]. rewrite row_chars_at by lia.
      by destruct (grid_at g (Z.of_nat row) (Z.of_nat k)). }
    rewrite Hset, grid_set_in by done. eexists. split; [reflexivity|].
    assert (Hs : grid_set h (Z.of_nat row) (Z.of_nat k) (grid_at g (Z.of_nat row) (Z.of_nat k)) =
                 Ret (mkGrid (nRows h) (nCols h)
                        (<[grid_index h (Z.of_nat row) (Z.of_nat k) := grid_at g (Z.of_nat row) (Z.of_nat k)]>
                           (cells h)))) by (by rewrite grid_set_in).
    split_and!; [by eapply grid_set_wf|done|done|]. intros r c Hrc.
    assert (Hrc' : inBounds h r c = true) by (by rewrite (inBounds_dims h h0) by congruence).
    rewrite (grid_at_set h _ _ _ _ r c Hwfh Hs Hrc'), Hcells by done.
    destruct (decide (r = Z.of_nat row /\ c = Z.of_nat k)) as [[-> ->]|Hne].
    + by rewrite decide_True by lia.
    + destruct (decide (r = Z.of_nat row /\ (c < Z.of_nat k)%Z)), (decide (r = Z.of_nat row /\ (c < Z.of_nat (S k))%Z));
        done || lia.
  - intros r c Hrc. rewrite Hcells by done. unfold inBounds in Hrc.
    apply andb_true_iff in Hrc as [_ Hcol%bool_decide_eq_true_1].
    destruct (decide (r = Z.of_nat row)), (decide (r = Z.of_nat row /\ (c < Z.of_nat (Z.to_nat (nCols g)))%Z));
      done || lia.
Qed.

(** Reading the rows of the file one by one. *)
Lemma read_rows g :
  grid_wf g ->
  exists h, foldl read_row (Ret (grid_new (nRows g) (nCols g) false, displayGrid g)) (seq 0 (Z.to_nat (nRows g))) =
    Ret (h, []) /\ h = g.
Proof.
  intros Hwf. pose proof Hwf as (HgR & HgC & _).
  rewrite (foldl_ext_fun _ (fun acc i => res_bind acc (fun st => read_row (Ret st) i))) by apply read_row_bind.
  edestruct (foldl_res_seq (fun st i => read_row (Ret st) i) (fun k st =>
     st.2 = drop k (displayGrid g) /\ grid_wf st.1 /\ nRows st.1 = nRows g /\ nCols st.1 = nCols g /\
     forall r c, inBounds g r c = true ->
       grid_at st.1 r c = if decide ((r < Z.of_nat k)%Z) then grid_at g r c else false)
     (Z.to_nat (nRows g)) (grid_new (nRows g) (nCols g) false, displayGrid g))
    as ([h ls] & Hh & Hls & Hwfh & Hrh & Hch & Hcells); [| |].
  - split_and!; [done|by apply grid_new_wf|done|done|]. intros r c Hrc.
    unfold inBounds in Hrc. apply andb_true_iff in Hrc as [?%bool_decide_eq_true_1 ?%bool_decide_eq_true_1].
    rewrite decide_False by lia. cbn [fst]. unfold grid_at, grid_new. cbn [cells].
    rewrite lookup_total_replicate_2; [done|]. unfold grid_index. cbn [nCols]. nia.
  - intros k [h ls] Hk (Hls & Hwfh & Hrh & Hch & Hcells). cbn [fst snd] in *. subst ls.
    unfold read_row. cbn [res_bind].
    rewrite (drop_S _ (String.string_of_list_ascii (row_chars g k))) by (by apply displayGrid_lookup).
    cbn [getline].
    destruct (read_line g h k Hwf Hwfh Hrh Hch Hk) as (h' & -> & Hwf' & Hr' & Hc' & Hcells').
    cbn [res_bind]. eexists. split; [reflexivity|]. cbn [fst snd].
    split_and!; [done..|]. intros r c Hrc.
    rewrite Hcells' by (by rewrite (inBounds_dims h g)). rewrite Hcells by done.
    destruct (decide (r = Z.of_nat k)) as [->|Hne].
    + by rewrite decide_True by lia.
    + destruct (decide (r < Z.of_nat k)%Z), (decide (r < Z.of_nat (S k))%Z); done || lia.
  - exists h. cbn [fst snd] in *. rewrite <- (length_displayGrid g), drop_all in Hls. subst ls.
    split; [exact Hh|]. apply grid_ext; [done..|]. intros r c Hrc.
    rewrite (inBounds_dims h g) in Hrc by done. rewrite Hcells by done.
    unfold inBounds in Hrc. apply andb_true_iff in Hrc as [?%bool_decide_eq_true_1 _].
    by rewrite decide_True by lia.
Qed.

Lemma readFile_life_file_ok g :
  grid_wf g -> (nRows g <= INT_MAX)%Z -> (nCols g <= INT_MAX)%Z ->
  readFile (life_file g) = Ret g.
Proof.
  intros Hwf HR HC. pose proof Hwf as (HgR & HgC & _).
  unfold readFile, life_file. cbn [getline].
  rewrite stringToInteger_integerToString by (unfold INT_MIN; lia). cbn [res_bind getline].
  rewrite stringToInteger_integerToString by (unfold INT_MIN; lia). cbn [res_bind].
  unfold grid_resize. rewrite bool_decide_false by lia. cbn [res_bind].
  destruct (read_rows g Hwf) as (h & -> & ->). reflexivity.
Qed.

(** The cells of a line of [X] and [-] inside the grid's width are read
    without error. *)
Lemma read_line_prefix h row line k :
  grid_wf h -> (0 <= row < nRows h)%Z -> (Z.of_nat k <= nCols h)%Z ->
  (forall j, j < k -> char_at line j = "X"%char \/ char_at line j = "-"%char) ->
  exists h', foldl (fun acc i => res_bind acc (fun x => read_cell row line (Ret x) i)) (Ret h) (seq 0 k) = Ret h' /\
    grid_wf h' /\ nRows h' = nRows h /\ nCols h' = nCols h.
Proof.
  intros Hwf Hrow Hk Hchars.
  edestruct (foldl_res_seq (fun x i => read_cell row line (Ret x) i)
               (fun _ h' => grid_wf h' /\ nRows h' = nRows h /\ nCols h' = nCols h) k h)
    as (h' & Hh' & Hinv); [done| |by exists h'].
  intros i x Hi (Hwfx & Hrx & Hcx).
  assert (Hin : inBounds x row (Z.of_nat i) = true).
  { unfold inBounds. rewrite Hrx, Hcx. apply andb_true_iff. split; apply bool_decide_eq_true_2; lia. }
  unfold read_cell. cbn [res_bind].
  destruct (Hchars i Hi) as [-> | ->]; cbn; rewrite grid_set_in by done; eexists; split; try reflexivity;
    (split_and!; [eapply grid_set_wf; [exact Hwfx|by apply grid_set_in]|done|done]).
Qed.

Module LifeFileTheorems.

(** C28. [readFile] reads back a colony from its sizes followed by the
    lines [displayGrid] prints. *)
Theorem readFile_life_file g :
  grid_wf g -> (nRows g <= INT_MAX)%Z -> (nCols g <= INT_MAX)%Z ->
  readFile (life_file g) = Ret g.
Proof. apply readFile_life_file_ok. Qed.

(** A glider in a 4 x 4 grid. *)
Definition glider : grid bool :=
  mkGrid 4 4 [false; true; false; false; false; false; true; false;
              true; true; true; false; false; false; false; false].

Lemma readFile_life_file_witness :
  grid_wf glider /\ (nRows glider <= INT_MAX)%Z /\ (nCols glider <= INT_MAX)%Z /\
  readFile (life_file glider) = Ret glider.
Proof.
  assert (Hwf : grid_wf glider) by decide_by_eval.
  assert (HR : (nRows glider <= INT_MAX)%Z) by (vm_compute; discriminate).
  split_and!; [exact Hwf|exact HR|exact HR|]. exact (readFile_life_file glider Hwf HR HR).
Defined.

(** C36. [readFile] does not check a line against the width: when the
    first row's line has more [X] and [-] characters than the grid has
    columns, the assignment to [grid[0][numCols]] throws. *)
Theorem readFile_long_line numRows numCols line rest :
  (0 < numRows <= INT_MAX)%Z -> (0 <= numCols <= INT_MAX)%Z ->
  Z.to_nat numCols < String.length line ->
  (forall j, j < String.length line -> char_at line j = "X"%char \/ char_at line j = "-"%char) ->
  readFile (integerToString numRows :: integerToString numCols :: line :: rest) = Throw grid_error.
Proof.
  intros HR HC Hlen Hchars. unfold readFile. cbn [getline].
  rewrite stringToInteger_integerToString by (unfold INT_MIN; lia). cbn [res_bind getline].
  rewrite stringToInteger_integerToString by (unfold INT_MIN; lia). cbn [res_bind].
  unfold grid_resize. rewrite bool_decide_false by lia. cbn [res_bind].
  replace (Z.to_nat numRows) with (S (Z.to_nat numRows - 1)) by lia. cbn [seq foldl].
  unfold read_row at 2. cbn [res_bind getline].
  rewrite (foldl_ext_fun (read_cell _ line) (fun acc i => res_bind acc (fun x => read_cell (Z.of_nat 0) line (Ret x) i)))
    by apply read_cell_bind.
  replace (String.length line) with (Z.to_nat numCols + S (String.length line - S (Z.to_nat numCols))) by lia.
  rewrite seq_app, foldl_app.
  destruct (read_line_prefix (grid_new numRows numCols false) (Z.of_nat 0) line (Z.to_nat numCols))
    as (h & -> & Hwfh & Hrh & Hch); [apply grid_new_wf; lia|simpl; lia|simpl; lia|intros; apply Hchars; lia|].
  cbn [seq foldl res_bind]. unfold read_cell at 2. cbn [res_bind].
  assert (Hout : inBounds h (Z.of_nat 0) (Z.of_nat (0 + Z.to_nat numCols)) = false).
  { unfold inBounds. rewrite Hch. simpl. rewrite (bool_decide_false (_ <= _ < numCols)%Z) by lia.
    apply andb_false_r. }
  assert (Hset : forall x, grid_set h (Z.of_nat 0) (Z.of_nat (0 + Z.to_nat numCols)) x = Throw grid_error)
    by (intros x; unfold grid_set; by rewrite Hout).
  destruct (Hchars (0 + Z.to_nat numCols)) as [-> | ->]; [lia| |]; cbn; rewrite Hset;
    rewrite foldl_res_stuck by done; cbn [res_bind];
    rewrite (foldl_ext_fun read_row (fun acc i => res_bind acc (fun st => read_row (Ret st) i))) by apply read_row_bind;
    by rewrite foldl_res_stuck.
Qed.

Lemma readFile_long_line_witness :
  (0 < 2 <= INT_MAX)%Z /\ (0 <= 2 <= INT_MAX)%Z /\ Z.to_nat 2 < String.length "--X" /\
  (forall j, j < String.length "--X" -> char_at "--X" j = "X"%char \/ char_at "--X" j = "-"%char) /\
  readFile (integerToString 2 :: integerToString 2 :: "--X" :: []) = Throw grid_error.
Proof.
  assert (H2 : (0 < 2 <= INT_MAX)%Z) by (unfold INT_MAX; lia).
  assert (H2' : (0 <= 2 <= INT_MAX)%Z) by (unfold INT_MAX; lia).
  assert (Hlen : Z.to_nat 2 < String.length "--X") by (simpl; lia).
  assert (Hch : forall j, j < String.length "--X" -> char_at "--X" j = "X"%char \/ char_at "--X" j = "-"%char)
    by (intros [|[|[|j]]] Hj; simpl in Hj; [right; done|right; done|left; done|lia]).
  split; [exact H2|]. split; [exact H2'|]. split; [exact Hlen|]. split; [exact Hch|].
  exact (readFile_long_line 2 2 "--X" [] H2 H2' Hlen Hch).
Defined.

End LifeFileTheorems.
