(* ===== verification/LifeSession.v ===== *)
(** * LifeSession.v: a session of the Game of Life computes generations

    [conway torus g] is the next generation as a pure function: every cell
    gets [life_rule] of its state and its live neighbours.
    [getNextGeneration] computes it ([getNextGeneration_conway]),
    [animateGenerations g n] computes it [n] times, and the menu loop of
    [main] computes it as many times as the commands typed ask for: one
    for each [t], [n] for an [a] followed by the number [n], until [q]
    ([generations]).  Answers that are not a command, and frame counts
    that [stringToInteger] rejects, are asked again and change nothing. *)

From S2P Require Import Prelude StanfordGrid StanfordStrlib Life LifeProofs.
Import Life.

(** The next generation, cell by cell in row-major order. *)
Definition conway (torus : bool) (g : grid bool) : grid bool :=
  mkGrid (nRows g) (nCols g)
    ((fun i => let r := (Z.of_nat i / nCols g)%Z in let c := (Z.of_nat i mod nCols g)%Z in
               life_rule (grid_at g r c) (live_neighbours torus g r c))
     <$> seq 0 (Z.to_nat (nRows g * nCols g))).

(** The number of generations the commands [lines] ask for before [q],
    read the way the menu loop reads them ([None] when the lines run out
    first). *)
Fixpoint generations (awaiting_frames : bool) (lines : list string) : option nat :=
  match lines with
  | [] => None
  | line :: rest =>
      if awaiting_frames then
        match stringToInteger line with
        | Ret numFrames => (fun k => Z.to_nat numFrames + k) <$> generations false rest
        | _ => generations true rest
        end
      else
        let choice := toLowerCase line in
        if bool_decide (choice = "a") then generations true rest
        else if bool_decide (choice = "t") then S <$> generations false rest
        else if bool_decide (choice = "q") then Some 0
        else generations false rest
  end.

Section Session.
Context (torus : bool) (wrap : string).
Hypothesis Hwrap : wrap = "y" \/ wrap = "n".
Hypothesis Htorus : torus = bool_decide (wrap = "y").

Lemma conway_wf g : grid_wf g -> grid_wf (conway torus g).
Proof. intros (Hr & Hc & _). unfold grid_wf, conway. cbn. by rewrite length_fmap, length_seq. Qed.

Lemma grid_at_conway g r c : grid_wf g -> inBounds g r c = true ->
  grid_at (conway torus g) r c = life_rule (grid_at g r c) (live_neighbours torus g r c).
Proof.
  intros (Hr & Hc & _) Hin. unfold inBounds in Hin.
  apply andb_true_iff in Hin as [Hrow%bool_decide_eq_true_1 Hcol%bool_decide_eq_true_1].
  unfold grid_at, grid_index, conway. cbn [cells nCols nRows].
  assert (Hi : (Z.to_nat (r * nCols g + c) < Z.to_nat (nRows g * nCols g))%nat) by nia.
  rewrite list_lookup_total_alt, list_lookup_fmap, lookup_seq_lt by done. cbn [fmap option_fmap option_map default].
  replace (Z.of_nat (0 + Z.to_nat (r * nCols g + c))) with (r * nCols g + c)%Z by lia.
  rewrite Z.div_add_l, Z.div_small, Z.add_0_r by lia.
  replace ((r * nCols g + c) mod nCols g)%Z with c by (rewrite Z.add_comm, Z.mod_add, Z.mod_small; lia).
  reflexivity.
Qed.

(** [getNextGeneration] returns the next generation. *)
Lemma getNextGeneration_conway g : grid_wf g -> getNextGeneration g wrap = Ret (conway torus g).
Proof.
  intros Hwf. destruct (getNextGeneration_cells g wrap Hwf Hwrap) as (g' & -> & Hwf' & Hr & Hc & Hcells).
  f_equal. apply grid_ext; [done|by apply conway_wf|done|done|].
  intros r c Hin. rewrite Hcells by (by rewrite (inBounds_dims_same g' g) in Hin).
  rewrite grid_at_conway; [by subst torus|done|by rewrite (inBounds_dims_same g' g) in Hin].
Qed.

Lemma animate_loop k s g : grid_wf g ->
  foldl (fun acc _ => (let* g := acc in getNextGeneration g wrap)%res) (Ret g) (seq s k) =
  Ret (Nat.iter k (conway torus) g).
Proof.
  revert s g. induction k as [|k IH]; intros s g Hwf; [done|]. cbn [seq foldl res_bind].
  rewrite getNextGeneration_conway by done. rewrite IH by (by apply conway_wf).
  by rewrite Nat.iter_succ_r.
Qed.

(** [animateGenerations g numFrames] computes [numFrames] generations (none
    when [numFrames <= 0]). *)
Lemma animateGenerations_conway g numFrames : grid_wf g ->
  animateGenerations g numFrames wrap = Ret (Nat.iter (Z.to_nat numFrames) (conway torus) g).
Proof. apply animate_loop. Qed.

Lemma iter_conway_wf k g : grid_wf g -> grid_wf (Nat.iter k (conway torus) g).
Proof. induction k; [done|]. intros. cbn. by apply conway_wf, IHk. Qed.

Lemma menu_generations lines : forall awaiting g, grid_wf g ->
  menu awaiting g wrap lines =
  match generations awaiting lines with
  | Some k => Ret (Nat.iter k (conway torus) g)
  | None => OutOfFuel
  end.
Proof.
  induction lines as [|line rest IH]; intros awaiting g Hwf; [done|]. cbn [menu generations].
  destruct awaiting.
  - destruct (stringToInteger line) as [n| | |]; try by apply IH.
    rewrite animateGenerations_conway by done. cbn [res_bind].
    rewrite IH by (by apply iter_conway_wf).
    destruct (generations false rest); [|done]. cbn [fmap option_fmap option_map]. by rewrite Nat.add_comm, Nat.iter_add.
  - destruct (bool_decide (toLowerCase line = "a")); [by apply IH|].
    destruct (bool_decide (toLowerCase line = "t")).
    + rewrite getNextGeneration_conway by done. cbn [res_bind]. rewrite IH by (by apply conway_wf).
      destruct (generations false rest); [|done]. cbn [fmap option_fmap option_map]. by rewrite Nat.iter_succ_r.
    + destruct (bool_decide (toLowerCase line = "q")); [done|by apply IH].
Qed.

End Session.

Module LifeSessionTheorems.

(** C15. The menu loop of [main] on a well-formed colony computes
    generations: whatever the user types, when the loop ends at [q] the
    colony is [conway] applied [k] times, [k] being the number of
    generations the commands asked for ([generations]: one per [t], [n]
    per [a] followed by [n]); answers that are not commands change
    nothing.  [conway] gives every cell [life_rule] of its state and its
    live neighbours ([grid_at_conway]). *)
Theorem menu_computes_generations wrap g lines :
  wrap = "y" \/ wrap = "n" -> grid_wf g ->
  menu false g wrap lines =
  match generations false lines with
  | Some k => Ret (Nat.iter k (conway (bool_decide (wrap = "y"))) g)
  | None => OutOfFuel
  end.
Proof. intros Hwrap Hwf. by apply menu_generations. Qed.

Lemma menu_computes_generations_witness :
  ("y" = "y" \/ "y" = "n") /\ grid_wf blinker /\
  menu false blinker "y" ["t"; "x"; "A"; "two"; "2"; "q"] =
  match generations false ["t"; "x"; "A"; "two"; "2"; "q"] with
  | Some k => Ret (Nat.iter k (conway (bool_decide ("y" = "y"))) blinker)
  | None => OutOfFuel
  end.
Proof.
  assert (Hwf : grid_wf blinker) by decide_by_eval.
  split_and!; [by left|exact Hwf|]. apply menu_computes_generations; [by left|exact Hwf].
Defined.

End LifeSessionTheorems.
