(* ===== verification/WordLadder.v ===== *)
(** * WordLadder.v: [src/serafini_starter/WordLadder/src/wordladder.cpp]

    [buildLadder] is a breadth-first search over words: the queue
    [ladder] holds stacks of words (the top is the last word of a partial
    ladder, the bottom [word1]), and [usedWords] the words already
    reached.  Each round dequeues a stack; if its top is [word2] the stack
    is printed and the search ends, otherwise every word obtained by
    changing one letter of the top to ['a'..'z'] that is in the lexicon and
    not yet used is pushed on a copy of the stack and enqueued.  The queue
    is a list (front first), a stack a list (top first), a [Lexicon] its
    list of lower-case words.  The [while] loop runs on fuel by
    [iter_loop]; the two [for] loops are a [foldl] over the pairs
    [(l, letter)] in the code's order.  The result of [buildLadder] is the
    stack [printLadder] prints (top first), or [None] when it returns 0.
    [printIntro], [promptUserForFile] and the messages are console I/O and
    are not modelled; the dictionary is the [Lexicon] argument. *)

From S2P Require Import Prelude StanfordStrlib.
From Stdlib Require Import Ascii.

(** [Lexicon::add]: the lexicon stores the word in lower case. *)
Definition lex_add (d : Lexicon) (w : string) : Lexicon := mkLexicon (toLowerCase w :: lex_words d).

(** [Stack::peek]. *)
Definition stack_peek (s : list string) : res string :=
  match s with w :: _ => Ret w | [] => Throw "Stack::peek: Attempting to peek at an empty stack" end.

(** [newWord[l] = letter], for [l] below the length. *)
Fixpoint set_char (s : string) (i : nat) (c : ascii) : string :=
  match s, i with
  | String _ s', O => String c s'
  | String c' s', S i' => String c' (set_char s' i' c)
  | EmptyString, _ => EmptyString
  end.

(** [for (char letter = 'a'; letter <= 'z'; letter++)] *)
Definition letters : list ascii := (fun k => ascii_of_nat (97 + k)) <$> seq 0 26.

(** The [(l, letter)] of the two [for] loops, for a word of length [len]. *)
Definition changes (len : nat) : list (nat * ascii) :=
  seq 0 len ≫= fun l => (fun c => (l, c)) <$> letters.

Module WordLadder.

Definition checkInputs (word1 word2 : string) (lex : Lexicon) : bool :=
  if negb (String.length word1 =? String.length word2) then false
  else if bool_decide (word1 = word2) then false
  else if negb (lex_contains lex word1) || negb (lex_contains lex word2) then false
  else true.

(** One round of the two [for] loops: try [newWord] with [letter] at [l]. *)
Definition ladder_visit (lex : Lexicon) (current : list string)
    (acc : res (list (list string) * Lexicon)) (lc : nat * ascii) : res (list (list string) * Lexicon) :=
  (let* st := acc in
   let '(ladder, usedWords) := st in
   let '(l, letter) := lc in
   let* top := stack_peek current in
   if l <? String.length top then
     let newWord := set_char top l letter in
     if lex_contains lex newWord && negb (lex_contains usedWords newWord) then
       Ret (ladder ++ [newWord :: current], lex_add usedWords newWord)
     else Ret (ladder, usedWords)
   else Undef "newWord[l] past the end of the string")%res.

(** One round of [while (!ladder.isEmpty())]. *)
Definition ladder_step (word1 word2 : string) (lex : Lexicon) (st : list (list string) * Lexicon)
    : (list (list string) * Lexicon) + res (option (list string)) :=
  let '(ladder, usedWords) := st in
  match ladder with
  | [] => inr (Ret None)
  | current :: ladder =>
      match stack_peek current with
      | Ret top =>
          if bool_decide (top = word2) then inr (Ret (Some current))
          else
            match foldl (ladder_visit lex current) (Ret (ladder, usedWords))
                        (changes (String.length word1)) with
            | Ret st' => inl st'
            | Throw m => inr (Throw m)
            | Undef w => inr (Undef w)
            | OutOfFuel => inr OutOfFuel
            end
      | Throw m => inr (Throw m)
      | Undef w => inr (Undef w)
      | OutOfFuel => inr OutOfFuel
      end
  end.

(** [buildLadder]: [Some stack] when it prints [stack] and returns 1,
    [None] when it returns 0. *)
Definition buildLadder (fuel : nat) (word1 word2 : string) (lex : Lexicon) : res (option (list string)) :=
  iter_loop (ladder_step word1 word2 lex) fuel ([[word1]], lex_add (mkLexicon []) word1).

(** The [while (true)] loop of [runWordLadder] over the lines typed: the
    ladders built, in order. *)
Fixpoint runWordLadder (fuel : nat) (lex : Lexicon) (lines : list string)
    : res (list (option (list string))) :=
  match lines with
  | [] => OutOfFuel
  | line1 :: rest =>
      let word1 := toLowerCase line1 in
      if bool_decide (word1 = "") then Ret []
      else
        match rest with
        | [] => OutOfFuel
        | line2 :: rest' =>
            let word2 := toLowerCase line2 in
            if bool_decide (word2 = "") then Ret []
            else if checkInputs word1 word2 lex then
              (let* r := buildLadder fuel word1 word2 lex in
               let* rs := runWordLadder fuel lex rest' in
               Ret (r :: rs))%res
            else runWordLadder fuel lex rest'
        end
  end.

End WordLadder.
