(* ===== verification/WordLadderProofs.v ===== *)
(** * WordLadderProofs.v: [buildLadder] finds a shortest ladder

    A ladder is a stack of words whose bottom is [word1] and in which each
    word is the one below it with one letter changed to ['a'..'z'], and is
    in the lexicon ([stack_walk]).  For a lower-case [word1] (as
    [runWordLadder] passes it), with fuel at least the number of lexicon
    entries plus two, [buildLadder] returns; it prints a ladder ending in [word2]
    that is no longer than any other, and it reports that there is none
    only when there is none.  The proof is the classical invariant of
    breadth-first search ([bfs_inv]): the queue holds ladders, shortest
    to their tops, by non-decreasing length with at most two lengths;
    every word shorter to reach than the front of the queue has been
    expanded, and every neighbour of an expanded word is used. *)

From S2P Require Import Prelude StanfordStrlib WordLadder.
From Stdlib Require Import Ascii.
Import WordLadder.

(** ** Words, letters and changes *)

Definition lower (w : string) : Prop := toLowerCase w = w.

Lemma length_set_char w l c : String.length (set_char w l c) = String.length w.
Proof. revert l. induction w as [|c' w IH]; intros [|l]; simpl; auto. Qed.

Lemma letters_lower c : c ∈ letters -> ascii_lower c = c.
Proof.
  unfold letters. intros (k & -> & Hk%elem_of_seq)%list_elem_of_fmap.
  do 26 (destruct k as [|k]; [reflexivity|]). lia.
Qed.

Lemma set_char_lower w l c : lower w -> c ∈ letters -> lower (set_char w l c).
Proof.
  unfold lower. intros Hw Hc. revert l Hw. induction w as [|c' w IH]; intros [|l] Hw; simpl in *; try done.
  - injection Hw as Hc' Hw. by rewrite Hw, letters_lower.
  - injection Hw as Hc' Hw. by rewrite Hc', IH.
Qed.

Lemma changes_elem len l c : (l, c) ∈ changes len <-> l < len /\ c ∈ letters.
Proof.
  unfold changes. rewrite list_elem_of_bind. split.
  - intros (l' & (c' & [= -> ->] & Hc)%list_elem_of_fmap & Hl%elem_of_seq). split; [lia|done].
  - intros [Hl Hc]. exists l. split; [apply list_elem_of_fmap; by exists c|apply elem_of_seq; lia].
Qed.

Lemma lex_contains_lower_word d w : lower w -> lex_contains d w = bool_decide (w ∈ lex_words d).
Proof. unfold lex_contains, lower. by intros ->. Qed.

Lemma lex_add_words d w : lex_words (lex_add d w) = toLowerCase w :: lex_words d.
Proof. reflexivity. Qed.

(** ** Ladders *)

(** [w'] is [w] with its letter [l < len] changed to one of ['a'..'z'],
    and the lexicon contains it. *)
Definition next_word (lex : Lexicon) (len : nat) (w w' : string) : Prop :=
  exists l c, l < len /\ c ∈ letters /\ w' = set_char w l c /\ lex_contains lex w' = true.

Section Ladders.
Context (lex : Lexicon) (word1 : string).
Let len := String.length word1.

(** A ladder from [word1], as the stack [buildLadder] keeps: top first. *)
Inductive stack_walk : list string -> Prop :=
| sw_start : stack_walk [word1]
| sw_step w w' rest : stack_walk (w :: rest) -> next_word lex len w w' -> stack_walk (w' :: w :: rest).

Lemma stack_walk_top s : stack_walk s -> exists w rest, s = w :: rest.
Proof. inversion 1; eauto. Qed.

Lemma stack_walk_word (Hl : lower word1) w rest :
  stack_walk (w :: rest) -> lower w /\ String.length w = len.
Proof.
  intros Hs. remember (w :: rest) as s eqn:E. revert w rest E.
  induction Hs as [|w0 w' rest0 Hs IH Hn]; intros w rest E; injection E as <- <-; [done|].
  destruct (IH w0 rest0 eq_refl) as [Hlw Hlen]. destruct Hn as (l & c & Hlt & Hc & -> & _).
  split; [by apply set_char_lower|by rewrite length_set_char].
Qed.

Lemma stack_walk_length s : stack_walk s -> 1 <= length s.
Proof. by inversion 1; simpl; lia. Qed.
End Ladders.

(** ** The two [for] loops *)

Lemma size_remove (x : string) (X : gset string) : x ∈ X -> size (X ∖ {[x]}) + 1 = size X.
Proof.
  intros Hx. rewrite size_difference by set_solver. rewrite size_singleton.
  assert (1 <= size X); [|lia]. rewrite <- (size_singleton (C:=gset string) x). apply subseteq_size. set_solver.
Qed.

Lemma lex_contains_add d w w' : lex_contains d w' = true -> lex_contains (lex_add d w) w' = true.
Proof.
  unfold lex_contains. rewrite lex_add_words. intros ?%bool_decide_eq_true_1.
  apply bool_decide_eq_true_2. set_solver.
Qed.

Lemma lex_contains_app d d' l w :
  lex_words d' = l ++ lex_words d -> lex_contains d w = true -> lex_contains d' w = true.
Proof. unfold lex_contains. intros -> ?%bool_decide_eq_true_1. apply bool_decide_eq_true_2. set_solver. Qed.

(** The words of the lexicon the search may still use. *)
Definition unused (lex U : Lexicon) : gset string :=
  list_to_set (lex_words lex) ∖ list_to_set (lex_words U).

Lemma size_list_to_set_le (l : list string) : size (list_to_set l : gset string) <= length l.
Proof.
  induction l as [|x l IH]; [done|]. rewrite list_to_set_cons, size_union_alt, size_singleton.
  pose proof (subseteq_size (list_to_set l ∖ {[x]}) (list_to_set l : gset string)
    ltac:(set_solver)). simpl. lia.
Qed.

Lemma unused_size lex U : size (unused lex U) <= length (lex_words lex).
Proof.
  transitivity (size (list_to_set (lex_words lex) : gset string));
    [apply subseteq_size; unfold unused; set_solver|].
  apply size_list_to_set_le.
Qed.

(** The loops over [(l, letter)] push on [current] the new words [vs],
    each in the lexicon and not used before, mark them used, and leave
    every candidate of the lexicon used. *)
Lemma visit_fold lex current top cs : forall rest U,
  stack_peek current = Ret top -> (forall l c, (l, c) ∈ cs -> l < String.length top) ->
  exists vs U', foldl (ladder_visit lex current) (Ret (rest, U)) cs =
      Ret (rest ++ ((fun v => v :: current) <$> vs), U') /\
    lex_words U' = rev (toLowerCase <$> vs) ++ lex_words U /\
    (forall v, v ∈ vs -> lex_contains lex v = true /\ lex_contains U v = false /\
       exists l c, (l, c) ∈ cs /\ v = set_char top l c) /\
    (forall l c, (l, c) ∈ cs -> lex_contains lex (set_char top l c) = true ->
       lex_contains U' (set_char top l c) = true) /\
    size (unused lex U') + length vs <= size (unused lex U).
Proof.
  induction cs as [|[l c] cs IH]; intros rest U Htop Hcs.
  { exists [], U. split_and!; [simpl; by rewrite app_nil_r|reflexivity|set_solver|set_solver|simpl; lia]. }
  cbn [foldl]. unfold ladder_visit at 2. cbn [res_bind]. rewrite Htop. cbn [res_bind].
  assert (Hl : l < String.length top) by (apply (Hcs l c); set_solver).
  rewrite (proj2 (Nat.ltb_lt _ _) Hl).
  set (nw := set_char top l c) in *.
  destruct (lex_contains lex nw && negb (lex_contains U nw)) eqn:Hadd.
  - apply andb_true_iff in Hadd as [Hlex Hused%negb_true_iff].
    destruct (IH (rest ++ [nw :: current]) (lex_add U nw) Htop ltac:(intros l' c' ?; apply (Hcs l' c'); set_solver))
      as (vs & U' & -> & HU' & Hvs & Hcov & Hsize).
    exists (nw :: vs), U'. split_and!.
    + by rewrite <- app_assoc.
    + rewrite HU', lex_add_words. rewrite fmap_cons. cbn [rev]. by rewrite <- app_assoc.
    + intros v [->|Hv]%elem_of_cons.
      * split_and!; [done|done|exists l, c; split; [set_solver|done]].
      * destruct (Hvs v Hv) as (Hlv & Huv & l' & c' & Hin & ->).
        split_and!; [done| |exists l', c'; split; [set_solver|done]].
        destruct (lex_contains U (set_char top l' c')) eqn:E; [|done].
        rewrite (lex_contains_add U nw) in Huv by done. discriminate.
    + intros l' c' [[= -> ->]|Hin]%elem_of_cons Hl'; [|by apply Hcov].
      apply (lex_contains_app _ _ _ _ HU'). unfold lex_contains. rewrite lex_add_words.
      apply bool_decide_eq_true_2. set_solver.
    + simpl length. unfold unused in *. rewrite lex_add_words in Hsize. simpl in Hsize.
      assert (Hin : toLowerCase nw ∈ list_to_set (lex_words lex) ∖ (list_to_set (lex_words U) : gset string)).
      { unfold lex_contains in Hlex, Hused. apply bool_decide_eq_true_1 in Hlex.
        apply bool_decide_eq_false_1 in Hused. apply elem_of_difference. split; [by apply elem_of_list_to_set|].
        by rewrite elem_of_list_to_set. }
      rewrite <- (size_remove _ _ Hin).
      replace (list_to_set (lex_words lex) ∖ ({[toLowerCase nw]} ∪ list_to_set (lex_words U)))
        with ((list_to_set (lex_words lex) ∖ (list_to_set (lex_words U) : gset string)) ∖ {[toLowerCase nw]})
        in Hsize by set_solver.
      lia.
  - destruct (IH rest U Htop ltac:(intros l' c' ?; apply (Hcs l' c'); set_solver))
      as (vs & U' & -> & HU' & Hvs & Hcov & Hsize).
    exists vs, U'. split_and!; [done|done| | |done].
    + intros v Hv. destruct (Hvs v Hv) as (? & ? & l' & c' & ? & ?).
      split_and!; [done..|exists l', c'; split; [set_solver|done]].
    + intros l' c' [[= -> ->]|Hin]%elem_of_cons Hl'; [|by apply Hcov].
      change (set_char top l c) with nw in Hl' |- *. rewrite Hl' in Hadd. simpl in Hadd. apply negb_false_iff in Hadd.
      by apply (lex_contains_app _ _ _ _ HU').
Qed.

(** ** The invariant of the search *)

Section BFS.
Context (lex : Lexicon) (word1 word2 : string) (Hlow : lower word1).
Let len := String.length word1.
Notation walk := (stack_walk lex word1).

Definition used (U : Lexicon) (w : string) : Prop := w ∈ lex_words U.
Definition is_top (Q : list (list string)) (w : string) : Prop := exists p, p ∈ Q /\ head p = Some w.
(** A word is expanded once it is used and no queued ladder ends in it. *)
Definition expanded (Q : list (list string)) (U : Lexicon) (w : string) : Prop :=
  used U w /\ ~ is_top Q w.

(** The queue: ladders of one length [m], then ladders of length [m + 1]. *)
Definition levels (Q : list (list string)) : Prop :=
  exists m Q1 Q2, Q = Q1 ++ Q2 /\ Forall (fun p => length p = m) Q1 /\ Forall (fun p => length p = S m) Q2.

Lemma levels_front Q p : levels Q -> Q !! 0 = Some p -> forall q, q ∈ Q -> length p <= length q.
Proof.
  intros (m & Q1 & Q2 & -> & H1 & H2) Hp q Hq. rewrite Forall_forall in H1, H2.
  destruct Q1 as [|x Q1]; simpl in Hp.
  - assert (length p = S m) by (apply H2; by apply list_elem_of_lookup_2 with 0).
    apply elem_of_app in Hq as [Hq|Hq]; [by apply elem_of_nil in Hq|]. rewrite (H2 q Hq). lia.
  - injection Hp as ->. rewrite (H1 p ltac:(set_solver)).
    apply elem_of_app in Hq as [Hq|Hq]; [rewrite (H1 q Hq)|rewrite (H2 q Hq)]; lia.
Qed.

Lemma levels_cons p rest : levels (p :: rest) -> forall q, q ∈ rest -> length q <= S (length p).
Proof.
  intros (m & Q1 & Q2 & HQ & H1 & H2) q Hq. rewrite Forall_forall in H1, H2.
  destruct Q1 as [|x Q1]; simpl in HQ.
  - subst Q2. rewrite (H2 q ltac:(set_solver)), (H2 p ltac:(set_solver)). lia.
  - injection HQ as <- ->. rewrite (H1 p ltac:(set_solver)).
    apply elem_of_app in Hq as [Hq|Hq]; [rewrite (H1 q ltac:(set_solver))|rewrite (H2 q Hq)]; lia.
Qed.

Lemma levels_step p rest children :
  levels (p :: rest) -> Forall (fun q => length q = S (length p)) children -> levels (rest ++ children).
Proof.
  intros (m & Q1 & Q2 & HQ & H1 & H2) Hc.
  destruct Q1 as [|x Q1]; simpl in HQ.
  - subst Q2. inversion H2 as [|? ? Hp Hrest]; subst.
    exists (S m), rest, children. split_and!; [done|done|]. by rewrite <- Hp.
  - injection HQ as <- ->. inversion H1 as [|? ? Hp Hrest]; subst.
    exists (length p), Q1, (Q2 ++ children). split_and!; [by rewrite app_assoc|done|].
    apply Forall_app. split; [done|]. done.
Qed.

Record bfs_inv (Q : list (list string)) (U : Lexicon) : Prop := {
  inv_walk : forall p, p ∈ Q -> walk p;
  inv_top_used : forall p w, p ∈ Q -> head p = Some w -> used U w;
  inv_lower : Forall lower (lex_words U);
  inv_start : used U word1;
  inv_closed : forall u v, expanded Q U u -> next_word lex len u v -> used U v;
  inv_target : ~ expanded Q U word2;
  inv_levels : levels Q;
  inv_shortest : forall p s, p ∈ Q -> walk s -> head s = head p -> length p <= length s;
  inv_front : forall p s w, Q !! 0 = Some p -> walk s -> head s = Some w -> length s < length p ->
                expanded Q U w
}.

Lemma bfs_inv_init : bfs_inv [[word1]] (lex_add (mkLexicon []) word1).
Proof.
  unfold lower in Hlow. split.
  - intros p ->%list_elem_of_singleton. constructor.
  - intros p w ->%list_elem_of_singleton [= <-]. unfold used. rewrite lex_add_words, Hlow. set_solver.
  - rewrite lex_add_words, Hlow. by repeat constructor.
  - unfold used. rewrite lex_add_words, Hlow. set_solver.
  - intros u v [Hu Hnt]. exfalso. apply Hnt. exists [word1]. unfold used in Hu.
    rewrite lex_add_words, Hlow in Hu. apply list_elem_of_singleton in Hu as ->. split; [set_solver|done].
  - intros [Hu Hnt]. apply Hnt. exists [word1]. unfold used in Hu.
    rewrite lex_add_words, Hlow in Hu. apply list_elem_of_singleton in Hu as ->. split; [set_solver|done].
  - exists 1, [[word1]], []. split_and!; [done|by repeat constructor|constructor].
  - intros p s ->%list_elem_of_singleton Hs _. simpl. by apply stack_walk_length in Hs.
  - intros p s w [= <-] Hs _ Hlt. apply stack_walk_length in Hs. simpl in Hlt. lia.
Qed.

(** Every word reached by a walk no longer than the front ladder is used. *)
Lemma front_used Q U p s w : bfs_inv Q U -> Q !! 0 = Some p -> walk s -> head s = Some w ->
  length s <= length p -> used U w.
Proof.
  intros Hinv Hp Hs Hw Hlen. destruct Hs as [|w0 w' rest0 Hs Hn]; simpl in Hw; injection Hw as <-.
  - apply (inv_start _ _ Hinv).
  - apply (inv_closed _ _ Hinv w0 w'); [|done].
    apply (inv_front _ _ Hinv p (w0 :: rest0)); [done|done|done|simpl in *; lia].
Qed.

(** One round of the search keeps the invariant: [p] is dequeued, its top
    [top] is not [word2], and the loops push the words [vs] and use [U']. *)
Section Step.
Context (p : list string) (rest : list (list string)) (U U' : Lexicon) (top : string) (vs : list string).
Hypothesis Hinv : bfs_inv (p :: rest) U.
Hypothesis Hhead : head p = Some top.
Hypothesis Hne : top <> word2.
Hypothesis HU' : lex_words U' = rev (toLowerCase <$> vs) ++ lex_words U.
Hypothesis Hvs : forall v, v ∈ vs -> lex_contains lex v = true /\ lex_contains U v = false /\
  exists l c, (l, c) ∈ changes len /\ v = set_char top l c.
Hypothesis Hcov : forall l c, (l, c) ∈ changes len -> lex_contains lex (set_char top l c) = true ->
  lex_contains U' (set_char top l c) = true.

Lemma step_top : exists p', p = top :: p' /\ walk p /\ lower top /\ String.length top = len.
Proof.
  assert (Hw : walk p) by (apply (inv_walk _ _ Hinv); set_solver).
  destruct (stack_walk_top _ _ _ Hw) as (w & p' & ->). injection Hhead as ->.
  destruct (stack_walk_word _ _ Hlow _ _ Hw). by exists p'.
Qed.

Lemma step_children v : v ∈ vs -> lower v /\ next_word lex len top v /\ ~ used U v.
Proof.
  intros Hv. destruct step_top as (p' & _ & _ & Hlt & _).
  destruct (Hvs v Hv) as (Hlex & Hun & l & c & (Hl & Hc)%changes_elem & ->).
  assert (Hlv : lower (set_char top l c)) by (by apply set_char_lower).
  split_and!; [done|by exists l, c|]. unfold used.
  rewrite lex_contains_lower_word in Hun by done. by apply bool_decide_eq_false_1 in Hun.
Qed.

Lemma step_used w : used U' w <-> w ∈ vs \/ used U w.
Proof.
  assert (Hid : toLowerCase <$> vs = vs).
  { assert (Hall : forall v, v ∈ vs -> lower v) by (intros v Hv; by apply step_children).
    clear -Hall. induction vs as [|v vs' IH]; [done|]. rewrite fmap_cons.
    f_equal; [apply Hall; set_solver|apply IH; intros; apply Hall; set_solver]. }
  unfold used. rewrite HU', Hid, elem_of_app, list_elem_of_In, <- in_rev, <- list_elem_of_In. done.
Qed.

Lemma step_cover v : next_word lex len top v -> used U' v.
Proof.
  intros (l & c & Hl & Hc & -> & Hlex). destruct step_top as (p' & _ & _ & Hlt & _).
  specialize (Hcov l c ltac:(by apply changes_elem) Hlex).
  unfold used. rewrite lex_contains_lower_word in Hcov by (by apply set_char_lower).
  by apply bool_decide_eq_true_1 in Hcov.
Qed.

Lemma step_is_top w : is_top (rest ++ ((fun v => v :: p) <$> vs)) w <-> is_top rest w \/ w ∈ vs.
Proof.
  unfold is_top. split.
  - intros (q & [Hq|(v & -> & Hv)%list_elem_of_fmap]%elem_of_app & Hw).
    + left. by exists q.
    + right. by injection Hw as ->.
  - intros [(q & Hq & Hw)|Hv].
    + exists q. split; [set_solver|done].
    + exists (w :: p). split; [|done]. apply elem_of_app. right. apply list_elem_of_fmap. by exists w.
Qed.

Lemma step_expanded_old w : expanded (p :: rest) U w -> expanded (rest ++ ((fun v => v :: p) <$> vs)) U' w.
Proof.
  intros [Hu Hnt]. split; [apply step_used; by right|]. rewrite step_is_top. intros [Ht|Hv].
  - apply Hnt. destruct Ht as (q & ? & ?). exists q. split; [set_solver|done].
  - by apply (step_children w Hv).
Qed.

Local Notation children := ((fun v => v :: p) <$> vs).

Lemma step_not_top w : ~ is_top (rest ++ children) w -> w <> top -> ~ is_top (p :: rest) w.
Proof.
  intros Hnt Hw (q & [->|Hq]%elem_of_cons & Hqw); [rewrite Hhead in Hqw; congruence|].
  apply Hnt, step_is_top. left. by exists q.
Qed.

Lemma step_new_len q : q ∈ rest ++ children -> length p <= length q <= S (length p).
Proof.
  intros [Hq|(v & -> & Hv)%list_elem_of_fmap]%elem_of_app; [|simpl; lia].
  split; [|by apply (levels_cons _ _ (inv_levels _ _ Hinv))].
  apply (levels_front _ _ (inv_levels _ _ Hinv)); [done|set_solver].
Qed.

Lemma step_levels : levels (rest ++ children).
Proof.
  apply (levels_step p); [apply (inv_levels _ _ Hinv)|].
  rewrite Forall_forall. intros q (v & -> & _)%list_elem_of_fmap. done.
Qed.

Lemma bfs_inv_step : bfs_inv (rest ++ children) U'.
Proof.
  destruct step_top as (p' & Hp & Hwp & _ & _).
  assert (Hfront : (p :: rest) !! 0 = Some p) by done.
  split.
  - intros q [Hq|(v & -> & Hv)%list_elem_of_fmap]%elem_of_app.
    + apply (inv_walk _ _ Hinv). set_solver.
    + destruct (step_children v Hv) as (_ & Hn & _). rewrite Hp in Hwp |- *. by constructor.
  - intros q w [Hq|(v & -> & Hv)%list_elem_of_fmap]%elem_of_app Hw; apply step_used.
    + right. apply (inv_top_used _ _ Hinv q); [set_solver|done].
    + left. by injection Hw as <-.
  - rewrite HU'. apply Forall_app. split; [|apply (inv_lower _ _ Hinv)].
    apply Forall_rev. rewrite Forall_forall. intros x (y & -> & _)%list_elem_of_fmap. apply toLowerCase_idem.
  - apply step_used. right. apply (inv_start _ _ Hinv).
  - intros u v [Hu Hnt] Hn. apply step_used in Hu as [Hu|Hu].
    { exfalso. apply Hnt, step_is_top. by right. }
    destruct (decide (u = top)) as [->|Hut]; [by apply step_cover|].
    apply step_used. right. apply (inv_closed _ _ Hinv u v); [|done]. split; [done|].
    by apply step_not_top.
  - intros [Hu Hnt]. apply step_used in Hu as [Hu|Hu].
    + apply Hnt, step_is_top. by right.
    + apply (inv_target _ _ Hinv). split; [done|]. apply step_not_top; [done|congruence].
  - apply step_levels.
  - intros q s [Hq|(v & -> & Hv)%list_elem_of_fmap]%elem_of_app Hs Hhs.
    + apply (inv_shortest _ _ Hinv q s); [set_solver|done|done].
    + destruct (decide (length (v :: p) <= length s)) as [|Hlt]; [done|exfalso].
      destruct (step_children v Hv) as (_ & _ & Hnu). apply Hnu.
      apply (front_used _ _ p s v Hinv Hfront Hs Hhs). simpl in Hlt. lia.
  - intros q s w Hq Hs Hhs Hlt.
    assert (Hqin : q ∈ rest ++ children) by (by apply list_elem_of_lookup_2 with 0).
    pose proof (step_new_len q Hqin) as Hqlen.
    destruct (decide (length s < length p)) as [Hsp|Hsp].
    { apply step_expanded_old, (inv_front _ _ Hinv p s); done. }
    assert (Hwu : used U w) by (apply (front_used _ _ p s w Hinv Hfront Hs Hhs); lia).
    split; [apply step_used; by right|]. rewrite step_is_top. intros [(q' & Hq' & Hqw)|Hv].
    + assert (length q' <= length s) by (apply (inv_shortest _ _ Hinv q' s); [set_solver|done|congruence]).
      assert (length q <= length q') by (apply (levels_front _ _ step_levels Hq); set_solver).
      lia.
    + by apply (step_children w Hv).
Qed.

End Step.

(** What one round of [while (!ladder.isEmpty())] does from a state that
    satisfies the invariant: it continues with the invariant and a smaller
    measure, or it leaves with [None] on an empty queue or with the front
    ladder when that ladder ends in [word2]. *)
Lemma ladder_step_cases Q U : bfs_inv Q U ->
  match ladder_step word1 word2 lex (Q, U) with
  | inl (Q', U') => bfs_inv Q' U' /\ size (unused lex U') + length Q' < size (unused lex U) + length Q
  | inr r => (Q = [] /\ r = Ret None) \/
             (exists p rest, Q = p :: rest /\ head p = Some word2 /\ r = Ret (Some p))
  end.
Proof.
  intros Hinv. destruct Q as [|p rest]; [by left|].
  assert (Hw : walk p) by (apply (inv_walk _ _ Hinv); set_solver).
  destruct (stack_walk_top _ _ _ Hw) as (top & p' & ->).
  destruct (stack_walk_word _ _ Hlow _ _ Hw) as [_ Hlen].
  cbn [ladder_step stack_peek]. case_bool_decide as Htop.
  { right. exists (top :: p'), rest. by subst. }
  destruct (visit_fold lex (top :: p') top (changes (String.length word1)) rest U eq_refl)
    as (vs & U' & -> & HU' & Hvs & Hcov & Hsize).
  { intros l c (Hl & _)%changes_elem. unfold len in Hlen. lia. }
  split; [by apply (bfs_inv_step (top :: p') rest U U' top vs)|].
  rewrite length_app, length_fmap. simpl. lia.
Qed.

(** With an empty queue every word a walk reaches is used, so none is [word2]. *)
Lemma bfs_exhausted U s : bfs_inv [] U -> walk s -> head s <> Some word2.
Proof.
  intros Hinv Hs. assert (Hu : forall w, head s = Some w -> used U w).
  { induction Hs as [|w w' rest Hs IH Hn]; intros x [= <-]; [apply (inv_start _ _ Hinv)|].
    apply (inv_closed _ _ Hinv w); [|done]. split; [by apply IH|]. by intros (? & ?%elem_of_nil & _). }
  intros Hw. apply (inv_target _ _ Hinv). split; [by apply Hu|]. by intros (? & ?%elem_of_nil & _).
Qed.

End BFS.

(** What [buildLadder] promises: [Some s] is a shortest ladder to [word2],
    [None] means that no ladder reaches [word2]. *)
Definition shortest_ladder (lex : Lexicon) (word1 word2 : string) (r : option (list string)) : Prop :=
  match r with
  | Some s => stack_walk lex word1 s /\ head s = Some word2 /\
      forall s', stack_walk lex word1 s' -> head s' = Some word2 -> length s <= length s'
  | None => forall s, stack_walk lex word1 s -> head s <> Some word2
  end.

(** The loop of [buildLadder] leaves, within the fuel, by a [return]. *)
Lemma buildLadder_completes lex word1 word2 fuel : lower word1 ->
  length (lex_words lex) + 2 <= fuel -> completed (buildLadder fuel word1 word2 lex) = true.
Proof.
  intros Hlow Hfuel. unfold buildLadder.
  eapply iter_loop_terminates with (P := fun st => bfs_inv lex word1 word2 st.1 st.2)
    (measure := fun st => size (unused lex st.2) + length st.1).
  - intros [Q U] [Q' U'] HP E. pose proof (ladder_step_cases lex word1 word2 Hlow Q U HP) as H.
    rewrite E in H. apply H.
  - intros [Q U] [Q' U'] HP E. pose proof (ladder_step_cases lex word1 word2 Hlow Q U HP) as H.
    rewrite E in H. simpl. lia.
  - intros [Q U] r HP E. pose proof (ladder_step_cases lex word1 word2 Hlow Q U HP) as H.
    rewrite E in H. by destruct H as [[_ ->]|(? & ? & _ & _ & ->)].
  - by apply bfs_inv_init.
  - pose proof (unused_size lex (lex_add (mkLexicon []) word1)). simpl in *. lia.
Qed.

(** Partial correctness of [buildLadder]: its result meets [shortest_ladder]. *)
Lemma buildLadder_sound lex word1 word2 fuel : lower word1 ->
  completed (buildLadder fuel word1 word2 lex) = true ->
  exists r, buildLadder fuel word1 word2 lex = Ret r /\ shortest_ladder lex word1 word2 r.
Proof.
  intros Hlow Hc. unfold buildLadder in *.
  eapply iter_loop_inv with (P := fun st => bfs_inv lex word1 word2 st.1 st.2)
    (Q := fun r => exists x, r = Ret x /\ shortest_ladder lex word1 word2 x);
    [| |by apply bfs_inv_init|exact Hc].
  - intros [Q U] [Q' U'] HP E. pose proof (ladder_step_cases lex word1 word2 Hlow Q U HP) as H.
    rewrite E in H. apply H.
  - intros [Q U] r HP E. pose proof (ladder_step_cases lex word1 word2 Hlow Q U HP) as H.
    rewrite E in H. simpl in HP. destruct H as [[-> ->]|(p & rest & -> & Hp & ->)].
    + exists None. split; [done|]. intros s Hs. by apply (bfs_exhausted lex word1 word2 U).
    + exists (Some p). split; [done|]. cbn [shortest_ladder].
      split_and!; [apply (inv_walk _ _ _ _ _ HP); set_solver|done|].
      intros s' Hs' Hh. apply (inv_shortest _ _ _ _ _ HP p); [set_solver|done|congruence].
Qed.

Lemma buildLadder_returns lex word1 word2 fuel : lower word1 ->
  length (lex_words lex) + 2 <= fuel ->
  exists r, buildLadder fuel word1 word2 lex = Ret r /\ shortest_ladder lex word1 word2 r.
Proof. intros. by apply buildLadder_sound, buildLadder_completes. Qed.

(** The loop of [runWordLadder], when it ends (an empty line), prints one
    answer per pair of words that passes [checkInputs], each a shortest
    ladder or the report that none exists. *)
Definition run_ok (fuel : nat) (lex : Lexicon) (lines : list string) : Prop :=
  completed (runWordLadder fuel lex lines) = true ->
  exists rs, runWordLadder fuel lex lines = Ret rs /\
    Forall (fun r => exists w1 w2, checkInputs w1 w2 lex = true /\ shortest_ladder lex w1 w2 r) rs.

Lemma runWordLadder_ok_pairs fuel lex : length (lex_words lex) + 2 <= fuel ->
  forall lines, run_ok fuel lex lines /\ forall line, run_ok fuel lex (line :: lines).
Proof.
  intros Hfuel lines. induction lines as [|line2 rest [IH1 IH2]].
  { split; [done|]. intros line1 Hc. simpl in *. case_bool_decide; [by exists []|done]. }
  split; [exact (IH2 line2)|]. intros line1 Hc. cbn [runWordLadder] in *.
  case_bool_decide; [by exists []|]. case_bool_decide; [by exists []|].
  destruct (checkInputs _ _ lex) eqn:Hin; [|by apply IH1].
  destruct (buildLadder_returns lex (toLowerCase line1) (toLowerCase line2) fuel)
    as (r & Hr & Hspec); [apply toLowerCase_idem|done|].
  rewrite Hr in Hc |- *. cbn [res_bind] in Hc |- *.
  destruct (runWordLadder fuel lex rest) as [rs| | |] eqn:E; try discriminate.
  - exists (r :: rs). split; [done|]. constructor; [by eexists _, _|].
    destruct (IH1 ltac:(by rewrite E)) as (rs' & Heq & ?). rewrite E in Heq. by simplify_eq.
  - destruct (IH1 ltac:(by rewrite E)) as (? & ? & _). congruence.
  - destruct (IH1 ltac:(by rewrite E)) as (? & ? & _). congruence.
Qed.

Module WordLadderTheorems.

(** C16. For a lower-case [word1] and fuel at least the lexicon's size plus
    two, [buildLadder] returns (it never runs out of its loop) and its
    result is right: [Some s] where [s] is a ladder from [word1] to [word2]
    no longer than any other, or [None] when no ladder reaches [word2]. *)
Theorem buildLadder_shortest lex word1 word2 fuel : lower word1 ->
  length (lex_words lex) + 2 <= fuel ->
  exists r, buildLadder fuel word1 word2 lex = Ret r /\ shortest_ladder lex word1 word2 r.
Proof. apply buildLadder_returns. Qed.

Lemma buildLadder_shortest_witness :
  exists r, buildLadder 10 "cat" "dog" (mkLexicon ["cat"; "cot"; "dot"; "dog"; "cog"]) = Ret r /\
    shortest_ladder (mkLexicon ["cat"; "cot"; "dot"; "dog"; "cog"]) "cat" "dog" r.
Proof. apply buildLadder_shortest; [reflexivity|simpl; lia]. Defined.

(** With fuel at least the lexicon's size plus two, the read loop of
    [runWordLadder] raises no error and, when the input ends with an empty
    line, its answers are, in order, one per pair of words accepted by
    [checkInputs]: a shortest ladder between them, or [None] when none
    exists. *)
Theorem runWordLadder_answers fuel lex lines : length (lex_words lex) + 2 <= fuel ->
  completed (runWordLadder fuel lex lines) = true ->
  exists rs, runWordLadder fuel lex lines = Ret rs /\
    Forall (fun r => exists w1 w2, checkInputs w1 w2 lex = true /\ shortest_ladder lex w1 w2 r) rs.
Proof. intros Hfuel. apply (runWordLadder_ok_pairs fuel lex Hfuel lines). Qed.

Lemma runWordLadder_answers_witness :
  exists rs, runWordLadder 10 (mkLexicon ["cat"; "cot"; "dot"; "dog"; "cog"]) ["Cat"; "DOG"; "cat"; "cat"; ""] = Ret rs /\
    Forall (fun r => exists w1 w2, checkInputs w1 w2 (mkLexicon ["cat"; "cot"; "dot"; "dog"; "cog"]) = true /\
      shortest_ladder (mkLexicon ["cat"; "cot"; "dot"; "dog"; "cog"]) w1 w2 r) rs.
Proof. apply runWordLadder_answers; [simpl; lia|vm_compute; reflexivity]. Defined.

End WordLadderTheorems.
