(* ===== verification/WordLadderConsole.v ===== *)
(** * WordLadderConsole.v: what the word ladder program prints

    The console of [wordladder.cpp]: [main], [printIntro], the prompts and
    the loop of [runWordLadder], the messages of [checkInputs], the two
    outcomes [buildLadder] prints and [printLadder].  The output is the
    list of the pieces written to [cout], in order, [endl] being the
    newline piece [endl]; the answers typed are a list of lines.  The
    search itself is [WordLadder.buildLadder]; [checkInputs_out] is
    [checkInputs] with its messages, and returns the same verdict.

    The session theorem composes the console with the search: for a pair
    of words that passes [checkInputs], the program prints a shortest
    ladder from the second word back to the first, or says that there is
    none exactly when there is none. *)

From S2P Require Import Prelude StanfordStrlib WordLadder WordLadderProofs.
From Stdlib Require Import Ascii.
Import WordLadder.

Module WordLadderConsole.

Definition printIntro : list string :=
  ["Welcome to CS 106B Word Ladder."; endl;
   "Please give me two English words, and I will change the"; endl;
   "first into the second by changing one letter at a time."; endl; endl].

(** [checkInputs(word1, word2, lex)]: the verdict and what it prints. *)
Definition checkInputs_out (word1 word2 : string) (lex : Lexicon) : bool * list string :=
  if negb (String.length word1 =? String.length word2) then
    (false, ["The two words must be the same length."; endl; endl])
  else if bool_decide (word1 = word2) then (false, ["The two words must be different."; endl; endl])
  else if negb (lex_contains lex word1) || negb (lex_contains lex word2) then
    (false, ["The two words must be found in the dictionary."; endl; endl])
  else (true, []).

(** [printLadder(word1, word2, current)]: the [while (!current.isEmpty())]
    loop pops the stack from its top. *)
Definition printLadder (word1 word2 : string) (current : list string) : list string :=
  ["A ladder from " +:+ word2 +:+ " back to " +:+ word1 +:+ ":"; endl] ++
  foldl (fun out word => out ++ [word; " "]) [] current ++ [endl].

(** What [buildLadder] prints: the ladder it found, or the message after
    its loop when the queue runs empty. *)
Definition buildLadder_out (word1 word2 : string) (r : option (list string)) : list string :=
  match r with
  | Some current => printLadder word1 word2 current
  | None => ["No word ladder found from " +:+ word2 +:+ " back to " +:+ word1 +:+ "."; endl]
  end.

Definition prompt1 : string := "Word #1 (or Enter to quit): ".
Definition prompt2 : string := "Word #2 (or Enter to quit): ".

(** The [while (true)] loop of [runWordLadder] with what it prints; the
    [getLine] prompts are written before each line is read. *)
Fixpoint runWordLadder_console (fuel : nat) (lex : Lexicon) (lines : list string) : res (list string) :=
  match lines with
  | [] => OutOfFuel
  | line1 :: rest =>
      let word1 := toLowerCase line1 in
      if bool_decide (word1 = "") then Ret [prompt1]
      else
        match rest with
        | [] => OutOfFuel
        | line2 :: rest' =>
            let word2 := toLowerCase line2 in
            if bool_decide (word2 = "") then Ret [prompt1; prompt2]
            else
              let '(ok, msg) := checkInputs_out word1 word2 lex in
              if ok then
                (let* r := buildLadder fuel word1 word2 lex in
                 let* more := runWordLadder_console fuel lex rest' in
                 Ret ([prompt1; prompt2] ++ buildLadder_out word1 word2 r ++ [endl] ++ more))%res
              else
                (let* more := runWordLadder_console fuel lex rest' in
                 Ret ([prompt1; prompt2] ++ msg ++ more))%res
        end
  end.

(** [main()]: the introduction, the dictionary prompt of
    [promptUserForFile] (the dictionary read is the [Lexicon] argument),
    the loop, and the farewell. *)
Definition main (fuel : nat) (lex : Lexicon) (lines : list string) : res (list string) :=
  (let* out := runWordLadder_console fuel lex lines in
   Ret (printIntro ++ ["Dictionary file name? "; endl] ++ out ++ ["Have a nice day."; endl]))%res.

End WordLadderConsole.

Import WordLadderConsole.

(** ** The console refines the search model *)

Lemma checkInputs_out_verdict word1 word2 lex :
  (checkInputs_out word1 word2 lex).1 = checkInputs word1 word2 lex.
Proof. unfold checkInputs_out, checkInputs. by repeat case_match. Qed.

Lemma checkInputs_out_true word1 word2 lex :
  checkInputs word1 word2 lex = true -> checkInputs_out word1 word2 lex = (true, []).
Proof. unfold checkInputs_out, checkInputs. by repeat case_match. Qed.

(** A pair that passes [checkInputs] has two non-empty words. *)
Lemma checkInputs_nonempty word1 word2 lex :
  checkInputs word1 word2 lex = true -> word1 <> "" /\ word2 <> "".
Proof.
  unfold checkInputs. intros Hc. split; intros ->.
  - destruct word2; [|done]. by rewrite bool_decide_true in Hc.
  - destruct word1; [|done]. by rewrite bool_decide_true in Hc.
Qed.

Lemma toLowerCase_empty : toLowerCase "" = "".
Proof. reflexivity. Qed.

(** The words of a stack, top first, each followed by a space. *)
Lemma printLadder_words word1 word2 current :
  printLadder word1 word2 current =
    ["A ladder from " +:+ word2 +:+ " back to " +:+ word1 +:+ ":"; endl] ++
    (current ≫= fun word => [word; " "]) ++ [endl].
Proof.
  unfold printLadder. f_equal. f_equal.
  assert (H : forall out, foldl (fun out word => out ++ [word; " "]) out current =
                          out ++ (current ≫= fun word => [word; " "])).
  { induction current as [|w ws IH]; intros out; [by rewrite app_nil_r|].
    cbn [foldl]. rewrite IH. cbn. by rewrite <- app_assoc. }
  apply H.
Qed.

Module WordLadderConsoleTheorems.

(** C17. A session of [main] in which the user types a pair of words that
    passes [checkInputs] and then an empty line prints the introduction,
    the prompts, then either "A ladder from word2 back to word1:" and the
    words of a shortest ladder from [word2] back to [word1], each followed
    by a space, on one line, or "No word
    ladder found" exactly when no ladder exists, then the next prompt and
    "Have a nice day.", given fuel at least the lexicon's size plus two. *)
Theorem main_one_pair fuel lex line1 line2 :
  length (lex_words lex) + 2 <= fuel ->
  checkInputs (toLowerCase line1) (toLowerCase line2) lex = true ->
  exists r, main fuel lex [line1; line2; ""] =
      Ret (printIntro ++ ["Dictionary file name? "; endl] ++ [prompt1; prompt2] ++
           match r with
           | Some s => ["A ladder from " +:+ toLowerCase line2 +:+ " back to " +:+ toLowerCase line1 +:+ ":"; endl] ++
                       (s ≫= fun word => [word; " "]) ++ [endl]
           | None => ["No word ladder found from " +:+ toLowerCase line2 +:+ " back to " +:+ toLowerCase line1 +:+ "."; endl]
           end ++ [endl; prompt1] ++ ["Have a nice day."; endl]) /\
    shortest_ladder lex (toLowerCase line1) (toLowerCase line2) r.
Proof.
  intros Hfuel Hc. destruct (checkInputs_nonempty _ _ _ Hc) as [H1 H2].
  destruct (buildLadder_returns lex (toLowerCase line1) (toLowerCase line2) fuel) as (r & Hr & Hs);
    [apply toLowerCase_idem|done|].
  exists r. split; [|done]. unfold main. cbn [runWordLadder_console].
  rewrite !bool_decide_false by done. rewrite checkInputs_out_true by done. cbn iota.
  rewrite Hr. cbn [res_bind]. rewrite toLowerCase_empty, bool_decide_true by done. cbn [res_bind].
  rewrite <- !app_assoc. destruct r as [s|]; cbn [buildLadder_out]; [|done].
  by rewrite printLadder_words, <- !app_assoc.
Qed.

Lemma main_one_pair_witness :
  exists r, main 10 (mkLexicon ["cat"; "cot"; "dot"; "dog"; "cog"]) ["CAT"; "dog"; ""] =
      Ret (printIntro ++ ["Dictionary file name? "; endl] ++ [prompt1; prompt2] ++
           match r with
           | Some s => ["A ladder from " +:+ toLowerCase "dog" +:+ " back to " +:+ toLowerCase "CAT" +:+ ":"; endl] ++
                       (s ≫= fun word => [word; " "]) ++ [endl]
           | None => ["No word ladder found from " +:+ toLowerCase "dog" +:+ " back to " +:+ toLowerCase "CAT" +:+ "."; endl]
           end ++ [endl; prompt1] ++ ["Have a nice day."; endl]) /\
    shortest_ladder (mkLexicon ["cat"; "cot"; "dot"; "dog"; "cog"]) (toLowerCase "CAT") (toLowerCase "dog") r.
Proof. apply main_one_pair; [simpl; lia|reflexivity]. Defined.

End WordLadderConsoleTheorems.
