(* ===== verification/Grammar.v ===== *)
(** * Grammar.v: the grammar solver, [src/GrammarSolver/src/grammarsolver.cpp]

    [readFile] reads a grammar in Backus-Naur form, one line
    [nonterminal::=rule|rule|...] per non-terminal, into a
    [Map<string, Vector<string>>]; [randomGeneration] expands a symbol by
    a random rule, recursively, appending each terminal preceded by a
    space to [output]; [grammarGenerate] reads the grammar and generates a
    symbol [times] times.  The map is a [gmap]; the input stream is the
    list of its lines; [randomInteger] draws from [rng] (StanfordStrlib.v),
    the number of the next draw threaded through the calls.  The recursion
    of [randomGeneration] need not end (a rule [<a>::=<a>]), so it runs on
    a fuel that bounds its depth. *)

From S2P Require Import Prelude StanfordStrlib.
From Stdlib Require Import Ascii.

Module GrammarSolver.

Definition Grammar := gmap string (list string).

Definition duplicate_error : string :=
  "Error: Grammar contains more than one line for non-terminal.".

(** The body of [while (getline(input, line))] in [readFile]. *)
Definition read_line (grammar : Grammar) (line : string) : res Grammar :=
  (let nonTermRulePairs := stringSplit line "::=" in
   let* nonTerm := vec_get nonTermRulePairs 0 in
   let* rules := vec_get nonTermRulePairs 1 in
   let tokens := stringSplit rules "|" in
   if bool_decide (is_Some (grammar !! nonTerm)) then Throw duplicate_error
   else Ret (<[nonTerm := tokens]> grammar))%res.

Definition readFile (lines : list string) (grammar : Grammar) : res Grammar :=
  foldl (fun acc line => res_bind acc (fun g => read_line g line)) (Ret grammar) lines.

(** [randomGeneration(symbol, grammar, output)]: the state is [output]
    and the number of the next random draw. *)
Fixpoint randomGeneration (fuel : nat) (rng : nat -> Z) (symbol : string) (grammar : Grammar)
    (st : string * nat) : res (string * nat) :=
  match fuel with
  | O => OutOfFuel
  | S f =>
      let '(output, k) := st in
      match grammar !! symbol with
      | None => Ret ((output ++ " " ++ symbol)%string, k)
      | Some rule =>
          let '(i, k') := randomInteger rng k 0 (Z.of_nat (length rule) - 1) in
          (let* randRule := vec_get rule i in
           let nonTerms := stringSplit randRule " " in
           foldl (fun acc newSymbol => res_bind acc (fun st' => randomGeneration f rng newSymbol grammar st'))
                 (Ret (output, k')) nonTerms)%res
      end
  end.

(** One round of the [for] loop of [grammarGenerate]. *)
Definition generate_one (fuel : nat) (rng : nat -> Z) (symbol : string) (grammar : Grammar)
    (acc : list string * nat) (i : nat) : res (list string * nat) :=
  (let '(listOfOutputs, k) := acc in
   let* st := randomGeneration fuel rng symbol grammar ("", k) in
   Ret (listOfOutputs ++ [st.1], st.2))%res.

Definition grammarGenerate (fuel : nat) (rng : nat -> Z) (lines : list string) (symbol : string)
    (times : Z) : res (list string) :=
  (let* grammar := readFile lines ∅ in
   if (times <? 1)%Z then Ret []
   else
     let* st := foldl (fun acc i => res_bind acc (fun a => generate_one fuel rng symbol grammar a i))
                      (Ret ([], 0)) (seq 0 (Z.to_nat times)) in
     Ret st.1)%res.

End GrammarSolver.
