(* ===== verification/GrammarProofs.v ===== *)
(** * GrammarProofs.v: what the grammar solver reads and generates

    [derives g s ws]: in the grammar [g], the symbol [s] derives the
    terminals [ws] (a symbol that is not a key of [g] is a terminal; a
    non-terminal picks one of its rules, whose symbols are the rule's
    text split at spaces, and derives their terminals in order).  The
    generator's output for [ws] is [spaced ws], each terminal preceded by
    a space.  Proved: the outputs of [randomGeneration] over all random
    draws are exactly the derivations of the grammar; [grammarGenerate]
    returns [times] of them; [readFile] reads a grammar written in BNF
    back into its map and rejects a repeated non-terminal; a line without
    [::=] aborts with the [Vector] range error. *)

From S2P Require Import Prelude StanfordStrlib Grammar.
From Stdlib Require Import Ascii.
Import GrammarSolver.

(** ** Derivations *)

Section Derivation.
Context (g : Grammar).

Inductive derives : string -> list string -> Prop :=
| derives_terminal s : g !! s = None -> derives s [s]
| derives_rule s rule i r ws :
    g !! s = Some rule -> rule !! i = Some r -> derives_seq (stringSplit r " ") ws -> derives s ws
with derives_seq : list string -> list string -> Prop :=
| derives_nil : derives_seq [] []
| derives_cons s ss w ws : derives s w -> derives_seq ss ws -> derives_seq (s :: ss) (w ++ ws).

Scheme derives_ind2 := Induction for derives Sort Prop
  with derives_seq_ind2 := Induction for derives_seq Sort Prop.
Combined Scheme derives_mutind from derives_ind2, derives_seq_ind2.

End Derivation.

(** The text [randomGeneration] appends for the terminals [ws]. *)
Definition spaced (ws : list string) : string :=
  foldr (fun w acc => " " ++ w ++ acc)%string "" ws.

Lemma spaced_app ws1 ws2 : spaced (ws1 ++ ws2) = (spaced ws1 ++ spaced ws2)%string.
Proof.
  induction ws1 as [|w ws1 IH]; [done|]. cbn [app spaced foldr]. fold (spaced (ws1 ++ ws2)).
  rewrite IH. fold (spaced ws1). rewrite !string_app_cons, !string_app_assoc. done.
Qed.

(** ** Soundness: every output is a derivation *)

Section Sound.
Context (g : Grammar) (rng : nat -> Z).

Lemma gen_seq_sound f :
  (forall s st st', randomGeneration f rng s g st = Ret st' ->
     exists ws, derives g s ws /\ st'.1 = (st.1 ++ spaced ws)%string) ->
  forall ss st st', foldl (fun acc s => res_bind acc (fun st => randomGeneration f rng s g st)) (Ret st) ss = Ret st' ->
  exists ws, derives_seq g ss ws /\ st'.1 = (st.1 ++ spaced ws)%string.
Proof.
  intros IH ss. induction ss as [|s ss IHss]; intros st st' Hf; simpl in Hf.
  { injection Hf as <-. exists []. split; [constructor|]. by rewrite string_app_nil_r. }
  destruct (randomGeneration f rng s g st) as [st1| | |] eqn:E;
    [|rewrite foldl_res_stuck in Hf; discriminate..].
  destruct (IH _ _ _ E) as (w & Hw & Hw1). destruct (IHss _ _ Hf) as (ws & Hws & Hws1).
  exists (w ++ ws). split; [by constructor|]. by rewrite Hws1, Hw1, spaced_app, string_app_assoc.
Qed.

Lemma randomGeneration_sound fuel : forall s st st', randomGeneration fuel rng s g st = Ret st' ->
  exists ws, derives g s ws /\ st'.1 = (st.1 ++ spaced ws)%string.
Proof.
  induction fuel as [|f IH]; intros s [out k] st' Hgen; [discriminate|].
  cbn [randomGeneration] in Hgen. destruct (g !! s) as [rule|] eqn:Hs.
  - destruct (randomInteger rng k 0 _) as [i k']. cbn [res_bind] in Hgen.
    destruct (vec_get rule i) as [r| | |] eqn:Hr; try discriminate. cbn [res_bind] in Hgen.
    destruct (vec_get_Some _ _ _ Hr) as (n & -> & Hn).
    destruct (gen_seq_sound f IH _ _ _ Hgen) as (ws & Hws & ->).
    exists ws. split; [by econstructor|done].
  - injection Hgen as <-. exists [s]. split; [by constructor|]. simpl. by rewrite string_app_nil_r.
Qed.

End Sound.

(** ** Completeness: every derivation is an output for some draws *)

(** The draws [rng] gives from the [k]-th on are [cs]. *)
Definition agrees (rng : nat -> Z) (k : nat) (cs : list Z) : Prop :=
  forall j c, cs !! j = Some c -> rng (k + j) = c.

Lemma agrees_app rng k cs1 cs2 :
  agrees rng k (cs1 ++ cs2) -> agrees rng k cs1 /\ agrees rng (k + length cs1) cs2.
Proof.
  intros H. split; intros j c Hj.
  - apply H. by apply lookup_app_l_Some.
  - rewrite <- Nat.add_assoc. apply H. rewrite lookup_app_r by lia. by replace (_ + j - _) with j by lia.
Qed.

Lemma agrees_cons rng k c cs : agrees rng k (c :: cs) -> rng k = c /\ agrees rng (S k) cs.
Proof.
  intros H. split; [by rewrite <- (Nat.add_0_r k); apply H|].
  intros j c' Hj. replace (S k + j) with (k + S j) by lia. by apply (H (S j)).
Qed.

Section Complete.
Context (g : Grammar).

Definition gen_by (s : string) (ws : list string) : Prop :=
  exists cs d, forall rng k out fuel, d <= fuel -> agrees rng k cs ->
    randomGeneration fuel rng s g (out, k) = Ret ((out ++ spaced ws)%string, k + length cs).

Definition gen_seq_by (ss : list string) (ws : list string) : Prop :=
  exists cs d, forall rng k out fuel, d <= fuel -> agrees rng k cs ->
    foldl (fun acc s => res_bind acc (fun st => randomGeneration fuel rng s g st)) (Ret (out, k)) ss =
      Ret ((out ++ spaced ws)%string, k + length cs).

Lemma derives_generated :
  (forall s ws, derives g s ws -> gen_by s ws) /\ (forall ss ws, derives_seq g ss ws -> gen_seq_by ss ws).
Proof.
  apply derives_mutind.
  - intros s Hs. exists [], 1. intros rng k out [|fuel] Hf _; [lia|]. cbn [randomGeneration].
    rewrite Hs. simpl. by rewrite string_app_nil_r, Nat.add_0_r.
  - intros s rule i r ws Hs Hi _ (cs & d & IH).
    exists (Z.of_nat i :: cs), (S d). intros rng k out [|fuel] Hf Hagr; [lia|].
    apply agrees_cons in Hagr as [Hk Hagr]. cbn [randomGeneration]. rewrite Hs.
    assert (Hlt : i < length rule) by (by apply lookup_lt_Some in Hi).
    unfold randomInteger. replace (_ - 1 <? 0)%Z with false by (symmetry; apply Z.ltb_ge; lia).
    rewrite Hk, Z.mod_small by lia. cbn [res_bind]. rewrite Z.add_0_l, (vec_get_nat _ _ _ Hi).
    cbn [res_bind]. rewrite (IH rng (S k) out fuel) by (done || lia). simpl. by rewrite Nat.add_succ_r.
  - exists [], 0. intros rng k out fuel _ _. simpl. by rewrite string_app_nil_r, Nat.add_0_r.
  - intros s ss w ws _ (cs1 & d1 & IH1) _ (cs2 & d2 & IH2).
    exists (cs1 ++ cs2), (d1 `max` d2). intros rng k out fuel Hf Hagr.
    apply agrees_app in Hagr as [H1 H2]. simpl.
    rewrite (IH1 rng k out fuel) by (done || lia). rewrite (IH2 rng _ _ fuel) by (done || lia).
    by rewrite spaced_app, string_app_assoc, length_app, Nat.add_assoc.
Qed.

End Complete.

(** ** Reading a grammar written in BNF *)

(** The line [nonterminal::=rule1|rule2|...] of an entry. *)
Definition bnf_line (e : string * list string) : string := (e.1 ++ "::=" ++ join "|" e.2)%string.

(** An entry the file format can hold: no [:] in the non-terminal or a
    rule, no [|] in a rule, at least one rule and the last not empty. *)
Definition bnf_ok (e : string * list string) : Prop :=
  char_free ":" e.1 = true /\ Forall (fun r => char_free ":" r = true /\ char_free "|" r = true) e.2 /\
  e.2 <> [] /\ last e.2 <> Some "".

Lemma join_char_free c d rs :
  char_free c d = true -> Forall (fun r => char_free c r = true) rs -> char_free c (join d rs) = true.
Proof.
  intros Hd. induction rs as [|r [|r' rs] IH]; intros Hrs; [done|by apply Forall_inv in Hrs|].
  apply Forall_cons in Hrs as [Hr Hrs]. change (join d (r :: r' :: rs)) with (r ++ d ++ join d (r' :: rs))%string.
  by rewrite !char_free_app, Hr, Hd, IH.
Qed.

Lemma join_nonempty d rs : rs <> [] -> last rs <> Some "" -> join d rs <> "".
Proof.
  induction rs as [|r [|r' rs] IH]; intros Hne Hlast; [done|simpl in *; congruence|].
  change (join d (r :: r' :: rs)) with (r ++ d ++ join d (r' :: rs))%string.
  intros Hj. apply (IH ltac:(done) Hlast). destruct r, d; simpl in Hj; done.
Qed.

Lemma read_line_bnf g e : bnf_ok e ->
  read_line g (bnf_line e) =
    if bool_decide (is_Some (g !! e.1)) then Throw duplicate_error else Ret (<[e.1 := e.2]> g).
Proof.
  destruct e as [A rs]. intros (HA & Hrs & Hne & Hlast). unfold read_line, bnf_line. simpl in *.
  assert (Hsplit : stringSplit (A ++ "::=" ++ join "|" rs)%string "::=" = [A; join "|" rs]).
  { apply (stringSplit_join ":" ":=" [A; join "|" rs]); [|simpl; intros [= Hj]; by apply (join_nonempty "|" rs)|done].
    repeat constructor; [done|]. apply join_char_free; [done|]. eapply Forall_impl; [done|]. by intros r [].
  }
  rewrite Hsplit. cbn [res_bind vec_get]. simpl.
  rewrite (stringSplit_join "|" "" rs); [done| |done..]. eapply Forall_impl; [done|]. by intros r [].
Qed.

Lemma readFile_bnf_from done es : Forall bnf_ok es -> NoDup done.*1 ->
  readFile (bnf_line <$> es) (list_to_map done) =
    if decide (NoDup (done ++ es).*1) then Ret (list_to_map (done ++ es)) else Throw duplicate_error.
Proof.
  revert done. induction es as [|e es IH]; intros done Hok Hnd.
  { rewrite app_nil_r, decide_True by done. done. }
  apply Forall_cons in Hok as [He Hok]. unfold readFile. rewrite fmap_cons. cbn [foldl res_bind].
  rewrite read_line_bnf by done. case_bool_decide as Hin.
  - rewrite foldl_res_stuck by done. rewrite decide_False; [done|].
    destruct Hin as [x Hx]. apply elem_of_list_to_map_2 in Hx.
    rewrite fmap_app, fmap_cons. intros Hnd'. apply NoDup_app in Hnd' as (_ & Hdis & _).
    apply (Hdis e.1); [apply list_elem_of_fmap; by exists (e.1, x)|set_solver].
  - assert (Hnin : e.1 ∉ done.*1) by (apply not_elem_of_list_to_map_2, eq_None_not_Some; done).
    replace (<[e.1:=e.2]> (list_to_map done) : Grammar) with (list_to_map (done ++ [e]) : Grammar)
      by (rewrite (surjective_pairing e) at 1; by apply list_to_map_snoc).
    fold (readFile (bnf_line <$> es) (list_to_map (done ++ [e]))). rewrite IH; [|done|].
    + by rewrite <- app_assoc.
    + rewrite fmap_app. apply NoDup_app. split_and!; [done| |by apply NoDup_singleton]. set_solver.
Qed.

#[export] Instance bnf_ok_dec e : Decision (bnf_ok e).
Proof. unfold bnf_ok. apply _. Defined.

Module GrammarTheorems.

(** C18. The outputs [randomGeneration] can produce from an empty output,
    over all random draws and all depths of recursion, are exactly the
    derivations of the grammar: [s] derives [ws] if and only if some
    draws make [randomGeneration] append [ws], each terminal after a
    space. *)
Theorem randomGeneration_language g s o :
  (exists rng fuel k, randomGeneration fuel rng s g ("", 0) = Ret (o, k)) <->
  exists ws, derives g s ws /\ o = spaced ws.
Proof.
  split.
  - intros (rng & fuel & k & Hgen). destruct (randomGeneration_sound g rng fuel _ _ _ Hgen) as (ws & Hws & Ho).
    exists ws. split; [done|]. simpl in Ho. by rewrite Ho, string_app_nil_l.
  - intros (ws & Hws & ->). destruct (proj1 (derives_generated g) s ws Hws) as (cs & d & Hgen).
    exists (fun j => nth j cs 0%Z), d, (0 + length cs). apply Hgen; [done|].
    intros j c Hj. simpl. by apply nth_lookup_Some.
Qed.

(** When [grammarGenerate] returns, the grammar file was read, and
    it returns [times] outputs ([0] when [times < 1]), each a derivation
    of [symbol] in the grammar read. *)
Theorem grammarGenerate_outputs fuel rng lines symbol times outs :
  grammarGenerate fuel rng lines symbol times = Ret outs ->
  exists g, readFile lines ∅ = Ret g /\ length outs = Z.to_nat times /\
    Forall (fun o => exists ws, derives g symbol ws /\ o = spaced ws) outs.
Proof.
  unfold grammarGenerate. destruct (readFile lines ∅) as [g| | |]; try discriminate. cbn [res_bind].
  intros Hgen. exists g. split; [done|]. destruct (times <? 1)%Z eqn:Ht.
  { injection Hgen as <-. apply Z.ltb_lt in Ht. split; [simpl; lia|constructor]. }
  destruct (foldl _ _ _) as [st| | |] eqn:E; try discriminate. injection Hgen as <-.
  apply (foldl_res_seq_inv _ (fun n st => length st.1 = n /\
           Forall (fun o => exists ws, derives g symbol ws /\ o = spaced ws) st.1) _ _ _) in E.
  - done.
  - split; [done|constructor].
  - intros k [outs k'] z _ [Hlen Hall]. unfold generate_one.
    destruct (randomGeneration fuel rng symbol g ("", k')) as [st'| | |] eqn:Eg; try discriminate.
    cbn [res_bind]. intros [= <-]. simpl in *. rewrite length_app. split; [simpl; lia|].
    apply Forall_app. split; [done|]. constructor; [|constructor].
    destruct (randomGeneration_sound g rng fuel _ _ _ Eg) as (ws & Hws & Hst). by exists ws.
Qed.

Lemma grammarGenerate_outputs_witness : exists outs,
  grammarGenerate 10 (fun k => Z.of_nat k) ["<s>::=<np> <vp>"; "<np>::=the <n>|a <n>"; "<n>::=dog|cat"; "<vp>::=runs|sleeps"]
    "<s>" 2 = Ret outs /\
  exists g, readFile ["<s>::=<np> <vp>"; "<np>::=the <n>|a <n>"; "<n>::=dog|cat"; "<vp>::=runs|sleeps"] ∅ = Ret g /\
    length outs = Z.to_nat 2 /\ Forall (fun o => exists ws, derives g "<s>" ws /\ o = spaced ws) outs.
Proof.
  eexists. split; [vm_compute; reflexivity|].
  eapply (grammarGenerate_outputs 10 (fun k => Z.of_nat k)). vm_compute. reflexivity.
Defined.

(** C19. [readFile] reads a grammar written in BNF, one line
    [nonterminal::=rule|...|rule] per entry, back into the map of those
    entries; when a non-terminal has two lines it throws the error for a
    repeated non-terminal instead. *)
Theorem readFile_bnf es : Forall bnf_ok es ->
  readFile (bnf_line <$> es) ∅ = if decide (NoDup es.*1) then Ret (list_to_map es) else Throw duplicate_error.
Proof. intros Hok. apply (readFile_bnf_from [] es Hok). constructor. Qed.

Lemma readFile_bnf_witness :
  Forall bnf_ok [("<s>", ["<np> <vp>"]); ("<np>", ["the <n>"; "a <n>"]); ("<s>", ["x"])] /\
  readFile (bnf_line <$> [("<s>", ["<np> <vp>"]); ("<np>", ["the <n>"; "a <n>"]); ("<s>", ["x"])]) ∅ =
    if decide (NoDup [("<s>", ["<np> <vp>"]); ("<np>", ["the <n>"; "a <n>"]); ("<s>", ["x"])].*1)
    then Ret (list_to_map [("<s>", ["<np> <vp>"]); ("<np>", ["the <n>"; "a <n>"]); ("<s>", ["x"])])
    else Throw duplicate_error.
Proof. split; [decide_by_eval|apply readFile_bnf; decide_by_eval]. Defined.

(** C37. A line without [::=] (a blank line, say) after lines that were read
    has fewer than two pieces: [nonTermRulePairs[1]] is out of range. *)
Theorem readFile_no_separator lines line rest g g' :
  readFile lines g = Ret g' -> char_free ":" line = true ->
  readFile (lines ++ line :: rest) g = Throw vector_range_error.
Proof.
  intros Hr Hl. unfold readFile in *. rewrite foldl_app, Hr. cbn [foldl res_bind].
  unfold read_line. rewrite (stringSplit_no_delim ":" ":=" line Hl).
  destruct (0 <? String.length line)%nat; simpl; by rewrite foldl_res_stuck.
Qed.


Lemma readFile_no_separator_witness :
  readFile ["<s>::=x"] ∅ = Ret (<["<s>" := ["x"]]> ∅) /\ char_free ":" "" = true /\
  readFile (["<s>::=x"] ++ "" :: ["<t>::=y"]) ∅ = Throw vector_range_error.
Proof. split_and!; [vm_compute; reflexivity|reflexivity|]. apply (readFile_no_separator _ _ _ _ (<["<s>" := ["x"]]> ∅)); [vm_compute; reflexivity|reflexivity]. Defined.

End GrammarTheorems.
