(* ===== verification/Ngrams.v ===== *)
(** * Ngrams.v: the random writer, [src/serafini_starter/Ngrams/src/ngrams.cpp]

    [readFile] reads the words of the input file into a map from windows
    of [N - 1] consecutive words to the words that follow them, the last
    windows wrapping around to the first words ([wrapPrefixes]);
    [printText] starts at a random window and prints [numRand] words,
    each time moving the window by a random follower; [runNGrams] asks for
    [N] and then, until the user answers [0], for a number of words to
    print.

    - The input file is an [istream]: the text not yet read and the
      [eof] and [fail] flags.  [fileIn >> lineIn] ([extract]) skips white
      space and reads a word; at the end of the text it sets both flags
      and leaves [lineIn] unchanged; a word that ends the text sets [eof].
    - [Map<Vector<string>, Vector<string>>] is an association list kept
      sorted by key ([nmap]), so that [keys()] lists the keys in the
      library's order (lexicographic, words compared byte by byte).  The
      non-[const] [operator[]] inserts an empty vector for a missing key
      ([nmap_index]).
    - The loops that shift the window, [for (i = 0; i < size; i++)
      { window[i] = window[i + 1]; window[size] = lineIn; }], are
      [shift_loop], with both assignments in the body as written.
    - [getInteger] answers are a list of integers; [randomInteger] draws
      from [rng] (StanfordStrlib.v).  [promptUserForFile], [openFile] and the
      messages are I/O: the file's text is an argument. *)

From S2P Require Import Prelude StanfordStrlib.
From Stdlib Require Import Ascii.

(** ** The input stream *)

Record istream := mkIstream { in_rest : string; in_eof : bool; in_fail : bool }.

Fixpoint skip_ws (s : string) : string :=
  match s with
  | String c s' => if is_space c then skip_ws s' else s
  | EmptyString => EmptyString
  end.

(** The word at the front of [s] and the text after it. *)
Fixpoint take_word (s : string) : string * string :=
  match s with
  | String c s' =>
      if is_space c then (EmptyString, s) else let '(w, r) := take_word s' in (String c w, r)
  | EmptyString => (EmptyString, EmptyString)
  end.

(** [fileIn >> lineIn]. *)
Definition extract (st : istream) (lineIn : string) : istream * string :=
  if in_eof st || in_fail st then (mkIstream (in_rest st) (in_eof st) true, lineIn)
  else
    match skip_ws (in_rest st) with
    | EmptyString => (mkIstream EmptyString true true, lineIn)
    | s => let '(w, r) := take_word s in (mkIstream r (bool_decide (r = EmptyString)) false, w)
    end.

(** ** [Map<Vector<string>, Vector<string>>] *)

(** [operator<] on [Vector<string>]: lexicographic. *)
Fixpoint vec_compare (a b : list string) : comparison :=
  match a, b with
  | [], [] => Eq
  | [], _ :: _ => Lt
  | _ :: _, [] => Gt
  | x :: a', y :: b' => match String.compare x y with Eq => vec_compare a' b' | c => c end
  end.

Definition nmap := list (list string * list string).

Fixpoint nmap_get (m : nmap) (k : list string) : option (list string) :=
  match m with
  | [] => None
  | (k', v) :: m' => if bool_decide (k = k') then Some v else nmap_get m' k
  end.

Fixpoint nmap_put (k v : list string) (m : nmap) : nmap :=
  match m with
  | [] => [(k, v)]
  | (k', v') :: m' =>
      match vec_compare k k' with
      | Lt => (k, v) :: m
      | Eq => (k, v) :: m'
      | Gt => (k', v') :: nmap_put k v m'
      end
  end.

(** [nGrams[k]] (non-[const]): the value, inserting an empty one. *)
Definition nmap_index (m : nmap) (k : list string) : list string * nmap :=
  match nmap_get m k with Some v => (v, m) | None => ([], nmap_put k [] m) end.

(** [nGrams[k].add(x)]. *)
Definition nmap_add (m : nmap) (k : list string) (x : string) : nmap :=
  let '(v, m') := nmap_index m k in nmap_put k (v ++ [x]) m'.

Definition nmap_keys (m : nmap) : list (list string) := m.*1.

(** ** The program *)

Module Ngrams.

(** [for (int i = 0; i < size; i++) { window[i] = window[i + 1]; window[size] = x; }]
    (in [readFile] and [printText]); the indices are in range. *)
Definition shift_loop (window : list string) (size : Z) (x : string) : list string :=
  foldl (fun w i => <[Z.to_nat size := x]> (<[i := w !!! (i + 1)]> w)) window (seq 0 (Z.to_nat size)).

(** One round of [while (window.size() < nValue - 1) { fileIn >> lineIn; window.add(lineIn); }]. *)
Definition fill_step (acc : istream * list string * string) (_ : nat) : istream * list string * string :=
  let '(st, window, lineIn) := acc in
  let '(st', lineIn') := extract st lineIn in
  (st', window ++ [lineIn'], lineIn').

(** The window grows by one word a round, so the loop runs [nValue - 1]
    rounds. *)
Definition fill_window (nValue : Z) (st : istream) (lineIn : string) : istream * list string * string :=
  foldl fill_step (st, [], lineIn) (seq 0 (Z.to_nat (nValue - 1))).

(** One round of the [while (true)] loop of [readFile]. *)
Definition read_step (st : istream * list string * string * nmap)
    : (istream * list string * string * nmap) + res (istream * list string * nmap) :=
  let '(fileIn, window, lineIn, nGrams) := st in
  let '(fileIn', lineIn') := extract fileIn lineIn in
  if in_eof fileIn' then inr (Ret (fileIn', window, nGrams))
  else
    let nGrams' := nmap_add nGrams window lineIn' in
    let size := (Z.of_nat (length window) - 1)%Z in
    inl (fileIn', shift_loop window size lineIn', lineIn', nGrams').

(** [wrapPrefixes(first, nGrams, window)]; the inner loop's [i] hides the
    outer one, so [window[wSize] = first[i]] reads the inner index. *)
Definition wrapPrefixes (first : list string) (nGrams : nmap) (window : list string) : nmap * list string :=
  let fSize := length first in
  let wSize := (Z.of_nat (length window) - 1)%Z in
  foldl (fun acc i =>
           let '(nGrams, window) := acc in
           let nGrams' := nmap_add nGrams window (first !!! i) in
           let window' := foldl (fun w j => <[Z.to_nat wSize := first !!! j]> (<[j := w !!! (j + 1)]> w))
                                window (seq 0 (Z.to_nat wSize)) in
           (nGrams', window'))
        (nGrams, window) (seq 0 fSize).

(** [readFile(nGrams, fileIn, nValue)]: the map and the stream after. *)
Definition readFile (fuel : nat) (nGrams : nmap) (fileIn : istream) (nValue : Z) : res (nmap * istream) :=
  (let '(fileIn, window, lineIn) := fill_window nValue fileIn "" in
   let first := window in
   let* st := iter_loop read_step fuel (fileIn, window, lineIn, nGrams) in
   let '(fileIn, window, nGrams) := st in
   Ret ((wrapPrefixes first nGrams window).1, fileIn))%res.

(** One round of the [for] loop of [printText]: print [window.get(0)],
    draw a follower and move the window. *)
Definition print_step (rng : nat -> Z) (acc : list string * nmap * list string * nat) (n : nat)
    : res (list string * nmap * list string * nat) :=
  (let '(window, nGrams, out, k) := acc in
   let* w0 := vec_get window 0 in
   let '(followers, nGrams) := nmap_index nGrams window in
   let '(rand, k) := randomInteger rng k 0 (Z.of_nat (length followers) - 1) in
   let* randWord := vec_get followers rand in
   let size := (Z.of_nat (length window) - 1)%Z in
   Ret (shift_loop window size randWord, nGrams, out ++ [w0], k))%res.

(** [printText(nGrams, numRand)]: the words printed between [...], the
    map (which [operator[]] may grow) and the next draw. *)
Definition printText (rng : nat -> Z) (k : nat) (nGrams : nmap) (numRand : Z)
    : res (list string * nmap * nat) :=
  (let '(randomKeyInt, k) := randomInteger rng k 0 (Z.of_nat (length nGrams) - 1) in
   let* window := vec_get (nmap_keys nGrams) randomKeyInt in
   let* st := foldl (fun acc n => res_bind acc (fun a => print_step rng a n))
                    (Ret (window, nGrams, [], k)) (seq 0 (Z.to_nat numRand)) in
   let '(_, nGrams, out, k) := st in
   Ret (out, nGrams, k))%res.

(** [getNValue()] and [getNumWords()] on the integers typed; running out
    of answers is waiting for input. *)
Fixpoint getNValue (answers : list Z) : res (Z * list Z) :=
  match answers with
  | [] => OutOfFuel
  | nValue :: rest => if (nValue <? 2)%Z then getNValue rest else Ret (nValue, rest)
  end.

Fixpoint getNumWords (answers : list Z) : res (Z * list Z) :=
  match answers with
  | [] => OutOfFuel
  | numRand :: rest =>
      if negb (numRand =? 0)%Z && (numRand <? 4)%Z then getNumWords rest else Ret (numRand, rest)
  end.

(** One round of the [while (true)] loop of [runNGrams]; the state holds
    the answers left, the stream, the map, the next draw and the texts
    printed so far. *)
Definition run_step (fuel : nat) (rng : nat -> Z) (nValue : Z)
    (st : list Z * istream * nmap * nat * list (list string))
    : (list Z * istream * nmap * nat * list (list string)) + res (list (list string)) :=
  let '(answers, fileIn, nGrams, k, outs) := st in
  match getNumWords answers with
  | Ret (numRand, answers) =>
      if (numRand =? 0)%Z then inr (Ret outs)
      else
        match readFile fuel nGrams fileIn nValue with
        | Ret (nGrams, fileIn) =>
            match printText rng k nGrams numRand with
            | Ret (out, nGrams, k) => inl (answers, fileIn, nGrams, k, outs ++ [out])
            | Throw m => inr (Throw m)
            | Undef w => inr (Undef w)
            | OutOfFuel => inr OutOfFuel
            end
        | Throw m => inr (Throw m)
        | Undef w => inr (Undef w)
        | OutOfFuel => inr OutOfFuel
        end
  | Throw m => inr (Throw m)
  | Undef w => inr (Undef w)
  | OutOfFuel => inr OutOfFuel
  end.

(** [runNGrams()] on the file's text and the integers typed. *)
Definition runNGrams (fuel : nat) (rng : nat -> Z) (text : string) (answers : list Z)
    : res (list (list string)) :=
  (let* st := getNValue answers in
   let '(nValue, answers) := st in
   iter_loop (run_step fuel rng nValue) fuel (answers, mkIstream text false false, [], 0, []))%res.

End Ngrams.
