(* ===== verification/NgramsProofs.v ===== *)
(** * NgramsProofs.v: what the random writer records and prints

    The specification of an n-gram table ([ngram_pairs n ws]): for every
    position [j] of the text [ws], read cyclically, the window of the
    [n - 1] words from [j] is followed by the word after them.  The map
    the code builds is [table m pairs], the pairs added in order with
    [nGrams[window].add(word)].  Proved: on a text of words separated by
    white space, [readFile] with [N = 3] builds exactly the table of the
    specification, and [printText] then never fails; with [N = 2] every
    word is recorded after the first word; with [N >= 4] the second
    window recorded loses word [N - 2] of the text; a second request
    reads the exhausted file and records a window of empty words. *)

From S2P Require Import Prelude StanfordStrlib Ngrams.
From Stdlib Require Import Ascii.
Import Ngrams.

(** ** The map *)

Lemma string_compare_refl s : String.compare s s = Eq.
Proof.
  induction s as [|c s IH]; [done|]. simpl. unfold Ascii.compare. by rewrite N.compare_refl.
Qed.

Lemma vec_compare_eq k k' : vec_compare k k' = Eq <-> k = k'.
Proof.
  revert k'. induction k as [|x k IH]; intros [|y k']; simpl; try (split; congruence).
  destruct (String.compare x y) eqn:E.
  - apply String.compare_eq_iff in E as ->. rewrite IH. split; congruence.
  - split; [discriminate|]. intros [= -> _]. by rewrite string_compare_refl in E.
  - split; [discriminate|]. intros [= -> _]. by rewrite string_compare_refl in E.
Qed.

Lemma nmap_get_put k v m k' :
  nmap_get (nmap_put k v m) k' = if bool_decide (k' = k) then Some v else nmap_get m k'.
Proof.
  induction m as [|[k'' v''] m IH]; simpl; [done|].
  destruct (vec_compare k k'') eqn:E; simpl.
  - apply vec_compare_eq in E as <-. by case_bool_decide.
  - done.
  - rewrite IH. case_bool_decide as H1; case_bool_decide as H2; subst; try done.
    all: rewrite (proj2 (vec_compare_eq _ _) eq_refl) in E; discriminate.
Qed.

Lemma nmap_get_add m k x k' :
  nmap_get (nmap_add m k x) k' =
    if bool_decide (k' = k) then Some (default [] (nmap_get m k) ++ [x]) else nmap_get m k'.
Proof.
  unfold nmap_add, nmap_index. destruct (nmap_get m k) as [v|] eqn:E; rewrite nmap_get_put; [done|].
  case_bool_decide; [done|]. rewrite nmap_get_put. by case_bool_decide.
Qed.

Lemma nmap_get_keys m k : k ∈ nmap_keys m -> is_Some (nmap_get m k).
Proof.
  induction m as [|[k' v'] m IH]; simpl; [by intros ?%elem_of_nil|].
  intros [->|Hk]%elem_of_cons; case_bool_decide; [by eexists|done|by eexists|by apply IH].
Qed.

(** The map after adding [pairs], in order, to [m]. *)
Definition table (m : nmap) (pairs : list (list string * string)) : nmap :=
  foldl (fun m kv => nmap_add m kv.1 kv.2) m pairs.

(** The words recorded after the window [k]. *)
Definition followers (pairs : list (list string * string)) (k : list string) : list string :=
  snd <$> filter (fun kv => kv.1 = k) pairs.

Lemma nmap_get_table m pairs k :
  nmap_get (table m pairs) k =
    if bool_decide (followers pairs k = []) then nmap_get m k
    else Some (default [] (nmap_get m k) ++ followers pairs k).
Proof.
  revert m. induction pairs as [|[k0 x] pairs IH]; intros m; [done|].
  unfold table. cbn [foldl fst snd]. fold (table (nmap_add m k0 x) pairs). rewrite IH, nmap_get_add.
  unfold followers. destruct (decide (k0 = k)) as [->|Hne].
  - rewrite filter_cons_True by done. rewrite fmap_cons. fold (followers pairs k).
    rewrite (bool_decide_true (k = k)), (bool_decide_false (_ :: _ = [])) by done. simpl.
    case_bool_decide as Hf; [by rewrite Hf|]. by rewrite <- app_assoc.
  - rewrite filter_cons_False by done. fold (followers pairs k).
    by rewrite (bool_decide_false (k = k0)) by congruence.
Qed.

(** ** Reading a text word by word *)

(** A text of words, each followed by a space. *)
Definition text (ws : list string) : string := foldr (fun w acc => w ++ " " ++ acc)%string "" ws.

Fixpoint all_chars (P : ascii -> bool) (s : string) : bool :=
  match s with EmptyString => true | String c s' => P c && all_chars P s' end.

(** A word: not empty, no white space. *)
Definition word_ok (w : string) : Prop := w <> "" /\ all_chars (fun c => negb (is_space c)) w = true.

Lemma skip_ws_spaces s t : all_chars is_space s = true -> skip_ws (s ++ t) = skip_ws t.
Proof.
  induction s as [|c s IH]; [done|]. simpl. intros [Hc Hs]%andb_prop. rewrite Hc. by apply IH.
Qed.

Lemma skip_ws_word c w t : is_space c = false -> skip_ws (String c w ++ t) = String c (w ++ t).
Proof. simpl. by intros ->. Qed.

Lemma take_word_word w t : all_chars (fun c => negb (is_space c)) w = true ->
  take_word (w ++ " " ++ t) = (w, " " ++ t)%string.
Proof.
  induction w as [|c w IH]; [done|]. simpl. intros [Hc Hw]%andb_prop.
  apply negb_true_iff in Hc. rewrite Hc, IH by done. done.
Qed.

Lemma extract_word s w ws lineIn : all_chars is_space s = true -> word_ok w ->
  extract (mkIstream (s ++ text (w :: ws)) false false) lineIn = (mkIstream (" " ++ text ws) false false, w).
Proof.
  intros Hs [Hne Hw]. unfold extract. cbn [in_eof in_fail in_rest orb]. cbn [text foldr].
  fold (text ws). rewrite skip_ws_spaces by done. destruct w as [|c w']; [done|].
  assert (Hc : is_space c = false).
  { simpl in Hw. apply andb_prop in Hw as [Hc _]. by apply negb_true_iff. }
  rewrite skip_ws_word by done. rewrite <- string_app_cons, take_word_word by done.
  rewrite bool_decide_false by done. done.
Qed.

Lemma extract_end s lineIn : all_chars is_space s = true ->
  extract (mkIstream s false false) lineIn = (mkIstream "" true true, lineIn).
Proof.
  intros Hs. unfold extract. simpl. rewrite <- (string_app_nil_r s), skip_ws_spaces by done. done.
Qed.

(** The rounds of [while (true)] in [readFile] on the words [rest]: the
    final window and the pairs added. *)
Fixpoint read_trace (window : list string) (rest : list string) : list string * list (list string * string) :=
  match rest with
  | [] => (window, [])
  | x :: r =>
      let '(w', adds) := read_trace (shift_loop window (Z.of_nat (length window) - 1) x) r in
      (w', (window, x) :: adds)
  end.

Lemma read_loop rest window lineIn m fuel : Forall word_ok rest -> length rest < fuel ->
  iter_loop read_step fuel (mkIstream (" " ++ text rest) false false, window, lineIn, m) =
    Ret (mkIstream "" true true, (read_trace window rest).1, table m (read_trace window rest).2).
Proof.
  revert window lineIn m fuel. induction rest as [|x rest IH]; intros window lineIn m [|fuel] Hok Hlen;
    simpl in Hlen; try lia; rewrite iter_loop_S; unfold read_step.
  - rewrite extract_end by done. done.
  - apply Forall_cons in Hok as [Hx Hok]. rewrite (extract_word " " x rest) by done. cbn [in_eof].
    rewrite IH by (done || lia). cbn [read_trace]. by destruct (read_trace _ rest).
Qed.

Lemma fill_text k ws lineIn : Forall word_ok ws -> k <= length ws ->
  exists lineIn',
    foldl fill_step (mkIstream (text ws) false false, [], lineIn) (seq 0 k) =
      (mkIstream (match k with O => "" | S _ => " " end ++ text (drop k ws)) false false, take k ws, lineIn').
Proof.
  intros Hok. induction k as [|k IH]; intros Hk.
  { by exists lineIn. }
  destruct IH as (l & Hf); [lia|]. rewrite seq_S, foldl_app, Hf. cbn [foldl fill_step].
  destruct (lookup_lt_is_Some_2 ws k ltac:(lia)) as [w Hw].
  rewrite (drop_S _ _ _ Hw), extract_word by first [destruct k; done | apply (Forall_lookup_1 _ _ _ _ Hok Hw)].
  exists w. by rewrite (take_S_r _ _ _ Hw).
Qed.

(** [readFile] on a text of at least [N - 1] words: the pairs of the
    loop, then those of [wrapPrefixes]. *)
Lemma readFile_text fuel m ws nValue : Forall word_ok ws -> (2 <= nValue)%Z ->
  Z.to_nat (nValue - 1) <= length ws -> length ws < fuel ->
  readFile fuel m (mkIstream (text ws) false false) nValue =
    let k := Z.to_nat (nValue - 1) in
    let tr := read_trace (take k ws) (drop k ws) in
    Ret ((wrapPrefixes (take k ws) (table m tr.2) tr.1).1, mkIstream "" true true).
Proof.
  intros Hok Hn Hk Hf. unfold readFile, fill_window.
  destruct (fill_text (Z.to_nat (nValue - 1)) ws "" Hok Hk) as (l & ->).
  destruct (Z.to_nat (nValue - 1)) as [|k] eqn:Ek; [lia|].
  rewrite read_loop; [done| |].
  - apply Forall_drop, Hok.
  - rewrite length_drop. lia.
Qed.

(** ** The n-gram table of a text *)

(** The [i]-th word of the text read cyclically. *)
Definition cyc (ws : list string) (i : nat) : string := ws !!! (i mod length ws).

(** The window of [n - 1] words from position [j]. *)
Definition window_at (n : nat) (ws : list string) (j : nat) : list string :=
  (fun i => cyc ws (j + i)) <$> seq 0 (n - 1).

(** For every position, its window and the word that follows it. *)
Definition ngram_pairs (n : nat) (ws : list string) : list (list string * string) :=
  (fun j => (window_at n ws j, cyc ws (j + n - 1))) <$> seq 0 (length ws).

Lemma table_app m l1 l2 : table m (l1 ++ l2) = table (table m l1) l2.
Proof. unfold table. by rewrite foldl_app. Qed.

Lemma cyc_small ws i : i < length ws -> cyc ws i = ws !!! i.
Proof. intros Hi. unfold cyc. by rewrite Nat.mod_small. Qed.

(** The consecutive triples of [ws] from position [j]. *)
Definition triples (ws : list string) (j d : nat) : list (list string * string) :=
  (fun i => ([ws !!! i; ws !!! (i + 1)], ws !!! (i + 2))) <$> seq j d.

Lemma shift_loop2 a b x : shift_loop [a; b] (Z.of_nat (length [a; b]) - 1) x = [b; x].
Proof. reflexivity. Qed.

Lemma read_trace3 ws j a b : j + 2 <= length ws -> a = ws !!! j -> b = ws !!! (j + 1) ->
  read_trace [a; b] (drop (j + 2) ws) =
    ([ws !!! (length ws - 2); ws !!! (length ws - 1)], triples ws j (length ws - 2 - j)).
Proof.
  remember (length ws - 2 - j) as d eqn:Hd. revert j a b Hd.
  induction d as [|d IH]; intros j a b Hd Hj -> ->.
  - rewrite drop_ge by lia. simpl. assert (j = length ws - 2) as -> by lia.
    by replace (length ws - 2 + 1) with (length ws - 1) by lia.
  - destruct (lookup_lt_is_Some_2 ws (j + 2) ltac:(lia)) as [x Hx].
    rewrite (drop_S _ _ _ Hx). cbn [read_trace]. rewrite shift_loop2.
    replace (S (j + 2)) with (S j + 2) by lia.
    rewrite (IH (S j)); [|lia|lia|f_equal; lia|].
    + unfold triples. simpl. do 3 f_equal. symmetry. by apply list_lookup_total_correct.
    + symmetry. replace (S j + 1) with (j + 2) by lia. by apply list_lookup_total_correct.
Qed.

Lemma cyc_wrap ws i : cyc ws (length ws + i) = cyc ws i.
Proof.
  unfold cyc. destruct (length ws) as [|n] eqn:E; [done|].
  by rewrite <- Nat.Div0.add_mod_idemp_l, Nat.Div0.mod_same, Nat.add_0_l by lia.
Qed.

Lemma cyc_at ws e q i : i < length ws -> e = i + q * length ws -> cyc ws e = ws !!! i.
Proof. intros Hi ->. unfold cyc. by rewrite Nat.Div0.mod_add, Nat.mod_small. Qed.

Ltac cyc_index := first [apply (cyc_at _ _ 0); lia | apply (cyc_at _ _ 1); lia].

(** With [N = 3] the pairs of a text are its consecutive triples and the
    two that wrap around. *)
Lemma ngram_pairs3 ws : 2 <= length ws ->
  ngram_pairs 3 ws = triples ws 0 (length ws - 2) ++
    [([ws !!! (length ws - 2); ws !!! (length ws - 1)], ws !!! 0); ([ws !!! (length ws - 1); ws !!! 0], ws !!! 1)].
Proof.
  intros Hn. unfold ngram_pairs.
  replace (seq 0 (length ws)) with (seq 0 (length ws - 2) ++ seq (length ws - 2) 2)
    by (rewrite <- seq_app; f_equal; lia).
  rewrite fmap_app. f_equal.
  - unfold triples. apply list_fmap_ext. intros k i Hi. apply lookup_seq in Hi as [-> Hi].
    unfold window_at. simpl. repeat f_equal; cyc_index.
  - unfold window_at. simpl. repeat f_equal; cyc_index.
Qed.

(** [readFile] with [N = 3] on a text of at least two words adds exactly
    the pairs of the n-gram table. *)
Lemma readFile_three fuel m ws : Forall word_ok ws -> 2 <= length ws -> length ws < fuel ->
  readFile fuel m (mkIstream (text ws) false false) 3 = Ret (table m (ngram_pairs 3 ws), mkIstream "" true true).
Proof.
  intros Hok Hn Hf. rewrite readFile_text by (done || lia). cbn zeta.
  change (Z.to_nat (3 - 1)) with 2.
  destruct ws as [|w0 [|w1 rest]]; simpl in Hn; try lia.
  change (take 2 (w0 :: w1 :: rest)) with [(w0 :: w1 :: rest) !!! 0; (w0 :: w1 :: rest) !!! (0 + 1)].
  rewrite (read_trace3 (w0 :: w1 :: rest) 0) by (done || simpl; lia). cbn [fst snd].
  rewrite ngram_pairs3, table_app, Nat.sub_0_r by done. reflexivity.
Qed.

Lemma read_trace1 w rest : read_trace [w] rest = ([w], (fun x => ([w], x)) <$> rest).
Proof. induction rest as [|x rest IH]; [done|]. cbn [read_trace]. change (shift_loop [w] _ x) with [w]. by rewrite IH. Qed.

(** [readFile] with [N = 2]: the window never moves, so every word of
    the text (and the first one again, from [wrapPrefixes]) is recorded
    after the first word. *)
Lemma readFile_two fuel m ws : Forall word_ok ws -> 1 <= length ws -> length ws < fuel ->
  readFile fuel m (mkIstream (text ws) false false) 2 =
    Ret (table m ((fun x => ([ws !!! 0], x)) <$> (drop 1 ws ++ take 1 ws)), mkIstream "" true true).
Proof.
  intros Hok Hn Hf. rewrite readFile_text by (done || lia). cbn zeta. change (Z.to_nat (2 - 1)) with 1.
  destruct ws as [|w0 rest]; simpl in Hn; [lia|]. cbn [take drop]. rewrite read_trace1.
  rewrite fmap_app, table_app. reflexivity.
Qed.

(** ** A second request *)

(** After the first request the stream has failed: [readFile] reads no
    word, its window is [N - 1] empty strings, and [wrapPrefixes] records
    the empty word after it [N - 1] times. *)
Lemma lookup_total_empties k j : replicate k "" !!! j = "".
Proof. revert j. induction k as [|k IH]; intros [|j]; simpl; auto. Qed.

Lemma readFile_failed fuel m r nValue : (2 <= nValue)%Z -> 1 <= fuel ->
  readFile fuel m (mkIstream r true true) nValue =
    Ret (table m (replicate (Z.to_nat (nValue - 1)) (replicate (Z.to_nat (nValue - 1)) "", "")), mkIstream r true true).
Proof.
  intros Hn Hf. unfold readFile, fill_window. set (k := Z.to_nat (nValue - 1)).
  assert (Hfill : forall j, foldl fill_step (mkIstream r true true, [], "") (seq 0 j) =
                            (mkIstream r true true, replicate j "", "")).
  { induction j as [|j IH]; [done|]. rewrite seq_S, foldl_app, IH. cbn [foldl fill_step].
    unfold extract. rewrite orb_true_r. by rewrite replicate_S_end. }
  rewrite Hfill. destruct fuel as [|fuel]; [lia|]. rewrite iter_loop_S. unfold read_step.
  unfold extract at 1. rewrite orb_true_r. cbn [in_eof res_bind]. unfold wrapPrefixes.
  rewrite length_replicate.
  assert (Hinner : forall i, foldl (fun w j => <[Z.to_nat (Z.of_nat k - 1) := replicate k "" !!! j]>
                                            (<[j := w !!! (j + 1)]> w)) (replicate k "") (seq 0 i) = replicate k "").
  { intros i. induction i as [|i IH]; [done|]. rewrite seq_S, foldl_app, IH. simpl.
    by rewrite !lookup_total_empties, !insert_replicate. }
  assert (Houter : forall j, foldl (fun acc i => let '(nGrams, window) := acc in
           (nmap_add nGrams window (replicate k "" !!! i),
            foldl (fun w j => <[Z.to_nat (Z.of_nat k - 1) := replicate k "" !!! j]> (<[j := w !!! (j + 1)]> w))
                  window (seq 0 (Z.to_nat (Z.of_nat k - 1)))))
         (m, replicate k "") (seq 0 j) = (table m (replicate j (replicate k "", "")), replicate k "")).
  { induction j as [|j IH]; [done|]. rewrite seq_S, foldl_app, IH. cbn [foldl].
    rewrite Hinner, lookup_total_empties. by rewrite replicate_S_end, table_app. }
  cbn [iter_loop res_bind]. by rewrite Houter.
Qed.

(** ** [printText] on a closed table *)

(** Every window of the map has followers, and moving a window by one of
    its followers gives a window of the map. *)
Definition closed (m : nmap) : Prop :=
  forall k vs, nmap_get m k = Some vs ->
    vs <> [] /\ 1 <= length k /\ forall v, v ∈ vs -> is_Some (nmap_get m (shift_loop k (Z.of_nat (length k) - 1) v)).

Lemma printText_closed rng k m numRand : closed m -> m <> [] ->
  exists out k', printText rng k m numRand = Ret (out, m, k') /\ length out = Z.to_nat numRand.
Proof.
  intros Hc Hne. unfold printText.
  destruct (randomInteger_index rng k (length m)) as (r & Hr & ->); [by destruct m; [|simpl; lia]|].
  destruct (vec_get_lt (nmap_keys m) r) as (window & -> & Hw); [by unfold nmap_keys; rewrite length_fmap|]. cbn [res_bind].
  edestruct (foldl_res_seq (print_step rng)
    (fun j (st : list string * nmap * list string * nat) =>
       st.1.1.2 = m /\ is_Some (nmap_get m st.1.1.1) /\ length st.1.2 = j) (Z.to_nat numRand) (window, m, [], S k))
    as (st & Hst & Hm & _ & Hlen).
  - simpl. split_and!; [done|apply nmap_get_keys; by apply list_elem_of_lookup_2 in Hw|done].
  - intros j [[[w m0] out] k0] _ (Hm & [vs Hvs] & Hl). simpl in Hm, Hl, Hvs. subst m0.
    destruct (Hc w vs Hvs) as (Hvs0 & Hw1 & Hnext).
    unfold print_step. destruct (vec_get_lt w 0) as (w0 & Hw0 & _); [lia|].
    change (Z.of_nat 0) with 0%Z in Hw0. rewrite Hw0. unfold nmap_index. rewrite Hvs.
    destruct (randomInteger_index rng k0 (length vs)) as (i & Hi & Hri); [destruct vs; [done|simpl; lia]|].
    rewrite Hri. destruct (vec_get_lt vs i) as (v & Hv' & Hv); [done|]. cbn [res_bind]. rewrite Hv'.
    cbn [res_bind].
    eexists. split; [done|]. simpl. split_and!; [done| |by rewrite length_app, Hl; simpl; lia].
    apply Hnext. by apply list_elem_of_lookup_2 in Hv.
  - rewrite Hst. destruct st as [[[w' m'] out] k']. simpl in Hm, Hlen. subst m'. by exists out, k'.
Qed.

Lemma elem_of_followers pairs k v : v ∈ followers pairs k <-> (k, v) ∈ pairs.
Proof.
  unfold followers. rewrite list_elem_of_fmap. split.
  - intros ([k' v'] & -> & [Hk Hin]%list_elem_of_filter). simpl in *. by subst.
  - intros Hin. exists (k, v). split; [done|]. by apply list_elem_of_filter.
Qed.

Lemma elem_of_ngram_pairs3 ws k v :
  (k, v) ∈ ngram_pairs 3 ws <-> exists j, j < length ws /\ k = [cyc ws j; cyc ws (j + 1)] /\ v = cyc ws (j + 2).
Proof.
  unfold ngram_pairs, window_at. rewrite list_elem_of_fmap. setoid_rewrite elem_of_seq. simpl.
  split; intros (j & Hkv & Hj); exists j.
  - injection Hkv as -> ->. rewrite Nat.add_0_r. replace (j + 3 - 1) with (j + 2) by lia. split_and!; [lia|done|done].
  - destruct Hj as [-> ->]. rewrite Nat.add_0_r. replace (j + 3 - 1) with (j + 2) by lia. split; [done|lia].
Qed.

Lemma cyc_mod ws a t : cyc ws (a mod length ws + t) = cyc ws (a + t).
Proof. unfold cyc. by rewrite Nat.Div0.add_mod_idemp_l. Qed.

(** The table of [N = 3] is closed: the window after [[w_j; w_(j+1)]] and
    its follower [w_(j+2)] is [[w_(j+1); w_(j+2)]], the window at [j + 1]. *)
Lemma table_three_closed ws : 2 <= length ws -> closed (table [] (ngram_pairs 3 ws)).
Proof.
  intros Hn k vs Hget. rewrite nmap_get_table in Hget. simpl in Hget.
  case_bool_decide as Hf; [discriminate|]. injection Hget as <-.
  destruct (followers _ k) as [|v0 vs0] eqn:Ef; [done|].
  assert (Hv0 : v0 ∈ followers (ngram_pairs 3 ws) k) by (rewrite Ef; set_solver).
  apply elem_of_followers, elem_of_ngram_pairs3 in Hv0 as (j0 & _ & -> & _).
  split_and!; [done|simpl; lia|]. rewrite <- Ef. intros v Hv.
  apply elem_of_followers, elem_of_ngram_pairs3 in Hv as (j & Hj & Hk & ->).
  rewrite Hk, shift_loop2, nmap_get_table. simpl. case_bool_decide as Hf'; [|by eexists].
  exfalso. assert (Hin : cyc ws ((j + 1) mod length ws + 2) ∈ followers (ngram_pairs 3 ws) [cyc ws (j + 1); cyc ws (j + 2)]).
  { apply elem_of_followers, elem_of_ngram_pairs3. exists ((j + 1) mod length ws).
    split; [apply Nat.mod_upper_bound; lia|]. rewrite !cyc_mod. split; [|done]. f_equal; [unfold cyc; by rewrite Nat.Div0.mod_mod|do 2 f_equal; lia]. }
  rewrite Hf' in Hin. set_solver.
Qed.

(** [runNGrams] with [N = 3] and one request: the loop of [run_step]. *)
Lemma runNGrams_three_once ws rng numRand fuel : Forall word_ok ws -> 2 <= length ws -> (4 <= numRand)%Z ->
  length ws < fuel -> 2 <= fuel ->
  exists out, runNGrams fuel rng (text ws) [3; numRand; 0]%Z = Ret [out] /\ length out = Z.to_nat numRand.
Proof.
  intros Hok Hn Hr Hf Hf2. unfold runNGrams. cbn [getNValue res_bind]. change (3 <? 2)%Z with false. cbn iota.
  destruct fuel as [|[|fuel]]; [lia|lia|]. cbn [res_bind]. rewrite iter_loop_S. unfold run_step. cbn [getNumWords].
  replace (negb (numRand =? 0)%Z && (numRand <? 4)%Z) with false by (symmetry; apply andb_false_iff; right; apply Z.ltb_ge; lia).
  replace (numRand =? 0)%Z with false by (symmetry; apply Z.eqb_neq; lia).
  rewrite readFile_three by (done || lia).
  destruct (printText_closed rng 0 (table [] (ngram_pairs 3 ws)) numRand) as (out & k' & -> & Hlen).
  { by apply table_three_closed. }
  { rewrite <- (length_zero_iff_nil (table _ _)). intros Hz.
    destruct ws as [|w0 ws']; [simpl in Hn; lia|].
    assert (Hk : is_Some (nmap_get (table [] (ngram_pairs 3 (w0 :: ws'))) (window_at 3 (w0 :: ws') 0))).
    { rewrite nmap_get_table. case_bool_decide as Hf'; [|by eexists]. exfalso.
      assert (Hin : cyc (w0 :: ws') 2 ∈ followers (ngram_pairs 3 (w0 :: ws')) (window_at 3 (w0 :: ws') 0)).
      { apply elem_of_followers, elem_of_ngram_pairs3. exists 0. split; [simpl; lia|done]. }
      rewrite Hf' in Hin. set_solver. }
    apply length_zero_iff_nil in Hz. rewrite Hz in Hk. by destruct Hk. }
  rewrite iter_loop_S. unfold run_step. cbn [getNumWords]. simpl. by exists out.
Qed.

(** ** [N >= 4]: the shifting loop

    The loop of [readFile] assigns [window[size] = lineIn] inside its
    body, before the round [i = size - 1] copies [window[size]] down: the
    window after [w] and the word [y] is the shifted window with its
    second-to-last word replaced by [y]. *)
Lemma shift_loop_drops (w : list string) y : 3 <= length w ->
  shift_loop w (Z.of_nat (length w) - 1) y = <[length w - 2 := y]> (drop 1 w ++ [y]).
Proof.
  intros Hn. unfold shift_loop. replace (Z.to_nat (Z.of_nat (length w) - 1)) with (length w - 1) by lia.
  set (n := length w) in *.
  set (f := fun k j => if decide (j = n - 1) then (if decide (k = 0) then w !!! j else y)
                       else if decide (j < k) then (if decide (j = n - 2) then y else w !!! (j + 1))
                       else w !!! j).
  destruct (foldl_seq_inv (fun acc i => <[n - 1 := y]> (<[i := acc !!! (i + 1)]> acc))
              (fun k acc => length acc = n /\ forall j, j < n -> acc !!! j = f k j) (n - 1) w)
    as [Hlen Hall].
  - split; [done|]. intros j Hj. unfold f. repeat case_decide; try lia; done.
  - intros k acc Hk [Hl Ha]. split; [by rewrite !length_insert|]. intros j Hj.
    rewrite !list_lookup_total_insert, !length_insert, Hl.
    repeat case_decide; try (rewrite Ha by lia); unfold f; repeat case_decide; try lia; try done; destruct_and?; by subst.
  - apply (list_eq_same_length _ _ n); [by rewrite length_insert, length_app, length_drop; simpl; lia|done|].
    intros j a b Hj Ha Hb. apply list_lookup_total_correct in Ha, Hb. subst a b. rewrite Hall by lia.
    rewrite list_lookup_total_insert, length_app, length_drop. unfold f. cbn [length].
    repeat case_decide; try lia; try done.
    + rewrite lookup_total_app_r; rewrite length_drop; [|lia]. by replace (j - (length w - 1)) with 0 by lia.
    + rewrite lookup_total_app_l, lookup_total_drop by (rewrite length_drop; lia). f_equal. lia.
Qed.

(** A word recorded after a window stays recorded when more pairs are added. *)
Definition recorded (m : nmap) (k : list string) (v : string) : Prop :=
  exists vs, nmap_get m k = Some vs /\ v ∈ vs.

Lemma recorded_add m k v k' x : recorded m k v -> recorded (nmap_add m k' x) k v.
Proof.
  intros (vs & Hg & Hv). unfold recorded. rewrite nmap_get_add, Hg. case_bool_decide; (eexists; split; [done|]); [|done].
  subst k'. rewrite Hg. simpl. set_solver.
Qed.

Lemma recorded_wrapPrefixes first m w k v : recorded m k v -> recorded (wrapPrefixes first m w).1 k v.
Proof.
  intros Hr. unfold wrapPrefixes.
  apply (foldl_seq_inv _ (fun _ acc => recorded acc.1 k v)); [done|].
  intros i [m' w'] _ Hm. by apply recorded_add.
Qed.

Lemma recorded_table m pairs k v : (k, v) ∈ pairs -> recorded (table m pairs) k v.
Proof.
  intros Hin. unfold recorded. rewrite nmap_get_table. apply elem_of_followers in Hin.
  case_bool_decide as Hf; [by rewrite Hf in Hin; set_solver|]. eexists; split; [done|]. set_solver.
Qed.

#[export] Instance word_ok_dec w : Decision (word_ok w).
Proof. unfold word_ok. apply _. Defined.

Module NgramsTheorems.

(** C20. On a text of at least two words separated by white space,
    [readFile] with [N = 3] adds to the map exactly the n-gram table of
    the text: for every position, read cyclically, the two words from it
    followed by the next word, in the order of the text. *)
Theorem readFile_trigrams fuel m ws : Forall word_ok ws -> 2 <= length ws -> length ws < fuel ->
  readFile fuel m (mkIstream (text ws) false false) 3 = Ret (table m (ngram_pairs 3 ws), mkIstream "" true true).
Proof. apply readFile_three. Qed.

Lemma readFile_trigrams_witness :
  Forall word_ok ["to"; "be"; "or"; "not"] /\ 2 <= length ["to"; "be"; "or"; "not"] /\ length ["to"; "be"; "or"; "not"] < 10 /\
  readFile 10 [] (mkIstream (text ["to"; "be"; "or"; "not"]) false false) 3 =
    Ret (table [] (ngram_pairs 3 ["to"; "be"; "or"; "not"]), mkIstream "" true true).
Proof. split_and!; [decide_by_eval|simpl; lia|simpl; lia|]. apply readFile_trigrams; [decide_by_eval|simpl; lia|simpl; lia]. Defined.

(** With [N = 3], a text of at least two words and a request of
    [numRand >= 4] words, [runNGrams] prints exactly [numRand] words and
    raises no error, whatever the random draws: every window it reaches
    is in the map with at least one follower. *)
Theorem runNGrams_three ws rng numRand fuel : Forall word_ok ws -> 2 <= length ws -> (4 <= numRand)%Z ->
  length ws < fuel -> 2 <= fuel ->
  exists out, runNGrams fuel rng (text ws) [3; numRand; 0]%Z = Ret [out] /\ length out = Z.to_nat numRand.
Proof. apply runNGrams_three_once. Qed.

Lemma runNGrams_three_witness :
  exists out, runNGrams 10 (fun k => Z.of_nat (k * 7)) (text ["to"; "be"; "or"; "not"]) [3; 6; 0]%Z = Ret [out] /\
    length out = Z.to_nat 6.
Proof. apply runNGrams_three; [decide_by_eval|simpl; lia|lia|simpl; lia|lia]. Defined.

(** C38. With [N = 2] the window of [readFile] never moves (the shifting
    loop runs [size = 0] rounds): every later word of the text, and the
    first again, is recorded after the first word, and no other window
    is recorded. *)
Theorem readFile_bigram_one_window fuel m ws : Forall word_ok ws -> 1 <= length ws -> length ws < fuel ->
  readFile fuel m (mkIstream (text ws) false false) 2 =
    Ret (table m ((fun x => ([ws !!! 0], x)) <$> (drop 1 ws ++ take 1 ws)), mkIstream "" true true).
Proof. apply readFile_two. Qed.

Lemma readFile_bigram_one_window_witness :
  Forall word_ok ["a"; "b"; "c"] /\ 1 <= length ["a"; "b"; "c"] /\ length ["a"; "b"; "c"] < 5 /\
  readFile 5 [] (mkIstream (text ["a"; "b"; "c"]) false false) 2 =
    Ret (table [] ((fun x => (["a"; "b"; "c"] !!! 0 :: [], x)) <$> (drop 1 ["a"; "b"; "c"] ++ take 1 ["a"; "b"; "c"])),
         mkIstream "" true true).
Proof. split_and!; [decide_by_eval|simpl; lia|simpl; lia|]. apply readFile_bigram_one_window; [decide_by_eval|simpl; lia|simpl; lia]. Defined.

(** C39. With [N >= 4] the shifting loop writes [window[size]] before
    moving it down: on every text of at least [N + 1] words, the second
    window [readFile] records is not the words [1 .. N - 1] of the text but
    the words [1 .. N - 3] followed twice by word [N - 1] (word [N - 2] is
    lost), and word [N] is recorded as its follower; the window differs
    from the consecutive one whenever words [N - 2] and [N - 1] differ. *)
Theorem readFile_skips_second_last fuel m ws nValue m' st :
  Forall word_ok ws -> (4 <= nValue)%Z -> Z.to_nat nValue + 1 <= length ws -> length ws < fuel ->
  readFile fuel m (mkIstream (text ws) false false) nValue = Ret (m', st) ->
  let n := Z.to_nat nValue in
  let key := <[n - 3 := ws !!! (n - 1)]> (drop 1 (take (n - 1) ws) ++ [ws !!! (n - 1)]) in
  recorded m' key (ws !!! n) /\ (ws !!! (n - 2) <> ws !!! (n - 1) -> key <> window_at n ws 1).
Proof.
  intros Hok Hn Hlen Hf Hrd n key. rewrite readFile_text in Hrd by (done || lia). cbn zeta in Hrd.
  injection Hrd as <- _. assert (Hk1 : Z.to_nat (nValue - 1) = n - 1) by (unfold n; lia).
  assert (Hn4 : 4 <= n) by (unfold n; lia). assert (Hl : n + 1 <= length ws) by (unfold n; lia).
  rewrite Hk1. clearbody n. clear Hk1 Hlen Hn.
  split.
  - apply recorded_wrapPrefixes.
    destruct (lookup_lt_is_Some_2 ws (n - 1) ltac:(lia)) as [x Hx].
    destruct (lookup_lt_is_Some_2 ws n ltac:(lia)) as [y Hy].
    rewrite (drop_S _ _ _ Hx). replace (S (n - 1)) with n by lia. rewrite (drop_S _ _ _ Hy).
    cbn [read_trace]. rewrite (shift_loop_drops (take (n - 1) ws)), length_take by (rewrite length_take; lia).
    destruct (read_trace _ (drop (S n) ws)) as [wf adds]. cbn [snd].
    apply (recorded_table _ _ key (ws !!! n)).
    replace (Nat.min (n - 1) (length ws) - 2) with (n - 3) by lia.
    unfold key.     rewrite (list_lookup_total_correct _ _ _ Hx), (list_lookup_total_correct _ _ _ Hy). set_solver.
  - intros Hne Heq. apply Hne.
    assert (Hk : key !!! (n - 3) = window_at n ws 1 !!! (n - 3)) by by rewrite Heq.
    subst key. rewrite list_lookup_total_insert_eq in Hk.
    2:{ rewrite length_app, length_drop, length_take; simpl; lia. }
    rewrite Hk. unfold window_at. rewrite (list_lookup_total_fmap (fun i => cyc ws (1 + i))) by (rewrite length_seq; lia).
    rewrite lookup_total_seq_lt by lia. rewrite cyc_small by lia. f_equal. lia.
Qed.

Lemma readFile_skips_second_last_witness :
  exists m' st, readFile 10 [] (mkIstream (text ["a"; "b"; "c"; "d"; "e"; "f"]) false false) 4 = Ret (m', st) /\
    recorded m' ["b"; "d"; "d"] "e" /\ ["b"; "d"; "d"] <> window_at 4 ["a"; "b"; "c"; "d"; "e"; "f"] 1.
Proof.
  eexists _, _. split; [vm_compute; reflexivity|].
  match goal with |- context [recorded ?m _ _] =>
    assert (Hrd : readFile 10 [] (mkIstream (text ["a"; "b"; "c"; "d"; "e"; "f"]) false false) 4 = Ret (m, mkIstream "" true true))
      by (vm_compute; reflexivity) end.
  destruct (readFile_skips_second_last 10 [] ["a"; "b"; "c"; "d"; "e"; "f"] 4 _ _
              ltac:(decide_by_eval) ltac:(lia) ltac:(simpl; lia) ltac:(simpl; lia) Hrd) as [Hr Hw].
  split; [exact Hr|]. apply Hw. discriminate.
Defined.

(** C40. Every request after the first calls [readFile] again on the
    stream the first one exhausted: no word is read, the window is
    [N - 1] empty strings, and [wrapPrefixes] records the empty word after
    it [N - 1] times, so later texts may consist of empty words. *)
Theorem readFile_exhausted fuel m r nValue : (2 <= nValue)%Z -> 1 <= fuel ->
  readFile fuel m (mkIstream r true true) nValue =
    Ret (table m (replicate (Z.to_nat (nValue - 1)) (replicate (Z.to_nat (nValue - 1)) "", "")), mkIstream r true true).
Proof. apply readFile_failed. Qed.

Lemma readFile_exhausted_witness :
  readFile 1 (table [] (ngram_pairs 3 ["a"; "b"])) (mkIstream "" true true) 3 =
    Ret (table (table [] (ngram_pairs 3 ["a"; "b"])) (replicate (Z.to_nat (3 - 1)) (replicate (Z.to_nat (3 - 1)) "", "")),
         mkIstream "" true true).
Proof. apply readFile_exhausted; lia. Defined.

End NgramsTheorems.
