(* ===== verification/Fractals.v ===== *)
(** * Fractals.v: [src/Fractals/src/fractals.cpp]

    The drawing functions issue commands to a [GWindow]; the window is
    modelled by its canvas size and the list of commands drawn so far, in
    order ([gcmd]).  Coordinates, sizes and angles ([double]) are exact
    rationals [Q]: the model does not round.  Two library values that are
    not rational are parameters of the section: [sqrt3], the value of
    [sqrt(3.0)], and [polar_end], the end point [drawPolarLine] returns
    (its start moved by [r] in the direction [theta] degrees).
    [Complex] numbers are pairs of rationals; [z.abs() > 4] is compared
    as [re^2 + im^2 > 16], which is the same test.  The Mandelbrot
    picture is the [Grid<int>] of pixels the function writes back to the
    image; the palette is read from its colour string with [stringSplit],
    [trim] and [convertColorToRGB].  The recursion of
    [mandelbrotSetIterations] runs on a fuel passed down from
    [mandelbrotSet]; [maxIterations + 1] is enough when [maxIterations >= 0]. *)

From S2P Require Import Prelude StanfordStrlib StanfordGrid.
From Stdlib Require Import Ascii QArith.

(** ** The graphics window *)

Inductive gcmd :=
| DrawLine (x0 y0 x1 y1 : Q)
| DrawPolarLine (x y r theta : Q)
| SetColor (color : Z)
| AddImage (width height : Z).

Record GWindow := mkGWindow { canvas_width : Z; canvas_height : Z; drawn : list gcmd }.

(** [a < b] on doubles. *)
Definition Qltb (a b : Q) : bool := negb (Qle_bool b a).

Definition gw_do (gw : GWindow) (c : gcmd) : GWindow :=
  mkGWindow (canvas_width gw) (canvas_height gw) (drawn gw ++ [c]).

(** [convertColorToRGB] on ["#rrggbb"]: the hexadecimal value. *)
Definition hex_value (c : ascii) : option Z :=
  let n := Z.of_nat (nat_of_ascii c) in
  if (48 <=? n)%Z && (n <=? 57)%Z then Some (n - 48)%Z
  else if (65 <=? n)%Z && (n <=? 70)%Z then Some (n - 55)%Z
  else if (97 <=? n)%Z && (n <=? 102)%Z then Some (n - 87)%Z
  else None.

Definition color_error : string := "convertColorToRGB: invalid color string".

Definition convertColorToRGB (s : list ascii) : res Z :=
  match s with
  | "#"%char :: ds =>
      foldl (fun acc d => (let* v := acc in
                           match hex_value d with Some h => Ret (16 * v + h)%Z | None => Throw color_error end)%res)
            (Ret 0%Z) ds
  | _ => Throw color_error
  end.

Module Fractals.

Definition LEAF_COLOR : Z := 3050327.   (* 0x2e8b57 *)
Definition BRANCH_COLOR : Z := 9139045. (* 0x8b7765 *)
Definition BRANCH_DISP : Q := 45.
Definition ANGLE_BETWEEN_BRANCHES : Q := 15.
Definition TRUNK_THETA : Q := 90.

Definition order_error : string := "Error: Order must be positive integer.".
Definition inputs_error : string := "Error: inputs must be positive.".

Section Drawing.
Variable sqrt3 : Q.
Variable polar_end : Q -> Q -> Q -> Q -> Q * Q.

(** The recursion of [drawSierpinskiTriangle] for an [order >= 1]. *)
Fixpoint sierpinski (order : nat) (gw : GWindow) (x y size : Q) : GWindow :=
  let h := (sqrt3 / 2 * size)%Q in
  let halfSize := (size / 2)%Q in
  match order with
  | O => gw
  | S O => gw_do (gw_do (gw_do gw (DrawLine x y (x + size) y)) (DrawLine x y (x + halfSize) (y + h)))
               (DrawLine (x + halfSize) (y + h) (x + size) y)
  | S o =>
      let gw := sierpinski o gw x y halfSize in
      let gw := sierpinski o gw (x + halfSize) y halfSize in
      sierpinski o gw (x + halfSize / 2) (y + h / 2) halfSize
  end%Q.

Definition drawSierpinskiTriangle (gw : GWindow) (x y size : Q) (order : Z) : res GWindow :=
  if (order <? 0)%Z then Throw order_error
  else if (order =? 0)%Z then Ret gw
  else Ret (sierpinski (Z.to_nat order) gw x y size).

(** [checkLeaves(gw, order)]. *)
Definition checkLeaves (gw : GWindow) (order : nat) : GWindow :=
  gw_do gw (SetColor (if order =? 2 then LEAF_COLOR else BRANCH_COLOR)).

(** [drawBranches] for an [order >= 1]: the branch, then, when
    [order > 1], seven sub-branches. *)
Fixpoint drawBranches (order : nat) (gw : GWindow) (x y size degrees : Q) : GWindow :=
  let gw := gw_do gw (DrawPolarLine x y size degrees) in
  let base := polar_end x y size degrees in
  match order with
  | O | S O => gw
  | S o =>
      foldl (fun gw branch =>
               drawBranches o (checkLeaves gw order) base.1 base.2 (size / 2)
                 (degrees - BRANCH_DISP + ANGLE_BETWEEN_BRANCHES * inject_Z (Z.of_nat branch))%Q)
            gw (seq 0 7)
  end.

Definition drawTree (gw : GWindow) (x y size : Q) (order : Z) : res GWindow :=
  let baseX := (x + size / 2)%Q in
  let baseY := (y + size)%Q in
  let gw := gw_do gw (SetColor BRANCH_COLOR) in
  if Qltb x 0 || Qltb y 0 || Qltb size 0 || (order <? 0)%Z then Throw inputs_error
  else if (0 <? order)%Z then Ret (drawBranches (Z.to_nat order) gw baseX baseY (size / 2) TRUNK_THETA)
  else Ret gw.

End Drawing.

(** ** The Mandelbrot set *)

Definition cplx := (Q * Q)%type.
Definition cmul (a b : cplx) : cplx := (a.1 * b.1 - a.2 * b.2, a.1 * b.2 + a.2 * b.1)%Q.
Definition cadd (a b : cplx) : cplx := (a.1 + b.1, a.2 + b.2)%Q.
(** [z.abs() > 4]. *)
Definition escaped (z : cplx) : bool := negb (Qle_bool (z.1 * z.1 + z.2 * z.2) 16).

(** [mandelbrotSetIterations(z, c, remainingIterations)]; the recursion
    runs on a fuel.  From [remainingIterations >= 0] it stops within
    [remainingIterations + 1] calls; from a negative one it stops only
    when the orbit leaves the disc. *)
Fixpoint iterations (fuel : nat) (z c : cplx) (remaining : Z) : res Z :=
  match fuel with
  | O => OutOfFuel
  | S f => if escaped z || (remaining =? 0)%Z then Ret remaining else iterations f (cadd (cmul z z) c) c (remaining - 1)
  end.

Definition mandelbrotSetIterations (fuel : nat) (c : cplx) (maxIterations : Z) : res Z :=
  (let* r := iterations fuel (0, 0)%Q c maxIterations in
   Ret (maxIterations - r)%Z)%res.

Definition colorSt : string := "#04182B,#5A8C8C,#F2D99D,#738585,#AB1111,#04182B,#5A8C8C,#F2D99D".

Definition setPalette : res (list Z) :=
  foldl (fun acc color => (let* colors := acc in
                           let* rgb := convertColorToRGB (trim color) in
                           Ret (colors ++ [rgb]))%res)
        (Ret []) (stringSplit colorSt ",").

(** One pixel of the loops of [mandelbrotSet]. *)
Definition pixel_step (fuel : nat) (minX incX minY incY : Q) (maxIterations color : Z) (palette : list Z)
    (acc : grid Z) (rc : Z * Z) : res (grid Z) :=
  (let '(row, col) := rc in
   let c := (minX + inject_Z col * incX, minY + inject_Z row * incY)%Q in
   let* num := mandelbrotSetIterations fuel c maxIterations in
   if (num =? maxIterations)%Z && negb (color =? 0)%Z then grid_set acc row col color
   else if (color =? 0)%Z then
     let* p := vec_get palette (Z.rem num (Z.of_nat (length palette))) in
     grid_set acc row col p
   else Ret acc)%res.

(** [mandelbrotSet]: the window with the image added, and the pixels
    written back to the image. *)
Definition mandelbrotSet (fuel : nat) (gw : GWindow) (minX incX minY incY : Q) (maxIterations color : Z)
    : res (GWindow * grid Z) :=
  (let* palette := setPalette in
   let width := canvas_width gw in
   let height := canvas_height gw in
   let gw := gw_do gw (AddImage width height) in
   let pixels := grid_new height width 16777215%Z in
   let* pixels := foldl (fun acc rc => res_bind acc (fun g => pixel_step fuel minX incX minY incY maxIterations color palette g rc))
                        (Ret pixels) (row_major (nRows pixels) (nCols pixels)) in
   Ret (gw, pixels))%res.

End Fractals.
