(* ===== verification/FractalsProofs.v ===== *)
(** * FractalsProofs.v: what the fractal functions draw and compute

    [drawSierpinskiTriangle] throws on a negative order, draws nothing
    for order [0], and otherwise draws [3 ^ order] lines, all inside the
    box of the triangle; [mandelbrotSetIterations] returns the number of
    steps of the orbit [z -> z * z + c] from [0] before it leaves the disc
    of radius [4], at most [maxIterations]; [mandelbrotSet] writes each
    pixel once, with the colour that count selects; [drawTree] checks
    its inputs and draws [(7 ^ order - 1) / 6] lines. *)

From S2P Require Import Prelude StanfordStrlib StanfordGrid Fractals.
From Stdlib Require Import QArith Lqa.
Import Fractals.

(** [lra] on halves: [x / 2] is [x * (1 # 2)]. *)
Ltac qlra := unfold Qdiv in *; change (/ 2) with (1 # 2) in *; lra.

(** ** The Sierpinski triangle *)

(** Drawing appends commands and keeps the canvas. *)
Definition appends (gw gw' : GWindow) (ls : list gcmd) : Prop :=
  gw' = mkGWindow (canvas_width gw) (canvas_height gw) (drawn gw ++ ls).

Lemma appends_trans gw1 gw2 gw3 l1 l2 : appends gw1 gw2 l1 -> appends gw2 gw3 l2 -> appends gw1 gw3 (l1 ++ l2).
Proof. unfold appends. intros -> ->. cbn. by rewrite app_assoc. Qed.

Section Sierpinski.
Context (sqrt3 : Q) (Hsqrt3 : 0 <= sqrt3).

(** A line inside the box [[x, x + size] x [y, y + h]]. *)
Definition in_box (x y w h : Q) (c : gcmd) : Prop :=
  match c with
  | DrawLine x0 y0 x1 y1 => x <= x0 <= x + w /\ x <= x1 <= x + w /\ y <= y0 <= y + h /\ y <= y1 <= y + h
  | _ => False
  end.

Lemma in_box_mono x y w h x' y' w' h' c : in_box x' y' w' h' c ->
  x <= x' -> x' + w' <= x + w -> 0 <= w' -> y <= y' -> y' + h' <= y + h -> 0 <= h' -> in_box x y w h c.
Proof. destruct c; simpl; try done. intros; lra. Qed.

Lemma half_height size : sqrt3 / 2 * (size / 2) == (sqrt3 / 2 * size) / 2.
Proof. field. Qed.

Lemma height_nonneg size : 0 <= size -> 0 <= sqrt3 / 2 * size.
Proof. intros Hs. apply Qmult_le_0_compat; [|done]. unfold Qdiv. apply Qmult_le_0_compat; [done|]. done. Qed.

Lemma sierpinski_SS o gw x y size :
  sierpinski sqrt3 (S (S o)) gw x y size =
    sierpinski sqrt3 (S o) (sierpinski sqrt3 (S o) (sierpinski sqrt3 (S o) gw x y (size / 2))
      (x + size / 2) y (size / 2)) (x + size / 2 / 2) (y + sqrt3 / 2 * size / 2) (size / 2).
Proof. reflexivity. Qed.

Lemma sierpinski_lines (o : nat) gw x y size : 0 <= size -> (1 <= o)%nat ->
  exists ls, appends gw (sierpinski sqrt3 o gw x y size) ls /\ length ls = (3 ^ o)%nat /\
    Forall (in_box x y size (sqrt3 / 2 * size)) ls.
Proof.
  revert gw x y size. induction o as [|o IH]; intros gw x y size Hs Ho; [lia|].
  pose proof (height_nonneg size Hs) as Hh.
  destruct o as [|o'].
  - exists [DrawLine x y (x + size) y; DrawLine x y (x + size / 2) (y + sqrt3 / 2 * size);
            DrawLine (x + size / 2) (y + sqrt3 / 2 * size) (x + size) y].
    split; [unfold appends; cbn [sierpinski]; unfold gw_do; cbn [canvas_width canvas_height drawn]; by rewrite <- !app_assoc|].
    split; [reflexivity|].
    set (h := sqrt3 / 2 * size) in *. clearbody h.
    repeat (apply List.Forall_cons; [cbn [in_box]; split_and!; qlra|]). apply List.Forall_nil.
  - assert (Hs2 : 0 <= size / 2) by qlra. pose proof (half_height size) as Hh2.
    rewrite sierpinski_SS.
    destruct (IH gw x y (size / 2) Hs2 ltac:(lia)) as (l1 & E1 & L1 & F1).
    destruct (IH (sierpinski sqrt3 (S o') gw x y (size / 2)) (x + size / 2) y (size / 2) Hs2 ltac:(lia))
      as (l2 & E2 & L2 & F2).
    destruct (IH (sierpinski sqrt3 (S o') (sierpinski sqrt3 (S o') gw x y (size / 2)) (x + size / 2) y (size / 2))
                 (x + size / 2 / 2) (y + sqrt3 / 2 * size / 2) (size / 2) Hs2 ltac:(lia)) as (l3 & E3 & L3 & F3).
    exists (l1 ++ l2 ++ l3). split; [by do 2 (eapply appends_trans; [eassumption|])|].
    split; [rewrite !length_app, L1, L2, L3; simpl; lia|].
    set (h := sqrt3 / 2 * size) in *. set (h2 := sqrt3 / 2 * (size / 2)) in *. clearbody h h2.
    rewrite !Forall_app. split_and!; (eapply Forall_impl; [eassumption|]); intros c Hc;
      (eapply in_box_mono; [exact Hc|..]); qlra.
Qed.

End Sierpinski.

(** ** The Mandelbrot iterations *)

(** The orbit of [0] under [z -> z * z + c]. *)
Fixpoint orbit (c : cplx) (k : nat) : cplx :=
  match k with O => (0, 0) | S k' => cadd (cmul (orbit c k') (orbit c k')) c end.

Lemma iterations_orbit c fuel k r : (0 <= r)%Z -> (Z.to_nat r < fuel)%nat ->
  exists r', iterations fuel (orbit c k) c r = Ret r' /\ (0 <= r' <= r)%Z /\
    (forall i, (Z.of_nat i < r - r')%Z -> escaped (orbit c (k + i)) = false) /\
    ((0 < r')%Z -> escaped (orbit c (k + Z.to_nat (r - r'))) = true).
Proof.
  revert k r. induction fuel as [|fuel IH]; intros k r Hr Hf; [lia|]. cbn [iterations].
  destruct (escaped (orbit c k)) eqn:He; cbn [orb].
  { exists r. split_and!; [done|lia|lia|intros i Hi; lia|]. intros _. by rewrite Z.sub_diag, Nat.add_0_r. }
  destruct (r =? 0)%Z eqn:Hr0.
  { apply Z.eqb_eq in Hr0 as ->. exists 0%Z. split_and!; [done|lia|lia|intros i Hi; lia|lia]. }
  apply Z.eqb_neq in Hr0.
  destruct (IH (S k) (r - 1)%Z) as (r' & Hit & Hb & Hpre & Hesc); [lia|lia|].
  change (cadd (cmul (orbit c k) (orbit c k)) c) with (orbit c (S k)). rewrite Hit.
  exists r'. split_and!; [done|lia|lia| |].
  - intros [|i] Hi; [by rewrite Nat.add_0_r|]. rewrite <- Nat.add_succ_comm. apply Hpre. lia.
  - intros Hpos. replace (k + Z.to_nat (r - r'))%nat with (S k + Z.to_nat (r - 1 - r'))%nat by lia. by apply Hesc.
Qed.

(** [mandelbrotSetIterations] returns the number [n] of steps the orbit
    stays in the disc, at most [maxIterations]; when [n < maxIterations]
    the orbit has left the disc at step [n]. *)
Lemma iterations_count fuel c max : (0 <= max)%Z -> (Z.to_nat max < fuel)%nat ->
  exists n, mandelbrotSetIterations fuel c max = Ret n /\ (0 <= n <= max)%Z /\
    (forall i, (Z.of_nat i < n)%Z -> escaped (orbit c i) = false) /\
    ((n < max)%Z -> escaped (orbit c (Z.to_nat n)) = true).
Proof.
  intros Hmax Hf. destruct (iterations_orbit c fuel 0 max) as (r & Hit & Hr & Hpre & Hesc); [lia|lia|].
  unfold mandelbrotSetIterations. change (0, 0) with (orbit c 0). rewrite Hit. cbn [res_bind].
  exists (max - r)%Z. split_and!; [done|lia|lia|exact Hpre|]. intros Hlt. apply Hesc. lia.
Qed.

(** From a negative [maxIterations] the count never reaches [0]: at
    [c = 0], whose orbit stays at [0], the recursion does not stop. *)
Lemma iterations_zero_negative fuel r : (r < 0)%Z -> iterations fuel (0, 0) (0, 0) r = OutOfFuel.
Proof.
  revert r. induction fuel as [|fuel IH]; intros r Hr; [done|]. cbn [iterations].
  replace (escaped (0, 0)) with false by reflexivity. rewrite (proj2 (Z.eqb_neq r 0)) by lia. cbn [orb].
  replace (cadd (cmul (0, 0) (0, 0)) (0, 0)) with ((0, 0) : cplx) by reflexivity. apply IH. lia.
Qed.

Lemma mandelbrotSetIterations_negative_diverges fuel max : (max < 0)%Z ->
  mandelbrotSetIterations fuel (0, 0) max = OutOfFuel.
Proof. intros Hmax. unfold mandelbrotSetIterations. by rewrite iterations_zero_negative. Qed.

(** ** The Mandelbrot picture *)

(** The colours of the "Hope" palette, [#04182B, #5A8C8C, ...]. *)
Definition hope_palette : list Z :=
  [268331; 5934220; 15915421; 7570821; 11211025; 268331; 5934220; 15915421]%Z.

Lemma setPalette_hope : setPalette = Ret hope_palette.
Proof. vm_compute. reflexivity. Qed.

(** The point of the pixel [(row, col)]. *)
Definition mandel_point (minX incX minY incY : Q) (rc : Z * Z) : cplx :=
  (minX + inject_Z rc.2 * incX, minY + inject_Z rc.1 * incY).

(** The colour the loop writes into the pixel [rc], if any. *)
Definition pixel_value (fuel : nat) (minX incX minY incY : Q) (maxIterations color : Z) (rc : Z * Z) : option Z :=
  match mandelbrotSetIterations fuel (mandel_point minX incX minY incY rc) maxIterations with
  | Ret num =>
      if (num =? maxIterations)%Z && negb (color =? 0)%Z then Some color
      else if (color =? 0)%Z then Some (hope_palette !!! Z.to_nat (num mod 8))
      else None
  | _ => None
  end.

Lemma pixel_step_value fuel minX incX minY incY max color g rc : (0 <= max)%Z -> (Z.to_nat max < fuel)%nat ->
  pixel_step fuel minX incX minY incY max color hope_palette g rc =
  match pixel_value fuel minX incX minY incY max color rc with
  | Some x => grid_set g rc.1 rc.2 x | None => Ret g end.
Proof.
  intros Hmax Hf. destruct rc as [row col]. unfold pixel_step, pixel_value.
  change (minX + inject_Z col * incX, minY + inject_Z row * incY) with (mandel_point minX incX minY incY (row, col)).
  destruct (iterations_count fuel (mandel_point minX incX minY incY (row, col)) max Hmax Hf) as (n & -> & Hn & _).
  cbn [res_bind fst snd]. destruct ((n =? max)%Z && negb (color =? 0)%Z); [done|].
  destruct (color =? 0)%Z; [|done].
  change (Z.of_nat (length hope_palette)) with 8%Z. rewrite Z.rem_mod_nonneg by lia.
  destruct (vec_get_lt hope_palette (Z.to_nat (n mod 8))) as (x & Hv & Hx).
  { change (length hope_palette) with 8%nat. pose proof (Z.mod_pos_bound n 8). lia. }
  rewrite Z2Nat.id in Hv by (pose proof (Z.mod_pos_bound n 8); lia).
  rewrite Hv. cbn [res_bind]. by rewrite (list_lookup_total_correct _ _ _ Hx).
Qed.

Lemma mandelbrotSet_cells fuel gw minX incX minY incY max color :
  (0 <= max)%Z -> (Z.to_nat max < fuel)%nat -> (0 <= canvas_width gw)%Z -> (0 <= canvas_height gw)%Z ->
  exists pixels, mandelbrotSet fuel gw minX incX minY incY max color =
      Ret (gw_do gw (AddImage (canvas_width gw) (canvas_height gw)), pixels) /\
    grid_wf pixels /\ nRows pixels = canvas_height gw /\ nCols pixels = canvas_width gw /\
    forall row col, (0 <= row < canvas_height gw)%Z -> (0 <= col < canvas_width gw)%Z ->
      grid_at pixels row col =
        match pixel_value fuel minX incX minY incY max color (row, col) with Some x => x | None => 16777215%Z end.
Proof.
  intros Hmax Hf Hw Hh. unfold mandelbrotSet. rewrite setPalette_hope. cbn [res_bind].
  set (pixels := grid_new (canvas_height gw) (canvas_width gw) 16777215%Z).
  destruct (grid_fold_cells (pixel_step fuel minX incX minY incY max color hope_palette)
              (pixel_value fuel minX incX minY incY max color) (row_major (nRows pixels) (nCols pixels)) pixels)
    as (g' & Hfold & Hwf' & Hr' & Hc' & Hcells); [by apply grid_new_wf|by intros r c ?%row_major_inBounds|
      by intros; apply pixel_step_value|].
  rewrite Hfold. cbn [res_bind]. exists g'. split_and!; try done. intros row col Hrow Hcol.
  assert (Hin : inBounds pixels row col = true) by (apply row_major_inBounds, row_major_elem; done).
  rewrite Hcells by done. rewrite decide_True by (by apply row_major_inBounds).
  destruct (pixel_value _ _ _ _ _ _ _ _); [done|].
  unfold grid_at, pixels, grid_new. cbn [cells]. rewrite lookup_total_replicate_2; [done|].
  unfold grid_index. cbn [nCols]. nia.
Qed.

(** ** The tree *)

Definition is_polar (c : gcmd) : bool := match c with DrawPolarLine _ _ _ _ => true | _ => false end.
Definition is_color (c : gcmd) : bool := match c with SetColor _ => true | _ => false end.

(** The lines and colour changes of a branch of order [o]: the branch and
    seven sub-branches of order [o - 1], each after its colour. *)
Fixpoint branch_lines (o : nat) : nat := match o with O | S O => 1 | S o' => 1 + 7 * branch_lines o' end.
Fixpoint branch_colors (o : nat) : nat := match o with O | S O => 0 | S o' => 7 * (1 + branch_colors o') end.

Lemma branch_lines_pow o : (1 <= o)%nat -> (6 * branch_lines o + 1 = 7 ^ o)%nat.
Proof. induction o as [|[|o] IH]; intros Ho; [lia|done|]. specialize (IH ltac:(lia)). change (branch_lines (S (S o))) with (1 + 7 * branch_lines (S o))%nat. rewrite Nat.pow_succ_r'. lia. Qed.

Lemma branch_colors_pow o : (1 <= o)%nat -> (6 * branch_colors o + 7 = 7 ^ o)%nat.
Proof. induction o as [|[|o] IH]; intros Ho; [lia|done|]. specialize (IH ltac:(lia)). change (branch_colors (S (S o))) with (7 * (1 + branch_colors (S o)))%nat. rewrite Nat.pow_succ_r'. lia. Qed.

Lemma branch_lines_pos o : (1 <= branch_lines o)%nat.
Proof. destruct o as [|[|o]]; cbn [branch_lines]; lia. Qed.

Lemma count_app (p : gcmd -> bool) l1 l2 : length (filter p (l1 ++ l2)) = (length (filter p l1) + length (filter p l2))%nat.
Proof. by rewrite filter_app, length_app. Qed.

Lemma count_cons (p : gcmd -> bool) c l :
  length (filter p (c :: l)) = ((if p c then 1 else 0) + length (filter p l))%nat.
Proof. rewrite filter_cons. by destruct (p c). Qed.

(** A loop whose every round appends [np] lines and [nc] colour changes. *)
Lemma foldl_appends {B} (f : GWindow -> B -> GWindow) (l : list B) np nc : forall gw,
  (forall gw b, exists ls, appends gw (f gw b) ls /\ length (filter is_polar ls) = np /\ length (filter is_color ls) = nc) ->
  exists ls, appends gw (foldl f gw l) ls /\
    length (filter is_polar ls) = (length l * np)%nat /\ length (filter is_color ls) = (length l * nc)%nat.
Proof.
  induction l as [|b l IH]; intros gw Hf.
  { exists []. split_and!; [unfold appends; cbn; rewrite app_nil_r; by destruct gw|done|done]. }
  destruct (Hf gw b) as (l1 & H1 & P1 & C1). destruct (IH (f gw b) Hf) as (l2 & H2 & P2 & C2).
  exists (l1 ++ l2). cbn [foldl length]. split_and!; [by eapply appends_trans|rewrite count_app; lia|rewrite count_app; lia].
Qed.

Section Tree.
Context (polar_end : Q -> Q -> Q -> Q -> Q * Q).

Lemma drawBranches_lines o : (1 <= o)%nat -> forall gw x y size degrees,
  exists ls, appends gw (drawBranches polar_end o gw x y size degrees) (DrawPolarLine x y size degrees :: ls) /\
    length (filter is_polar ls) = (branch_lines o - 1)%nat /\ length (filter is_color ls) = branch_colors o.
Proof.
  induction o as [|[|o] IH]; intros Ho gw x y size degrees; [lia| |].
  { exists []. split_and!; done. }
  cbn [drawBranches]. set (gw1 := gw_do gw _).
  destruct (foldl_appends (fun gw b => drawBranches polar_end (S o) (checkLeaves gw (S (S o))) (polar_end x y size degrees).1 (polar_end x y size degrees).2 (size / 2)
             (degrees - BRANCH_DISP + ANGLE_BETWEEN_BRANCHES * inject_Z (Z.of_nat b))) (seq 0 7)
             (branch_lines (S o)) (1 + branch_colors (S o)) gw1) as (ls & Hls & P & C).
  { intros gw' b. destruct (IH ltac:(lia) (checkLeaves gw' (S (S o))) (polar_end x y size degrees).1
      (polar_end x y size degrees).2 (size / 2) (degrees - BRANCH_DISP + ANGLE_BETWEEN_BRANCHES * inject_Z (Z.of_nat b)))
      as (l & Hl & Pl & Cl).
    eexists. split; [eapply (appends_trans _ _ _ [_]); [reflexivity|exact Hl]|].
    rewrite !count_app, !count_cons, !filter_nil. cbn [is_polar is_color length]. rewrite Pl, Cl.
    pose proof (branch_lines_pos (S o)). split; lia. }
  exists ls. rewrite length_seq in P, C. split_and!.
  - eapply (appends_trans _ _ _ [_]) in Hls; [exact Hls|reflexivity].
  - rewrite P. cbn [branch_lines]. lia.
  - rewrite C. cbn [branch_colors]. lia.
Qed.

End Tree.

Lemma Qltb_false a b : Qltb a b = false <-> b <= a.
Proof. unfold Qltb. rewrite negb_false_iff. apply Qle_bool_iff. Qed.

Lemma Qltb_true a b : Qltb a b = true <-> a < b.
Proof.
  unfold Qltb. rewrite negb_true_iff. split.
  - intros H. apply Qnot_le_lt. intros Hle. apply Qle_bool_iff in Hle. congruence.
  - intros H. destruct (Qle_bool b a) eqn:E; [|done]. apply Qle_bool_iff in E. exfalso. by apply (Qlt_not_le a b).
Qed.

(** ** Properties of the fractals *)

Module FractalsTheorems.

(** C21. [drawSierpinskiTriangle] throws "Order must be positive integer"
    on a negative order, draws nothing on order [0], and on an order
    [n > 0] appends exactly [3 ^ n] lines to the window, every one of them
    inside the box [[x, x + size] x [y, y + sqrt(3)/2 * size]] of the
    triangle; the canvas is unchanged. *)
Theorem drawSierpinskiTriangle_draws sqrt3 gw x y size order : 0 <= sqrt3 -> 0 <= size ->
  ((order < 0)%Z -> drawSierpinskiTriangle sqrt3 gw x y size order = Throw order_error) /\
  (order = 0%Z -> drawSierpinskiTriangle sqrt3 gw x y size order = Ret gw) /\
  ((0 < order)%Z -> exists gw' ls, drawSierpinskiTriangle sqrt3 gw x y size order = Ret gw' /\
     appends gw gw' ls /\ length ls = (3 ^ Z.to_nat order)%nat /\ Forall (in_box x y size (sqrt3 / 2 * size)) ls).
Proof.
  intros H3 Hs. unfold drawSierpinskiTriangle. split_and!.
  - intros Ho. by rewrite (proj2 (Z.ltb_lt _ _) Ho).
  - by intros ->.
  - intros Ho. rewrite (proj2 (Z.ltb_ge _ _)), (proj2 (Z.eqb_neq _ _)) by lia.
    destruct (sierpinski_lines sqrt3 H3 (Z.to_nat order) gw x y size Hs ltac:(lia)) as (ls & ? & ? & ?).
    by exists (sierpinski sqrt3 (Z.to_nat order) gw x y size), ls.
Qed.

Lemma drawSierpinskiTriangle_draws_witness :
  exists gw' ls, drawSierpinskiTriangle 1 (mkGWindow 100 100 []) 0 0 8 2 = Ret gw' /\
    appends (mkGWindow 100 100 []) gw' ls /\ length ls = 9%nat /\ Forall (in_box 0 0 8 (1 / 2 * 8)) ls.
Proof.
  apply (drawSierpinskiTriangle_draws 1 (mkGWindow 100 100 []) 0 0 8 2); [discriminate|discriminate|lia].
Defined.

(** C22. The escape time: for [maxIterations >= 0], and a fuel above
    [maxIterations], [mandelbrotSetIterations(c, maxIterations)] returns an [n] with
    [0 <= n <= maxIterations] such that the orbit [0, c, c^2 + c, ...]
    stays in the disc [|z| <= 4] for its first [n] points, and leaves it
    at point [n] when [n < maxIterations]. *)
Theorem mandelbrotSetIterations_escape fuel c max : (0 <= max)%Z -> (Z.to_nat max < fuel)%nat ->
  exists n, mandelbrotSetIterations fuel c max = Ret n /\ (0 <= n <= max)%Z /\
    (forall i, (Z.of_nat i < n)%Z -> escaped (orbit c i) = false) /\
    ((n < max)%Z -> escaped (orbit c (Z.to_nat n)) = true).
Proof. apply iterations_count. Qed.

Lemma mandelbrotSetIterations_escape_witness :
  exists n, mandelbrotSetIterations 6 (1, 1) 5 = Ret n /\ (0 <= n <= 5)%Z /\
    (forall i, (Z.of_nat i < n)%Z -> escaped (orbit (1, 1) i) = false) /\
    ((n < 5)%Z -> escaped (orbit (1, 1) (Z.to_nat n)) = true).
Proof. apply (mandelbrotSetIterations_escape 6 (1, 1) 5); lia. Defined.

(** [mandelbrotSet] with [maxIterations >= 0] (and a fuel above it) on a canvas of
    [width x height] pixels adds the image and returns a [height x width]
    grid of pixels (no write out of range) in which the pixel [(row, col)]
    of the point [c = (minX + col * incX, minY + row * incY)] whose
    iteration count is [num] is [color] when [num = maxIterations] and
    [color <> 0], the Hope palette's colour [num % 8] when [color = 0],
    and white ([0xffffff]) otherwise. *)
Theorem mandelbrotSet_pixels fuel gw minX incX minY incY max color :
  (0 <= max)%Z -> (Z.to_nat max < fuel)%nat -> (0 <= canvas_width gw)%Z -> (0 <= canvas_height gw)%Z ->
  exists pixels, mandelbrotSet fuel gw minX incX minY incY max color =
      Ret (gw_do gw (AddImage (canvas_width gw) (canvas_height gw)), pixels) /\
    grid_wf pixels /\ nRows pixels = canvas_height gw /\ nCols pixels = canvas_width gw /\
    forall row col, (0 <= row < canvas_height gw)%Z -> (0 <= col < canvas_width gw)%Z ->
      exists num, mandelbrotSetIterations fuel (minX + inject_Z col * incX, minY + inject_Z row * incY) max = Ret num /\
        grid_at pixels row col =
          if (num =? max)%Z && negb (color =? 0)%Z then color
          else if (color =? 0)%Z then hope_palette !!! Z.to_nat (num mod 8) else 16777215%Z.
Proof.
  intros Hmax Hf Hw Hh.
  destruct (mandelbrotSet_cells fuel gw minX incX minY incY max color Hmax Hf Hw Hh) as (pixels & Hm & Hwf & Hr & Hc & Hcells).
  exists pixels. split_and!; try done. intros row col Hrow Hcol. rewrite Hcells by done.
  unfold pixel_value. destruct (iterations_count fuel (mandel_point minX incX minY incY (row, col)) max Hmax Hf) as (n & Hn & _).
  exists n. split; [exact Hn|]. rewrite Hn.
  destruct ((n =? max)%Z && negb (color =? 0)%Z); [done|]. by destruct (color =? 0)%Z.
Qed.

Lemma mandelbrotSet_pixels_witness :
  exists pixels, mandelbrotSet 5 (mkGWindow 2 2 []) (-2) 1 (-1) 1 4 0 =
      Ret (gw_do (mkGWindow 2 2 []) (AddImage 2 2), pixels) /\
    grid_wf pixels /\ nRows pixels = 2%Z /\ nCols pixels = 2%Z /\
    forall row col, (0 <= row < 2)%Z -> (0 <= col < 2)%Z ->
      exists num, mandelbrotSetIterations 5 (-2 + inject_Z col * 1, -1 + inject_Z row * 1) 4 = Ret num /\
        grid_at pixels row col =
          if (num =? 4)%Z && negb (0 =? 0)%Z then 0%Z
          else if (0 =? 0)%Z then hope_palette !!! Z.to_nat (num mod 8) else 16777215%Z.
Proof. apply (mandelbrotSet_pixels 5 (mkGWindow 2 2 []) (-2) 1 (-1) 1 4 0); cbn; lia. Defined.

(** C23. [drawTree] throws "inputs must be positive" when [x], [y] or
    [size] is negative or the order is; on order [0] it only sets the
    branch colour; on an order [n > 0] it sets the branch colour, draws the
    trunk, of length [size / 2], upwards from the middle of the bottom of
    the box, and then the rest of the tree: [(7 ^ n - 7) / 6] more lines
    (seven sub-branches per branch, down to order [1]) and as many colour
    changes, one before each sub-branch. *)
Theorem drawTree_draws polar_end gw x y size order :
  ((x < 0 \/ y < 0 \/ size < 0) \/ (order < 0)%Z -> drawTree polar_end gw x y size order = Throw inputs_error) /\
  (0 <= x -> 0 <= y -> 0 <= size -> order = 0%Z -> drawTree polar_end gw x y size order = Ret (gw_do gw (SetColor BRANCH_COLOR))) /\
  (0 <= x -> 0 <= y -> 0 <= size -> (0 < order)%Z -> exists gw' ls, drawTree polar_end gw x y size order = Ret gw' /\
     appends gw gw' (SetColor BRANCH_COLOR :: DrawPolarLine (x + size / 2) (y + size) (size / 2) TRUNK_THETA :: ls) /\
     (6 * length (filter is_polar ls) + 7 = 7 ^ Z.to_nat order)%nat /\
     (6 * length (filter is_color ls) + 7 = 7 ^ Z.to_nat order)%nat).
Proof.
  unfold drawTree. split_and!.
  - intros Hneg. replace (Qltb x 0 || Qltb y 0 || Qltb size 0 || (order <? 0)%Z) with true; [done|].
    symmetry. rewrite !orb_true_iff, !Qltb_true, Z.ltb_lt. tauto.
  - intros Hx Hy Hs ->. apply Qltb_false in Hx, Hy, Hs. by rewrite Hx, Hy, Hs.
  - intros Hx Hy Hs Ho. apply Qltb_false in Hx, Hy, Hs. rewrite Hx, Hy, Hs.
    rewrite (proj2 (Z.ltb_ge _ _)), (proj2 (Z.ltb_lt _ _)) by lia. cbn [orb].
    destruct (drawBranches_lines polar_end (Z.to_nat order) ltac:(lia) (gw_do gw (SetColor BRANCH_COLOR))
                (x + size / 2) (y + size) (size / 2) TRUNK_THETA) as (ls & Hls & P & C).
    pose proof (branch_lines_pow (Z.to_nat order) ltac:(lia)). pose proof (branch_colors_pow (Z.to_nat order) ltac:(lia)).
    pose proof (branch_lines_pos (Z.to_nat order)).
    eexists _, ls. split; [reflexivity|]. split_and!; [|lia|lia].
    by eapply (appends_trans _ _ _ [_]) in Hls; [exact Hls|reflexivity].
Qed.

Lemma drawTree_draws_witness :
  exists gw' ls, drawTree (fun x y _ _ => (x, y)) (mkGWindow 100 100 []) 0 0 10 2 = Ret gw' /\
    appends (mkGWindow 100 100 []) gw' (SetColor BRANCH_COLOR :: DrawPolarLine (0 + 10 / 2) (0 + 10) (10 / 2) TRUNK_THETA :: ls) /\
    (6 * length (filter is_polar ls) + 7 = 49)%nat /\ (6 * length (filter is_color ls) + 7 = 49)%nat.
Proof. apply (drawTree_draws (fun x y _ _ => (x, y)) (mkGWindow 100 100 []) 0 0 10 2); first [discriminate | lia]. Defined.

End FractalsTheorems.
